(** * SCRAM: fault-tree builder, first-layer validation, product storage

    A shallow embedding of the parts of SCRAM that the specification's
    claims are about:

    - [src/fault_tree_analysis.cc]: [Product::p], [Print],
      [FaultTreeAnalysis::Store]                          (module [core]);
    - [src/parameter.h]: [Units], [MissionTime]           (module [mef]);
    - [src/risk_analysis.cc]: the model builder and the first layer of
      validation                                          (module [scram]);
    - [gui/event.cpp]: the shapes of the events on the scene
                                                          (module [gui]).

    Conventions of the embedding.

    - A C++ [double] is an exact rational number ([Qc], canonical
      fractions, so that equality is Leibniz equality and every
      definition computes).  Rounding is not modelled.
    - [std::string] is [string]; [std::stringstream] output is string
      concatenation.
    - [boost::unordered_map], [std::map] with string keys are [gmap string _];
      iteration over them is iteration over [map_to_list].
    - [shared_ptr] objects live in an explicit store ([gmap loc _]); a
      pointer is a location, so aliasing is kept.
    - A thrown exception is the [Throw] result; the state reached at the
      point of the throw is kept, as in C++. *)

From Stdlib Require Import ZArith QArith Qcanon String Ascii List.
From Stdlib Require Import Decimal DecimalString.
From stdpp Require Import base option numbers list sorting strings gmap.

Local Open Scope string_scope.
#[local] Set Warnings "-register-all".

(** The C++ exception classes of [error.h] that the embedded code throws. *)
Inductive Error :=
| ValidationError (msg : string)
| LogicError (msg : string)
| InvalidArgument (msg : string)
| IOError (msg : string).

(** A C++ [double]. *)
Abbreviation double := Qc.

(** ** Text helpers: [boost::trim], [boost::to_lower], number output *)
Module Text.

(** The new-line character written as [\n] in the C++ literals. *)
Definition nl : string := String (ascii_of_nat 10) "".

(** [std::endl]: a new-line (the flush has no model). *)
Definition endl : string := nl.

(** [std::tolower] in the "C" locale. *)
Definition tolower (c : ascii) : ascii :=
  let n := nat_of_ascii c in
  if (65 <=? n)%nat && (n <=? 90)%nat then ascii_of_nat (n + 32) else c.

(** [std::toupper] in the "C" locale. *)
Definition toupper (c : ascii) : ascii :=
  let n := nat_of_ascii c in
  if (97 <=? n)%nat && (n <=? 122)%nat then ascii_of_nat (n - 32) else c.

(** [std::isspace] in the "C" locale: space, \t, \n, \v, \f, \r. *)
Definition isspace (c : ascii) : bool :=
  let n := nat_of_ascii c in
  (n =? 32)%nat || ((9 <=? n)%nat && (n <=? 13)%nat).

Fixpoint map_chars (f : ascii -> ascii) (s : string) : string :=
  match s with
  | EmptyString => EmptyString
  | String c s' => String (f c) (map_chars f s')
  end.

(** [boost::to_lower], [boost::to_upper] (in place in C++; here the
    new value). *)
Definition to_lower : string -> string := map_chars tolower.
Definition to_upper : string -> string := map_chars toupper.

Fixpoint trim_left (s : string) : string :=
  match s with
  | EmptyString => EmptyString
  | String c s' => if isspace c then trim_left s' else s
  end.

(** [boost::trim]: drops leading and trailing white space. *)
Definition trim (s : string) : string :=
  String.rev (trim_left (String.rev (trim_left s))).

(** [operator<<] of an [int] / [size_t]. *)
Definition of_nat (n : nat) : string := NilZero.string_of_uint (Nat.to_uint n).
Definition of_Z (z : Z) : string := NilZero.string_of_int (Z.to_int z).

(** [concat ss]: the strings written one after the other. *)
Definition concat (ss : list string) : string := foldr String.app "" ss.

(** [mentions msg s]: [s] occurs in [msg] as a contiguous piece. *)
Definition mentions (msg s : string) : Prop :=
  exists pre post, msg = pre +:+ s +:+ post.

(** The same as a decision procedure, for evaluation on concrete text. *)
Fixpoint is_prefix (s msg : string) : bool :=
  match s, msg with
  | EmptyString, _ => true
  | String c s', String d msg' => if Ascii.eqb c d then is_prefix s' msg' else false
  | String _ _, EmptyString => false
  end.

Fixpoint occurs (s msg : string) : bool :=
  is_prefix s msg ||
  match msg with
  | EmptyString => false
  | String _ msg' => occurs s msg'
  end.

End Text.

(** ** [src/fault_tree_analysis.cc] *)
Module core.

(** What [Product::p] and [Print] use of [mef::BasicEvent] ([event.h]):
    its [name()] and its probability [p()]. *)
Record BasicEvent := { name : string; p : double }.

(** [Literal]: an event and its complement flag. *)
Record Literal := { complement : bool; event : BasicEvent }.

(** A product is the range of literals that the loops iterate over. *)
Definition Product := list Literal.

(** [double Product::p() const] *)
Definition Product_p (this : Product) : double :=
  foldl (fun p literal =>
           p * (if complement literal
                then 1 - core.p (event literal)
                else core.p (event literal)))%Qc
        1%Qc this.

(** Modelled from the spec: [ProductContainer] is an unordered collection of
    products, each a set of literals; the class itself is declared in
    [fault_tree_analysis.h], which is not among the sources.  The list is
    the order in which its iterator yields the products. *)
Definition ProductContainer := list Product.

(** Modelled from the spec: [Zbdd] (declared in [zbdd.h], not among the
    sources) stands for the family of products it encodes; [empty()] is
    the empty family (NULL) and [base()] the family whose only member is
    the empty product (UNITY). *)
Definition Zbdd := list Product.

Definition Zbdd_empty (products : Zbdd) : bool :=
  match products with [] => true | _ => false end.

Definition Zbdd_base (products : Zbdd) : bool :=
  match products with [ [] ] => true | _ => false end.

(** [Pdag] only travels through [Store] into the container. *)
Record Pdag := { pdag_basic_events : list BasicEvent }.

(** [ProductContainer(products, graph)] *)
Definition ProductContainer_new (products : Zbdd) (graph : Pdag)
  : ProductContainer := products.

(** [Settings]: the two settings that [Store] reads.  The spec gives
    [limitOrder] as a natural number. *)
Record Settings := { limit_order : nat; print : bool }.

(** Modelled from the spec: the [Analysis] base class keeps the settings
    and the per-analysis warnings; [AddWarning] records one more. *)
Record Analysis := { settings : Settings; warnings : list string }.

Definition AddWarning (msg : string) (a : Analysis) : Analysis :=
  {| settings := settings a; warnings := warnings a ++ [msg] |}.

Record FaultTreeAnalysis := {
  analysis : Analysis;
  top_event_ : string;
  products_ : option ProductContainer
}.

(** The outcome of code that contains [assert]: it runs to its end, having
    written [cerr] to the standard error stream, or a failed assertion
    aborts the process. *)
Inductive Run (A : Type) :=
| Done (a : A) (cerr : string)
| Abort (assertion : string).
Arguments Done {A} a cerr.
Arguments Abort {A} assertion.

Definition run_bind {A B} (m : Run A) (k : A -> Run B) : Run B :=
  match m with
  | Done a out =>
      match k a with
      | Done b out' => Done b (out +:+ out')
      | Abort msg => Abort msg
      end
  | Abort msg => Abort msg
  end.

Definition assert (cond : bool) (msg : string) : Run unit :=
  if cond then Done tt "" else Abort msg.

Definition write (text : string) : Run unit := Done tt text.

(** [boost::container::flat_set<std::string>]: a sorted list without
    repetition; [insert] keeps it so. *)
Definition ProductSet := list string.

Fixpoint flat_set_insert (x : string) (s : ProductSet) : ProductSet :=
  match s with
  | [] => [x]
  | y :: s' =>
      if String.eqb x y then s
      else if String.ltb x y then x :: s
      else y :: flat_set_insert x s'
  end.

(** [lhs < rhs] on flat sets: lexicographic comparison of the two sorted
    sequences. *)
Fixpoint lexicographic_lt (lhs rhs : ProductSet) : bool :=
  match lhs, rhs with
  | _, [] => false
  | [], _ :: _ => true
  | x :: lhs', y :: rhs' =>
      if String.ltb x y then true
      else if String.ltb y x then false
      else lexicographic_lt lhs' rhs'
  end.

(** The comparison given to [boost::sort] in [Print]. *)
Definition print_order (lhs rhs : ProductSet) : bool :=
  if (length lhs =? length rhs)%nat then lexicographic_lt lhs rhs
  else (length lhs <? length rhs)%nat.

Fixpoint sort_insert (x : ProductSet) (l : list ProductSet) : list ProductSet :=
  match l with
  | [] => [x]
  | y :: l' => if print_order y x then y :: sort_insert x l' else x :: l
  end.

(** [boost::sort(to_print, ...)] *)
Definition sort (l : list ProductSet) : list ProductSet :=
  foldr sort_insert [] l.

(** The inner loop of [Print]: the [ProductSet ids] of one product. *)
Definition Print_ids (product : Product) : ProductSet :=
  foldl (fun ids literal =>
           flat_set_insert
             ((if complement literal then "~" else "") +:+ name (event literal))
             ids)
        [] product.

(** [void Print(const ProductContainer& products)] *)
Definition Print (products : ProductContainer) : Run unit :=
  match products with
  | [] => write ("No products!" +:+ Text.endl)
  | first :: _ =>
      if bool_decide (first = []) then
        run_bind
          (assert (length products =? 1)%nat
                  "Unity case must have only one product.")
          (fun _ => write ("Single Unity product." +:+ Text.endl))
      else
        let to_print := sort (map Print_ids products) in
        run_bind
          (assert (negb (bool_decide (default [] (head to_print) = [])))
                  "Failure of the analysis with Unity!")
          (fun _ =>
             let distribution :=
               foldl (fun distribution (product : ProductSet) =>
                        alter S (length product - 1)%nat distribution)
                     (replicate (length (default [] (last to_print))) 0%nat)
                     to_print in
             write
               (" " +:+ Text.of_nat (length to_print) +:+ " : {"
                +:+ Text.concat (map (fun i => " " +:+ Text.of_nat i) distribution)
                +:+ " }" +:+ Text.nl +:+ Text.nl
                +:+ Text.concat
                      (map (fun product : ProductSet =>
                              Text.concat (map (fun id => " " +:+ id) product)
                              +:+ Text.nl)
                           to_print)))
  end.

Definition with_warning (msg : string) (this : FaultTreeAnalysis)
  : FaultTreeAnalysis :=
  {| analysis := AddWarning msg (analysis this);
     top_event_ := top_event_ this;
     products_ := products_ this |}.

Definition with_products (pc : ProductContainer) (this : FaultTreeAnalysis)
  : FaultTreeAnalysis :=
  {| analysis := analysis this;
     top_event_ := top_event_ this;
     products_ := Some pc |}.

Definition NULL_warning : string :=
  "The top event is NULL. Success is guaranteed.".
Definition UNITY_warning : string :=
  "The top event is UNITY. Failure is guaranteed.".

(** [void FaultTreeAnalysis::Store(const Zbdd&, const Pdag&) noexcept].
    [NDEBUG] tells whether the build defines the macro of that name, in
    which case the block between [#ifndef NDEBUG] and [#endif] is absent. *)
Definition Store (NDEBUG : bool) (products : Zbdd) (graph : Pdag)
           (this : FaultTreeAnalysis) : Run FaultTreeAnalysis :=
  let this :=
    if Zbdd_empty products then with_warning NULL_warning this
    else if Zbdd_base products then with_warning UNITY_warning this
    else this in
  let stored := ProductContainer_new products graph in
  let this := with_products stored this in
  if NDEBUG then Done this ""
  else
    run_bind
      (foldr (fun (product : Product) rest =>
                run_bind
                  (assert (length product <=? limit_order (settings (analysis this)))%nat
                          "Miscalculated product sets with larger-than-required order.")
                  (fun _ => rest))
             (Done tt "") stored)
      (fun _ =>
         run_bind
           (if print (settings (analysis this)) then Print stored else Done tt "")
           (fun _ => Done this "")).

(** *** The product engine, from the specification

    [Store] receives the products from the analysis algorithms ([zbdd.cc],
    [mocus.cc], ...), none of which is among the sources. *)

#[global] Instance BasicEvent_eq_dec : EqDecision BasicEvent.
Proof. solve_decision. Defined.

#[global] Instance BasicEvent_countable : Countable BasicEvent :=
  inj_countable' (fun e => (name e, p e))
                 (fun '(n, q) => {| name := n; p := q |})
                 (fun e => match e with Build_BasicEvent _ _ => eq_refl end).

#[global] Instance Literal_eq_dec : EqDecision Literal.
Proof. solve_decision. Defined.

#[global] Instance Literal_countable : Countable Literal :=
  inj_countable' (fun l => (complement l, event l))
                 (fun '(c, e) => {| complement := c; event := e |})
                 (fun l => match l with Build_Literal _ _ => eq_refl end).

(** Modelled from the spec: the normalised graph of section 4.D, over AND, OR
    and literals (negations already pushed to the literals). *)
Inductive Node :=
| NodeLiteral (l : Literal)
| NodeOr (children : list Node)
| NodeAnd (children : list Node).

Definition negate (l : Literal) : Literal :=
  {| complement := negb (complement l); event := event l |}.

(** A product "containing both a literal and its complement". *)
Definition contradictory (P : gset Literal) : Prop :=
  set_Exists (fun l => negate l ∈ P) P.

(** Modelled from the spec: minimalization, "remove any product P such that
    a strict subset of P is also in the set". *)
Definition minimalize (S : gset (gset Literal)) : gset (gset Literal) :=
  filter (fun P => set_Forall (fun Q => ¬ Q ⊂ P) S) S.

(** Modelled from the spec: the combination at an AND node, "pairwise
    Cartesian product, unioning literal sets.  Products containing both a
    literal and its complement are discarded.  Products with size > L are
    discarded", followed by minimalization. *)
Definition combine (L : nat) (A B : gset (gset Literal)) : gset (gset Literal) :=
  minimalize
    (filter (fun P => ¬ contradictory P ∧ (size P <= L)%nat)
            (set_bind (fun P => set_map (D := gset (gset Literal))
                                  (fun Q => P ∪ Q) B) A)).

(** Modelled from the spec: [products(N)] of section 4.E, bottom-up over the
    normalised graph, with the order limit [L]. *)
Fixpoint products (L : nat) (N : Node) : gset (gset Literal) :=
  match N with
  | NodeLiteral l => {[ {[ l ]} ]}
  | NodeOr children => minimalize (⋃ (map (products L) children))
  | NodeAnd children =>
      foldr (fun c acc => combine L acc (products L c)) {[ ∅ ]} children
  end.

(** The family as the [Zbdd] hands it to [Store]. *)
Definition Zbdd_of (S : gset (gset Literal)) : Zbdd :=
  map elements (elements S).

End core.

(** ** [src/parameter.h] *)
Module mef.

(** [enum Units : std::uint8_t] *)
Inductive Units :=
| kUnitless | kBool | kInt | kFloat | kHours
| kInverseHours | kYears | kInverseYears | kFit | kDemands.

Definition kNumUnits : nat := 10.

Definition kUnitsToString : list string :=
  ["unitless"; "bool"; "int"; "float"; "hours"; "hours-1"; "years";
   "years-1"; "fit"; "demands"].

(** The virtual functions of [Expression] that [MissionTime] overrides.
    [DoSample] is not [const]: it returns the object as it leaves it. *)
Class Expression (T : Type) := {
  Min : T -> double;
  Mean : T -> double;
  IsDeviate : T -> bool;
  DoSample : T -> double * T
}.

(** Modelled from the spec: [Expression::Sample()], the public sampling
    contract ([expression.h] is not among the sources): "Sample() recurses",
    that is, it asks the node for its sample through [DoSample]. *)
Definition Sample `{Expression T} (this : T) : double * T := DoSample this.

(** [n] calls of [Sample()] in a row: the values returned, and the object
    after the last call. *)
Fixpoint Sample_repeatedly `{Expression T} (n : nat) (this : T)
  : list double * T :=
  match n with
  | O => ([], this)
  | S n' =>
      let '(x, this') := Sample this in
      let '(xs, this'') := Sample_repeatedly n' this' in
      (x :: xs, this'')
  end.

(** [class MissionTime : public Expression] *)
Record MissionTime := { unit_ : Units; value_ : double }.

(** [explicit MissionTime(double time = 0, Units unit = kHours)];
    the header documents [@throws LogicError  The time value is negative]. *)
Definition MissionTime_new (time : double) (unit : Units)
  : Error + MissionTime :=
  if bool_decide (time < 0)%Qc
  then inl (LogicError "Mission time cannot be negative.")
  else inr {| unit_ := unit; value_ := time |}.

(** [Units unit() const] *)
Definition unit (this : MissionTime) : Units := unit_ this.

(** [void value(double time)]; [@throws LogicError  The time value is
    negative]. *)
Definition value (time : double) (this : MissionTime) : Error + MissionTime :=
  if bool_decide (time < 0)%Qc
  then inl (LogicError "Mission time cannot be negative.")
  else inr {| unit_ := unit_ this; value_ := time |}.

#[global] Instance MissionTime_Expression : Expression MissionTime := {|
  Min := fun _ => 0%Qc;
  Mean := fun this => value_ this;
  IsDeviate := fun _ => false;
  DoSample := fun this => (value_ this, this)
|}.

End mef.
(** ** [src/risk_analysis.cc] *)
Module scram.
Import Text.

(** An address in a store of shared objects: what a [shared_ptr] holds. *)
Abbreviation loc := positive.

(** *** The parsed input

    [ProcessInputFile] walks the document that [XMLParser] has read and
    validated against the schema.  The types below are that document: one
    record per kind of element, with the attributes and children that the
    code reads.  Where the code relies on the schema (its [assert]s on
    element names and on the number of children), the type admits nothing
    else. *)

(** [struct Attribute] of [element.h]: [name], [value], [type]. *)
Record Attribute := {
  attr_name : string;
  attr_value : string;
  attr_type : string
}.

(** What [AttachLabelAndAttributes] and the messages read of an element:
    [get_line()], the text of its [label] child if there is one, and the
    [attribute] children of its [attributes] child. *)
Record XmlCommon := {
  get_line : nat;
  xml_label : option string;
  xml_attributes : list Attribute
}.

(** The expression elements.  [value] of [float] and [int] is the number
    that [boost::lexical_cast<double>] yields. *)
Inductive XmlExpr :=
| xml_float (value : double)
| xml_int (value : double)
| xml_bool (value : string)
| xml_parameter (name : string)
| xml_system_mission_time
| xml_uniform_deviate (min max : XmlExpr)
| xml_normal_deviate (mean sigma : XmlExpr)
| xml_lognormal_deviate (mean ef level : XmlExpr)
| xml_gamma_deviate (k theta : XmlExpr)
| xml_beta_deviate (alpha beta : XmlExpr)
| xml_histogram (bins : list (XmlExpr * XmlExpr))
| xml_exponential (lambda time : XmlExpr)
| xml_GLM (gamma lambda mu time : XmlExpr)
| xml_Weibull (alpha beta t0 time : XmlExpr)
| xml_other (line : nat) (name : string).

(** [get_name()] and [get_line()] of an expression element; the line is
    read for the unsupported ones only. *)
Definition expr_name (e : XmlExpr) : string :=
  match e with
  | xml_float _ => "float"
  | xml_int _ => "int"
  | xml_bool _ => "bool"
  | xml_parameter _ => "parameter"
  | xml_system_mission_time => "system-mission-time"
  | xml_uniform_deviate _ _ => "uniform-deviate"
  | xml_normal_deviate _ _ => "normal-deviate"
  | xml_lognormal_deviate _ _ _ => "lognormal-deviate"
  | xml_gamma_deviate _ _ => "gamma-deviate"
  | xml_beta_deviate _ _ => "beta-deviate"
  | xml_histogram _ => "histogram"
  | xml_exponential _ _ => "exponential"
  | xml_GLM _ _ _ _ => "GLM"
  | xml_Weibull _ _ _ _ => "Weibull"
  | xml_other _ name => name
  end.

Definition expr_line (e : XmlExpr) : nat :=
  match e with
  | xml_other line _ => line
  | _ => 0
  end.

(** The name of an argument of a formula: the code asserts that it is one of
    [event], [gate], [basic-event], [house-event]. *)
Inductive ArgName := arg_event | arg_gate | arg_basic_event | arg_house_event.

(** An argument of a formula: its line, element name, [name] attribute and
    [type] attribute; a present, non-blank [type] is one of [gate],
    [basic-event], [house-event] and is [Some] of the matching [ArgName]. *)
Record FormulaArg := {
  arg_line : nat;
  arg_element : ArgName;
  arg_name : string;
  arg_type : option ArgName
}.

(** The formula of a gate: the element name is the gate type; [min] is the
    number that [boost::lexical_cast<int>] yields for an [atleast]. *)
Record Formula := {
  formula_line : nat;
  formula_name : string;
  formula_min : Z;
  formula_args : list FormulaArg
}.

Record GateNode := {
  gate_common : XmlCommon;
  gate_name : string;
  gate_formula : Formula
}.

(** [define-basic-event]; [be_expressions] are its children other than
    [label] and [attributes].  The members of a CCF group are such elements
    without children. *)
Record BasicEventNode := {
  be_common : XmlCommon;
  be_name : string;
  be_expressions : list XmlExpr
}.

(** [define-house-event]; [he_constant] is the [value] of its [constant]
    child, if it has one. *)
Record HouseEventNode := {
  he_common : XmlCommon;
  he_name : string;
  he_constant : option string
}.

Record ParameterNode := {
  par_common : XmlCommon;
  par_name : string;
  par_unit : string;
  par_expression : XmlExpr
}.

(** A [factor] of a CCF group; [factor_level] is [None] when the [level]
    attribute is missing or blank. *)
Record FactorNode := {
  factor_line : nat;
  factor_level : option Z;
  factor_expression : XmlExpr
}.

Inductive CcfChild :=
| ccf_members (members : list BasicEventNode)
| ccf_distribution (expression : XmlExpr)
| ccf_factor (factor : FactorNode)
| ccf_factors (factors : list FactorNode).

(** The four models that the code asserts. *)
Inductive CcfModel := beta_factor | MGL | alpha_factor | phi_factor.

Record CcfNode := {
  ccf_common : XmlCommon;
  ccf_name : string;
  ccf_model : CcfModel;
  ccf_children : list CcfChild
}.

(** The definitions inside [define-fault-tree] and [model-data]. *)
Inductive DefineNode :=
| define_gate (node : GateNode)
| define_basic_event (node : BasicEventNode)
| define_house_event (node : HouseEventNode)
| define_parameter (node : ParameterNode)
| define_CCF_group (node : CcfNode).

Record FaultTreeNode := {
  ft_common : XmlCommon;
  ft_name : string;
  ft_children : list DefineNode
}.

(** The children of the root [opsa-mef]. *)
Inductive RootChild :=
| root_define_fault_tree (node : FaultTreeNode)
| root_define_CCF_group (node : CcfNode)
| root_model_data (children : list DefineNode)
| root_other (name : string).

Record XmlFile := {
  xml_file : string;
  root_children : list RootChild
}.

(** *** The objects *)

(** Modelled from the spec: the [Element] part of every object, which
    "carries optional label (string), optional attributes (list of
    {name, value, type})"; [element.h] is not among the sources. *)
Record Element := {
  label_ : string;
  attributes_ : gmap string Attribute
}.

Definition Element_new : Element := {| label_ := ""; attributes_ := ∅ |}.

(** [element->label(text)] *)
Definition Element_label (text : string) (e : Element) : Element :=
  {| label_ := text; attributes_ := attributes_ e |}.

(** [std::map::insert]: the key is bound only if it is not bound yet. *)
Definition map_insert {V} (k : string) (v : V) (m : gmap string V)
  : gmap string V :=
  match m !! k with
  | Some _ => m
  | None => <[k := v]> m
  end.

(** [element->AddAttribute(attr)] *)
Definition Element_AddAttribute (attr : Attribute) (e : Element) : Element :=
  {| label_ := label_ e;
     attributes_ := map_insert (attr_name attr) attr (attributes_ e) |}.

(** [HasAttribute(id)], [GetAttribute(id)] *)
Definition Element_HasAttribute (id : string) (e : Element) : bool :=
  bool_decide (is_Some (attributes_ e !! id)).

Definition Element_GetAttribute (id : string) (e : Element) : Attribute :=
  default {| attr_name := ""; attr_value := ""; attr_type := "" |}
          (attributes_ e !! id).

(** The dynamic class of an event object. *)
Inductive EventClass :=
| class_Event | class_Gate | class_BasicEvent | class_HouseEvent.

#[global] Instance EventClass_eq_dec : EqDecision EventClass.
Proof. solve_decision. Defined.

(** An object of the hierarchy [Event] / [Gate] / [PrimaryEvent] /
    [BasicEvent] / [HouseEvent] ([event.h] is not among the sources; the
    fields are the ones that the code of [risk_analysis.cc] reaches through
    the member functions).  [children_] is the [std::map<std::string,
    EventPtr>] that [children()] returns; [parents_] is its mirror. *)
Record Event := {
  class : EventClass;
  id_ : string;
  orig_id_ : string;
  element : Element;
  parents_ : gmap string loc;
  type_ : string;
  vote_number_ : Z;
  children_ : gmap string loc;
  expression_ : option loc;
  state_ : bool
}.

(** [new Event(id)], [new Gate(id)], ... followed by [orig_id(orig_id)]. *)
Definition Event_new (c : EventClass) (id orig_id : string) : Event :=
  {| class := c; id_ := id; orig_id_ := orig_id; element := Element_new;
     parents_ := ∅; type_ := ""; vote_number_ := (-1)%Z; children_ := ∅;
     expression_ := None; state_ := false |}.

#[global] Instance Event_inhabited : Inhabited Event :=
  populate (Event_new class_Event "" "").

Definition Event_set_element (f : Element -> Element) (e : Event) : Event :=
  let '(Build_Event c i o el p t v ch ex st) := e in
  Build_Event c i o (f el) p t v ch ex st.

(** Modelled from the spec: "each event records its parent gates";
    [AddParent] binds the parent under its id. *)
Definition Event_AddParent (parent_id : string) (parent : loc) (e : Event)
  : Event :=
  let '(Build_Event c i o el p t v ch ex st) := e in
  Build_Event c i o el (map_insert parent_id parent p) t v ch ex st.

(** [gate->type(type)] *)
Definition Gate_type (type : string) (e : Event) : Event :=
  let '(Build_Event c i o el p t v ch ex st) := e in
  Build_Event c i o el p type v ch ex st.

(** [gate->vote_number(vote_number)] *)
Definition Gate_vote_number (vote_number : Z) (e : Event) : Event :=
  let '(Build_Event c i o el p t v ch ex st) := e in
  Build_Event c i o el p t vote_number ch ex st.

(** Modelled from the spec: a gate "has an ordered set of child events";
    [AddChild] binds the child under its id in [children_]. *)
Definition Gate_AddChild (child_id : string) (child : loc) (e : Event)
  : Event :=
  let '(Build_Event c i o el p t v ch ex st) := e in
  Build_Event c i o el p t v (map_insert child_id child ch) ex st.

(** [basic_event->expression(expression)] *)
Definition BasicEvent_expression (expression : loc) (e : Event) : Event :=
  let '(Build_Event c i o el p t v ch ex st) := e in
  Build_Event c i o el p t v ch (Some expression) st.

(** [house_event->state(state)] *)
Definition HouseEvent_state (state : bool) (e : Event) : Event :=
  let '(Build_Event c i o el p t v ch ex st) := e in
  Build_Event c i o el p t v ch ex state.

(** The result of a call: a value, or an exception in flight. *)
Inductive Result (A : Type) :=
| Ok (a : A)
| Throw (e : Error).
Arguments Ok {A} a.
Arguments Throw {A} e.

(** [gate->children()]: "This line throws an error if there are no
    children." *)
Definition Gate_children (e : Event) : Result (gmap string loc) :=
  if bool_decide (children_ e = ∅)
  then Throw (LogicError (orig_id_ e +:+ " gate does not have children."))
  else Ok (children_ e).

(** [event->parents()]: throws a [LogicError] for an event without parents
    (the orphans of [ValidateInitialization]). *)
Definition Event_parents (e : Event) : Result (gmap string loc) :=
  if bool_decide (parents_ e = ∅)
  then Throw (LogicError (orig_id_ e +:+ " does not have parents."))
  else Ok (parents_ e).

(** The expression objects.  A [Parameter] is an expression and an element;
    its expression is set once. *)
Inductive Expression :=
| ConstantExpression (value : double)
| ParameterObject (name : string) (unit : mef.Units) (expression : option loc)
                  (element : Element)
| MissionTime (time : double)
| UniformDeviate (min max : loc)
| NormalDeviate (mean sigma : loc)
| LogNormalDeviate (mean ef level : loc)
| GammaDeviate (k theta : loc)
| BetaDeviate (alpha beta : loc)
| Histogram (boundaries weights : list loc)
| ExponentialExpression (lambda time : loc)
| GlmExpression (gamma lambda mu time : loc)
| WeibullExpression (alpha beta t0 time : loc).

(** Modelled from the spec: a fault tree is a named collection of gates;
    [fault_tree.h] is not among the sources. *)
Record FaultTree := {
  ft_name_ : string;
  ft_element : Element;
  ft_gates_ : list loc
}.

Definition FaultTree_AddGate (gate : loc) (ft : FaultTree) : FaultTree :=
  {| ft_name_ := ft_name_ ft; ft_element := ft_element ft;
     ft_gates_ := ft_gates_ ft ++ [gate] |}.

(** Modelled from the spec: a CCF group has a name, a model, members, a
    distribution and factors by level; [ccf_group.h] is not among the
    sources. *)
Record CcfGroup := {
  ccf_name_ : string;
  ccf_model_ : CcfModel;
  ccf_element : Element;
  ccf_members_ : list loc;
  ccf_distribution_ : option loc;
  ccf_factors_ : list (Z * loc)
}.

Definition CcfGroup_new (model : CcfModel) (name : string) : CcfGroup :=
  {| ccf_name_ := name; ccf_model_ := model; ccf_element := Element_new;
     ccf_members_ := []; ccf_distribution_ := None; ccf_factors_ := [] |}.

Definition CcfGroup_AddMember (basic_event : loc) (g : CcfGroup) : CcfGroup :=
  let '(Build_CcfGroup n m el ms d fs) := g in
  Build_CcfGroup n m el (ms ++ [basic_event]) d fs.

Definition CcfGroup_AddDistribution (expression : loc) (g : CcfGroup)
  : CcfGroup :=
  let '(Build_CcfGroup n m el ms d fs) := g in
  Build_CcfGroup n m el ms (Some expression) fs.

Definition CcfGroup_AddFactor (expression : loc) (level : Z) (g : CcfGroup)
  : CcfGroup :=
  let '(Build_CcfGroup n m el ms d fs) := g in
  Build_CcfGroup n m el ms d (fs ++ [(level, expression)]).

(** [Settings]: what [ProcessInputFiles] reads. *)
Record Settings := { mission_time_setting : double }.

(** *** The state of a [RiskAnalysis]

    The member maps, and the two stores of shared objects: [events] for the
    event objects and [exprs] for the expression objects. *)
Record RiskAnalysis := {
  prob_requested_ : bool;
  settings_ : Settings;
  mission_time_ : loc;
  gates_ : gmap string loc;
  tbd_gates_ : gmap string loc;
  primary_events_ : gmap string loc;
  basic_events_ : gmap string loc;
  tbd_basic_events_ : gmap string loc;
  tbd_house_events_ : gmap string loc;
  tbd_events_ : gmap string (list loc);
  tbd_orig_ids_ : gmap string string;
  parameters_ : gmap string loc;
  tbd_parameters_ : gmap string loc;
  expressions_ : gset loc;
  fault_trees_ : gmap string FaultTree;
  ccf_groups_ : gmap string CcfGroup;
  orphan_primary_events_ : gset loc;
  events : gmap loc Event;
  exprs : gmap loc Expression
}.

(** The tables that the constructor fills and nothing changes. *)
Definition gate_types_ : gset string :=
  {[ "and"; "or"; "not"; "nor"; "nand"; "xor"; "null"; "inhibit"; "atleast" ]}.

Definition types_ : gset string :=
  {[ "basic"; "undeveloped"; "house"; "conditional" ]}.

Definition units_ : gmap string mef.Units :=
  <[ "bool" := mef.kBool ]> (
  <[ "int" := mef.kInt ]> (
  <[ "float" := mef.kFloat ]> (
  <[ "hours" := mef.kHours ]> (
  <[ "hours-1" := mef.kInverseHours ]> (
  <[ "years" := mef.kYears ]> (
  <[ "years-1" := mef.kInverseYears ]> (
  <[ "fit" := mef.kFit ]> (
  <[ "demands" := mef.kDemands ]> ∅)))))))).

(** [RiskAnalysis::RiskAnalysis(std::string config_file)]: no probability
    requested, empty maps, and a fresh [MissionTime]. *)
Definition RiskAnalysis_new (settings : Settings) : RiskAnalysis :=
  {| prob_requested_ := false; settings_ := settings; mission_time_ := 1%positive;
     gates_ := ∅; tbd_gates_ := ∅; primary_events_ := ∅; basic_events_ := ∅;
     tbd_basic_events_ := ∅; tbd_house_events_ := ∅; tbd_events_ := ∅;
     tbd_orig_ids_ := ∅; parameters_ := ∅; tbd_parameters_ := ∅;
     expressions_ := ∅; fault_trees_ := ∅; ccf_groups_ := ∅;
     orphan_primary_events_ := ∅; events := ∅;
     exprs := {[ 1%positive := MissionTime 0%Qc ]} |}.

Definition set_prob_requested_ (b : bool) (ra : RiskAnalysis) : RiskAnalysis :=
  let '(Build_RiskAnalysis pr se mt g tg pe be tb th te to pa tp ex ft cc op ev xs) := ra in
  Build_RiskAnalysis b se mt g tg pe be tb th te to pa tp ex ft cc op ev xs.

Definition set_gates_ (f : gmap string loc -> gmap string loc)
    (ra : RiskAnalysis) : RiskAnalysis :=
  let '(Build_RiskAnalysis pr se mt g tg pe be tb th te to pa tp ex ft cc op ev xs) := ra in
  Build_RiskAnalysis pr se mt (f g) tg pe be tb th te to pa tp ex ft cc op ev xs.

Definition set_tbd_gates_ (f : gmap string loc -> gmap string loc)
    (ra : RiskAnalysis) : RiskAnalysis :=
  let '(Build_RiskAnalysis pr se mt g tg pe be tb th te to pa tp ex ft cc op ev xs) := ra in
  Build_RiskAnalysis pr se mt g (f tg) pe be tb th te to pa tp ex ft cc op ev xs.

Definition set_primary_events_ (f : gmap string loc -> gmap string loc)
    (ra : RiskAnalysis) : RiskAnalysis :=
  let '(Build_RiskAnalysis pr se mt g tg pe be tb th te to pa tp ex ft cc op ev xs) := ra in
  Build_RiskAnalysis pr se mt g tg (f pe) be tb th te to pa tp ex ft cc op ev xs.

Definition set_basic_events_ (f : gmap string loc -> gmap string loc)
    (ra : RiskAnalysis) : RiskAnalysis :=
  let '(Build_RiskAnalysis pr se mt g tg pe be tb th te to pa tp ex ft cc op ev xs) := ra in
  Build_RiskAnalysis pr se mt g tg pe (f be) tb th te to pa tp ex ft cc op ev xs.

Definition set_tbd_basic_events_ (f : gmap string loc -> gmap string loc)
    (ra : RiskAnalysis) : RiskAnalysis :=
  let '(Build_RiskAnalysis pr se mt g tg pe be tb th te to pa tp ex ft cc op ev xs) := ra in
  Build_RiskAnalysis pr se mt g tg pe be (f tb) th te to pa tp ex ft cc op ev xs.

Definition set_tbd_house_events_ (f : gmap string loc -> gmap string loc)
    (ra : RiskAnalysis) : RiskAnalysis :=
  let '(Build_RiskAnalysis pr se mt g tg pe be tb th te to pa tp ex ft cc op ev xs) := ra in
  Build_RiskAnalysis pr se mt g tg pe be tb (f th) te to pa tp ex ft cc op ev xs.

Definition set_tbd_events_
    (f : gmap string (list loc) -> gmap string (list loc))
    (ra : RiskAnalysis) : RiskAnalysis :=
  let '(Build_RiskAnalysis pr se mt g tg pe be tb th te to pa tp ex ft cc op ev xs) := ra in
  Build_RiskAnalysis pr se mt g tg pe be tb th (f te) to pa tp ex ft cc op ev xs.

Definition set_tbd_orig_ids_ (f : gmap string string -> gmap string string)
    (ra : RiskAnalysis) : RiskAnalysis :=
  let '(Build_RiskAnalysis pr se mt g tg pe be tb th te to pa tp ex ft cc op ev xs) := ra in
  Build_RiskAnalysis pr se mt g tg pe be tb th te (f to) pa tp ex ft cc op ev xs.

Definition set_parameters_ (f : gmap string loc -> gmap string loc)
    (ra : RiskAnalysis) : RiskAnalysis :=
  let '(Build_RiskAnalysis pr se mt g tg pe be tb th te to pa tp ex ft cc op ev xs) := ra in
  Build_RiskAnalysis pr se mt g tg pe be tb th te to (f pa) tp ex ft cc op ev xs.

Definition set_tbd_parameters_ (f : gmap string loc -> gmap string loc)
    (ra : RiskAnalysis) : RiskAnalysis :=
  let '(Build_RiskAnalysis pr se mt g tg pe be tb th te to pa tp ex ft cc op ev xs) := ra in
  Build_RiskAnalysis pr se mt g tg pe be tb th te to pa (f tp) ex ft cc op ev xs.

Definition set_expressions_ (f : gset loc -> gset loc)
    (ra : RiskAnalysis) : RiskAnalysis :=
  let '(Build_RiskAnalysis pr se mt g tg pe be tb th te to pa tp ex ft cc op ev xs) := ra in
  Build_RiskAnalysis pr se mt g tg pe be tb th te to pa tp (f ex) ft cc op ev xs.

Definition set_fault_trees_
    (f : gmap string FaultTree -> gmap string FaultTree)
    (ra : RiskAnalysis) : RiskAnalysis :=
  let '(Build_RiskAnalysis pr se mt g tg pe be tb th te to pa tp ex ft cc op ev xs) := ra in
  Build_RiskAnalysis pr se mt g tg pe be tb th te to pa tp ex (f ft) cc op ev xs.

Definition set_ccf_groups_
    (f : gmap string CcfGroup -> gmap string CcfGroup)
    (ra : RiskAnalysis) : RiskAnalysis :=
  let '(Build_RiskAnalysis pr se mt g tg pe be tb th te to pa tp ex ft cc op ev xs) := ra in
  Build_RiskAnalysis pr se mt g tg pe be tb th te to pa tp ex ft (f cc) op ev xs.

Definition set_orphan_primary_events_ (f : gset loc -> gset loc)
    (ra : RiskAnalysis) : RiskAnalysis :=
  let '(Build_RiskAnalysis pr se mt g tg pe be tb th te to pa tp ex ft cc op ev xs) := ra in
  Build_RiskAnalysis pr se mt g tg pe be tb th te to pa tp ex ft cc (f op) ev xs.

Definition set_events (f : gmap loc Event -> gmap loc Event)
    (ra : RiskAnalysis) : RiskAnalysis :=
  let '(Build_RiskAnalysis pr se mt g tg pe be tb th te to pa tp ex ft cc op ev xs) := ra in
  Build_RiskAnalysis pr se mt g tg pe be tb th te to pa tp ex ft cc op (f ev) xs.

Definition set_exprs (f : gmap loc Expression -> gmap loc Expression)
    (ra : RiskAnalysis) : RiskAnalysis :=
  let '(Build_RiskAnalysis pr se mt g tg pe be tb th te to pa tp ex ft cc op ev xs) := ra in
  Build_RiskAnalysis pr se mt g tg pe be tb th te to pa tp ex ft cc op ev (f xs).

(** [*ptr] for an event pointer. *)
Definition deref (ra : RiskAnalysis) (ptr : loc) : Event := events ra !!! ptr.

(** [map.count(key)] as a truth value. *)
Definition count {V} (m : gmap string V) (key : string) : bool :=
  bool_decide (is_Some (m !! key)).

(** [map.empty()] *)
Definition is_empty {V} (m : gmap string V) : bool := bool_decide (m = ∅).

(** [map.find(key)->second] where the code has established [count(key)]. *)
Definition find `{Inhabited V} (m : gmap string V) (key : string) : V :=
  m !!! key.

(** *** Member functions as state transformers

    A member function that changes the [RiskAnalysis] or throws is a function
    from the state before the call to the result and the state after it. *)
Definition M (A : Type) : Type := RiskAnalysis -> Result A * RiskAnalysis.

Definition ret {A} (a : A) : M A := fun ra => (Ok a, ra).

Definition bind {A B} (m : M A) (k : A -> M B) : M B :=
  fun ra =>
    match m ra with
    | (Ok a, ra') => k a ra'
    | (Throw e, ra') => (Throw e, ra')
    end.

Definition throw {A} (e : Error) : M A := fun ra => (Throw e, ra).

Definition get : M RiskAnalysis := fun ra => (Ok ra, ra).

Definition modify (f : RiskAnalysis -> RiskAnalysis) : M unit :=
  fun ra => (Ok tt, f ra).

(** A call of a function that reads the state and may throw. *)
Definition read {A} (f : RiskAnalysis -> Result A) : M A :=
  fun ra => (f ra, ra).

Notation "x <- m ;; k" := (bind m (fun x => k))
  (at level 100, m at next level, k at level 200, right associativity).
Notation "m ;;; k" := (bind m (fun _ => k))
  (at level 100, k at level 200, right associativity).

(** [for (...) body] over a list of elements. *)
Fixpoint for_each {A} (l : list A) (body : A -> M unit) : M unit :=
  match l with
  | [] => ret tt
  | x :: l' => body x ;;; for_each l' body
  end.

(** [new] of an event object: a fresh address in the store. *)
Definition new_event (e : Event) : M loc :=
  fun ra =>
    let ptr := fresh (dom (events ra)) in
    (Ok ptr, set_events (fun store => <[ptr := e]> store) ra).

Definition new_expr (e : Expression) : M loc :=
  fun ra =>
    let ptr := fresh (dom (exprs ra)) in
    (Ok ptr, set_exprs (fun store => <[ptr := e]> store) ra).

(** A member function called through an event pointer. *)
Definition call (ptr : loc) (method : Event -> Event) : M unit :=
  modify (set_events (alter method ptr)).

(** A line of a message: ["Line " << n << ":\n"]. *)
Definition Line (n : nat) : string := "Line " +:+ of_nat n +:+ ":" +:+ nl.

(** The member functions of classes declared outside the sources that
    the builder, first-layer validation and the set-up call, and of which
    the sources say nothing: they are what they are given to be.
    [AddFactor_error] is the message of the [ValidationError] that
    [CcfGroup::AddFactor] throws, if it throws; [Gate_vote_number_error] is
    the exception that [Gate::vote_number(int)] throws, if it throws. *)
Record External := {
  Gate_vote_number_error : Z -> option Error;
  AddFactor_error : CcfGroup -> Z -> option string;
  Parameter_Validate : RiskAnalysis -> loc -> Result unit;
  Expression_Validate : RiskAnalysis -> loc -> Result unit;
  CcfGroup_ValidateDistribution : RiskAnalysis -> CcfGroup -> Result unit;
  BasicEvent_Validate : RiskAnalysis -> loc -> Result unit;
  FaultTree_Validate : string -> M unit;
  CcfGroup_Validate : string -> M unit;
  CcfGroup_ApplyModel : string -> M unit;
  FaultTree_SetupForAnalysis : string -> M unit
}.

(** [gate->vote_number(vote_number)] through the pointer. *)
Definition Gate_vote_number_set (ext : External) (ptr : loc) (vote_number : Z)
  : M unit :=
  match Gate_vote_number_error ext vote_number with
  | Some err => throw err
  | None => call ptr (Gate_vote_number vote_number)
  end.

(** [gate->AddChild(child)] and [child->AddParent(gate)] through the
    pointers: the object is bound under its [id()]. *)
Definition AddChild (gate child : loc) : M unit :=
  ra <- get ;;
  call gate (Gate_AddChild (id_ (deref ra child)) child).

Definition AddParent (child gate : loc) : M unit :=
  ra <- get ;;
  call child (Event_AddParent (id_ (deref ra gate)) gate).

(** [bool RiskAnalysis::UpdateIfLateEvent(const EventPtr& event)] *)
Definition UpdateIfLateEvent (event : loc) : M bool :=
  ra <- get ;;
  let id := id_ (deref ra event) in
  if count (tbd_events_ ra) id then
    for_each (find (tbd_events_ ra) id)
             (fun it => AddChild it event ;;; AddParent event it) ;;;
    modify (set_tbd_events_ (delete id)) ;;;
    modify (set_tbd_orig_ids_ (delete id)) ;;;
    ret true
  else ret false.

(** [bool RiskAnalysis::ProcessFormulaEvent(const GatePtr& gate,
    EventPtr& child)].  The [child] that comes in is a temporary [Event]
    that carries [id] and [orig_id]; the result is the [child] that goes
    out, or [None] where the function returns [false]. *)
Definition ProcessFormulaEvent (gate : loc) (id orig_id : string)
  : M (option loc) :=
  ra <- get ;;
  if count (primary_events_ ra) id then
    ret (Some (find (primary_events_ ra) id))
  else if count (gates_ ra) id then
    ret (Some (find (gates_ ra) id))
  else if count (tbd_gates_ ra) id then
    ret (Some (find (tbd_gates_ ra) id))
  else if count (tbd_basic_events_ ra) id then
    ret (Some (find (tbd_basic_events_ ra) id))
  else if count (tbd_house_events_ ra) id then
    ret (Some (find (tbd_house_events_ ra) id))
  else
    (if count (tbd_events_ ra) id then
       modify (set_tbd_events_ (alter (fun parents => (parents ++ [gate])%list) id))
     else
       modify (set_tbd_events_ (map_insert id [gate])) ;;;
       modify (set_tbd_orig_ids_ (map_insert id orig_id))) ;;;
    ret None.

(** [void RiskAnalysis::ProcessFormulaBasicEvent(const xmlpp::Element* event,
    const GatePtr& gate, EventPtr& child)] *)
Definition ProcessFormulaBasicEvent (event : FormulaArg) (gate : loc)
    (id orig_id : string) : M loc :=
  ra <- get ;;
  if count (gates_ ra) id || count (tbd_gates_ ra) id then
    throw (ValidationError
             (Line (arg_line event) +:+ "The id " +:+ orig_id
              +:+ " is already assigned to a gate."))
  else if count (tbd_house_events_ ra) id then
    throw (ValidationError
             (Line (arg_line event) +:+ "The id " +:+ orig_id
              +:+ " is already used by a house event."))
  else if count (primary_events_ ra) id then
    let child := find (primary_events_ ra) id in
    if bool_decide (class (deref ra child) = class_BasicEvent) then ret child
    else
      throw (ValidationError
               (Line (arg_line event) +:+ "The id " +:+ orig_id
                +:+ " is already assigned to a house event."))
  else if count (tbd_basic_events_ ra) id then
    ret (find (tbd_basic_events_ ra) id)
  else
    child <- new_event (Event_new class_BasicEvent id orig_id) ;;
    modify (set_tbd_basic_events_ (map_insert id child)) ;;;
    _ <- UpdateIfLateEvent child ;;
    ret child.

(** [void RiskAnalysis::ProcessFormulaHouseEvent(const xmlpp::Element* event,
    const GatePtr& gate, EventPtr& child)] *)
Definition ProcessFormulaHouseEvent (event : FormulaArg) (gate : loc)
    (id orig_id : string) : M loc :=
  ra <- get ;;
  if count (gates_ ra) id || count (tbd_gates_ ra) id then
    throw (ValidationError
             (Line (arg_line event) +:+ "The id " +:+ orig_id
              +:+ " is already assigned to a gate."))
  else if count (tbd_basic_events_ ra) id then
    throw (ValidationError
             (Line (arg_line event) +:+ "The id " +:+ orig_id
              +:+ " is already used by a basic event."))
  else if count (primary_events_ ra) id then
    let child := find (primary_events_ ra) id in
    if bool_decide (class (deref ra child) = class_HouseEvent) then ret child
    else
      throw (ValidationError
               (Line (arg_line event) +:+ "The id " +:+ orig_id
                +:+ " is already assigned to a basic event."))
  else if count (tbd_house_events_ ra) id then
    ret (find (tbd_house_events_ ra) id)
  else
    child <- new_event (Event_new class_HouseEvent id orig_id) ;;
    modify (set_tbd_house_events_ (map_insert id child)) ;;;
    _ <- UpdateIfLateEvent child ;;
    ret child.

(** [void RiskAnalysis::ProcessFormulaGate(const xmlpp::Element* event,
    const GatePtr& gate, EventPtr& child)] *)
Definition ProcessFormulaGate (event : FormulaArg) (gate : loc)
    (id orig_id : string) : M loc :=
  ra <- get ;;
  if count (primary_events_ ra) id || count (tbd_basic_events_ ra) id
     || count (tbd_house_events_ ra) id then
    throw (ValidationError
             (Line (arg_line event) +:+ "The id " +:+ orig_id
              +:+ " is already assigned to a primary event."))
  else if count (gates_ ra) id then
    ret (find (gates_ ra) id)
  else if count (tbd_gates_ ra) id then
    ret (find (tbd_gates_ ra) id)
  else
    child <- new_event (Event_new class_Gate id orig_id) ;;
    modify (set_tbd_gates_ (map_insert id child)) ;;;
    _ <- UpdateIfLateEvent child ;;
    ret child.

(** The loop of [ProcessFormula], from the argument [events] on, with the
    [children_id] seen so far. *)
Fixpoint ProcessFormula_loop (children_id : gset string) (gate : loc)
    (events : list FormulaArg) : M unit :=
  match events with
  | [] => ret tt
  | event :: events' =>
      let orig_id := trim (arg_name event) in
      let id := to_lower orig_id in
      if bool_decide (id ∈ children_id) then
        throw (ValidationError
                 (Line (arg_line event) +:+ "Detected a repeated child "
                  +:+ orig_id))
      else
        let children_id := {[ id ]} ∪ children_id in
        let name :=
          match arg_type event with
          | Some type => type
          | None => arg_element event
          end in
        child <- match name with
                 | arg_event => ProcessFormulaEvent gate id orig_id
                 | arg_gate =>
                     child <- ProcessFormulaGate event gate id orig_id ;;
                     ret (Some child)
                 | arg_basic_event =>
                     child <- ProcessFormulaBasicEvent event gate id orig_id ;;
                     ret (Some child)
                 | arg_house_event =>
                     child <- ProcessFormulaHouseEvent event gate id orig_id ;;
                     ret (Some child)
                 end ;;
        match child with
        | None => ret tt
        | Some child => AddChild gate child ;;; AddParent child gate
        end ;;;
        ProcessFormula_loop children_id gate events'
  end.

(** [void RiskAnalysis::ProcessFormula(const GatePtr& gate,
    const xmlpp::NodeSet& events)] *)
Definition ProcessFormula (gate : loc) (events : list FormulaArg) : M unit :=
  ProcessFormula_loop ∅ gate events.

(** The four kinds of element that [AttachLabelAndAttributes] is given:
    events and parameters by their address, fault trees and CCF groups by
    their key in the map that owns them. *)
Inductive ElementPtr :=
| event_ptr (ptr : loc)
| parameter_ptr (ptr : loc)
| fault_tree_ptr (id : string)
| ccf_group_ptr (id : string).

Definition Parameter_set_element (f : Element -> Element) (e : Expression)
  : Expression :=
  match e with
  | ParameterObject name unit expression element =>
      ParameterObject name unit expression (f element)
  | _ => e
  end.

Definition FaultTree_set_element (f : Element -> Element) (ft : FaultTree)
  : FaultTree :=
  {| ft_name_ := ft_name_ ft; ft_element := f (ft_element ft);
     ft_gates_ := ft_gates_ ft |}.

Definition CcfGroup_set_element (f : Element -> Element) (g : CcfGroup)
  : CcfGroup :=
  let '(Build_CcfGroup n m el ms d fs) := g in
  Build_CcfGroup n m (f el) ms d fs.

(** What [AttachLabelAndAttributes] does to the [Element] part of its
    second argument. *)
Definition attach (node : XmlCommon) (e : Element) : Element :=
  let e :=
    match xml_label node with
    | Some text => Element_label text e
    | None => e
    end in
  foldl (fun e attr => Element_AddAttribute attr e) e (xml_attributes node).

(** [void RiskAnalysis::AttachLabelAndAttributes(const xmlpp::Element*
    element_node, const ElementPtr& element)] *)
Definition AttachLabelAndAttributes (element_node : XmlCommon)
    (element : ElementPtr) : M unit :=
  match element with
  | event_ptr ptr => call ptr (Event_set_element (attach element_node))
  | parameter_ptr ptr =>
      modify (set_exprs (alter (Parameter_set_element (attach element_node)) ptr))
  | fault_tree_ptr id =>
      modify (set_fault_trees_
                (alter (FaultTree_set_element (attach element_node)) id))
  | ccf_group_ptr id =>
      modify (set_ccf_groups_
                (alter (CcfGroup_set_element (attach element_node)) id))
  end.

(** [void RiskAnalysis::DefineGate(const xmlpp::Element* gate_node,
    const FaultTreePtr& ft)]; [ft] is the key of the fault tree. *)
Definition DefineGate (ext : External) (gate_node : GateNode) (ft : string)
  : M unit :=
  let orig_id := trim (gate_name gate_node) in
  let id := to_lower orig_id in
  ra <- get ;;
  if count (gates_ ra) id then
    throw (ValidationError
             (Line (get_line (gate_common gate_node)) +:+ orig_id
              +:+ " gate is doubly defined."))
  else if count (primary_events_ ra) id || count (tbd_basic_events_ ra) id
          || count (tbd_house_events_ ra) id then
    throw (ValidationError
             (Line (get_line (gate_common gate_node)) +:+ "The id "
              +:+ orig_id +:+ " is already assigned to a primary event."))
  else
    let gate_type := gate_formula gate_node in
    let type := formula_name gate_type in
    if negb (bool_decide (type ∈ gate_types_)) then
      throw (ValidationError
               (Line (formula_line gate_type) +:+ "Invalid input arguments. '"
                +:+ orig_id +:+ "' gate formulae is not supported."))
    else
      let vote_number :=
        if String.eqb type "atleast" then formula_min gate_type else (-1)%Z in
      i_event <-
        (if count (tbd_gates_ ra) id then
           modify (set_tbd_gates_ (delete id)) ;;;
           ret (find (tbd_gates_ ra) id)
         else
           i_event <- new_event (Event_new class_Gate id orig_id) ;;
           _ <- UpdateIfLateEvent i_event ;;
           ret i_event) ;;
      modify (set_gates_ (map_insert id i_event)) ;;;
      AttachLabelAndAttributes (gate_common gate_node) (event_ptr i_event) ;;;
      modify (set_fault_trees_ (alter (FaultTree_AddGate i_event) ft)) ;;;
      call i_event (Gate_type type) ;;;
      (if String.eqb type "atleast"
       then Gate_vote_number_set ext i_event vote_number
       else ret tt) ;;;
      ProcessFormula i_event (formula_args gate_type).

(** [bool RiskAnalysis::GetConstantExpression(const xmlpp::Element*
    expr_element, ExpressionPtr& expression)]: [None] is [false]. *)
Definition GetConstantExpression (expr_element : XmlExpr) : M (option loc) :=
  match expr_element with
  | xml_float num | xml_int num =>
      expression <- new_expr (ConstantExpression num) ;;
      ret (Some expression)
  | xml_bool val =>
      let state := String.eqb (trim val) "true" in
      expression <- new_expr (ConstantExpression (if state then 1 else 0)%Qc) ;;
      ret (Some expression)
  | _ => ret None
  end.

(** [bool RiskAnalysis::GetParameterExpression(const xmlpp::Element*
    expr_element, ExpressionPtr& expression)] *)
Definition GetParameterExpression (expr_element : XmlExpr) : M (option loc) :=
  match expr_element with
  | xml_parameter name =>
      ra <- get ;;
      if count (parameters_ ra) name then
        ret (Some (find (parameters_ ra) name))
      else if count (tbd_parameters_ ra) name then
        ret (Some (find (tbd_parameters_ ra) name))
      else
        param <- new_expr (ParameterObject name mef.kUnitless None Element_new) ;;
        modify (set_tbd_parameters_ (map_insert name param)) ;;;
        ret (Some param)
  | xml_system_mission_time =>
      ra <- get ;;
      ret (Some (mission_time_ ra))
  | _ => ret None
  end.

(** [bool RiskAnalysis::GetDeviateExpression(const xmlpp::Element*
    expr_element, ExpressionPtr& expression)], with the [GetExpression] that
    it calls for the arguments. *)
Definition GetDeviateExpression_with (GetExpression : XmlExpr -> M loc)
    (expr_element : XmlExpr) : M (option loc) :=
  match expr_element with
  | xml_uniform_deviate e0 e1 =>
      min <- GetExpression e0 ;;
      max <- GetExpression e1 ;;
      expression <- new_expr (UniformDeviate min max) ;;
      ret (Some expression)
  | xml_normal_deviate e0 e1 =>
      mean <- GetExpression e0 ;;
      sigma <- GetExpression e1 ;;
      expression <- new_expr (NormalDeviate mean sigma) ;;
      ret (Some expression)
  | xml_lognormal_deviate e0 e1 e2 =>
      mean <- GetExpression e0 ;;
      ef <- GetExpression e1 ;;
      level <- GetExpression e2 ;;
      expression <- new_expr (LogNormalDeviate mean ef level) ;;
      ret (Some expression)
  | xml_gamma_deviate e0 e1 =>
      k <- GetExpression e0 ;;
      theta <- GetExpression e1 ;;
      expression <- new_expr (GammaDeviate k theta) ;;
      ret (Some expression)
  | xml_beta_deviate e0 e1 =>
      alpha <- GetExpression e0 ;;
      beta <- GetExpression e1 ;;
      expression <- new_expr (BetaDeviate alpha beta) ;;
      ret (Some expression)
  | xml_histogram bins =>
      bw <- (fix loop (bins : list (XmlExpr * XmlExpr))
               : M (list loc * list loc) :=
               match bins with
               | [] => ret ([], [])
               | (e0, e1) :: bins' =>
                   bound <- GetExpression e0 ;;
                   weight <- GetExpression e1 ;;
                   rest <- loop bins' ;;
                   ret (bound :: rest.1, weight :: rest.2)
               end) bins ;;
      expression <- new_expr (Histogram bw.1 bw.2) ;;
      ret (Some expression)
  | xml_exponential e0 e1 =>
      lambda <- GetExpression e0 ;;
      time <- GetExpression e1 ;;
      expression <- new_expr (ExponentialExpression lambda time) ;;
      ret (Some expression)
  | xml_GLM e0 e1 e2 e3 =>
      gamma <- GetExpression e0 ;;
      lambda <- GetExpression e1 ;;
      mu <- GetExpression e2 ;;
      time <- GetExpression e3 ;;
      expression <- new_expr (GlmExpression gamma lambda mu time) ;;
      ret (Some expression)
  | xml_Weibull e0 e1 e2 e3 =>
      alpha <- GetExpression e0 ;;
      beta <- GetExpression e1 ;;
      t0 <- GetExpression e2 ;;
      time <- GetExpression e3 ;;
      expression <- new_expr (WeibullExpression alpha beta t0 time) ;;
      ret (Some expression)
  | _ => ret None
  end.

(** [void RiskAnalysis::GetExpression(const xmlpp::Element* expr_element,
    ExpressionPtr& expression)] *)
Fixpoint GetExpression (expr_element : XmlExpr) : M loc :=
  constant <- GetConstantExpression expr_element ;;
  expression <-
    match constant with
    | Some expression => ret expression
    | None =>
        parameter <- GetParameterExpression expr_element ;;
        match parameter with
        | Some expression => ret expression
        | None =>
            deviate <- GetDeviateExpression_with GetExpression expr_element ;;
            match deviate with
            | Some expression => ret expression
            | None =>
                throw (ValidationError
                         (Line (expr_line expr_element)
                          +:+ "Unsupported expression: "
                          +:+ expr_name expr_element))
            end
        end
    end ;;
  modify (set_expressions_ (fun s => {[ expression ]} ∪ s)) ;;;
  ret expression.

Definition GetDeviateExpression : XmlExpr -> M (option loc) :=
  GetDeviateExpression_with GetExpression.

(** [void RiskAnalysis::GetBasicEvent(const xmlpp::Element* event_node,
    BasicEventPtr& basic_event)] *)
Definition GetBasicEvent (event_node : BasicEventNode) : M loc :=
  let orig_id := trim (be_name event_node) in
  let id := to_lower orig_id in
  ra <- get ;;
  if count (gates_ ra) id || count (tbd_gates_ ra) id then
    throw (ValidationError
             (Line (get_line (be_common event_node)) +:+ "The id " +:+ orig_id
              +:+ " is already assigned to a gate."))
  else if count (primary_events_ ra) id then
    throw (ValidationError
             (Line (get_line (be_common event_node)) +:+ "The id " +:+ orig_id
              +:+ " is doubly defined."))
  else if count (tbd_house_events_ ra) id then
    throw (ValidationError
             (Line (get_line (be_common event_node)) +:+ "The id " +:+ orig_id
              +:+ " is already used by a house event."))
  else if count (tbd_basic_events_ ra) id then
    let basic_event := find (tbd_basic_events_ ra) id in
    modify (set_primary_events_ (map_insert id basic_event)) ;;;
    modify (set_basic_events_ (map_insert id basic_event)) ;;;
    modify (set_tbd_basic_events_ (delete id)) ;;;
    ret basic_event
  else
    basic_event <- new_event (Event_new class_BasicEvent id orig_id) ;;
    modify (set_primary_events_ (map_insert id basic_event)) ;;;
    modify (set_basic_events_ (map_insert id basic_event)) ;;;
    _ <- UpdateIfLateEvent basic_event ;;
    ret basic_event.

(** [void RiskAnalysis::DefineBasicEvent(const xmlpp::Element* event_node)] *)
Definition DefineBasicEvent (event_node : BasicEventNode) : M unit :=
  let expressions := be_expressions event_node in
  basic_event <- GetBasicEvent event_node ;;
  match last expressions with
  | Some expr_node =>
      expression <- GetExpression expr_node ;;
      call basic_event (BasicEvent_expression expression)
  | None =>
      ra <- get ;;
      throw (ValidationError
               (Line (get_line (be_common event_node)) +:+ "The "
                +:+ orig_id_ (deref ra basic_event)
                +:+ " basic event does not have an expression."))
  end ;;;
  AttachLabelAndAttributes (be_common event_node) (event_ptr basic_event).

(** [void RiskAnalysis::DefineHouseEvent(const xmlpp::Element* event_node)] *)
Definition DefineHouseEvent (event_node : HouseEventNode) : M unit :=
  let orig_id := trim (he_name event_node) in
  let id := to_lower orig_id in
  ra <- get ;;
  if count (gates_ ra) id || count (tbd_gates_ ra) id then
    throw (ValidationError
             (Line (get_line (he_common event_node)) +:+ "The id " +:+ orig_id
              +:+ " is already assigned to a gate."))
  else if count (primary_events_ ra) id then
    throw (ValidationError
             (Line (get_line (he_common event_node)) +:+ "The id " +:+ orig_id
              +:+ " is doubly defined."))
  else if count (tbd_basic_events_ ra) id then
    throw (ValidationError
             (Line (get_line (he_common event_node)) +:+ "The id " +:+ orig_id
              +:+ " is already used by a basic event."))
  else
    match he_constant event_node with
    | None =>
        throw (ValidationError
                 (Line (get_line (he_common event_node)) +:+ "The " +:+ orig_id
                  +:+ " house event does not have a Boolean constant expression."))
    | Some val =>
        let state := String.eqb (trim val) "true" in
        house_event <-
          (if count (tbd_house_events_ ra) id then
             let house_event := find (tbd_house_events_ ra) id in
             call house_event (HouseEvent_state state) ;;;
             modify (set_primary_events_ (map_insert id house_event)) ;;;
             modify (set_tbd_house_events_ (delete id)) ;;;
             ret house_event
           else
             house_event <-
               new_event (HouseEvent_state state
                            (Event_new class_HouseEvent id orig_id)) ;;
             modify (set_primary_events_ (map_insert id house_event)) ;;;
             _ <- UpdateIfLateEvent house_event ;;
             ret house_event) ;;
        AttachLabelAndAttributes (he_common event_node) (event_ptr house_event)
    end.

(** [parameter->unit(unit)] *)
Definition Parameter_unit (unit : mef.Units) (e : Expression) : Expression :=
  match e with
  | ParameterObject name _ expression element =>
      ParameterObject name unit expression element
  | _ => e
  end.

(** [parameter->expression(expression)]; the header documents
    [@throws LogicError  The parameter expression is already set]. *)
Definition Parameter_expression (parameter expression : loc) : M unit :=
  ra <- get ;;
  match exprs ra !! parameter with
  | Some (ParameterObject name unit None element) =>
      modify (set_exprs
                (<[parameter := ParameterObject name unit (Some expression)
                                                element]>))
  | Some (ParameterObject name _ (Some _) _) =>
      throw (LogicError ("Parameter expression is already set: " +:+ name))
  | _ => ret tt
  end.

(** [void RiskAnalysis::DefineParameter(const xmlpp::Element* param_node)] *)
Definition DefineParameter (param_node : ParameterNode) : M unit :=
  let name := trim (par_name param_node) in
  ra <- get ;;
  if count (parameters_ ra) name then
    throw (ValidationError
             (Line (get_line (par_common param_node)) +:+ "The " +:+ name
              +:+ " parameter is doubly defined."))
  else
    parameter <-
      (if count (tbd_parameters_ ra) name then
         let parameter := find (tbd_parameters_ ra) name in
         modify (set_parameters_ (map_insert name parameter)) ;;;
         modify (set_tbd_parameters_ (delete name)) ;;;
         ret parameter
       else
         parameter <-
           new_expr (ParameterObject name mef.kUnitless None Element_new) ;;
         modify (set_parameters_ (map_insert name parameter)) ;;;
         ret parameter) ;;
    let unit := par_unit param_node in
    (if negb (String.eqb unit "") then
       match units_ !! unit with
       | Some u => modify (set_exprs (alter (Parameter_unit u) parameter))
       | None => ret tt
       end
     else ret tt) ;;;
    expression <- GetExpression (par_expression param_node) ;;
    Parameter_expression parameter expression ;;;
    AttachLabelAndAttributes (par_common param_node) (parameter_ptr parameter).

(** [catch (ValidationError& err)] around [body]. *)
Definition catch_ValidationError {A} (body : M A) (handler : string -> M A)
  : M A :=
  fun ra =>
    match body ra with
    | (Throw (ValidationError msg), ra') => handler msg ra'
    | other => other
    end.

(** [void RiskAnalysis::DefineCcfFactor(const xmlpp::Element* factor_node,
    const CcfGroupPtr& ccf_group)]; [ccf_group] is the key of the group. *)
Definition DefineCcfFactor (ext : External) (factor_node : FactorNode)
    (ccf_group : string) : M unit :=
  match factor_level factor_node with
  | None =>
      throw (ValidationError
               (Line (factor_line factor_node)
                +:+ "The CCF group factor level number is not provided."))
  | Some level_num =>
      expression <- GetExpression (factor_expression factor_node) ;;
      catch_ValidationError
        (ra <- get ;;
         match ccf_groups_ ra !! ccf_group with
         | Some group =>
             match AddFactor_error ext group level_num with
             | Some msg => throw (ValidationError msg)
             | None =>
                 modify (set_ccf_groups_
                           (alter (CcfGroup_AddFactor expression level_num)
                                  ccf_group))
             end
         | None => ret tt
         end)
        (fun msg =>
           throw (ValidationError (Line (factor_line factor_node) +:+ msg)))
  end.

(** [void RiskAnalysis::ProcessCcfFactors(const xmlpp::Element* factors_node,
    const CcfGroupPtr& ccf_group)] *)
Definition ProcessCcfFactors (ext : External) (factors_node : list FactorNode)
    (ccf_group : string) : M unit :=
  for_each factors_node
           (fun factor_node => DefineCcfFactor ext factor_node ccf_group).

(** [void RiskAnalysis::ProcessCcfMembers(const xmlpp::Element* members_node,
    const CcfGroupPtr& ccf_group)] *)
Definition ProcessCcfMembers (members_node : list BasicEventNode)
    (ccf_group : string) : M unit :=
  for_each members_node
           (fun event_node =>
              basic_event <- GetBasicEvent event_node ;;
              modify (set_ccf_groups_
                        (alter (CcfGroup_AddMember basic_event) ccf_group))).

(** [void RiskAnalysis::DefineCcfGroup(const xmlpp::Element* ccf_node)] *)
Definition DefineCcfGroup (ext : External) (ccf_node : CcfNode) : M unit :=
  let name := ccf_name ccf_node in
  let id := to_lower name in
  ra <- get ;;
  if count (ccf_groups_ ra) id then
    throw (ValidationError
             (Line (get_line (ccf_common ccf_node)) +:+ "The CCF group "
              +:+ name +:+ " is already defined."))
  else
    let ccf_group := CcfGroup_new (ccf_model ccf_node) name in
    modify (set_ccf_groups_ (map_insert id ccf_group)) ;;;
    modify (set_prob_requested_ true) ;;;
    AttachLabelAndAttributes (ccf_common ccf_node) (ccf_group_ptr id) ;;;
    for_each (ccf_children ccf_node)
             (fun element =>
                match element with
                | ccf_members members => ProcessCcfMembers members id
                | ccf_distribution expr_node =>
                    expression <- GetExpression expr_node ;;
                    modify (set_ccf_groups_
                              (alter (CcfGroup_AddDistribution expression) id))
                | ccf_factor factor => DefineCcfFactor ext factor id
                | ccf_factors factors => ProcessCcfFactors ext factors id
                end).

(** [void RiskAnalysis::DefineFaultTree(const xmlpp::Element* ft_node)] *)
Definition DefineFaultTree (ext : External) (ft_node : FaultTreeNode)
  : M unit :=
  let name := ft_name ft_node in
  let id := to_lower name in
  ra <- get ;;
  if count (fault_trees_ ra) id then
    throw (ValidationError
             (Line (get_line (ft_common ft_node)) +:+ "The fault tree "
              +:+ name +:+ " is already defined."))
  else
    let fault_tree :=
      {| ft_name_ := name; ft_element := Element_new; ft_gates_ := [] |} in
    modify (set_fault_trees_ (map_insert id fault_tree)) ;;;
    AttachLabelAndAttributes (ft_common ft_node) (fault_tree_ptr id) ;;;
    for_each (ft_children ft_node)
             (fun element =>
                ra <- get ;;
                (if negb (prob_requested_ ra)
                    && match element with
                       | define_basic_event _ | define_house_event _ => true
                       | _ => false
                       end
                 then modify (set_prob_requested_ true)
                 else ret tt) ;;;
                match element with
                | define_gate node => DefineGate ext node id
                | define_basic_event node => DefineBasicEvent node
                | define_house_event node => DefineHouseEvent node
                | define_parameter node => DefineParameter node
                | define_CCF_group node => DefineCcfGroup ext node
                end).

(** [void RiskAnalysis::ProcessModelData(const xmlpp::Element* model_data)] *)
Definition ProcessModelData (model_data : list DefineNode) : M unit :=
  modify (set_prob_requested_ true) ;;;
  for_each model_data
           (fun element =>
              match element with
              | define_basic_event node => DefineBasicEvent node
              | define_house_event node => DefineHouseEvent node
              | define_parameter node => DefineParameter node
              | _ => ret tt
              end).

(** *** First-layer validation *)

Definition result_bind {A B} (r : Result A) (k : A -> Result B) : Result B :=
  match r with
  | Ok a => k a
  | Throw e => Throw e
  end.

(** [std::string RiskAnalysis::CheckInhibitGate(const GatePtr& event)] *)
Definition CheckInhibitGate (ra : RiskAnalysis) (event : loc) : Result string :=
  let this := deref ra event in
  result_bind (Gate_children this) (fun children =>
    if negb (size children =? 2)%nat then
      Ok (orig_id_ this +:+ " : "
          +:+ "INHIBIT gate must have exactly 2 children." +:+ nl)
    else
      let '(msg, conditional_found) :=
        foldl (fun '(msg, conditional_found) '(first, second) =>
                 if count (primary_events_ ra) first then
                   if Element_HasAttribute "flavor" (element (deref ra second))
                   then
                     let type :=
                       attr_value (Element_GetAttribute
                                     "flavor" (element (deref ra second))) in
                     if String.eqb type "conditional" then
                       if negb conditional_found then (msg, true)
                       else
                         (msg +:+ orig_id_ this +:+ " : " +:+ "INHIBIT"
                          +:+ " gate must have exactly one conditional event."
                          +:+ nl, conditional_found)
                     else (msg, conditional_found)
                   else (msg, conditional_found)
                 else (msg, conditional_found))
              ("", false) (map_to_list children) in
      Ok (if negb conditional_found then
            msg +:+ orig_id_ this +:+ " : " +:+ "INHIBIT"
            +:+ " gate is missing a conditional event." +:+ nl
          else msg)).

(** [std::string RiskAnalysis::CheckGate(const GatePtr& event)] *)
Definition CheckGate (ra : RiskAnalysis) (event : loc) : Result string :=
  let this := deref ra event in
  let gate := type_ this in
  match Gate_children this with
  | Throw (LogicError _) => Ok (orig_id_ this +:+ " : No children detected.")
  | Throw err => Throw err
  | Ok children =>
      let size := Z.of_nat (size children) in
      let two_or_more : gset string := {[ "and"; "or"; "nand"; "nor" ]} in
      let single : gset string := {[ "null"; "not" ]} in
      let gate :=
        if String.eqb gate "and"
           && Element_HasAttribute "flavor" (element this)
           && String.eqb
                (attr_value (Element_GetAttribute "flavor" (element this)))
                "inhibit"
        then "inhibit" else gate in
      if bool_decide (gate ∈ two_or_more) then
        if (size <? 2)%Z then
          Ok (orig_id_ this +:+ " : " +:+ to_upper gate
              +:+ " gate must have 2 or more " +:+ "children." +:+ nl)
        else Ok ""
      else if bool_decide (gate ∈ single) then
        if negb (size =? 1)%Z then
          Ok (orig_id_ this +:+ " : " +:+ to_upper gate
              +:+ " gate must have exactly one child.")
        else Ok ""
      else if String.eqb gate "xor" then
        if negb (size =? 2)%Z then
          Ok (orig_id_ this +:+ " : " +:+ to_upper gate
              +:+ " gate must have exactly 2 children." +:+ nl)
        else Ok ""
      else if String.eqb gate "inhibit" then
        CheckInhibitGate ra event
      else if String.eqb gate "atleast" then
        if (size <=? vote_number_ this)%Z then
          Ok (orig_id_ this +:+ " : " +:+ to_upper gate
              +:+ " gate must have more children than its vote number "
              +:+ of_Z (vote_number_ this) +:+ ".")
        else Ok ""
      else
        Ok (orig_id_ this +:+ " : Gate Check failure. No check for "
            +:+ to_upper gate +:+ " gate.")
  end.

(** [std::string RiskAnalysis::CheckAllGates()] *)
Definition CheckAllGates (ra : RiskAnalysis) : Result string :=
  foldl (fun msg '(_, second) =>
           result_bind msg (fun msg =>
           result_bind (CheckGate ra second) (fun bad =>
           Ok (msg +:+ bad))))
        (Ok "") (map_to_list (gates_ ra)).

(** [std::string RiskAnalysis::CheckMissingEvents()] *)
Definition CheckMissingEvents (ra : RiskAnalysis) : string :=
  let msg := "" in
  let msg :=
    if negb (is_empty (tbd_house_events_ ra)) then
      foldl (fun msg '(_, second) => msg +:+ orig_id_ (deref ra second) +:+ nl)
            (msg +:+ nl +:+ "Missing definitions for House events:" +:+ nl)
            (map_to_list (tbd_house_events_ ra))
    else msg in
  let msg :=
    if negb (is_empty (tbd_basic_events_ ra)) then
      foldl (fun msg '(_, second) => msg +:+ orig_id_ (deref ra second) +:+ nl)
            (msg +:+ nl +:+ "Missing definitions for Basic events:" +:+ nl)
            (map_to_list (tbd_basic_events_ ra))
    else msg in
  let msg :=
    if negb (is_empty (tbd_events_ ra)) then
      foldl (fun msg '(first, _) =>
               msg +:+ find (tbd_orig_ids_ ra) first +:+ nl)
            (msg +:+ nl +:+ "Missing definitions for Untyped events:" +:+ nl)
            (map_to_list (tbd_events_ ra))
    else msg in
  msg.

(** [std::string RiskAnalysis::CheckMissingParameters()] *)
Definition CheckMissingParameters (ra : RiskAnalysis) : string :=
  let msg := "" in
  if negb (is_empty (tbd_parameters_ ra)) then
    foldl (fun msg '(first, _) => msg +:+ first +:+ nl)
          (msg +:+ nl +:+ "Missing parameter definitions:" +:+ nl)
          (map_to_list (tbd_parameters_ ra))
  else msg.

(** A loop of calls that read the state and may throw. *)
Fixpoint check_each {A} (l : list A) (body : A -> Result unit) : Result unit :=
  match l with
  | [] => Ok tt
  | x :: l' => result_bind (body x) (fun _ => check_each l' body)
  end.

(** [void RiskAnalysis::ValidateExpressions()] *)
Definition ValidateExpressions (ext : External) (ra : RiskAnalysis)
  : Result unit :=
  result_bind
    (check_each (map_to_list (parameters_ ra))
                (fun it => Parameter_Validate ext ra it.2)) (fun _ =>
  result_bind
    (match check_each (elements (expressions_ ra))
                      (fun it => Expression_Validate ext ra it) with
     | Throw (InvalidArgument msg) => Throw (ValidationError msg)
     | other => other
     end) (fun _ =>
  if prob_requested_ ra then
    result_bind
      (foldl (fun msg '(_, second) =>
                result_bind msg (fun msg =>
                match CcfGroup_ValidateDistribution ext ra second with
                | Throw (ValidationError err) =>
                    Ok (msg +:+ ccf_name_ second +:+ " : " +:+ err +:+ nl)
                | Throw err => Throw err
                | Ok _ => Ok msg
                end))
             (Ok "") (map_to_list (ccf_groups_ ra))) (fun msg =>
    result_bind
      (foldl (fun msg '(_, second) =>
                result_bind msg (fun msg =>
                match BasicEvent_Validate ext ra second with
                | Throw (ValidationError err) =>
                    Ok (msg +:+ orig_id_ (deref ra second) +:+ " : " +:+ err
                        +:+ nl)
                | Throw err => Throw err
                | Ok _ => Ok msg
                end))
             (Ok msg) (map_to_list (basic_events_ ra))) (fun msg =>
    if negb (String.eqb msg "") then
      Throw (ValidationError ("Invalid probabilities detected:" +:+ nl +:+ msg))
    else Ok tt))
  else Ok tt)).

(** The text that [CheckFirstLayer] has in [error_messages] when it decides
    whether to throw. *)
Definition error_messages (ra : RiskAnalysis) : Result string :=
  let error_messages := "" in
  let error_messages :=
    if negb (is_empty (tbd_gates_ ra)) then
      foldl (fun msg '(_, second) => msg +:+ orig_id_ (deref ra second) +:+ nl)
            (error_messages +:+ "Undefined gates:" +:+ nl)
            (map_to_list (tbd_gates_ ra))
    else error_messages in
  result_bind (CheckAllGates ra) (fun bad_gates =>
  let error_messages :=
    if negb (String.eqb bad_gates "") then
      error_messages +:+ nl
      +:+ "There are problems with the initialized gates:" +:+ nl
      +:+ bad_gates
    else error_messages in
  let error_messages :=
    if prob_requested_ ra then
      error_messages +:+ CheckMissingEvents ra +:+ CheckMissingParameters ra
    else error_messages in
  Ok error_messages).

(** [void RiskAnalysis::CheckFirstLayer()] *)
Definition CheckFirstLayer (ext : External) (ra : RiskAnalysis) : Result unit :=
  result_bind (error_messages ra) (fun error_messages =>
  if negb (String.eqb error_messages "") then
    Throw (ValidationError error_messages)
  else ValidateExpressions ext ra).

(** [void RiskAnalysis::CheckSecondLayer()] *)
Definition CheckSecondLayer (ext : External) : M unit :=
  ra <- get ;;
  for_each (map_to_list (fault_trees_ ra))
           (fun it => FaultTree_Validate ext it.1) ;;;
  ra <- get ;;
  for_each (map_to_list (ccf_groups_ ra))
           (fun it => CcfGroup_Validate ext it.1).

(** [void RiskAnalysis::ValidateInitialization()] *)
Definition ValidateInitialization (ext : External) : M unit :=
  read (CheckFirstLayer ext) ;;;
  CheckSecondLayer ext ;;;
  ra <- get ;;
  for_each (map_to_list (primary_events_ ra))
           (fun it_p =>
              ra <- get ;;
              match Event_parents (deref ra it_p.2) with
              | Throw (LogicError _) =>
                  modify (set_orphan_primary_events_ (fun s => {[ it_p.2 ]} ∪ s))
              | Throw err => throw err
              | Ok _ => ret tt
              end).

(** [void RiskAnalysis::SetupForAnalysis()] *)
Definition SetupForAnalysis (ext : External) : M unit :=
  ra <- get ;;
  for_each (map_to_list (ccf_groups_ ra))
           (fun it => CcfGroup_ApplyModel ext it.1) ;;;
  ra <- get ;;
  for_each (map_to_list (fault_trees_ ra))
           (fun it => FaultTree_SetupForAnalysis ext it.1).

(** *** Input processing *)

(** [void RiskAnalysis::ProcessInputFile(std::string xml_file)], from the
    document that the parser has read and validated. *)
Definition ProcessInputFile (ext : External) (xml_file : XmlFile) : M unit :=
  for_each (root_children xml_file)
           (fun element =>
              match element with
              | root_define_fault_tree node => DefineFaultTree ext node
              | root_define_CCF_group node => DefineCcfGroup ext node
              | root_model_data node => ProcessModelData node
              | root_other name =>
                  throw (ValidationError ("Cannot handle '" +:+ name +:+ "'"))
              end).

(** The first part of [ProcessInputFiles]: the mission time and the loop
    over the files. *)
Definition ProcessInputFiles_read (ext : External) (xml_files : list XmlFile)
  : M unit :=
  ra <- get ;;
  modify (set_exprs
            (<[mission_time_ ra :=
                 MissionTime (mission_time_setting (settings_ ra))]>)) ;;;
  for_each xml_files
           (fun it =>
              catch_ValidationError
                (ProcessInputFile ext it)
                (fun msg =>
                   throw (ValidationError
                            ("In file '" +:+ xml_file it +:+ "', " +:+ msg)))).

(** The block of [ProcessInputFiles] under [if (!prob_requested_)]:
    "Put all undefined events as primary events." *)
Definition ProcessInputFiles_undefined : M unit :=
  ra <- get ;;
  for_each (map_to_list (tbd_house_events_ ra))
           (fun it_h =>
              modify (set_primary_events_ (map_insert it_h.1 it_h.2))) ;;;
  for_each (map_to_list (tbd_basic_events_ ra))
           (fun it_b =>
              modify (set_primary_events_ (map_insert it_b.1 it_b.2)) ;;;
              modify (set_basic_events_ (map_insert it_b.1 it_b.2))) ;;;
  for_each (map_to_list (tbd_events_ ra))
           (fun it_e =>
              child <-
                new_event (Event_new class_BasicEvent it_e.1
                                     (find (tbd_orig_ids_ ra) it_e.1)) ;;
              modify (set_primary_events_ (map_insert it_e.1 child)) ;;;
              modify (set_basic_events_ (map_insert it_e.1 child)) ;;;
              for_each it_e.2
                       (fun itvec =>
                          AddChild itvec child ;;; AddParent child itvec)).

(** [void RiskAnalysis::ProcessInputFiles(const std::vector<std::string>&
    xml_files)] *)
Definition ProcessInputFiles (ext : External) (xml_files : list XmlFile)
  : M unit :=
  ProcessInputFiles_read ext xml_files ;;;
  ra <- get ;;
  (if negb (prob_requested_ ra) then ProcessInputFiles_undefined
   else ret tt) ;;;
  ValidateInitialization ext ;;;
  SetupForAnalysis ext.

(** [void RiskAnalysis::ProcessInput(std::string xml_file)] *)
Definition ProcessInput (ext : External) (xml_file : XmlFile) : M unit :=
  ProcessInputFiles ext [xml_file].

End scram.
(** ** [gui/event.cpp] *)
Module gui.

(** An [int] result: 32 bits, two's complement. *)
Definition int (z : Z) : Z := ((z + 2 ^ 31) mod 2 ^ 32 - 2 ^ 31)%Z.

(** The conversion of an [int] to [double] ([qreal]). *)
Definition of_int (z : Z) : double := Q2Qc (inject_Z z).

(** What [units()] reads of [QApplication::fontMetrics()]. *)
Record QFontMetrics := { averageCharWidth : Z; height : Z }.

Record QSize := { size_width : Z; size_height : Z }.

Record QPointF := { point_x : double; point_y : double }.

(** [QRectF(x, y, width, height)] *)
Record QRectF := {
  rect_x : double;
  rect_y : double;
  rect_width : double;
  rect_height : double
}.

Definition left (r : QRectF) : double := rect_x r.
Definition top (r : QRectF) : double := rect_y r.
Definition right (r : QRectF) : double := (rect_x r + rect_width r)%Qc.
Definition bottom (r : QRectF) : double := (rect_y r + rect_height r)%Qc.

Definition setHeight (height : double) (r : QRectF) : QRectF :=
  {| rect_x := rect_x r; rect_y := rect_y r; rect_width := rect_width r;
     rect_height := height |}.

(** [Qt::AlignCenter], [Qt::TextWordWrap] *)
Definition AlignCenter : Z := 0x84.
Definition TextWordWrap : Z := 0x1000.

(** The calls that a [paint] makes on its [QPainter], in order. *)
Inductive Drawn :=
| drawRect (rect : QRectF)
| drawText (rect : QRectF) (flags : Z) (text : string)
| drawLine (p1 p2 : QPointF)
| drawEllipse (center : QPointF) (rx ry : double).

(** [QSize units()]: "Unit width (x) and height (y) for shapes." *)
Definition units (font : QFontMetrics) : QSize :=
  {| size_width := averageCharWidth font; size_height := height font |}.

(** [QRectF Event::boundingRect() const] *)
Definition Event_boundingRect (font : QFontMetrics) : QRectF :=
  let w := size_width (units font) in
  let h := size_height (units font) in
  {| rect_x := of_int (int (-8 * w)); rect_y := of_int 0;
     rect_width := of_int (int (16 * w));
     rect_height := (Q2Qc (11 # 2) * of_int h)%Qc |}.

(** [void Event::paint(QPainter *painter, ...)] *)
Definition Event_paint (font : QFontMetrics) (m_description m_name : string)
  : list Drawn :=
  let w := size_width (units font) in
  let h := size_height (units font) in
  let rect :=
    {| rect_x := of_int (int (-8 * w)); rect_y := of_int 0;
       rect_width := of_int (int (16 * w));
       rect_height := of_int (int (3 * h)) |} in
  let nameRect :=
    {| rect_x := of_int (int (-5 * w)); rect_y := of_int (int (4 * h));
       rect_width := of_int (int (10 * w)); rect_height := of_int h |} in
  [ drawRect rect;
    drawText rect (Z.lor AlignCenter TextWordWrap) m_description;
    drawLine {| point_x := of_int 0; point_y := of_int (int (3 * h)) |}
             {| point_x := of_int 0; point_y := of_int (int (4 * h)) |};
    drawRect nameRect;
    drawText nameRect AlignCenter m_name;
    drawLine {| point_x := of_int 0; point_y := of_int (int (5 * h)) |}
             {| point_x := of_int 0;
                point_y := (Q2Qc (11 # 2) * of_int h)%Qc |} ].

(** [QRectF BasicEvent::boundingRect() const] *)
Definition BasicEvent_boundingRect (font : QFontMetrics) : QRectF :=
  let eventRect := Event_boundingRect font in
  setHeight (rect_height eventRect
             + of_int (int (10 * size_width (units font))))%Qc
            eventRect.

(** [void BasicEvent::paint(QPainter *painter, ...)] *)
Definition BasicEvent_paint (font : QFontMetrics)
    (m_description m_name : string) : list Drawn :=
  let r := of_int (int (5 * size_width (units font))) in
  Event_paint font m_description m_name
  ++ [ drawEllipse
         {| point_x := of_int 0;
            point_y := (bottom (Event_boundingRect font) + r)%Qc |}
         r r ].

(** [QRectF IntermediateEvent::boundingRect() const] *)
Definition IntermediateEvent_boundingRect (font : QFontMetrics) : QRectF :=
  let eventRect := Event_boundingRect font in
  setHeight (rect_height eventRect
             + of_int (int (10 * size_width (units font))))%Qc
            eventRect.

(** [void IntermediateEvent::paint(QPainter *painter, ...)]; [m_gate] is
    what [m_gate->paint(painter, option)] draws. *)
Definition IntermediateEvent_paint (font : QFontMetrics)
    (m_description m_name : string) (m_gate : list Drawn) : list Drawn :=
  Event_paint font m_description m_name ++ m_gate.

End gui.
(** ** The specification's wording of the probability of a product *)
Module Spec.
Import scram.

(** "a complemented literal contributes 1 minus its event's probability and
    a non-complemented literal contributes the event's probability" *)
Definition literal_probability (l : core.Literal) : double :=
  match core.complement l with
  | true => (1 - core.p (core.event l))%Qc
  | false => core.p (core.event l)
  end.

(** "the arithmetic product" of a sequence of numbers *)
Fixpoint arithmetic_product (xs : list double) : double :=
  match xs with
  | [] => 1%Qc
  | x :: xs' => (x * arithmetic_product xs')%Qc
  end.

(** The same product with other probabilities given to its events. *)
Definition reprice (f : core.BasicEvent -> double) (P : core.Product)
  : core.Product :=
  map (fun l => {| core.complement := core.complement l;
                   core.event := {| core.name := core.name (core.event l);
                                    core.p := f (core.event l) |} |}) P.

(** *** Wording of the arity rules *)

(** The operator that validation sees in a gate: an [and] gate with the
    attribute [flavor] of value [inhibit] is an INHIBIT gate. *)
Definition operator (this : Event) : string :=
  if String.eqb (type_ this) "and"
     && Element_HasAttribute "flavor" (element this)
     && String.eqb (attr_value (Element_GetAttribute "flavor" (element this)))
                   "inhibit"
  then "inhibit" else type_ this.

(** A child that counts as conditional: a defined primary event that has
    the attribute [flavor] of value [conditional]. *)
Definition conditional (ra : RiskAnalysis) (child : string * loc) : bool :=
  count (primary_events_ ra) child.1
  && Element_HasAttribute "flavor" (element (deref ra child.2))
  && String.eqb
       (attr_value (Element_GetAttribute "flavor" (element (deref ra child.2))))
       "conditional".

Definition conditionals (ra : RiskAnalysis) (this : Event) : nat :=
  length (filter (fun child => conditional ra child = true)
                 (map_to_list (children_ this))).

(** The arity rule in the words of the specification: "AND/OR/NAND/NOR >= 2;
    NOT/NULL = 1; XOR = 2; ATLEAST has #children > k >= 2; INHIBIT has = 2
    children with exactly one conditional", for a gate with [n] children,
    vote number [k] and [c] conditional children. *)
Definition arity_rule_of_the_spec (operator : string) (n : nat) (k : Z)
    (c : nat) : bool :=
  if bool_decide (operator ∈ ({[ "and"; "or"; "nand"; "nor" ]} : gset string))
  then (2 <=? n)%nat
  else if bool_decide (operator ∈ ({[ "not"; "null" ]} : gset string))
  then (n =? 1)%nat
  else if String.eqb operator "xor" then (n =? 2)%nat
  else if String.eqb operator "atleast"
  then (k <? Z.of_nat n)%Z && (2 <=? k)%Z
  else if String.eqb operator "inhibit" then (n =? 2)%nat && (c =? 1)%nat
  else false.

(** The rule that asks of an ATLEAST gate one child at least and more
    children than its vote number, and nothing of the vote number itself. *)
Definition arity_rule (operator : string) (n : nat) (k : Z) (c : nat) : bool :=
  if bool_decide (operator ∈ ({[ "and"; "or"; "nand"; "nor" ]} : gset string))
  then (2 <=? n)%nat
  else if bool_decide (operator ∈ ({[ "not"; "null" ]} : gset string))
  then (n =? 1)%nat
  else if String.eqb operator "xor" then (n =? 2)%nat
  else if String.eqb operator "atleast"
  then (1 <=? n)%nat && (k <? Z.of_nat n)%Z
  else if String.eqb operator "inhibit" then (n =? 2)%nat && (c =? 1)%nat
  else false.

(** *** Wording of the structural defects

    A defect of the model as first-layer validation finds it, with the text
    that stands for it in a report: the spelling of an undefined gate, the
    diagnostic of a gate outside its arity rule, the spelling of an event
    without definition, the name of a parameter without definition. *)
Inductive defect_of_the_spec (ra : RiskAnalysis) : string -> Prop :=
| spec_undefined_gate id gate :
    tbd_gates_ ra !! id = Some gate ->
    defect_of_the_spec ra (orig_id_ (deref ra gate))
| spec_arity_violation id gate diagnostic :
    gates_ ra !! id = Some gate ->
    CheckGate ra gate = Ok diagnostic -> diagnostic <> "" ->
    defect_of_the_spec ra diagnostic
| spec_missing_house_event id event :
    tbd_house_events_ ra !! id = Some event ->
    defect_of_the_spec ra (orig_id_ (deref ra event))
| spec_missing_basic_event id event :
    tbd_basic_events_ ra !! id = Some event ->
    defect_of_the_spec ra (orig_id_ (deref ra event))
| spec_missing_event id gates orig_id :
    tbd_events_ ra !! id = Some gates ->
    tbd_orig_ids_ ra !! id = Some orig_id ->
    defect_of_the_spec ra orig_id
| spec_missing_parameter name parameter :
    tbd_parameters_ ra !! name = Some parameter ->
    defect_of_the_spec ra name.

(** The same, where an event or a parameter without definition is a defect
    only when probabilities were requested. *)
Inductive defect (ra : RiskAnalysis) : string -> Prop :=
| undefined_gate id gate :
    tbd_gates_ ra !! id = Some gate ->
    defect ra (orig_id_ (deref ra gate))
| arity_violation id gate diagnostic :
    gates_ ra !! id = Some gate ->
    CheckGate ra gate = Ok diagnostic -> diagnostic <> "" ->
    defect ra diagnostic
| missing_house_event id event :
    prob_requested_ ra = true ->
    tbd_house_events_ ra !! id = Some event ->
    defect ra (orig_id_ (deref ra event))
| missing_basic_event id event :
    prob_requested_ ra = true ->
    tbd_basic_events_ ra !! id = Some event ->
    defect ra (orig_id_ (deref ra event))
| missing_event id gates orig_id :
    prob_requested_ ra = true ->
    tbd_events_ ra !! id = Some gates ->
    tbd_orig_ids_ ra !! id = Some orig_id ->
    defect ra orig_id
| missing_parameter name parameter :
    prob_requested_ ra = true ->
    tbd_parameters_ ra !! name = Some parameter ->
    defect ra name.

(** *** Wording of the refusals

    "IdentifierConflict - same id bound to incompatible kinds" and
    "DuplicateDefinition - same id defined twice within its kind": the kind
    of refusal that the text of a message of the builder tells. *)
Inductive Refusal := IdentifierConflict | DuplicateDefinition.

Definition refusal (msg : string) : option Refusal :=
  if Text.occurs "doubly defined" msg then Some DuplicateDefinition
  else if Text.occurs "is already assigned to" msg
          || Text.occurs "is already used by" msg
  then Some IdentifierConflict
  else None.

End Spec.

(** ** Sample models *)
Module Samples.
Import scram.

(** Collaborators that accept everything but a vote number below 2. *)
Definition ext : External := {|
  Gate_vote_number_error :=
    fun k => if (k <? 2)%Z
             then Some (InvalidArgument "The vote number is below 2.")
             else None;
  AddFactor_error := fun _ _ => None;
  Parameter_Validate := fun _ _ => Ok tt;
  Expression_Validate := fun _ _ => Ok tt;
  CcfGroup_ValidateDistribution := fun _ _ => Ok tt;
  BasicEvent_Validate := fun _ _ => Ok tt;
  FaultTree_Validate := fun _ => ret tt;
  CcfGroup_Validate := fun _ => ret tt;
  CcfGroup_ApplyModel := fun _ => ret tt;
  FaultTree_SetupForAnalysis := fun _ => ret tt
|}.

Definition settings : Settings := {| mission_time_setting := 0%Qc |}.

Definition at_line (n : nat) : XmlCommon :=
  {| get_line := n; xml_label := None; xml_attributes := [] |}.

Definition argument (n : nat) (element : ArgName) (name : string)
  : FormulaArg :=
  {| arg_line := n; arg_element := element; arg_name := name;
     arg_type := None |}.

(** A fault tree without any probability data: the gate [Top] refers to the
    gate [G2], which is never defined, and the parameter [P] refers to the
    parameter [lambda], which is never defined either. *)
Definition undefined_gate_and_parameter : XmlFile :=
  {| xml_file := "input.xml";
     root_children :=
       [root_define_fault_tree
          {| ft_common := at_line 2; ft_name := "FT";
             ft_children :=
               [define_gate
                  {| gate_common := at_line 3; gate_name := "Top";
                     gate_formula :=
                       {| formula_line := 4; formula_name := "and";
                          formula_min := 0;
                          formula_args := [argument 5 arg_gate "G2";
                                           argument 6 arg_event "E1"] |} |};
                define_parameter
                  {| par_common := at_line 9; par_name := "P"; par_unit := "";
                     par_expression := xml_parameter "lambda" |}] |}] |}.

(** The state in which [ProcessInputFiles] leaves the analysis of that
    model. *)
Definition undefined_gate_and_parameter_state : RiskAnalysis :=
  (ProcessInputFiles ext [undefined_gate_and_parameter]
                     (RiskAnalysis_new settings)).2.

(** A defined gate [G3] of type [atleast] with vote number 1 and the two
    defined basic events [B1] and [B2] as children. *)
Definition atleast_one_state : RiskAnalysis :=
  set_events
    (fun _ =>
       {[ 1%positive :=
            Gate_vote_number 1
              (Gate_type "atleast"
                 (Gate_AddChild "b2" 3%positive
                    (Gate_AddChild "b1" 2%positive
                       (Event_new class_Gate "g3" "G3"))));
          2%positive :=
            Event_AddParent "g3" 1%positive
              (Event_new class_BasicEvent "b1" "B1");
          3%positive :=
            Event_AddParent "g3" 1%positive
              (Event_new class_BasicEvent "b2" "B2") ]})
    (set_gates_ (fun _ => {[ "g3" := 1%positive ]})
       (set_primary_events_
          (fun _ => {[ "b1" := 2%positive; "b2" := 3%positive ]})
          (set_basic_events_
             (fun _ => {[ "b1" := 2%positive; "b2" := 3%positive ]})
             (RiskAnalysis_new settings)))).

(** The house event [Pump], and a basic event defined as [pump]. *)
Definition pump_house_event : HouseEventNode :=
  {| he_common := at_line 3; he_name := "Pump"; he_constant := Some "true" |}.

Definition pump_basic_event : BasicEventNode :=
  {| be_common := at_line 7; be_name := "pump";
     be_expressions := [xml_float (Q2Qc (1 # 10))] |}.

(** The state after the definition of the house event [Pump]. *)
Definition house_event_state : RiskAnalysis :=
  (DefineHouseEvent pump_house_event (RiskAnalysis_new settings)).2.

(** The state after the definition of the basic event [pump]. *)
Definition basic_event_state : RiskAnalysis :=
  (DefineBasicEvent pump_basic_event (RiskAnalysis_new settings)).2.

(** Two parameters whose names differ in letter case only. *)
Definition parameter_abc : ParameterNode :=
  {| par_common := at_line 3; par_name := "abc"; par_unit := "hours";
     par_expression := xml_float 1%Qc |}.

Definition parameter_ABC : ParameterNode :=
  {| par_common := at_line 6; par_name := "ABC"; par_unit := "hours";
     par_expression := xml_float 2%Qc |}.

(** Two gates whose names differ in letter case only. *)
Definition gate_top : GateNode :=
  {| gate_common := at_line 3; gate_name := "Top";
     gate_formula :=
       {| formula_line := 4; formula_name := "or"; formula_min := 0;
          formula_args := [argument 5 arg_basic_event "B1";
                           argument 6 arg_basic_event "B2"] |} |}.

Definition gate_TOP : GateNode :=
  {| gate_common := at_line 9; gate_name := " TOP ";
     gate_formula :=
       {| formula_line := 10; formula_name := "and"; formula_min := 0;
          formula_args := [argument 11 arg_basic_event "B1";
                           argument 12 arg_basic_event "B3"] |} |}.

(** The state after the definition of the parameter [abc], and the one after
    the definition of the gate [Top]. *)
Definition parameter_abc_state : RiskAnalysis :=
  (DefineParameter parameter_abc (RiskAnalysis_new settings)).2.

Definition gate_top_state : RiskAnalysis :=
  (DefineGate ext gate_top "ft" (RiskAnalysis_new settings)).2.

(** A fault tree without any probability data: the gate [Top] refers to
    [Pump] and to [Valve], of which the model says nothing more. *)
Definition top_of_unknown_kinds : GateNode :=
  {| gate_common := at_line 3; gate_name := "Top";
     gate_formula :=
       {| formula_line := 4; formula_name := "or"; formula_min := 0;
          formula_args := [argument 5 arg_event "Pump";
                           argument 6 arg_event "Valve"] |} |}.

Definition unknown_kinds : XmlFile :=
  {| xml_file := "unknown.xml";
     root_children :=
       [root_define_fault_tree
          {| ft_common := at_line 2; ft_name := "FT";
             ft_children := [define_gate top_of_unknown_kinds] |}] |}.

(** The same with the definition of the basic event [pump]. *)
Definition unknown_kind_with_data : XmlFile :=
  {| xml_file := "data.xml";
     root_children :=
       [root_define_fault_tree
          {| ft_common := at_line 2; ft_name := "FT";
             ft_children := [define_gate top_of_unknown_kinds;
                             define_basic_event pump_basic_event] |}] |}.

(** The states after these files are read. *)
Definition unknown_kinds_state : RiskAnalysis :=
  (ProcessInputFiles_read ext [unknown_kinds] (RiskAnalysis_new settings)).2.

Definition unknown_kind_with_data_state : RiskAnalysis :=
  (ProcessInputFiles_read ext [unknown_kind_with_data]
                          (RiskAnalysis_new settings)).2.

(** A fault tree whose gate [Vote] asks for 2 of its 2 children. *)
Definition two_of_two : XmlFile :=
  {| xml_file := "vote.xml";
     root_children :=
       [root_define_fault_tree
          {| ft_common := at_line 2; ft_name := "FT";
             ft_children :=
               [define_gate
                  {| gate_common := at_line 3; gate_name := "Vote";
                     gate_formula :=
                       {| formula_line := 4; formula_name := "atleast";
                          formula_min := 2;
                          formula_args := [argument 5 arg_event "B1";
                                           argument 6 arg_event "B2"] |} |}
               ] |}] |}.

Definition two_of_two_state : RiskAnalysis :=
  (ProcessInputFiles_read ext [two_of_two] (RiskAnalysis_new settings)).2.

End Samples.
(** ** Notions used in the statements and in the proofs *)

(** No product of the family is a strict part of another. *)
Definition antichain (S : gset (gset core.Literal)) : Prop :=
  forall P Q, P ∈ S -> Q ∈ S -> ¬ Q ⊂ P.

Section Notions.
Import Text scram.

(** The loop of [CheckInhibitGate] over the children, as a function of the
    message and the flag that it starts with. *)
Definition inhibit_loop (ra : RiskAnalysis) (this : Event)
    (start : string * bool) (children : list (string * loc)) : string * bool :=
  foldl (fun '(msg, conditional_found) '(first, second) =>
           if count (primary_events_ ra) first then
             if Element_HasAttribute "flavor" (element (deref ra second))
             then
               let type :=
                 attr_value (Element_GetAttribute
                               "flavor" (element (deref ra second))) in
               if String.eqb type "conditional" then
                 if negb conditional_found then (msg, true)
                 else
                   (msg +:+ orig_id_ this +:+ " : " +:+ "INHIBIT"
                    +:+ " gate must have exactly one conditional event."
                    +:+ nl, conditional_found)
               else (msg, conditional_found)
             else (msg, conditional_found)
           else (msg, conditional_found))
        start children.

(** [m] started in [ra] ends with a result and a state that satisfy [Q]. *)
Definition ends_with {A} (m : M A) (ra : RiskAnalysis)
    (Q : Result A -> RiskAnalysis -> Prop) : Prop :=
  Q (m ra).1 (m ra).2.

(** A relation between the state before and the state after that holds
    whatever the result is. *)
Definition keeps (R : relation RiskAnalysis) {A} (m : M A) : Prop :=
  forall ra, R ra (m ra).2.

(** The text that [CheckGate] contributes for a gate. *)
Definition diagnostic (ra : RiskAnalysis) (gate : loc) : string :=
  match CheckGate ra gate with
  | Ok msg => msg
  | Throw _ => ""
  end.

(** The first two blocks of the report of [CheckFirstLayer]. *)
Definition undefined_gates_report (ra : RiskAnalysis) : string :=
  if negb (is_empty (tbd_gates_ ra)) then
    foldl (fun msg '(_, second) => msg +:+ orig_id_ (deref ra second) +:+ nl)
          ("" +:+ "Undefined gates:" +:+ nl)
          (map_to_list (tbd_gates_ ra))
  else "".

Definition bad_gates_report (ra : RiskAnalysis) : string :=
  foldl (fun msg '(_, second) => msg +:+ diagnostic ra second) ""
        (map_to_list (gates_ ra)).

(** A block of a report: when the map has entries, a header and a line for
    each entry, after what the report has already. *)
Definition report_block {V} (m : gmap string V) (header : string)
    (line : string -> V -> string) (init : string) : string :=
  if negb (is_empty m) then
    foldl (fun msg '(k, v) => msg +:+ line k v) (init +:+ header)
          (map_to_list m)
  else init.

(** An event object [o'] is a later stage of [o]: the same class, id and
    spelling, with the children and parents of [o] and possibly more. *)
Definition later_stage (o o' : Event) : Prop :=
  class o' = class o /\ id_ o' = id_ o /\ orig_id_ o' = orig_id_ o /\
  children_ o ⊆ children_ o' /\ parents_ o ⊆ parents_ o'.

(** A member function of an event that leaves it at a later stage. *)
Definition stable_method (method : Event -> Event) : Prop :=
  forall o, later_stage o (method o).

(** The state [ra'] extends [ra]: every object of [ra] is in [ra'] at a
    later stage, every definition of [ra] is a definition of [ra'], and the
    fault trees, CCF groups and parameters keep their names. *)
Definition extends (ra ra' : RiskAnalysis) : Prop :=
  (forall ptr o, events ra !! ptr = Some o ->
                 exists o', events ra' !! ptr = Some o' /\ later_stage o o') /\
  gates_ ra ⊆ gates_ ra' /\
  primary_events_ ra ⊆ primary_events_ ra' /\
  basic_events_ ra ⊆ basic_events_ ra' /\
  parameters_ ra ⊆ parameters_ ra' /\
  (forall id ft, fault_trees_ ra !! id = Some ft ->
                 exists ft', fault_trees_ ra' !! id = Some ft' /\
                             ft_name_ ft' = ft_name_ ft) /\
  (forall id g, ccf_groups_ ra !! id = Some g ->
                exists g', ccf_groups_ ra' !! id = Some g' /\
                           ccf_name_ g' = ccf_name_ g) /\
  (forall ptr name unit e el,
      exprs ra !! ptr = Some (ParameterObject name unit e el) ->
      exists unit' e' el',
        exprs ra' !! ptr = Some (ParameterObject name unit' e' el')).

(** The states [ra] and [ra'] have the same definitions and the same
    declarations of a known kind: they differ at most in the event objects
    and in the references of unknown kind. *)
Definition same_definitions (ra ra' : RiskAnalysis) : Prop :=
  prob_requested_ ra' = prob_requested_ ra /\
  gates_ ra' = gates_ ra /\ tbd_gates_ ra' = tbd_gates_ ra /\
  primary_events_ ra' = primary_events_ ra /\
  basic_events_ ra' = basic_events_ ra /\
  tbd_basic_events_ ra' = tbd_basic_events_ ra /\
  tbd_house_events_ ra' = tbd_house_events_ ra /\
  parameters_ ra' = parameters_ ra /\
  tbd_parameters_ ra' = tbd_parameters_ ra /\
  fault_trees_ ra' = fault_trees_ ra /\ ccf_groups_ ra' = ccf_groups_ ra /\
  exprs ra' = exprs ra.

(** *** How the definitions treat the spelling of a name

    Each statement has two parts: when the definition is refused as a second
    definition, and where an accepted definition is stored. *)

(** Parameters are told apart by their trimmed name, letter for letter. *)
Definition parameter_names_exact : Prop :=
  forall ra param_node,
    let name := trim (par_name param_node) in
    (count (parameters_ ra) name = true ->
     DefineParameter param_node ra
     = (Throw (ValidationError
                 (Line (get_line (par_common param_node)) +:+ "The " +:+ name
                  +:+ " parameter is doubly defined.")),
        ra)) /\
    (count (parameters_ ra) name = false ->
     exists parameter,
       parameters_ (DefineParameter param_node ra).2 !! name = Some parameter /\
       parameters_ ra ⊆ parameters_ (DefineParameter param_node ra).2 /\
       (count (tbd_parameters_ ra) name = false ->
        exprs ra !! parameter = None /\
        exists unit e el,
          exprs (DefineParameter param_node ra).2 !! parameter
          = Some (ParameterObject name unit e el))).

(** Gates are told apart by their folded id; the object of an accepted gate
    is under the folded id and carries the spelling. *)
Definition gate_ids_folded : Prop :=
  forall ext ra gate_node ft,
    let orig_id := trim (gate_name gate_node) in
    let id := to_lower orig_id in
    (count (gates_ ra) id = true ->
     DefineGate ext gate_node ft ra
     = (Throw (ValidationError
                 (Line (get_line (gate_common gate_node)) +:+ orig_id
                  +:+ " gate is doubly defined.")),
        ra)) /\
    (forall ra',
        DefineGate ext gate_node ft ra = (Ok tt, ra') ->
        exists gate,
          gates_ ra' !! id = Some gate /\
          if count (tbd_gates_ ra) id then gate = find (tbd_gates_ ra) id
          else events ra !! gate = None /\
               exists o, events ra' !! gate = Some o /\
                         id_ o = id /\ orig_id_ o = orig_id).

Definition basic_event_ids_folded : Prop :=
  forall ra event_node,
    let orig_id := trim (be_name event_node) in
    let id := to_lower orig_id in
    (count (gates_ ra) id || count (tbd_gates_ ra) id = false ->
     count (primary_events_ ra) id = true ->
     DefineBasicEvent event_node ra
     = (Throw (ValidationError
                 (Line (get_line (be_common event_node)) +:+ "The id "
                  +:+ orig_id +:+ " is doubly defined.")),
        ra)) /\
    (forall ra',
        DefineBasicEvent event_node ra = (Ok tt, ra') ->
        exists event,
          primary_events_ ra' !! id = Some event /\
          if count (tbd_basic_events_ ra) id
          then event = find (tbd_basic_events_ ra) id
          else events ra !! event = None /\
               exists o, events ra' !! event = Some o /\
                         id_ o = id /\ orig_id_ o = orig_id).

Definition house_event_ids_folded : Prop :=
  forall ra event_node,
    let orig_id := trim (he_name event_node) in
    let id := to_lower orig_id in
    (count (gates_ ra) id || count (tbd_gates_ ra) id = false ->
     count (primary_events_ ra) id = true ->
     DefineHouseEvent event_node ra
     = (Throw (ValidationError
                 (Line (get_line (he_common event_node)) +:+ "The id "
                  +:+ orig_id +:+ " is doubly defined.")),
        ra)) /\
    (forall ra',
        DefineHouseEvent event_node ra = (Ok tt, ra') ->
        exists event,
          primary_events_ ra' !! id = Some event /\
          if count (tbd_house_events_ ra) id
          then event = find (tbd_house_events_ ra) id
          else events ra !! event = None /\
               exists o, events ra' !! event = Some o /\
                         id_ o = id /\ orig_id_ o = orig_id).

Definition fault_tree_ids_folded : Prop :=
  forall ext ra ft_node,
    let name := ft_name ft_node in
    let id := to_lower name in
    (count (fault_trees_ ra) id = true ->
     DefineFaultTree ext ft_node ra
     = (Throw (ValidationError
                 (Line (get_line (ft_common ft_node)) +:+ "The fault tree "
                  +:+ name +:+ " is already defined.")),
        ra)) /\
    (count (fault_trees_ ra) id = false ->
     exists ft, fault_trees_ (DefineFaultTree ext ft_node ra).2 !! id = Some ft /\
                ft_name_ ft = name).

Definition ccf_group_ids_folded : Prop :=
  forall ext ra ccf_node,
    let name := ccf_name ccf_node in
    let id := to_lower name in
    (count (ccf_groups_ ra) id = true ->
     DefineCcfGroup ext ccf_node ra
     = (Throw (ValidationError
                 (Line (get_line (ccf_common ccf_node)) +:+ "The CCF group "
                  +:+ name +:+ " is already defined.")),
        ra)) /\
    (count (ccf_groups_ ra) id = false ->
     exists g, ccf_groups_ (DefineCcfGroup ext ccf_node ra).2 !! id = Some g /\
               ccf_name_ g = name).

(** A reference in a formula is resolved by the folded id: an argument
    [event] whose folded name is the id of a defined primary event becomes
    that event, attached to the gate. *)
Definition references_folded : Prop :=
  forall ra children_id gate event events child,
    let id := to_lower (trim (arg_name event)) in
    id ∉ children_id ->
    arg_element event = arg_event -> arg_type event = None ->
    primary_events_ ra !! id = Some child ->
    ProcessFormula_loop children_id gate (event :: events) ra
    = ((AddChild gate child ;;; AddParent child gate) ;;;
       ProcessFormula_loop ({[ id ]} ∪ children_id) gate events) ra.

(** A reference to a parameter is resolved by the name as it is written. *)
Definition parameter_references_exact : Prop :=
  forall ra name parameter,
    parameters_ ra !! name = Some parameter ->
    GetParameterExpression (xml_parameter name) ra = (Ok (Some parameter), ra).

(** *** The definitions that are refused

    Each refusal is a [ValidationError] and leaves the state as it was. *)

Definition gate_refusals : Prop :=
  forall ext ra gate_node ft,
    let orig_id := trim (gate_name gate_node) in
    let id := to_lower orig_id in
    let line := Line (get_line (gate_common gate_node)) in
    (count (gates_ ra) id = true ->
     DefineGate ext gate_node ft ra
     = (Throw (ValidationError
                 (line +:+ orig_id +:+ " gate is doubly defined.")), ra)) /\
    (count (gates_ ra) id = false ->
     count (primary_events_ ra) id || count (tbd_basic_events_ ra) id
     || count (tbd_house_events_ ra) id = true ->
     DefineGate ext gate_node ft ra
     = (Throw (ValidationError
                 (line +:+ "The id " +:+ orig_id
                  +:+ " is already assigned to a primary event.")), ra)).

Definition basic_event_refusals : Prop :=
  forall ra event_node,
    let orig_id := trim (be_name event_node) in
    let id := to_lower orig_id in
    let line := Line (get_line (be_common event_node)) in
    (count (gates_ ra) id || count (tbd_gates_ ra) id = true ->
     DefineBasicEvent event_node ra
     = (Throw (ValidationError
                 (line +:+ "The id " +:+ orig_id
                  +:+ " is already assigned to a gate.")), ra)) /\
    (count (gates_ ra) id || count (tbd_gates_ ra) id = false ->
     count (primary_events_ ra) id = true ->
     DefineBasicEvent event_node ra
     = (Throw (ValidationError
                 (line +:+ "The id " +:+ orig_id +:+ " is doubly defined.")),
        ra)) /\
    (count (gates_ ra) id || count (tbd_gates_ ra) id = false ->
     count (primary_events_ ra) id = false ->
     count (tbd_house_events_ ra) id = true ->
     DefineBasicEvent event_node ra
     = (Throw (ValidationError
                 (line +:+ "The id " +:+ orig_id
                  +:+ " is already used by a house event.")), ra)).

Definition house_event_refusals : Prop :=
  forall ra event_node,
    let orig_id := trim (he_name event_node) in
    let id := to_lower orig_id in
    let line := Line (get_line (he_common event_node)) in
    (count (gates_ ra) id || count (tbd_gates_ ra) id = true ->
     DefineHouseEvent event_node ra
     = (Throw (ValidationError
                 (line +:+ "The id " +:+ orig_id
                  +:+ " is already assigned to a gate.")), ra)) /\
    (count (gates_ ra) id || count (tbd_gates_ ra) id = false ->
     count (primary_events_ ra) id = true ->
     DefineHouseEvent event_node ra
     = (Throw (ValidationError
                 (line +:+ "The id " +:+ orig_id +:+ " is doubly defined.")),
        ra)) /\
    (count (gates_ ra) id || count (tbd_gates_ ra) id = false ->
     count (primary_events_ ra) id = false ->
     count (tbd_basic_events_ ra) id = true ->
     DefineHouseEvent event_node ra
     = (Throw (ValidationError
                 (line +:+ "The id " +:+ orig_id
                  +:+ " is already used by a basic event.")), ra)).

Definition other_refusals : Prop :=
  (forall ra param_node,
      count (parameters_ ra) (trim (par_name param_node)) = true ->
      DefineParameter param_node ra
      = (Throw (ValidationError
                  (Line (get_line (par_common param_node)) +:+ "The "
                   +:+ trim (par_name param_node)
                   +:+ " parameter is doubly defined.")), ra)) /\
  (forall ext ra ft_node,
      count (fault_trees_ ra) (to_lower (ft_name ft_node)) = true ->
      DefineFaultTree ext ft_node ra
      = (Throw (ValidationError
                  (Line (get_line (ft_common ft_node)) +:+ "The fault tree "
                   +:+ ft_name ft_node +:+ " is already defined.")), ra)) /\
  (forall ext ra ccf_node,
      count (ccf_groups_ ra) (to_lower (ccf_name ccf_node)) = true ->
      DefineCcfGroup ext ccf_node ra
      = (Throw (ValidationError
                  (Line (get_line (ccf_common ccf_node)) +:+ "The CCF group "
                   +:+ ccf_name ccf_node +:+ " is already defined.")), ra)).

(** *** The end of the input *)

(** An element whose presence requests probabilities: in a fault tree, the
    definition of a basic event, of a house event or of a CCF group; under
    the root, a CCF group or model data. *)
Definition requests_probabilities_in (element : DefineNode) : bool :=
  match element with
  | define_basic_event _ | define_house_event _ | define_CCF_group _ => true
  | define_gate _ | define_parameter _ => false
  end.

Definition requests_probabilities_at (element : RootChild) : bool :=
  match element with
  | root_define_fault_tree node =>
      existsb requests_probabilities_in (ft_children node)
  | root_define_CCF_group _ | root_model_data _ => true
  | root_other _ => false
  end.

Definition requests_probabilities (xml_file : XmlFile) : bool :=
  existsb requests_probabilities_at (root_children xml_file).

(** A reference without a definition, by the name that a report shows. *)
Inductive unresolved_reference (ra : RiskAnalysis) : string -> Prop :=
| unresolved_gate id gate :
    tbd_gates_ ra !! id = Some gate ->
    unresolved_reference ra (orig_id_ (deref ra gate))
| unresolved_house_event id event :
    tbd_house_events_ ra !! id = Some event ->
    unresolved_reference ra (orig_id_ (deref ra event))
| unresolved_basic_event id event :
    tbd_basic_events_ ra !! id = Some event ->
    unresolved_reference ra (orig_id_ (deref ra event))
| unresolved_event id gates orig_id :
    tbd_events_ ra !! id = Some gates ->
    tbd_orig_ids_ ra !! id = Some orig_id ->
    unresolved_reference ra orig_id
| unresolved_parameter name parameter :
    tbd_parameters_ ra !! name = Some parameter ->
    unresolved_reference ra name.

(** The object at [child] is a basic event of id [id], spelled [orig_id]. *)
Definition created_as (id orig_id : string) (child : loc)
    (ra : RiskAnalysis) : Prop :=
  exists o, events ra !! child = Some o /\ class o = class_BasicEvent /\
            id_ o = id /\ orig_id_ o = orig_id.

(** The gate at [gate] has [child] as its child of id [id]. *)
Definition child_of (id : string) (child : loc) (ra : RiskAnalysis)
    (gate : loc) : Prop :=
  exists o_gate, events ra !! gate = Some o_gate /\
                 children_ o_gate !! id = Some child.

(** The gate at [gate] is an object with no child of id [id]. *)
Definition childless (id : string) (ra : RiskAnalysis) (gate : loc) : Prop :=
  exists o_gate, events ra !! gate = Some o_gate /\
                 children_ o_gate !! id = None.

(** The gate at [gate] is another object than [child], with no child of id
    [id] or with [child] for it. *)
Definition may_adopt (id : string) (child : loc) (ra : RiskAnalysis)
    (gate : loc) : Prop :=
  gate <> child /\
  exists o_gate, events ra !! gate = Some o_gate /\
                 (children_ o_gate !! id = None \/
                  children_ o_gate !! id = Some child).

(** In [ra'] the reference [id] of unknown kind, made by the [gates] in
    [ra], is a basic event of its own: a new object of class [BasicEvent]
    with this id and the spelling that was recorded, among the primary and
    the basic events, and the child [id] of every one of the [gates]. *)
Definition auto_created (ra ra' : RiskAnalysis) (id : string)
    (gates : list loc) : Prop :=
  exists child,
    events ra !! child = None /\
    created_as id (find (tbd_orig_ids_ ra) id) child ra' /\
    primary_events_ ra' !! id = Some child /\
    basic_events_ ra' !! id = Some child /\
    Forall (child_of id child ra') gates.

(** The id [id] is the id of no primary event, and the [gates] have no child
    of this id. *)
Definition unbound (id : string) (gates : list loc) (ra : RiskAnalysis)
  : Prop :=
  primary_events_ ra !! id = None /\ basic_events_ ra !! id = None /\
  Forall (childless id ra) gates.

(** The references of unknown kind are apart from the events of a known
    kind: the id is the id of no event of a known kind, and the gates that
    refer to it are objects that have no child of this id yet. *)
Definition unknown_kind_unbound (ra : RiskAnalysis) : Prop :=
  forall (id : string) (gates : list loc),
    tbd_events_ ra !! id = Some gates ->
    tbd_house_events_ ra !! id = None /\ tbd_basic_events_ ra !! id = None /\
    unbound id gates ra.

(** The state [ra'] extends [ra] and is as [ra] for the id [id]: the same
    primary and basic event, and the same child [id] in every object. *)
Definition beside (id : string) (ra ra' : RiskAnalysis) : Prop :=
  extends ra ra' /\
  primary_events_ ra' !! id = primary_events_ ra !! id /\
  basic_events_ ra' !! id = basic_events_ ra !! id /\
  forall ptr o o', events ra !! ptr = Some o -> events ra' !! ptr = Some o' ->
                   children_ o' !! id = children_ o !! id.

(** The same for every id that has the property [P]. *)
Definition beside_all (P : string -> Prop) (ra ra' : RiskAnalysis) : Prop :=
  extends ra ra' /\ forall id, P id -> beside id ra ra'.

(** The state [ra'] has the flag [prob_requested_] of [ra]. *)
Definition same_request (ra ra' : RiskAnalysis) : Prop :=
  prob_requested_ ra' = prob_requested_ ra.

(** *** What the reading of the files maintains *)

(** The object at [ptr] has the id [id]. *)
Definition live_as (ra : RiskAnalysis) (id : string) (ptr : loc) : Prop :=
  exists o, events ra !! ptr = Some o /\ id_ o = id.

(** A container of events binds every id to an object of this id. *)
Definition keyed (ra : RiskAnalysis) (m : gmap string loc) : Prop :=
  forall id ptr, m !! id = Some ptr -> live_as ra id ptr.

(** The gate at [gate] is a defined gate. *)
Definition defined_gate (ra : RiskAnalysis) (gate : loc) : Prop :=
  exists id, gates_ ra !! id = Some gate.

(** The id [id] is the id of an event of a known kind. *)
Definition known (ra : RiskAnalysis) (id : string) : bool :=
  count (gates_ ra) id || count (tbd_gates_ ra) id
  || count (primary_events_ ra) id || count (tbd_basic_events_ ra) id
  || count (tbd_house_events_ ra) id.

(** The containers of events: ids bound to objects of these ids, basic
    events among the primary events, no gate both defined and only referred
    to, no child in a gate that is only referred to, and only defined gates
    among those that wait for an event of unknown kind. *)
Definition registered (ra : RiskAnalysis) : Prop :=
  keyed ra (gates_ ra) /\ keyed ra (tbd_gates_ ra) /\
  keyed ra (primary_events_ ra) /\ keyed ra (tbd_basic_events_ ra) /\
  keyed ra (tbd_house_events_ ra) /\
  (forall id, is_Some (basic_events_ ra !! id) ->
              is_Some (primary_events_ ra !! id)) /\
  (forall id, is_Some (tbd_gates_ ra !! id) -> gates_ ra !! id = None) /\
  (forall id ptr, tbd_gates_ ra !! id = Some ptr ->
                  exists o, events ra !! ptr = Some o /\ children_ o = ∅) /\
  (forall id gates, tbd_events_ ra !! id = Some gates ->
                    Forall (defined_gate ra) gates).

(** Every reference of unknown kind whose id has the property [P] is the id
    of no event of a known kind, and the gates that wait for it have no
    child of this id. *)
Definition pending (P : string -> Prop) (ra : RiskAnalysis) : Prop :=
  forall id gates,
    tbd_events_ ra !! id = Some gates -> P id ->
    known ra id = false /\ Forall (childless id ra) gates.

Definition well_formed (ra : RiskAnalysis) : Prop :=
  registered ra /\ pending (fun _ => True) ra.

(** The same but for the references to [x], which is being defined. *)
Definition well_formed_but (x : string) (ra : RiskAnalysis) : Prop :=
  registered ra /\ pending (fun id => id <> x) ra.

(** The state [ra'] has the containers of events of [ra], and every object
    of [ra] with its id and its children. *)
Definition same_shape (ra ra' : RiskAnalysis) : Prop :=
  gates_ ra' = gates_ ra /\ tbd_gates_ ra' = tbd_gates_ ra /\
  primary_events_ ra' = primary_events_ ra /\
  basic_events_ ra' = basic_events_ ra /\
  tbd_basic_events_ ra' = tbd_basic_events_ ra /\
  tbd_house_events_ ra' = tbd_house_events_ ra /\
  tbd_events_ ra' = tbd_events_ ra /\
  forall ptr o, events ra !! ptr = Some o ->
                exists o', events ra' !! ptr = Some o' /\
                           id_ o' = id_ o /\ children_ o' = children_ o.

(** In [ra'] every object of [ra] that is not a defined gate has the
    children that it has in [ra]. *)
Definition fixed (ra ra' : RiskAnalysis) : Prop :=
  forall ptr o o',
    ~ defined_gate ra ptr -> events ra !! ptr = Some o ->
    events ra' !! ptr = Some o' -> children_ o' = children_ o.

(** The state is well formed and the gate at [gate] is a defined gate with
    no child but of the ids [X]. *)
Definition ready (gate : loc) (X : gset string) (ra : RiskAnalysis) : Prop :=
  well_formed ra /\ defined_gate ra gate /\
  exists o, events ra !! gate = Some o /\ dom (children_ o) ⊆ X.

(** *** The gates that validation meets *)

(** Modelled from the spec: "ATLEAST has #children > k >= 2".  The function
    [Gate::vote_number(int)] that [DefineGate] calls is declared outside the
    sources; it lets no vote number below 2 in. *)
Definition vote_number_bound (ext : External) : Prop :=
  forall k, (k < 2)%Z -> is_Some (Gate_vote_number_error ext k).

(** Every defined gate is an object with a type that [DefineGate] accepts
    and, for an ATLEAST gate, a vote number of 2 at least. *)
Definition gates_typed (ra : RiskAnalysis) : Prop :=
  forall id gate,
    gates_ ra !! id = Some gate ->
    exists o, events ra !! gate = Some o /\ type_ o ∈ gate_types_ /\
              (type_ o = "atleast" -> (2 <= vote_number_ o)%Z).

(** The state [ra'] has the defined gates of [ra], and every object of [ra]
    with its type and its vote number. *)
Definition same_types (ra ra' : RiskAnalysis) : Prop :=
  gates_ ra' = gates_ ra /\
  forall ptr o, events ra !! ptr = Some o ->
                exists o', events ra' !! ptr = Some o' /\
                           type_ o' = type_ o /\
                           vote_number_ o' = vote_number_ o.

(** A well-formed state whose defined gates have their types. *)
Definition sound (ra : RiskAnalysis) : Prop :=
  well_formed ra /\ gates_typed ra.

(** The state in which [ProcessInputFiles] starts the validation, when the
    reading of the files has left [ra]. *)
Definition validated (ra : RiskAnalysis) : RiskAnalysis :=
  if prob_requested_ ra then ra else (ProcessInputFiles_undefined ra).2.

(** A property of the state that holds after [m] when it holds before and
    [m] returns. *)
Definition achieves (I : RiskAnalysis -> Prop) {A} (m : M A) : Prop :=
  forall ra, I ra -> forall a ra', m ra = (Ok a, ra') -> I ra'.

(** A property of the state that holds after [m] when it holds before,
    whatever the result of [m] is. *)
Definition maintains (I : RiskAnalysis -> Prop) {A} (m : M A) : Prop :=
  forall ra, I ra -> I (m ra).2.

End Notions.

(** ** Notions for the rest of the code *)

(** *** Products *)

(** A number that is a probability. *)
Definition probability (x : double) : Prop := (0 <= x)%Qc /\ (x <= 1)%Qc.

(** Every event of the product has a probability for its [p()]. *)
Definition priced (P : core.Product) : Prop :=
  Forall (fun l => probability (core.p (core.event l))) P.

(** The number of the id sets with [n] ids. *)
Definition of_order (n : nat) (to_print : list core.ProductSet) : nat :=
  length (filter (fun ids : core.ProductSet => length ids = n) to_print).

(** The text that [Print] writes for the id sets [to_print] and the numbers
    [distribution]. *)
Definition Print_text (to_print : list core.ProductSet)
    (distribution : list nat) : string :=
  " " +:+ Text.of_nat (length to_print) +:+ " : {"
  +:+ Text.concat (map (fun i => " " +:+ Text.of_nat i) distribution)
  +:+ " }" +:+ Text.nl +:+ Text.nl
  +:+ Text.concat
        (map (fun product : core.ProductSet =>
                Text.concat (map (fun id => " " +:+ id) product) +:+ Text.nl)
             to_print).

(** The warning that [Store] records for a product set, if any. *)
Definition special_case (products : core.Zbdd) : list string :=
  if core.Zbdd_empty products then [core.NULL_warning]
  else if core.Zbdd_base products then [core.UNITY_warning]
  else [].

(** Two events and two products over them. *)
Definition pump : core.BasicEvent :=
  {| core.name := "pump"; core.p := Q2Qc (1 # 2) |}.

Definition valve : core.BasicEvent :=
  {| core.name := "valve"; core.p := Q2Qc (1 # 4) |}.

Definition pump_fails : core.Product :=
  [ {| core.complement := false; core.event := pump |} ].

Definition pump_fails_valve_holds : core.Product :=
  [ {| core.complement := false; core.event := pump |};
    {| core.complement := true; core.event := valve |} ].

(** An event that never happens, and a product with it. *)
Definition never : core.BasicEvent :=
  {| core.name := "never"; core.p := 0%Qc |}.

Definition pump_fails_and_never : core.Product :=
  [ {| core.complement := false; core.event := pump |};
    {| core.complement := false; core.event := never |} ].

(** *** Units *)

(** The value of a unit in [enum Units]: [kUnitless = 0] and the others in
    the order of the declaration. *)
Definition Units_value (unit : mef.Units) : nat :=
  match unit with
  | mef.kUnitless => 0
  | mef.kBool => 1
  | mef.kInt => 2
  | mef.kFloat => 3
  | mef.kHours => 4
  | mef.kInverseHours => 5
  | mef.kYears => 6
  | mef.kInverseYears => 7
  | mef.kFit => 8
  | mef.kDemands => 9
  end.

(** *** Shapes on the scene *)

(** The point is in the rectangle, borders included. *)
Definition holds (r : gui.QRectF) (p : gui.QPointF) : Prop :=
  (gui.left r <= gui.point_x p)%Qc /\ (gui.point_x p <= gui.right r)%Qc /\
  (gui.top r <= gui.point_y p)%Qc /\ (gui.point_y p <= gui.bottom r)%Qc.

(** The corners of the smallest upright rectangle around what a call of the
    painter draws: the rectangle itself, the rectangle that the text is laid
    out in, the two ends of a line, the box of an ellipse. *)
Definition corners (d : gui.Drawn) : list gui.QPointF :=
  match d with
  | gui.drawRect rect | gui.drawText rect _ _ =>
      [ {| gui.point_x := gui.left rect; gui.point_y := gui.top rect |};
        {| gui.point_x := gui.right rect; gui.point_y := gui.bottom rect |} ]
  | gui.drawLine p1 p2 => [p1; p2]
  | gui.drawEllipse center rx ry =>
      [ {| gui.point_x := (gui.point_x center - rx)%Qc;
           gui.point_y := (gui.point_y center - ry)%Qc |};
        {| gui.point_x := (gui.point_x center + rx)%Qc;
           gui.point_y := (gui.point_y center + ry)%Qc |} ]
  end.

(** Everything that the calls draw is in the rectangle. *)
Definition within (r : gui.QRectF) (calls : list gui.Drawn) : Prop :=
  Forall (fun d => Forall (holds r) (corners d)) calls.

(** Font metrics for which the products that [paint] and [boundingRect]
    compute in [int] do not overflow. *)
Definition metrics_in_range (font : gui.QFontMetrics) : Prop :=
  (0 <= gui.averageCharWidth font < 2 ^ 27)%Z /\
  (0 <= gui.height font < 2 ^ 28)%Z.

(** A font of 8 by 16 pixels. *)
Definition fixed_font : gui.QFontMetrics :=
  {| gui.averageCharWidth := 8; gui.height := 16 |}.

(** *** The builder *)

Section BuilderNotions.
Import Text scram.

(** *** The containers of events *)

(** The containers in which the builder files the events by their id. *)
Definition tables (ra : RiskAnalysis) :=
  (gates_ ra, tbd_gates_ ra, primary_events_ ra, basic_events_ ra,
   tbd_basic_events_ ra, tbd_house_events_ ra, tbd_events_ ra,
   tbd_orig_ids_ ra).

(** The state [ra'] has the containers of [ra]. *)
Definition same_tables (ra ra' : RiskAnalysis) : Prop :=
  tables ra' = tables ra.

(** The number of containers that have the id, among the defined gates,
    the gates, basic events and house events that are only referred to, the
    primary events, and the references of unknown kind. *)
Definition holders (ra : RiskAnalysis) (id : string) : nat :=
  Nat.b2n (count (gates_ ra) id) + Nat.b2n (count (tbd_gates_ ra) id)
  + Nat.b2n (count (primary_events_ ra) id)
  + Nat.b2n (count (tbd_basic_events_ ra) id)
  + Nat.b2n (count (tbd_house_events_ ra) id)
  + Nat.b2n (count (tbd_events_ ra) id).

(** The three kinds of events. *)
Inductive Kind := a_gate | a_basic_event | a_house_event.

Definition class_of_kind (kind : Kind) : EventClass :=
  match kind with
  | a_gate => class_Gate
  | a_basic_event => class_BasicEvent
  | a_house_event => class_HouseEvent
  end.

(** The class of the object at [ptr], if there is one. *)
Definition class_at (ra : RiskAnalysis) (ptr : loc) : option EventClass :=
  class <$> events ra !! ptr.

(** The events of a kind that are referred to and not defined. *)
Definition referred (kind : Kind) (ra : RiskAnalysis) : gmap string loc :=
  match kind with
  | a_gate => tbd_gates_ ra
  | a_basic_event => tbd_basic_events_ ra
  | a_house_event => tbd_house_events_ ra
  end.

(** The state with [c] among the events of the kind that are referred to,
    with [c] among those that are defined, and with no reference to [id]. *)
Definition refer (kind : Kind) (id : string) (c : loc) (ra : RiskAnalysis)
  : RiskAnalysis :=
  match kind with
  | a_gate => set_tbd_gates_ (map_insert id c) ra
  | a_basic_event => set_tbd_basic_events_ (map_insert id c) ra
  | a_house_event => set_tbd_house_events_ (map_insert id c) ra
  end.

Definition define (kind : Kind) (id : string) (c : loc) (ra : RiskAnalysis)
  : RiskAnalysis :=
  match kind with
  | a_gate => set_gates_ (map_insert id c) ra
  | a_basic_event =>
      set_basic_events_ (map_insert id c)
        (set_primary_events_ (map_insert id c) ra)
  | a_house_event => set_primary_events_ (map_insert id c) ra
  end.

Definition forget (kind : Kind) (id : string) (ra : RiskAnalysis)
  : RiskAnalysis :=
  match kind with
  | a_gate => set_tbd_gates_ (delete id) ra
  | a_basic_event => set_tbd_basic_events_ (delete id) ra
  | a_house_event => set_tbd_house_events_ (delete id) ra
  end.

(** The state in which no gate waits for [id] any more. *)
Definition resolved (id : string) (ra : RiskAnalysis) : RiskAnalysis :=
  if count (tbd_events_ ra) id
  then set_tbd_orig_ids_ (delete id) (set_tbd_events_ (delete id) ra)
  else ra.

(** What one step of the builder on the id [id] does to the containers:
    nothing; a gate waits for the id, as the first or as one more; the id
    is referred to as of a kind, for a new object; the id is defined, for a
    new object or for the object that was referred to. *)
Inductive filing (id : string) (ra ra' : RiskAnalysis) : Prop :=
| filing_nothing :
    same_tables ra ra' -> filing id ra ra'
| filing_wait_first gate orig_id :
    known ra id = false -> tbd_events_ ra !! id = None ->
    same_tables (set_tbd_orig_ids_ (map_insert id orig_id)
                   (set_tbd_events_ (map_insert id [gate]) ra)) ra' ->
    filing id ra ra'
| filing_wait_more gate :
    known ra id = false -> is_Some (tbd_events_ ra !! id) ->
    same_tables (set_tbd_events_
                   (alter (fun parents => (parents ++ [gate])%list) id) ra)
                ra' ->
    filing id ra ra'
| filing_reference kind c :
    known ra id = false -> events ra !! c = None ->
    class_at ra' c = Some (class_of_kind kind) ->
    same_tables (refer kind id c (resolved id ra)) ra' ->
    filing id ra ra'
| filing_definition kind c :
    known ra id = false -> events ra !! c = None ->
    class_at ra' c = Some (class_of_kind kind) ->
    same_tables (define kind id c (resolved id ra)) ra' ->
    filing id ra ra'
| filing_late_definition kind c :
    referred kind ra !! id = Some c ->
    same_tables (define kind id c (forget kind id ra)) ra' ->
    filing id ra ra'.

(** The containers are in order, for objects whose classes are [cl]: every
    id is in one container at most; the basic events are primary events; a
    reference of unknown kind has its spelling and a gate that waits for
    it; every object is filed under its class. *)
Definition filed_as (cl : loc -> option EventClass) (ra : RiskAnalysis)
  : Prop :=
  (forall id, holders ra id <= 1) /\
  basic_events_ ra ⊆ primary_events_ ra /\
  (forall id, is_Some (tbd_events_ ra !! id) <->
              is_Some (tbd_orig_ids_ ra !! id)) /\
  (forall id gates, tbd_events_ ra !! id = Some gates -> gates <> []) /\
  (forall id c, gates_ ra !! id = Some c -> cl c = Some class_Gate) /\
  (forall kind id c, referred kind ra !! id = Some c ->
                     cl c = Some (class_of_kind kind)) /\
  (forall id c, primary_events_ ra !! id = Some c ->
                cl c = Some (if count (basic_events_ ra) id
                             then class_BasicEvent else class_HouseEvent)).

(** The containers are in order for the objects of the state. *)
Definition filed (ra : RiskAnalysis) : Prop := filed_as (class_at ra) ra.

(** The pointer [c] is to an object of the class [k] with the id [id]. *)
Definition object_of (ra : RiskAnalysis) (k : EventClass) (id : string)
    (c : loc) : Prop :=
  exists o, events ra !! c = Some o /\ class o = k /\ id_ o = id.

(** The id under which an element of a basic event is filed. *)
Definition member_id (node : BasicEventNode) : string :=
  to_lower (trim (be_name node)).

(** A file with an element that is no fault tree, CCF group or model
    data. *)
Definition event_tree_file : XmlFile :=
  {| xml_file := "events.xml";
     root_children := [root_other "define-event-tree"] |}.

(** The basic event [Valve]. *)
Definition valve_basic_event : BasicEventNode :=
  {| be_common := Samples.at_line 8; be_name := "Valve";
     be_expressions := [xml_float (Q2Qc (1 # 20))] |}.

(** *** The validation of the probabilities *)

(** A line of the report of [ValidateExpressions]: a CCF group whose
    distribution, or a basic event whose validation, throws a
    [ValidationError]. *)
Inductive invalid_probability (ext : External) (ra : RiskAnalysis)
  : string -> Prop :=
| invalid_distribution id group err :
    ccf_groups_ ra !! id = Some group ->
    CcfGroup_ValidateDistribution ext ra group = Throw (ValidationError err) ->
    invalid_probability ext ra (ccf_name_ group +:+ " : " +:+ err +:+ nl)
| invalid_basic_event id event err :
    basic_events_ ra !! id = Some event ->
    BasicEvent_Validate ext ra event = Throw (ValidationError err) ->
    invalid_probability ext ra
      (orig_id_ (deref ra event) +:+ " : " +:+ err +:+ nl).

(** The parameters and the expressions pass their validation. *)
Definition expressions_valid (ext : External) (ra : RiskAnalysis) : Prop :=
  check_each (map_to_list (parameters_ ra))
             (fun it => Parameter_Validate ext ra it.2) = Ok tt /\
  check_each (elements (expressions_ ra))
             (fun it => Expression_Validate ext ra it) = Ok tt.

(** The validations of the CCF groups and of the basic events throw nothing
    but [ValidationError]. *)
Definition probabilities_checked (ext : External) (ra : RiskAnalysis)
  : Prop :=
  (forall id group e,
      ccf_groups_ ra !! id = Some group ->
      CcfGroup_ValidateDistribution ext ra group = Throw e ->
      exists err, e = ValidationError err) /\
  (forall id event e,
      basic_events_ ra !! id = Some event ->
      BasicEvent_Validate ext ra event = Throw e ->
      exists err, e = ValidationError err).

(** The line that a check contributes. *)
Definition line_of {V} (check : V -> Result unit) (text : V -> string -> string)
    (v : V) : string :=
  match check v with
  | Throw (ValidationError err) => text v err
  | _ => ""
  end.

(** Collaborators that accept everything but the probability of a basic
    event. *)
Definition strict_ext : External := {|
  Gate_vote_number_error := Gate_vote_number_error Samples.ext;
  AddFactor_error := fun _ _ => None;
  Parameter_Validate := fun _ _ => Ok tt;
  Expression_Validate := fun _ _ => Ok tt;
  CcfGroup_ValidateDistribution := fun _ _ => Ok tt;
  BasicEvent_Validate :=
    fun _ _ => Throw (ValidationError "The probability is above 1.");
  FaultTree_Validate := fun _ => ret tt;
  CcfGroup_Validate := fun _ => ret tt;
  CcfGroup_ApplyModel := fun _ => ret tt;
  FaultTree_SetupForAnalysis := fun _ => ret tt
|}.

(** *** The events without definition *)

(** The state [ra'] has the primary event and the basic event of [ra] for
    the id [id]. *)
Definition same_entry (id : string) (ra ra' : RiskAnalysis) : Prop :=
  primary_events_ ra' !! id = primary_events_ ra !! id /\
  basic_events_ ra' !! id = basic_events_ ra !! id.

(** *** The events that gates wait for *)

(** The object at [event] has the gate at [gate] among its parents, under
    the id of the gate. *)
Definition parent_of (gate : loc) (ra : RiskAnalysis) (event : loc) : Prop :=
  exists o o_gate,
    events ra !! event = Some o /\ events ra !! gate = Some o_gate /\
    is_Some (parents_ o !! id_ o_gate).

(** The state after the file with the references of unknown kind, with a
    new basic event [Pump]. *)
Definition pump_arrives : RiskAnalysis :=
  (new_event (Event_new class_BasicEvent "pump" "Pump")
             Samples.unknown_kinds_state).2.

End BuilderNotions.
(** * Facts *)

(** ** Products and their probability *)
Section ProductFacts.
Import core.
Local Open Scope Qc_scope.

Lemma Product_p_foldl (acc : double) (P : Product) :
  foldl (fun p literal =>
           p * (if complement literal
                then 1 - core.p (event literal)
                else core.p (event literal))) acc P
  = acc * Spec.arithmetic_product (map Spec.literal_probability P).
Proof.
  revert acc. induction P as [|l P IH]; intros acc; simpl.
  - ring.
  - rewrite IH. unfold Spec.literal_probability.
    destruct (complement l); ring.
Qed.


Lemma arithmetic_product_Permutation (xs ys : list double) :
  xs ≡ₚ ys -> Spec.arithmetic_product xs = Spec.arithmetic_product ys.
Proof.
  induction 1; simpl; try congruence; ring.
Qed.

(** A product is a set of literals: the order in which the loop meets them
    does not matter. *)
Lemma Product_p_Permutation (P P' : Product) :
  P ≡ₚ P' -> Product_p P = Product_p P'.
Proof.
  intros HP. unfold Product_p. rewrite !Product_p_foldl. f_equal.
  apply arithmetic_product_Permutation. by apply fmap_Permutation.
Qed.

(** C9.  In a container that stands for guaranteed failure (its only product
    is the empty one), every product has no literal and probability exactly
    1, whatever probabilities the events are given. *)
Theorem Product_p_unity (products : Zbdd) (graph : Pdag) :
  Zbdd_base products = true ->
  Forall (fun P : Product =>
            P = [] /\ Product_p P = 1 /\
            forall f, Product_p (Spec.reprice f P) = 1)
         (ProductContainer_new products graph).
Proof.
  intros Hbase. unfold ProductContainer_new.
  destruct products as [|[|l P] [|Q products]]; try discriminate.
  repeat constructor.
Qed.

Lemma Product_p_unity_witness :
  Forall (fun P : Product =>
            P = [] /\ Product_p P = 1 /\
            forall f, Product_p (Spec.reprice f P) = 1)
         (ProductContainer_new [ [] ] {| pdag_basic_events := [] |}).
Proof.
  apply (Product_p_unity [ [] ] {| pdag_basic_events := [] |}).
  reflexivity.
Defined.

End ProductFacts.

(** ** Storing the products *)
Section StoreFacts.
Import core.

Lemma run_bind_Done {A B} (m : Run A) (k : A -> Run B) a out b out' :
  m = Done a out -> k a = Done b out' ->
  run_bind m k = Done b (out +:+ out').
Proof. intros -> Hk. simpl. by rewrite Hk. Qed.

(** The loop of assertions on the order of the stored products. *)
Lemma order_assertions_pass (limit : nat) (stored : ProductContainer) :
  Forall (fun P : Product => length P <= limit) stored ->
  foldr (fun (product : Product) rest =>
           run_bind
             (assert (length product <=? limit)%nat
                "Miscalculated product sets with larger-than-required order.")
             (fun _ => rest))
        (Done tt "") stored = Done tt "".
Proof.
  induction 1 as [|P stored HP _ IH]; simpl; [done|].
  rewrite IH. unfold assert.
  destruct (Nat.leb_spec (length P) limit); [done|lia].
Qed.

Lemma order_assertions_inv (limit : nat) (stored : ProductContainer) out :
  foldr (fun (product : Product) rest =>
           run_bind
             (assert (length product <=? limit)%nat
                "Miscalculated product sets with larger-than-required order.")
             (fun _ => rest))
        (Done tt "") stored = Done tt out ->
  Forall (fun P : Product => length P <= limit) stored.
Proof.
  revert out. induction stored as [|P stored IH]; intros out; simpl; [done|].
  unfold assert at 1.
  destruct (Nat.leb_spec (length P) limit) as [Hle|Hgt]; simpl; [|done].
  destruct (foldr _ _ stored) as [[] out'|] eqn:Hrest; [|done].
  intros _. constructor; [done|]. by apply (IH out').
Qed.

Lemma Print_empty : Print [] = Done tt ("No products!" +:+ Text.endl).
Proof. reflexivity. Qed.

Lemma Print_unity : Print [ [] ] = Done tt ("Single Unity product." +:+ Text.endl).
Proof. reflexivity. Qed.

(** C5.  When the product set handed to [Store] is empty, the NULL warning
    is recorded; when it is the base set (its only member is the empty
    product), the UNITY warning is recorded; in both cases [Store] runs to
    its end, in a build with assertions as in one without, having stored
    the products. *)
Theorem Store_special_cases (NDEBUG : bool) (products : Zbdd) (graph : Pdag)
    (this : FaultTreeAnalysis) :
  Zbdd_empty products = true \/ Zbdd_base products = true ->
  exists this' cerr,
    Store NDEBUG products graph this = Done this' cerr /\
    warnings (analysis this') =
      (warnings (analysis this)
       ++ [if Zbdd_empty products then NULL_warning else UNITY_warning])%list /\
    products_ this' = Some products.
Proof.
  intros [Hempty|Hbase].
  - destruct products as [|P products]; [|discriminate].
    destruct NDEBUG; unfold Store; simpl.
    + by eexists _, _.
    + destruct (print (settings (analysis this))); by eexists _, _.
  - destruct products as [|[|l P] [|Q products]]; try discriminate.
    destruct NDEBUG; unfold Store; simpl.
    + by eexists _, _.
    + destruct (print (settings (analysis this))); by eexists _, _.
Qed.

Lemma Store_special_cases_witness :
  exists this' cerr,
    Store false [ [] ] {| pdag_basic_events := [] |}
          {| analysis := {| settings := {| limit_order := 20; print := true |};
                            warnings := [] |};
             top_event_ := "top"; products_ := None |}
    = Done this' cerr /\
    warnings (analysis this') = ([] ++ [UNITY_warning])%list /\
    products_ this' = Some [ [] ].
Proof.
  apply (Store_special_cases false [ [] ] {| pdag_basic_events := [] |}
           {| analysis := {| settings := {| limit_order := 20; print := true |};
                             warnings := [] |};
              top_event_ := "top"; products_ := None |}).
  right. reflexivity.
Defined.

(** In a build with assertions, [Store] runs to its end only if no stored
    product is longer than the limit. *)
Lemma Store_debug_checks_order products graph this this' cerr :
  Store false products graph this = Done this' cerr ->
  Forall (fun P : Product => length P <= limit_order (settings (analysis this)))
         products.
Proof.
  unfold Store, ProductContainer_new.
  set (this1 := if Zbdd_empty products then _ else _).
  assert (settings (analysis (with_products products this1))
          = settings (analysis this)) as ->.
  { unfold this1. by destruct (Zbdd_empty products), (Zbdd_base products). }
  destruct (foldr _ _ products) as [[] out|] eqn:Hloop; simpl; [|done].
  intros _. by apply (order_assertions_inv _ _ out).
Qed.

End StoreFacts.

(** ** The product engine of the specification and the order limit *)
Section EngineFacts.
Import core.

(** Induction over the graph, with the hypothesis for every child. *)
Lemma Node_induction (Q : Node -> Prop) :
  (forall l, Q (NodeLiteral l)) ->
  (forall children, Forall Q children -> Q (NodeOr children)) ->
  (forall children, Forall Q children -> Q (NodeAnd children)) ->
  forall N, Q N.
Proof.
  intros Hlit Hor Hand.
  fix IH 1. intros [l|children|children].
  - apply Hlit.
  - apply Hor. induction children as [|c children IHc]; constructor; auto.
  - apply Hand. induction children as [|c children IHc]; constructor; auto.
Qed.

Lemma minimalize_subseteq (S : gset (gset Literal)) : minimalize S ⊆ S.
Proof. intros P. unfold minimalize. rewrite elem_of_filter. tauto. Qed.

Lemma minimalize_antichain (S : gset (gset Literal)) : antichain (minimalize S).
Proof.
  intros P Q HP HQ. unfold minimalize in HP.
  apply elem_of_filter in HP as [HP _].
  apply HP. by apply minimalize_subseteq.
Qed.

Lemma singleton_antichain (P : gset Literal) : antichain {[ P ]}.
Proof.
  intros P1 P2 ->%elem_of_singleton ->%elem_of_singleton [_ Hne].
  by apply Hne.
Qed.

Lemma combine_bound (L : nat) (A B : gset (gset Literal)) (P : gset Literal) :
  P ∈ combine L A B -> size P <= L.
Proof.
  intros HP%minimalize_subseteq. apply elem_of_filter in HP. tauto.
Qed.

Lemma products_antichain (L : nat) (N : Node) : antichain (products L N).
Proof.
  destruct N as [l|children|[|c children]]; simpl.
  - apply singleton_antichain.
  - apply minimalize_antichain.
  - apply singleton_antichain.
  - apply minimalize_antichain.
Qed.

(** The order limit, on the engine of the specification. *)
Lemma products_bound (L : nat) (N : Node) :
  1 <= L -> forall P, P ∈ products L N -> size P <= L.
Proof.
  intros HL. induction N as [l|children IH|children IH] using Node_induction;
    intros P HP; simpl in HP.
  - apply elem_of_singleton in HP as ->. by rewrite size_singleton.
  - apply minimalize_subseteq, elem_of_union_list in HP as (X & HX & HPX).
    apply list_elem_of_fmap in HX as (c & -> & Hc).
    rewrite Forall_forall in IH. by apply (IH c).
  - destruct children as [|c children]; simpl in HP.
    + apply elem_of_singleton in HP as ->. rewrite size_empty. lia.
    + by apply combine_bound in HP.
Qed.

Lemma antichain_with_empty (S : gset (gset Literal)) :
  antichain S -> ∅ ∈ S -> S = {[ ∅ ]}.
Proof.
  intros HS Hempty. apply set_eq. intros P. rewrite elem_of_singleton. split.
  - intros HP. destruct (decide (P = ∅)) as [|Hne]; [done|].
    destruct (HS P ∅ HP Hempty). split; [set_solver|].
    intros HPe. apply Hne. set_solver.
  - by intros ->.
Qed.

Lemma Zbdd_of_length (S : gset (gset Literal)) (limit : nat) :
  (forall P, P ∈ S -> size P <= limit) ->
  Forall (fun P : Product => length P <= limit) (Zbdd_of S).
Proof.
  intros HS. unfold Zbdd_of. rewrite Forall_fmap. apply Forall_forall.
  intros P HP%elem_of_elements. apply (HS P HP).
Qed.

Lemma flat_set_insert_nonempty (x : string) (s : ProductSet) :
  flat_set_insert x s <> [].
Proof.
  destruct s as [|y s]; simpl; [done|].
  destruct (String.eqb x y); [done|]. by destruct (String.ltb x y).
Qed.

Lemma ids_nonempty (f : Literal -> string) (P : Product) (ids : ProductSet) :
  (P <> [] \/ ids <> []) ->
  foldl (fun ids literal => flat_set_insert (f literal) ids) ids P <> [].
Proof.
  revert ids. induction P as [|l P IH]; intros ids H; simpl.
  - by destruct H.
  - apply IH. right. apply flat_set_insert_nonempty.
Qed.

Lemma sort_insert_elem_of (x y : ProductSet) (l : list ProductSet) :
  y ∈ sort_insert x l -> y = x \/ y ∈ l.
Proof.
  induction l as [|z l IH]; simpl.
  - intros ->%list_elem_of_singleton. by left.
  - destruct (print_order z x).
    + intros [->|Hy]%elem_of_cons; [right; left|].
      destruct (IH Hy); [by left|right; by right].
    + intros [->|Hy]%elem_of_cons; [by left|by right].
Qed.

Lemma sort_elem_of (y : ProductSet) (l : list ProductSet) :
  y ∈ sort l -> y ∈ l.
Proof.
  unfold sort. induction l as [|x l IH]; simpl; [done|].
  intros [->|Hy]%sort_insert_elem_of; [left|right; auto].
Qed.

#[local] Arguments core.sort : simpl never.

(** [Print] meets no failing assertion on a family in which no product is
    a strict part of another. *)
Lemma Print_antichain (S : gset (gset Literal)) :
  antichain S -> exists cerr, Print (Zbdd_of S) = Done tt cerr.
Proof.
  intros HS. unfold Zbdd_of.
  destruct (elements S) as [|first rest] eqn:Hel; simpl; [by eexists|].
  assert (first ∈ S) as Hfirst by (apply elem_of_elements; rewrite Hel; left).
  case_bool_decide as Hempty.
  - apply elements_empty_inv in Hempty. apply leibniz_equiv in Hempty.
    subst first. pose proof (antichain_with_empty S HS Hfirst) as ->.
    rewrite elements_singleton in Hel. injection Hel as <-. by eexists.
  - set (to_print := sort _).
    assert (default [] (head to_print) <> []) as Hhead.
    { destruct to_print as [|front others] eqn:Hsorted; simpl.
      - exfalso. unfold to_print, sort in Hsorted. simpl in Hsorted.
        destruct (foldr sort_insert [] (map Print_ids (map elements rest)));
          simpl in Hsorted; [done|].
        by destruct (print_order _ _).
      - assert (front ∈ to_print) as Hfront by (rewrite Hsorted; left).
        apply sort_elem_of in Hfront.
        change (front ∈ map Print_ids (map elements (first :: rest))) in Hfront.
        apply list_elem_of_fmap in Hfront as (P & -> & HP).
        apply list_elem_of_fmap in HP as (P' & -> & HP').
        apply ids_nonempty. left. intros Hnil.
        apply elements_empty_inv in Hnil. apply leibniz_equiv in Hnil.
        subst P'. rewrite <- Hel in HP'. apply elem_of_elements in HP'.
        pose proof (antichain_with_empty S HS HP') as HSe.
        rewrite HSe in Hel. rewrite elements_singleton in Hel.
        injection Hel as <- _. apply Hempty. apply elements_empty. }
    unfold assert. case_bool_decide; [done|]. simpl. by eexists.
Qed.

(** [Store] runs to its end when the order assertions hold and [Print]
    meets no failing assertion. *)
Lemma Store_Done (NDEBUG : bool) (products : Zbdd) (graph : Pdag)
    (this : FaultTreeAnalysis) (out : string) :
  Forall (fun P : Product => length P <= limit_order (settings (analysis this)))
         products ->
  Print products = Done tt out ->
  exists this' cerr,
    Store NDEBUG products graph this = Done this' cerr /\
    products_ this' = Some products /\
    settings (analysis this') = settings (analysis this).
Proof.
  intros Hbound Hprint. unfold Store, ProductContainer_new.
  destruct NDEBUG.
  - destruct (Zbdd_empty products), (Zbdd_base products); by eexists _, _.
  - destruct (Zbdd_empty products), (Zbdd_base products); simpl;
      rewrite (order_assertions_pass _ _ Hbound), Hprint; simpl;
      destruct (print (settings (analysis this))); by eexists _, _.
Qed.

(** C6.  With the products computed as the specification describes, for a
    limit on the order of at least 1, [Store] runs to its end in every build
    and every product of the stored container has at most [limit_order]
    literals. *)
Theorem stored_products_within_limit_order (NDEBUG : bool) (N : Node)
    (graph : Pdag) (this : FaultTreeAnalysis) :
  1 <= limit_order (settings (analysis this)) ->
  exists this' cerr stored,
    Store NDEBUG
          (Zbdd_of (products (limit_order (settings (analysis this))) N))
          graph this = Done this' cerr /\
    products_ this' = Some stored /\
    Forall (fun P : Product =>
              length P <= limit_order (settings (analysis this')))
           stored.
Proof.
  intros HL. set (L := limit_order (settings (analysis this))) in *.
  set (S := products L N).
  assert (Forall (fun P : Product => length P <= L) (Zbdd_of S)) as Hbound.
  { apply Zbdd_of_length. intros P HP. by apply (products_bound L N). }
  destruct (Print_antichain S (products_antichain L N)) as [out Hprint].
  destruct (Store_Done NDEBUG (Zbdd_of S) graph this out Hbound Hprint)
    as (this' & cerr & HStore & Hstored & Hsettings).
  exists this', cerr, (Zbdd_of S). rewrite Hsettings. by fold L.
Qed.

Lemma stored_products_within_limit_order_witness :
  exists this' cerr stored,
    Store false
          (Zbdd_of (products 2
             (NodeAnd [NodeLiteral {| complement := false;
                                      event := {| name := "a"; p := 0%Qc |} |};
                       NodeLiteral {| complement := true;
                                      event := {| name := "b"; p := 1%Qc |} |}])))
          {| pdag_basic_events := [] |}
          {| analysis := {| settings := {| limit_order := 2; print := true |};
                            warnings := [] |};
             top_event_ := "top"; products_ := None |}
    = Done this' cerr /\
    products_ this' = Some stored /\
    Forall (fun P : Product =>
              length P <= limit_order (settings (analysis this')))
           stored.
Proof.
  apply (stored_products_within_limit_order false
           (NodeAnd [NodeLiteral {| complement := false;
                                    event := {| name := "a"; p := 0%Qc |} |};
                     NodeLiteral {| complement := true;
                                    event := {| name := "b"; p := 1%Qc |} |}])
           {| pdag_basic_events := [] |}
           {| analysis := {| settings := {| limit_order := 2; print := true |};
                             warnings := [] |};
              top_event_ := "top"; products_ := None |}).
  simpl. lia.
Defined.

End EngineFacts.

(** ** The mission time *)
Section MissionTimeFacts.
Import mef.

Lemma Sample_repeatedly_MissionTime (n : nat) (this : MissionTime) :
  Sample_repeatedly n this = (replicate n (value_ this), this).
Proof.
  induction n as [|n IH]; simpl; [done|]. by rewrite IH.
Qed.

(** The value that the constructor and [value(time)] set is the one kept. *)
Lemma MissionTime_new_value (time : double) (u : Units) (this : MissionTime) :
  MissionTime_new time u = inr this -> value_ this = time /\ unit_ this = u.
Proof.
  unfold MissionTime_new. case_bool_decide; [done|]. by intros [= <-].
Qed.

Lemma value_set (time : double) (this this' : MissionTime) :
  value time this = inr this' ->
  value_ this' = time /\ unit_ this' = unit_ this.
Proof.
  unfold value. case_bool_decide; [done|]. by intros [= <-].
Qed.

Lemma value_accepts (time : double) (this : MissionTime) :
  (0 <= time)%Qc -> exists this', value time this = inr this'.
Proof.
  intros Htime. unfold value. case_bool_decide as Hneg; [|by eexists].
  destruct (Qclt_not_le _ _ Hneg Htime).
Qed.

(** C10.  For a [MissionTime] holding any value: [Min()] is 0, [Mean()] is
    the value held, it is not a deviate, and any number of calls of
    [Sample()] in a row all return the value held and leave the object as it
    was. *)
Theorem MissionTime_contracts (this : MissionTime) :
  Min this = 0%Qc /\
  Mean this = value_ this /\
  IsDeviate this = false /\
  forall n, Sample_repeatedly n this = (replicate n (value_ this), this).
Proof.
  do 3 (split; [reflexivity|]). intros n. apply Sample_repeatedly_MissionTime.
Qed.

End MissionTimeFacts.

(** ** Text *)
Section TextFacts.
Import Text.

Lemma app_cons (c : ascii) (s t : string) :
  String c s +:+ t = String c (s +:+ t).
Proof. reflexivity. Qed.

Lemma app_nil_l (s : string) : "" +:+ s = s.
Proof. reflexivity. Qed.

Lemma app_assoc (s t u : string) : (s +:+ t) +:+ u = s +:+ (t +:+ u).
Proof.
  induction s as [|c s IH]; [done|]. rewrite !app_cons. by rewrite IH.
Qed.

Lemma app_nil_r (s : string) : s +:+ "" = s.
Proof.
  induction s as [|c s IH]; [done|]. rewrite app_cons. by rewrite IH.
Qed.

Lemma app_eq_empty (s t : string) : s +:+ t = "" <-> s = "" /\ t = "".
Proof.
  split; [|by intros [-> ->]]. destruct s; [done|]. by rewrite app_cons.
Qed.

Lemma mentions_refl (s : string) : mentions s s.
Proof. exists "", "". by rewrite app_nil_l, app_nil_r. Qed.

Lemma mentions_app_l (a b s : string) : mentions a s -> mentions (a +:+ b) s.
Proof.
  intros (pre & post & ->). exists pre, (post +:+ b).
  by rewrite !app_assoc.
Qed.

Lemma mentions_app_r (a b s : string) : mentions b s -> mentions (a +:+ b) s.
Proof.
  intros (pre & post & ->). exists (a +:+ pre), post.
  by rewrite !app_assoc.
Qed.

Lemma mentions_trans (a b c : string) :
  mentions a b -> mentions b c -> mentions a c.
Proof.
  intros (pre & post & ->) (pre' & post' & ->).
  exists (pre +:+ pre'), (post' +:+ post). by rewrite !app_assoc.
Qed.

Lemma is_prefix_app (s post : string) : is_prefix s (s +:+ post) = true.
Proof.
  induction s as [|c s IH]; [done|]. rewrite app_cons. simpl.
  by rewrite Ascii.eqb_refl.
Qed.

(** [occurs] finds every piece that is there. *)
Lemma mentions_occurs (msg s : string) : mentions msg s -> occurs s msg = true.
Proof.
  intros (pre & post & ->). induction pre as [|c pre IH].
  - rewrite app_nil_l.
    destruct (s +:+ post) eqn:E; simpl; rewrite <- ?E, is_prefix_app; done.
  - rewrite app_cons. simpl. rewrite IH. apply orb_true_r.
Qed.

(** A text built by a loop that appends to it keeps what it had. *)
Lemma foldl_app_keeps {A} (f : A -> string) (l : list A) (init s : string) :
  mentions init s ->
  mentions (foldl (fun msg x => msg +:+ f x) init l) s.
Proof.
  revert init. induction l as [|x l IH]; intros init Hinit; simpl; [done|].
  apply IH. by apply mentions_app_l.
Qed.

(** ... and has what the loop appends for each element. *)
Lemma foldl_app_mentions {A} (f : A -> string) (l : list A) (init : string)
    (x : A) :
  x ∈ l -> mentions (foldl (fun msg x => msg +:+ f x) init l) (f x).
Proof.
  revert init. induction l as [|y l IH]; intros init; [by intros ?%elem_of_nil|].
  intros [->|Hx]%elem_of_cons; simpl.
  - apply foldl_app_keeps, mentions_app_r, mentions_refl.
  - by apply IH.
Qed.

Lemma foldl_app_nonempty {A} (f : A -> string) (l : list A) (init : string) :
  init <> "" -> foldl (fun msg x => msg +:+ f x) init l <> "".
Proof.
  revert init. induction l as [|x l IH]; intros init Hinit; simpl; [done|].
  apply IH. rewrite app_eq_empty. tauto.
Qed.

End TextFacts.

(** ** Gate checks *)
Section GateCheckFacts.
Import Text scram Spec.

Lemma Gate_children_Ok (this : Event) :
  children_ this <> ∅ -> Gate_children this = Ok (children_ this).
Proof. intros Hne. unfold Gate_children. by case_bool_decide. Qed.

Lemma Gate_children_Throw (this : Event) :
  children_ this = ∅ ->
  exists msg, Gate_children this = Throw (LogicError msg).
Proof. intros He. unfold Gate_children. case_bool_decide; [by eexists|done]. Qed.

Lemma inhibit_loop_cons ra this msg found first second children :
  inhibit_loop ra this (msg, found) ((first, second) :: children) =
  inhibit_loop ra this
    (if conditional ra (first, second)
     then if negb found then (msg, true)
          else (msg +:+ orig_id_ this +:+ " : " +:+ "INHIBIT"
                +:+ " gate must have exactly one conditional event."
                +:+ nl, found)
     else (msg, found))
    children.
Proof.
  unfold inhibit_loop, conditional. simpl.
  destruct (count _ _); simpl; [|done].
  destruct (Element_HasAttribute _ _); simpl; [|done].
  by destruct (String.eqb _ _).
Qed.

(** What the loop leaves: the flag is set when a conditional child was found,
    and the message is empty when no second one was. *)
Lemma inhibit_loop_spec ra this children msg found :
  exists msg',
    inhibit_loop ra this (msg, found) children
    = (msg', found
             || (0 <? length (filter (fun child => conditional ra child = true)
                                     children))%nat) /\
    (msg' = "" <->
     msg = "" /\
     length (filter (fun child => conditional ra child = true) children)
     + (if found then 1 else 0) <= 1).
Proof.
  revert msg found. induction children as [|[first second] children IH];
    intros msg found.
  - exists msg. simpl. rewrite orb_false_r. split; [done|].
    destruct found; intuition lia.
  - rewrite inhibit_loop_cons. rewrite filter_cons.
    destruct (conditional ra (first, second)) eqn:Hc.
    + rewrite decide_True by done. simpl length.
      destruct found; simpl negb; cbv iota.
      * destruct (IH (msg +:+ orig_id_ this +:+ " : " +:+ "INHIBIT"
                      +:+ " gate must have exactly one conditional event."
                      +:+ nl) true) as (msg' & -> & Hmsg).
        exists msg'. split; [done|]. rewrite Hmsg.
        rewrite !app_eq_empty. split; [|lia]. intros [(_ & _ & [=] & _) _].
      * destruct (IH msg true) as (msg' & -> & Hmsg).
        exists msg'. split; [done|]. rewrite Hmsg. intuition lia.
    + rewrite decide_False by done. apply IH.
Qed.

Lemma CheckInhibitGate_spec ra event :
  children_ (deref ra event) <> ∅ ->
  exists msg,
    CheckInhibitGate ra event = Ok msg /\
    (msg = "" <->
     size (children_ (deref ra event)) = 2 /\
     conditionals ra (deref ra event) = 1).
Proof.
  intros Hne. unfold CheckInhibitGate.
  rewrite (Gate_children_Ok _ Hne). unfold result_bind.
  destruct (Nat.eqb_spec (size (children_ (deref ra event))) 2) as [H2|H2];
    simpl negb; cbv iota.
  - fold (inhibit_loop ra (deref ra event) ("", false)
            (map_to_list (children_ (deref ra event)))).
    destruct (inhibit_loop_spec ra (deref ra event)
                (map_to_list (children_ (deref ra event))) "" false)
      as (msg' & -> & Hmsg).
    fold (conditionals ra (deref ra event)) in *.
    rewrite orb_false_l.
    destruct (Nat.ltb_spec 0 (conditionals ra (deref ra event))); simpl negb;
      cbv iota.
    + exists msg'. split; [done|]. rewrite Hmsg. intuition lia.
    + eexists. split; [done|]. rewrite !app_eq_empty.
      split; [intros (_ & _ & _ & _ & [=] & _)|lia].
  - eexists. split; [done|]. rewrite !app_eq_empty.
    split; [intros (_ & _ & [=] & _)|tauto].
Qed.

Lemma gate_types_cases (type : string) :
  type ∈ gate_types_ ->
  type = "and" \/ type = "or" \/ type = "not" \/ type = "nor" \/
  type = "nand" \/ type = "xor" \/ type = "null" \/ type = "inhibit" \/
  type = "atleast".
Proof.
  unfold gate_types_. rewrite !elem_of_union, !elem_of_singleton. tauto.
Qed.

Lemma operator_cases (this : Event) :
  type_ this ∈ gate_types_ ->
  operator this = type_ this \/
  (type_ this = "and" /\ operator this = "inhibit").
Proof.
  intros _. unfold operator.
  destruct (String.eqb_spec (type_ this) "and") as [->|]; simpl; [|by left].
  destruct (Element_HasAttribute _ _); simpl; [|by left].
  destruct (String.eqb _ _); [right|left]; done.
Qed.

(** Membership of a given string in a given set, and equality of given
    strings, by evaluation. *)
Ltac evaluate_tests :=
  repeat match goal with
         | |- context [bool_decide (?s ∈ ?X)] =>
             let b := eval vm_compute in (bool_decide (s ∈ X)) in
             change (bool_decide (s ∈ X)) with b
         | |- context [String.eqb ?s ?t] =>
             let b := eval vm_compute in (String.eqb s t) in
             change (String.eqb s t) with b
         end;
  cbv iota.

Ltac nonempty_text := rewrite !app_eq_empty; intuition discriminate.

Ltac numeric_tests :=
  repeat match goal with
         | |- context [(?a <? ?b)%Z] => destruct (Z.ltb_spec a b)
         | |- context [(?a <=? ?b)%Z] => destruct (Z.leb_spec a b)
         | |- context [(?a =? ?b)%Z] => destruct (Z.eqb_spec a b)
         | |- context [(?a <=? ?b)%nat] => destruct (Nat.leb_spec a b)
         | |- context [(?a =? ?b)%nat] => destruct (Nat.eqb_spec a b)
         end.

Lemma arity_rule_no_children (this : Event) k c :
  type_ this ∈ gate_types_ -> arity_rule (operator this) 0 k c = false.
Proof.
  intros Htype.
  destruct (operator_cases this Htype) as [->|[_ ->]]; [|reflexivity].
  apply gate_types_cases in Htype.
  destruct Htype as [->|[->|[->|[->|[->|[->|[->|[-> | ->]]]]]]]]; reflexivity.
Qed.

(** [CheckGate] lets no exception out, and its message is empty exactly for a
    gate within the arity rule. *)
Lemma CheckGate_spec ra event :
  type_ (deref ra event) ∈ gate_types_ ->
  exists diagnostic,
    CheckGate ra event = Ok diagnostic /\
    (diagnostic <> "" <->
     arity_rule (operator (deref ra event))
                (size (children_ (deref ra event)))
                (vote_number_ (deref ra event))
                (conditionals ra (deref ra event)) = false).
Proof.
  intros Htype. unfold CheckGate.
  destruct (decide (children_ (deref ra event) = ∅)) as [He|Hne].
  - destruct (Gate_children_Throw _ He) as [m ->].
    eexists. split; [done|]. rewrite He, map_size_empty.
    rewrite arity_rule_no_children by done.
    split; [done|intros _; nonempty_text].
  - rewrite (Gate_children_Ok _ Hne).
    fold (operator (deref ra event)).
    assert (size (children_ (deref ra event)) <> 0) as Hsize.
    { intros H0. by apply map_size_empty_inv in H0. }
    destruct (CheckInhibitGate_spec ra event Hne) as (inhibit & Hinhibit & Hi).
    revert Hsize Hi.
    generalize (size (children_ (deref ra event))) as n.
    generalize (vote_number_ (deref ra event)) as k.
    generalize (conditionals ra (deref ra event)) as c.
    intros c k n Hsize Hi.
    assert (forall op,
              op ∈ gate_types_ ->
              exists diagnostic,
                (if bool_decide (op ∈ ({[ "and"; "or"; "nand"; "nor" ]} : gset string))
                 then if (Z.of_nat n <? 2)%Z
                      then Ok (orig_id_ (deref ra event) +:+ " : "
                               +:+ to_upper op
                               +:+ " gate must have 2 or more "
                               +:+ "children." +:+ nl)
                      else Ok ""
                 else if bool_decide (op ∈ ({[ "null"; "not" ]} : gset string))
                 then if negb (Z.of_nat n =? 1)%Z
                      then Ok (orig_id_ (deref ra event) +:+ " : "
                               +:+ to_upper op
                               +:+ " gate must have exactly one child.")
                      else Ok ""
                 else if String.eqb op "xor"
                 then if negb (Z.of_nat n =? 2)%Z
                      then Ok (orig_id_ (deref ra event) +:+ " : "
                               +:+ to_upper op
                               +:+ " gate must have exactly 2 children." +:+ nl)
                      else Ok ""
                 else if String.eqb op "inhibit" then CheckInhibitGate ra event
                 else if String.eqb op "atleast"
                 then if (Z.of_nat n <=? k)%Z
                      then Ok (orig_id_ (deref ra event) +:+ " : "
                               +:+ to_upper op
                               +:+ " gate must have more children than its vote number "
                               +:+ of_Z k +:+ ".")
                      else Ok ""
                 else Ok (orig_id_ (deref ra event)
                          +:+ " : Gate Check failure. No check for "
                          +:+ to_upper op +:+ " gate."))
                = Ok diagnostic /\
                (diagnostic <> "" <-> arity_rule op n k c = false)) as Hcases.
    { intros op Hop. apply gate_types_cases in Hop. unfold arity_rule.
      destruct Hop as [->|[->|[->|[->|[->|[->|[->|[-> | ->]]]]]]]];
        evaluate_tests.
      all: try (exists inhibit; split; [done|];
                destruct (Nat.eqb_spec n 2), (Nat.eqb_spec c 1); simpl;
                (split;
                 [intros Hd;
                  first [reflexivity | exfalso; apply Hd, Hi; by split]
                 |intros He;
                  first [discriminate He
                        | intros Hi'; apply Hi in Hi'; lia]])).
      all: numeric_tests; try lia; simpl;
        eexists; (split; [reflexivity|]);
        (split;
         [intros Hd; first [reflexivity | exfalso; by apply Hd]
         |intros He; first [discriminate He | nonempty_text]]). }
    apply Hcases.
    destruct (operator_cases _ Htype) as [->|[_ ->]]; [done|].
    unfold gate_types_. set_solver.
Qed.

End GateCheckFacts.

(** ** Reasoning about the state transformers *)
Section Transformers.
Import Text scram.

Lemma ends_with_ret {A} (a : A) ra (Q : Result A -> RiskAnalysis -> Prop) :
  Q (Ok a) ra -> ends_with (ret a) ra Q.
Proof. done. Qed.

Lemma ends_with_throw {A} (e : Error) ra
    (Q : Result A -> RiskAnalysis -> Prop) :
  Q (Throw e) ra -> ends_with (throw e) ra Q.
Proof. done. Qed.

Lemma ends_with_get ra (Q : Result RiskAnalysis -> RiskAnalysis -> Prop) :
  Q (Ok ra) ra -> ends_with get ra Q.
Proof. done. Qed.

Lemma ends_with_modify f ra (Q : Result unit -> RiskAnalysis -> Prop) :
  Q (Ok tt) (f ra) -> ends_with (modify f) ra Q.
Proof. done. Qed.

Lemma ends_with_bind {A B} (m : M A) (k : A -> M B) ra
    (Q : Result B -> RiskAnalysis -> Prop) :
  ends_with m ra (fun r ra' =>
                    match r with
                    | Ok a => ends_with (k a) ra' Q
                    | Throw e => Q (Throw e) ra'
                    end) ->
  ends_with (bind m k) ra Q.
Proof.
  unfold ends_with, bind. by destruct (m ra) as [[a|e] ra'].
Qed.

Lemma ends_with_weaken {A} (m : M A) ra
    (Q Q' : Result A -> RiskAnalysis -> Prop) :
  ends_with m ra Q -> (forall r ra', Q r ra' -> Q' r ra') ->
  ends_with m ra Q'.
Proof. unfold ends_with. auto. Qed.

Section Keeps.
Context (R : relation RiskAnalysis) `{!PreOrder R}.

Lemma keeps_ret {A} (a : A) : keeps R (ret a).
Proof. intros ra. simpl. reflexivity. Qed.

Lemma keeps_throw {A} (e : Error) : keeps R (throw (A := A) e).
Proof. intros ra. simpl. reflexivity. Qed.

Lemma keeps_get : keeps R get.
Proof. intros ra. simpl. reflexivity. Qed.

Lemma keeps_read {A} (f : RiskAnalysis -> Result A) : keeps R (read f).
Proof. intros ra. simpl. reflexivity. Qed.

Lemma keeps_bind {A B} (m : M A) (k : A -> M B) :
  keeps R m -> (forall a, keeps R (k a)) -> keeps R (bind m k).
Proof.
  intros Hm Hk ra. unfold bind. specialize (Hm ra).
  destruct (m ra) as [[a|e] ra']; simpl in *; [|done].
  etrans; [done|]. apply Hk.
Qed.

Lemma keeps_for_each {A} (l : list A) (body : A -> M unit) :
  (forall x, keeps R (body x)) -> keeps R (for_each l body).
Proof.
  intros Hbody. induction l as [|x l IH]; simpl.
  - apply keeps_ret.
  - apply keeps_bind; [apply Hbody|]. by intros _.
Qed.

Lemma keeps_catch_ValidationError {A} (body : M A) (handler : string -> M A) :
  keeps R body -> (forall msg, keeps R (handler msg)) ->
  keeps R (catch_ValidationError body handler).
Proof.
  intros Hbody Hhandler ra. unfold catch_ValidationError.
  specialize (Hbody ra).
  destruct (body ra) as [[a|[msg|msg|msg|msg]] ra']; simpl in *; try done.
  etrans; [done|]. apply Hhandler.
Qed.

Lemma keeps_modify (f : RiskAnalysis -> RiskAnalysis) :
  (forall ra, R ra (f ra)) -> keeps R (modify f).
Proof. intros Hf ra. apply Hf. Qed.

End Keeps.

(** From a relation kept to a property of the end. *)
Lemma ends_with_keeps (R : relation RiskAnalysis) {A} (m : M A) ra
    (Q : Result A -> RiskAnalysis -> Prop) :
  keeps R m -> (forall r ra', R ra ra' -> Q r ra') -> ends_with m ra Q.
Proof. intros Hm HQ. apply HQ, Hm. Qed.

Lemma ends_with_bind_keeps (R : relation RiskAnalysis) {A B} (m : M A)
    (k : A -> M B) ra (Q : Result B -> RiskAnalysis -> Prop) :
  keeps R m ->
  (forall a ra', R ra ra' -> ends_with (k a) ra' Q) ->
  (forall e ra', R ra ra' -> Q (Throw e) ra') ->
  ends_with (bind m k) ra Q.
Proof.
  intros Hm Hk He. apply ends_with_bind. apply (ends_with_keeps R); [done|].
  intros [a|e] ra' HR; auto.
Qed.

Lemma ends_with_eq {A} (m : M A) ra (Q : Result A -> RiskAnalysis -> Prop) r ra' :
  m ra = (r, ra') -> Q r ra' -> ends_with m ra Q.
Proof. unfold ends_with. by intros ->. Qed.

End Transformers.

(** ** The report of first-layer validation *)
Section FirstLayerFacts.
Import Text scram Spec.

Lemma foldl_pair_keeps {K V} (f : K -> V -> string) (l : list (K * V))
    (init s : string) :
  mentions init s ->
  mentions (foldl (fun msg '(k, v) => msg +:+ f k v) init l) s.
Proof.
  revert init. induction l as [|[k v] l IH]; intros init Hinit; simpl; [done|].
  apply IH. by apply mentions_app_l.
Qed.

Lemma foldl_pair_mentions {K V} (f : K -> V -> string) (l : list (K * V))
    (init : string) (k : K) (v : V) :
  (k, v) ∈ l ->
  mentions (foldl (fun msg '(k, v) => msg +:+ f k v) init l) (f k v).
Proof.
  revert init. induction l as [|[k' v'] l IH]; intros init;
    [by intros ?%elem_of_nil|].
  intros [[= -> ->]|Hx]%elem_of_cons; simpl.
  - apply foldl_pair_keeps, mentions_app_r, mentions_refl.
  - by apply IH.
Qed.

Lemma foldl_pair_nonempty {K V} (f : K -> V -> string) (l : list (K * V))
    (init : string) :
  init <> "" -> foldl (fun msg '(k, v) => msg +:+ f k v) init l <> "".
Proof.
  revert init. induction l as [|[k v] l IH]; intros init Hinit; simpl; [done|].
  apply IH. rewrite app_eq_empty. tauto.
Qed.

Lemma foldl_pair_empty {K V} (f : K -> V -> string) (l : list (K * V)) :
  foldl (fun msg '(k, v) => msg +:+ f k v) "" l = "" <->
  forall k v, (k, v) ∈ l -> f k v = "".
Proof.
  induction l as [|[k v] l IH]; simpl.
  - split; [|done]. by intros _ k v ?%elem_of_nil.
  - rewrite app_nil_l. destruct (decide (f k v = "")) as [He|Hne].
    + rewrite He, IH. split.
      * intros Hl k' v' [[= -> ->]|?]%elem_of_cons; auto.
      * intros Hl k' v' ?. apply Hl. by right.
    + split.
      * intros Hf. by destruct (foldl_pair_nonempty f l (f k v) Hne).
      * intros Hl. destruct Hne. apply Hl. left.
Qed.

(** [CheckGate] lets no exception out. *)
Lemma CheckGate_Ok ra event : CheckGate ra event = Ok (diagnostic ra event).
Proof.
  unfold diagnostic.
  enough (exists msg, CheckGate ra event = Ok msg) as [msg ->] by done.
  unfold CheckGate.
  destruct (decide (children_ (deref ra event) = ∅)) as [He|Hne].
  - destruct (Gate_children_Throw _ He) as [m ->]. by eexists.
  - rewrite (Gate_children_Ok _ Hne).
    destruct (CheckInhibitGate_spec ra event Hne) as (inhibit & -> & _).
    repeat match goal with
           | |- context [if ?b then _ else _] => destruct b
           end; by eexists.
Qed.

Lemma CheckAllGates_fold ra (l : list (string * loc)) (init : string) :
  foldl (fun msg '(_, second) =>
           result_bind msg (fun msg =>
           result_bind (CheckGate ra second) (fun bad =>
           Ok (msg +:+ bad))))
        (Ok init) l
  = Ok (foldl (fun msg '(_, second) => msg +:+ diagnostic ra second) init l).
Proof.
  revert init. induction l as [|[k v] l IH]; intros init; simpl; [done|].
  rewrite CheckGate_Ok. simpl. apply IH.
Qed.

Lemma CheckAllGates_Ok ra :
  CheckAllGates ra
  = Ok (foldl (fun msg '(_, second) => msg +:+ diagnostic ra second) ""
              (map_to_list (gates_ ra))).
Proof. apply CheckAllGates_fold. Qed.

Lemma error_messages_Ok ra :
  error_messages ra
  = Ok ((if negb (String.eqb (bad_gates_report ra) "")
         then undefined_gates_report ra +:+ nl
              +:+ "There are problems with the initialized gates:" +:+ nl
              +:+ bad_gates_report ra
         else undefined_gates_report ra)
        +:+ (if prob_requested_ ra
             then CheckMissingEvents ra +:+ CheckMissingParameters ra
             else "")).
Proof.
  unfold error_messages. rewrite CheckAllGates_Ok. simpl.
  fold (bad_gates_report ra). fold (undefined_gates_report ra).
  destruct (prob_requested_ ra); [done|by rewrite app_nil_r].
Qed.

Lemma undefined_gates_report_mentions ra id gate :
  tbd_gates_ ra !! id = Some gate ->
  mentions (undefined_gates_report ra) (orig_id_ (deref ra gate)) /\
  undefined_gates_report ra <> "".
Proof.
  intros Hgate. unfold undefined_gates_report.
  unfold is_empty.
  rewrite bool_decide_eq_false_2 by (intros He; by rewrite He in Hgate).
  simpl negb. cbv iota. split.
  - eapply mentions_trans.
    + apply (foldl_pair_mentions
               (fun (_ : string) second => orig_id_ (deref ra second) +:+ nl)
               _ _ id gate).
      by apply elem_of_map_to_list.
    + apply mentions_app_l, mentions_refl.
  - apply (foldl_pair_nonempty
             (fun (_ : string) second => orig_id_ (deref ra second) +:+ nl)).
    by rewrite app_nil_l.
Qed.

Lemma bad_gates_report_mentions ra id gate :
  gates_ ra !! id = Some gate ->
  mentions (bad_gates_report ra) (diagnostic ra gate).
Proof.
  intros Hgate.
  apply (foldl_pair_mentions (fun (_ : string) second => diagnostic ra second)
           _ _ id gate).
  by apply elem_of_map_to_list.
Qed.

Lemma bad_gates_report_nonempty ra id gate :
  gates_ ra !! id = Some gate -> diagnostic ra gate <> "" ->
  bad_gates_report ra <> "".
Proof.
  intros Hgate Hd He. apply Hd.
  apply (proj1 (foldl_pair_empty
                  (fun (_ : string) second => diagnostic ra second) _) He id).
  by apply elem_of_map_to_list.
Qed.

Lemma report_block_keeps {V} (m : gmap string V) header line init s :
  mentions init s -> mentions (report_block m header line init) s.
Proof.
  intros Hinit. unfold report_block. destruct (negb _); [|done].
  by apply foldl_pair_keeps, mentions_app_l.
Qed.

Lemma report_block_nonempty {V} (m : gmap string V) header line init :
  init <> "" -> report_block m header line init <> "".
Proof.
  intros Hinit. unfold report_block. destruct (negb _); [|done].
  apply foldl_pair_nonempty. rewrite app_eq_empty. tauto.
Qed.

Lemma report_block_mentions {V} (m : gmap string V) header line init k v :
  m !! k = Some v -> header <> "" ->
  mentions (report_block m header line init) (line k v) /\
  report_block m header line init <> "".
Proof.
  intros Hk Hheader. unfold report_block, is_empty.
  rewrite bool_decide_eq_false_2 by (intros He; by rewrite He in Hk).
  simpl negb. cbv iota. split.
  - apply foldl_pair_mentions. by apply elem_of_map_to_list.
  - apply foldl_pair_nonempty. rewrite app_eq_empty. tauto.
Qed.

Lemma CheckMissingEvents_blocks ra :
  CheckMissingEvents ra
  = report_block (tbd_events_ ra)
      (nl +:+ "Missing definitions for Untyped events:" +:+ nl)
      (fun first _ => find (tbd_orig_ids_ ra) first +:+ nl)
      (report_block (tbd_basic_events_ ra)
         (nl +:+ "Missing definitions for Basic events:" +:+ nl)
         (fun _ second => orig_id_ (deref ra second) +:+ nl)
         (report_block (tbd_house_events_ ra)
            (nl +:+ "Missing definitions for House events:" +:+ nl)
            (fun _ second => orig_id_ (deref ra second) +:+ nl)
            "")).
Proof. reflexivity. Qed.

Lemma CheckMissingParameters_blocks ra :
  CheckMissingParameters ra
  = report_block (tbd_parameters_ ra)
      (nl +:+ "Missing parameter definitions:" +:+ nl)
      (fun first _ => first +:+ nl) "".
Proof. reflexivity. Qed.

Lemma line_mentions (msg s : string) :
  mentions msg (s +:+ nl) -> mentions msg s.
Proof.
  intros H. eapply mentions_trans; [done|]. apply mentions_app_l, mentions_refl.
Qed.

Lemma CheckMissingEvents_house ra id event :
  tbd_house_events_ ra !! id = Some event ->
  mentions (CheckMissingEvents ra) (orig_id_ (deref ra event)) /\
  CheckMissingEvents ra <> "".
Proof.
  intros H. rewrite CheckMissingEvents_blocks.
  destruct (report_block_mentions (tbd_house_events_ ra)
              (nl +:+ "Missing definitions for House events:" +:+ nl)
              (fun _ second => orig_id_ (deref ra second) +:+ nl) "" id event H)
    as [Hm Hne]; [done|].
  split.
  - by apply report_block_keeps, report_block_keeps, line_mentions.
  - by apply report_block_nonempty, report_block_nonempty.
Qed.

Lemma CheckMissingEvents_basic ra id event :
  tbd_basic_events_ ra !! id = Some event ->
  mentions (CheckMissingEvents ra) (orig_id_ (deref ra event)) /\
  CheckMissingEvents ra <> "".
Proof.
  intros H. rewrite CheckMissingEvents_blocks.
  set (house := report_block (tbd_house_events_ ra) _ _ _).
  destruct (report_block_mentions (tbd_basic_events_ ra)
              (nl +:+ "Missing definitions for Basic events:" +:+ nl)
              (fun _ second => orig_id_ (deref ra second) +:+ nl) house
              id event H)
    as [Hm Hne]; [done|].
  split.
  - by apply report_block_keeps, line_mentions.
  - by apply report_block_nonempty.
Qed.

Lemma CheckMissingEvents_untyped ra id gates orig_id :
  tbd_events_ ra !! id = Some gates ->
  tbd_orig_ids_ ra !! id = Some orig_id ->
  mentions (CheckMissingEvents ra) orig_id /\ CheckMissingEvents ra <> "".
Proof.
  intros H Horig. rewrite CheckMissingEvents_blocks.
  set (basic := report_block (tbd_basic_events_ ra) _ _ _).
  destruct (report_block_mentions (tbd_events_ ra)
              (nl +:+ "Missing definitions for Untyped events:" +:+ nl)
              (fun first _ => find (tbd_orig_ids_ ra) first +:+ nl) basic
              id gates H)
    as [Hm Hne]; [done|].
  split; [|done]. apply line_mentions.
  replace orig_id with (find (tbd_orig_ids_ ra) id); [done|].
  unfold find. by rewrite lookup_total_alt, Horig.
Qed.

Lemma CheckMissingParameters_mentions ra name parameter :
  tbd_parameters_ ra !! name = Some parameter ->
  mentions (CheckMissingParameters ra) name /\ CheckMissingParameters ra <> "".
Proof.
  intros H. rewrite CheckMissingParameters_blocks.
  destruct (report_block_mentions (tbd_parameters_ ra)
              (nl +:+ "Missing parameter definitions:" +:+ nl)
              (fun first (_ : loc) => first +:+ nl) "" name parameter H)
    as [Hm Hne]; [done|].
  split; [|done]. by apply line_mentions.
Qed.

(** Every defect is in the report, and the report is not empty. *)
Lemma error_messages_defect ra d :
  defect ra d ->
  exists msg, error_messages ra = Ok msg /\ mentions msg d /\ msg <> "".
Proof.
  intros Hd. rewrite error_messages_Ok. eexists. split; [done|].
  destruct Hd as [id gate Hgate|id gate d Hgate Hcheck Hd|id event Hprob H
                 |id event Hprob H|id gates orig_id Hprob H Horig
                 |name parameter Hprob H].
  - destruct (undefined_gates_report_mentions ra id gate Hgate) as [Hm Hne].
    split.
    + apply mentions_app_l. destruct (negb _); [|done]. by apply mentions_app_l.
    + rewrite app_eq_empty. intros [He _]. destruct (negb _); [|done].
      rewrite app_eq_empty in He. tauto.
  - assert (diagnostic ra gate = d) as <-.
    { unfold diagnostic. by rewrite Hcheck. }
    pose proof (bad_gates_report_mentions ra id gate Hgate) as Hm.
    pose proof (bad_gates_report_nonempty ra id gate Hgate Hd) as Hne.
    destruct (String.eqb_spec (bad_gates_report ra) "") as [|_]; [done|].
    simpl negb. cbv iota. split.
    + apply mentions_app_l. by do 4 apply mentions_app_r.
    + rewrite !app_eq_empty. tauto.
  - rewrite Hprob. destruct (CheckMissingEvents_house ra id event H).
    split.
    + by apply mentions_app_r, mentions_app_l.
    + rewrite !app_eq_empty. tauto.
  - rewrite Hprob. destruct (CheckMissingEvents_basic ra id event H).
    split.
    + by apply mentions_app_r, mentions_app_l.
    + rewrite !app_eq_empty. tauto.
  - rewrite Hprob.
    destruct (CheckMissingEvents_untyped ra id gates orig_id H Horig).
    split.
    + by apply mentions_app_r, mentions_app_l.
    + rewrite !app_eq_empty. tauto.
  - rewrite Hprob.
    destruct (CheckMissingParameters_mentions ra name parameter H).
    split.
    + by apply mentions_app_r, mentions_app_r.
    + rewrite !app_eq_empty. tauto.
Qed.

(** With a defect in the model, first-layer validation throws the report. *)
Lemma CheckFirstLayer_defects (ext : External) (ra : RiskAnalysis)
    (d : string) :
  defect ra d ->
  exists msg,
    CheckFirstLayer ext ra = Throw (ValidationError msg) /\
    forall d', defect ra d' -> mentions msg d'.
Proof.
  intros Hd. destruct (error_messages_defect ra d Hd) as (msg & Hmsg & _ & Hne).
  exists msg. split.
  - unfold CheckFirstLayer. rewrite Hmsg. simpl.
    by destruct (String.eqb_spec msg "").
  - intros d' Hd'.
    destruct (error_messages_defect ra d' Hd') as (msg' & Hmsg' & Hm & _).
    congruence.
Qed.


End FirstLayerFacts.

(** ** The claims on first-layer validation *)
Section FirstLayerClaims.
Import Text scram Spec.



(** [CheckGate] itself does not look at the vote number of an ATLEAST gate
    but to compare it with the number of children: for the gate of
    [atleast_one_state], with vote number 1 and 2 children, it has no
    diagnostic.  The lower bound of the vote number is the business of
    [Gate::vote_number(int)]. *)
Remark CheckGate_leaves_vote_number_bound :
  vote_number_ (deref Samples.atleast_one_state 1%positive) = 1%Z /\
  size (children_ (deref Samples.atleast_one_state 1%positive)) = 2 /\
  CheckGate Samples.atleast_one_state 1%positive = Ok "".
Proof. repeat split; vm_compute; reflexivity. Qed.

End FirstLayerClaims.

(** ** What the builder never undoes *)
Section Extension.
Import Text scram.

#[local] Instance later_stage_preorder : PreOrder later_stage.
Proof.
  split.
  - intros o. unfold later_stage. split_and!; reflexivity.
  - intros o1 o2 o3 (? & ? & ? & ? & ?) (? & ? & ? & ? & ?).
    unfold later_stage. split_and!; try congruence; by etrans.
Qed.

#[global] Instance extends_preorder : PreOrder extends.
Proof.
  split.
  - intros ra. unfold extends. split_and!; try reflexivity; eauto 10.
    intros ptr o Ho. exists o. split; [done|reflexivity].
  - intros ra1 ra2 ra3 (He & Hg & Hp & Hb & Hpar & Hft & Hccf & Hx)
                       (He' & Hg' & Hp' & Hb' & Hpar' & Hft' & Hccf' & Hx').
    split_and!; try (by etrans).
    + intros ptr o Ho. destruct (He ptr o Ho) as (o2 & Ho2 & Hs).
      destruct (He' ptr o2 Ho2) as (o3 & Ho3 & Hs').
      exists o3. split; [done|]. by etrans.
    + intros id ft Hid. destruct (Hft id ft Hid) as (ft2 & Hft2 & Hn).
      destruct (Hft' id ft2 Hft2) as (ft3 & Hft3 & Hn').
      exists ft3. split; [done|]. congruence.
    + intros id g Hid. destruct (Hccf id g Hid) as (g2 & Hg2 & Hn).
      destruct (Hccf' id g2 Hg2) as (g3 & Hg3 & Hn').
      exists g3. split; [done|]. congruence.
    + intros ptr name unit e el Hptr.
      destruct (Hx ptr name unit e el Hptr) as (u2 & e2 & el2 & H2).
      apply (Hx' ptr name u2 e2 el2 H2).
Qed.

Lemma map_insert_subseteq {V} (k : string) (v : V) (m : gmap string V) :
  m ⊆ map_insert k v m.
Proof.
  unfold map_insert. destruct (m !! k) eqn:Hk; [done|].
  by apply insert_subseteq.
Qed.

Lemma map_insert_lookup {V} (k : string) (v : V) (m : gmap string V) :
  m !! k = None -> map_insert k v m !! k = Some v.
Proof. intros Hk. unfold map_insert. rewrite Hk. apply lookup_insert_eq. Qed.

Lemma map_insert_lookup_ne {V} (k k' : string) (v : V) (m : gmap string V) :
  k <> k' -> map_insert k v m !! k' = m !! k'.
Proof.
  intros Hk. unfold map_insert. destruct (m !! k); [done|].
  by apply lookup_insert_ne.
Qed.

Lemma map_insert_is_Some {V} (k : string) (v : V) (m : gmap string V) :
  is_Some (map_insert k v m !! k).
Proof.
  unfold map_insert. destruct (m !! k) eqn:Hk; [by rewrite Hk|].
  rewrite lookup_insert_eq. by eexists.
Qed.

(** The steps that change a map of the state. *)
Ltac extends_step :=
  intros [];
  unfold extends; simpl;
  split_and!;
  first [ reflexivity | apply map_insert_subseteq | by eauto 10
        | intros ? ? ?; eexists; split; [eassumption|reflexivity] ].

Lemma extends_set_prob_requested_ b ra : extends ra (set_prob_requested_ b ra).
Proof. revert ra. extends_step. Qed.

Lemma extends_set_gates_ id gate ra :
  extends ra (set_gates_ (map_insert id gate) ra).
Proof. revert ra. extends_step. Qed.

Lemma extends_set_primary_events_ id event ra :
  extends ra (set_primary_events_ (map_insert id event) ra).
Proof. revert ra. extends_step. Qed.

Lemma extends_set_basic_events_ id event ra :
  extends ra (set_basic_events_ (map_insert id event) ra).
Proof. revert ra. extends_step. Qed.

Lemma extends_set_parameters_ name parameter ra :
  extends ra (set_parameters_ (map_insert name parameter) ra).
Proof. revert ra. extends_step. Qed.

Lemma extends_set_tbd_gates_ f ra : extends ra (set_tbd_gates_ f ra).
Proof. revert ra. extends_step. Qed.

Lemma extends_set_tbd_basic_events_ f ra :
  extends ra (set_tbd_basic_events_ f ra).
Proof. revert ra. extends_step. Qed.

Lemma extends_set_tbd_house_events_ f ra :
  extends ra (set_tbd_house_events_ f ra).
Proof. revert ra. extends_step. Qed.

Lemma extends_set_tbd_events_ f ra : extends ra (set_tbd_events_ f ra).
Proof. revert ra. extends_step. Qed.

Lemma extends_set_tbd_orig_ids_ f ra : extends ra (set_tbd_orig_ids_ f ra).
Proof. revert ra. extends_step. Qed.

Lemma extends_set_tbd_parameters_ f ra : extends ra (set_tbd_parameters_ f ra).
Proof. revert ra. extends_step. Qed.

Lemma extends_set_expressions_ f ra : extends ra (set_expressions_ f ra).
Proof. revert ra. extends_step. Qed.

Lemma extends_set_orphan_primary_events_ f ra :
  extends ra (set_orphan_primary_events_ f ra).
Proof. revert ra. extends_step. Qed.

(** The member functions of the events. *)
Lemma stable_Gate_AddChild id child : stable_method (Gate_AddChild id child).
Proof.
  intros []. unfold later_stage. simpl. split_and!; try reflexivity.
  apply map_insert_subseteq.
Qed.

Lemma stable_Event_AddParent id parent :
  stable_method (Event_AddParent id parent).
Proof.
  intros []. unfold later_stage. simpl. split_and!; try reflexivity.
  apply map_insert_subseteq.
Qed.

Lemma stable_Gate_type type : stable_method (Gate_type type).
Proof. intros []. unfold later_stage. simpl. split_and!; reflexivity. Qed.

Lemma stable_Gate_vote_number k : stable_method (Gate_vote_number k).
Proof. intros []. unfold later_stage. simpl. split_and!; reflexivity. Qed.

Lemma stable_Event_set_element f : stable_method (Event_set_element f).
Proof. intros []. unfold later_stage. simpl. split_and!; reflexivity. Qed.

Lemma stable_BasicEvent_expression e : stable_method (BasicEvent_expression e).
Proof. intros []. unfold later_stage. simpl. split_and!; reflexivity. Qed.

Lemma stable_HouseEvent_state b : stable_method (HouseEvent_state b).
Proof. intros []. unfold later_stage. simpl. split_and!; reflexivity. Qed.

Ltac extends_rest :=
  first [ reflexivity | by eauto 10
        | intros ? ? ?; eexists; split; [eassumption|reflexivity] ].

Lemma extends_call ptr method ra :
  stable_method method -> extends ra (set_events (alter method ptr) ra).
Proof.
  intros Hm. destruct ra. unfold extends. simpl. split_and!; try extends_rest.
  intros l o Ho. destruct (decide (l = ptr)) as [->|Hne].
  - exists (method o). rewrite lookup_alter_eq, Ho. split; [done|apply Hm].
  - exists o. rewrite lookup_alter_ne by done. split; [done|reflexivity].
Qed.

Lemma extends_new_event e ra : extends ra (new_event e ra).2.
Proof.
  unfold new_event. simpl.
  pose proof (is_fresh (dom (events ra))) as Hfresh.
  destruct ra. unfold extends. simpl in *. split_and!; try extends_rest.
  intros l o Ho. exists o. split; [|reflexivity].
  rewrite lookup_insert_ne; [done|].
  intros <-. apply Hfresh. apply elem_of_dom. by eexists.
Qed.

Lemma extends_new_expr e ra : extends ra (new_expr e ra).2.
Proof.
  unfold new_expr. simpl.
  pose proof (is_fresh (dom (exprs ra))) as Hfresh.
  destruct ra. unfold extends. simpl in *. split_and!; try extends_rest.
  intros l name unit e' el Hl. exists unit, e', el.
  rewrite lookup_insert_ne; [done|].
  intros <-. apply Hfresh. apply elem_of_dom. by eexists.
Qed.

Lemma extends_alter_parameter f ptr ra :
  (forall name unit e el,
      exists unit' e' el',
        f (ParameterObject name unit e el) = ParameterObject name unit' e' el') ->
  extends ra (set_exprs (alter f ptr) ra).
Proof.
  intros Hf. destruct ra. unfold extends. simpl. split_and!; try extends_rest.
  intros l name unit e el Hl. destruct (decide (l = ptr)) as [->|Hne].
  - rewrite lookup_alter_eq, Hl. simpl.
    destruct (Hf name unit e el) as (u' & e' & el' & ->). eauto.
  - rewrite lookup_alter_ne by done. eauto.
Qed.

Lemma extends_insert_parameter ptr name unit e el unit' e' el' ra :
  exprs ra !! ptr = Some (ParameterObject name unit e el) ->
  extends ra (set_exprs (<[ptr := ParameterObject name unit' e' el']>) ra).
Proof.
  intros Hptr. destruct ra. unfold extends. simpl in *.
  split_and!; try extends_rest.
  intros l name0 unit0 e0 el0 Hl. destruct (decide (l = ptr)) as [->|Hne].
  - rewrite lookup_insert_eq. rewrite Hptr in Hl. injection Hl as <- _ _ _.
    eauto.
  - rewrite lookup_insert_ne by done. eauto.
Qed.

Lemma extends_alter_fault_tree f id ra :
  (forall ft, ft_name_ (f ft) = ft_name_ ft) ->
  extends ra (set_fault_trees_ (alter f id) ra).
Proof.
  intros Hf. destruct ra. unfold extends. simpl. split_and!; try extends_rest.
  intros id' ft Hid. destruct (decide (id' = id)) as [->|Hne].
  - exists (f ft). by rewrite lookup_alter_eq, Hid.
  - exists ft. by rewrite lookup_alter_ne.
Qed.

Lemma extends_insert_fault_tree id ft ra :
  extends ra (set_fault_trees_ (map_insert id ft) ra).
Proof.
  destruct ra. unfold extends. simpl. split_and!; try extends_rest.
  intros id' ft' Hid. exists ft'. split; [|done].
  by apply (lookup_weaken _ _ _ _ Hid), map_insert_subseteq.
Qed.

Lemma extends_alter_ccf_group f id ra :
  (forall g, ccf_name_ (f g) = ccf_name_ g) ->
  extends ra (set_ccf_groups_ (alter f id) ra).
Proof.
  intros Hf. destruct ra. unfold extends. simpl. split_and!; try extends_rest.
  intros id' g Hid. destruct (decide (id' = id)) as [->|Hne].
  - exists (f g). by rewrite lookup_alter_eq, Hid.
  - exists g. by rewrite lookup_alter_ne.
Qed.

Lemma extends_insert_ccf_group id g ra :
  extends ra (set_ccf_groups_ (map_insert id g) ra).
Proof.
  destruct ra. unfold extends. simpl. split_and!; try extends_rest.
  intros id' g' Hid. exists g'. split; [|done].
  by apply (lookup_weaken _ _ _ _ Hid), map_insert_subseteq.
Qed.

End Extension.

(** ** The builder only extends the state *)
Section Builder.
Import Text scram.

Lemma builder_ret {A} (a : A) : keeps extends (ret a).
Proof. apply keeps_ret, _. Qed.

Lemma builder_throw {A} (e : Error) : keeps extends (throw (A := A) e).
Proof. apply keeps_throw, _. Qed.

Lemma builder_get : keeps extends get.
Proof. apply keeps_get, _. Qed.

Lemma builder_bind {A B} (m : M A) (k : A -> M B) :
  keeps extends m -> (forall a, keeps extends (k a)) -> keeps extends (bind m k).
Proof. apply keeps_bind, _. Qed.

Lemma builder_for_each {A} (l : list A) (body : A -> M unit) :
  (forall x, keeps extends (body x)) -> keeps extends (for_each l body).
Proof. apply keeps_for_each, _. Qed.

Lemma builder_catch {A} (body : M A) (handler : string -> M A) :
  keeps extends body -> (forall msg, keeps extends (handler msg)) ->
  keeps extends (catch_ValidationError body handler).
Proof. apply keeps_catch_ValidationError, _. Qed.

Lemma builder_call ptr method :
  stable_method method -> keeps extends (call ptr method).
Proof. intros Hm ra. by apply extends_call. Qed.

Lemma builder_new_event e : keeps extends (new_event e).
Proof. intros ra. apply extends_new_event. Qed.

Lemma builder_new_expr e : keeps extends (new_expr e).
Proof. intros ra. apply extends_new_expr. Qed.

Lemma FaultTree_AddGate_name gate ft :
  ft_name_ (FaultTree_AddGate gate ft) = ft_name_ ft.
Proof. done. Qed.

Lemma FaultTree_set_element_name f ft :
  ft_name_ (FaultTree_set_element f ft) = ft_name_ ft.
Proof. done. Qed.

Lemma CcfGroup_set_element_name f g :
  ccf_name_ (CcfGroup_set_element f g) = ccf_name_ g.
Proof. by destruct g. Qed.

Lemma CcfGroup_AddMember_name e g :
  ccf_name_ (CcfGroup_AddMember e g) = ccf_name_ g.
Proof. by destruct g. Qed.

Lemma CcfGroup_AddDistribution_name e g :
  ccf_name_ (CcfGroup_AddDistribution e g) = ccf_name_ g.
Proof. by destruct g. Qed.

Lemma CcfGroup_AddFactor_name e level g :
  ccf_name_ (CcfGroup_AddFactor e level g) = ccf_name_ g.
Proof. by destruct g. Qed.

Lemma Parameter_set_element_name f name unit e el :
  exists unit' e' el',
    Parameter_set_element f (ParameterObject name unit e el)
    = ParameterObject name unit' e' el'.
Proof. simpl. eauto. Qed.

Lemma Parameter_unit_name u name unit e el :
  exists unit' e' el',
    Parameter_unit u (ParameterObject name unit e el)
    = ParameterObject name unit' e' el'.
Proof. simpl. eauto. Qed.

Create HintDb builder discriminated.

#[local] Hint Resolve builder_ret builder_throw builder_get builder_bind
  builder_for_each builder_catch builder_call builder_new_event
  builder_new_expr keeps_modify : builder.
#[local] Hint Resolve stable_Gate_AddChild stable_Event_AddParent
  stable_Gate_type stable_Gate_vote_number stable_Event_set_element
  stable_BasicEvent_expression stable_HouseEvent_state : builder.
#[local] Hint Resolve extends_set_prob_requested_ extends_set_gates_
  extends_set_primary_events_ extends_set_basic_events_
  extends_set_parameters_ extends_set_tbd_gates_
  extends_set_tbd_basic_events_ extends_set_tbd_house_events_
  extends_set_tbd_events_ extends_set_tbd_orig_ids_
  extends_set_tbd_parameters_ extends_set_expressions_
  extends_set_orphan_primary_events_ extends_alter_parameter
  extends_alter_fault_tree extends_insert_fault_tree
  extends_alter_ccf_group extends_insert_ccf_group : builder.
#[local] Hint Resolve FaultTree_AddGate_name FaultTree_set_element_name
  CcfGroup_set_element_name CcfGroup_AddMember_name
  CcfGroup_AddDistribution_name CcfGroup_AddFactor_name
  Parameter_set_element_name Parameter_unit_name : builder.
#[local] Hint Extern 0 (keeps _ _) => progress (cbv beta zeta) : builder.
#[local] Hint Extern 2 (keeps _ (match ?x with _ => _ end)) =>
  destruct x : builder.

Ltac builder := cbv beta zeta; auto 60 with builder.

Lemma builder_AddChild gate child : keeps extends (AddChild gate child).
Proof. unfold AddChild. builder. Qed.

Lemma builder_AddParent child gate : keeps extends (AddParent child gate).
Proof. unfold AddParent. builder. Qed.

#[local] Hint Resolve builder_AddChild builder_AddParent : builder.

Lemma builder_UpdateIfLateEvent event : keeps extends (UpdateIfLateEvent event).
Proof. unfold UpdateIfLateEvent. builder. Qed.

#[local] Hint Resolve builder_UpdateIfLateEvent : builder.

Lemma builder_ProcessFormulaEvent gate id orig_id :
  keeps extends (ProcessFormulaEvent gate id orig_id).
Proof. unfold ProcessFormulaEvent. builder. Qed.

Lemma builder_ProcessFormulaBasicEvent event gate id orig_id :
  keeps extends (ProcessFormulaBasicEvent event gate id orig_id).
Proof. unfold ProcessFormulaBasicEvent. builder. Qed.

Lemma builder_ProcessFormulaHouseEvent event gate id orig_id :
  keeps extends (ProcessFormulaHouseEvent event gate id orig_id).
Proof. unfold ProcessFormulaHouseEvent. builder. Qed.

Lemma builder_ProcessFormulaGate event gate id orig_id :
  keeps extends (ProcessFormulaGate event gate id orig_id).
Proof. unfold ProcessFormulaGate. builder. Qed.

#[local] Hint Resolve builder_ProcessFormulaEvent
  builder_ProcessFormulaBasicEvent builder_ProcessFormulaHouseEvent
  builder_ProcessFormulaGate : builder.

Lemma builder_ProcessFormula_loop children_id gate events :
  keeps extends (ProcessFormula_loop children_id gate events).
Proof.
  revert children_id. induction events as [|event events IH];
    intros children_id; simpl; builder.
Qed.

Lemma builder_ProcessFormula gate events :
  keeps extends (ProcessFormula gate events).
Proof. apply builder_ProcessFormula_loop. Qed.

Lemma builder_AttachLabelAndAttributes node element :
  keeps extends (AttachLabelAndAttributes node element).
Proof. unfold AttachLabelAndAttributes. builder. Qed.

#[local] Hint Resolve builder_ProcessFormula builder_AttachLabelAndAttributes
  : builder.

Lemma builder_DefineGate ext gate_node ft :
  keeps extends (DefineGate ext gate_node ft).
Proof. unfold DefineGate, Gate_vote_number_set. builder. Qed.

#[local] Hint Resolve builder_DefineGate : builder.

(** Induction over the expression elements, with the hypothesis for the two
    children of every bin of a histogram. *)
Lemma XmlExpr_induction (Q : XmlExpr -> Prop) :
  (forall v, Q (xml_float v)) -> (forall v, Q (xml_int v)) ->
  (forall v, Q (xml_bool v)) -> (forall name, Q (xml_parameter name)) ->
  Q xml_system_mission_time ->
  (forall a b, Q a -> Q b -> Q (xml_uniform_deviate a b)) ->
  (forall a b, Q a -> Q b -> Q (xml_normal_deviate a b)) ->
  (forall a b c, Q a -> Q b -> Q c -> Q (xml_lognormal_deviate a b c)) ->
  (forall a b, Q a -> Q b -> Q (xml_gamma_deviate a b)) ->
  (forall a b, Q a -> Q b -> Q (xml_beta_deviate a b)) ->
  (forall bins, Forall (fun bin => Q bin.1 /\ Q bin.2) bins ->
                Q (xml_histogram bins)) ->
  (forall a b, Q a -> Q b -> Q (xml_exponential a b)) ->
  (forall a b c d, Q a -> Q b -> Q c -> Q d -> Q (xml_GLM a b c d)) ->
  (forall a b c d, Q a -> Q b -> Q c -> Q d -> Q (xml_Weibull a b c d)) ->
  (forall line name, Q (xml_other line name)) ->
  forall e, Q e.
Proof.
  intros Hf Hi Hb Hp Hm Hu Hn Hl Hg Hbe Hh He Hglm Hw Ho.
  fix IH 1. intros [v|v|v|name| |a b|a b|a b c|a b|a b|bins|a b|a b c d
                   |a b c d|line name].
  - apply Hf.
  - apply Hi.
  - apply Hb.
  - apply Hp.
  - apply Hm.
  - apply Hu; apply IH.
  - apply Hn; apply IH.
  - apply Hl; apply IH.
  - apply Hg; apply IH.
  - apply Hbe; apply IH.
  - apply Hh. induction bins as [|[a b] bins IHbins]; constructor.
    + split; apply IH.
    + apply IHbins.
  - apply He; apply IH.
  - apply Hglm; apply IH.
  - apply Hw; apply IH.
  - apply Ho.
Qed.

Lemma GetExpression_unfold (expr_element : XmlExpr) :
  GetExpression expr_element =
  (constant <- GetConstantExpression expr_element ;;
   expression <-
     match constant with
     | Some expression => ret expression
     | None =>
         parameter <- GetParameterExpression expr_element ;;
         match parameter with
         | Some expression => ret expression
         | None =>
             deviate <- GetDeviateExpression_with GetExpression expr_element ;;
             match deviate with
             | Some expression => ret expression
             | None =>
                 throw (ValidationError
                          (Line (expr_line expr_element)
                           +:+ "Unsupported expression: "
                           +:+ expr_name expr_element))
             end
         end
     end ;;
   modify (set_expressions_ (fun s => {[ expression ]} ∪ s)) ;;;
   ret expression).
Proof. by destruct expr_element. Qed.

Lemma builder_GetConstantExpression e : keeps extends (GetConstantExpression e).
Proof. unfold GetConstantExpression. builder. Qed.

Lemma builder_GetParameterExpression e :
  keeps extends (GetParameterExpression e).
Proof. unfold GetParameterExpression. builder. Qed.

#[local] Hint Resolve builder_GetConstantExpression
  builder_GetParameterExpression : builder.

Lemma builder_histogram_bins (bins : list (XmlExpr * XmlExpr)) :
  Forall (fun bin => keeps extends (GetExpression bin.1) /\
                     keeps extends (GetExpression bin.2)) bins ->
  keeps extends
    ((fix loop (bins : list (XmlExpr * XmlExpr)) : M (list loc * list loc) :=
        match bins with
        | [] => ret ([], [])
        | (e0, e1) :: bins' =>
            bound <- GetExpression e0 ;;
            weight <- GetExpression e1 ;;
            rest <- loop bins' ;;
            ret (bound :: rest.1, weight :: rest.2)
        end) bins).
Proof.
  induction 1 as [|[e0 e1] bins [H0 H1] _ IH]; simpl in *; builder.
Qed.

Lemma builder_GetExpression e : keeps extends (GetExpression e).
Proof.
  induction e using XmlExpr_induction; rewrite GetExpression_unfold;
    unfold GetDeviateExpression_with;
    try pose proof (builder_histogram_bins _ ltac:(eassumption));
    builder.
Qed.

#[local] Hint Resolve builder_GetExpression : builder.

Lemma builder_GetBasicEvent event_node : keeps extends (GetBasicEvent event_node).
Proof. unfold GetBasicEvent. builder. Qed.

#[local] Hint Resolve builder_GetBasicEvent : builder.

Lemma builder_DefineBasicEvent event_node :
  keeps extends (DefineBasicEvent event_node).
Proof. unfold DefineBasicEvent. builder. Qed.

Lemma builder_DefineHouseEvent event_node :
  keeps extends (DefineHouseEvent event_node).
Proof. unfold DefineHouseEvent. builder. Qed.

Lemma builder_Parameter_expression parameter expression :
  keeps extends (Parameter_expression parameter expression).
Proof.
  intros ra. unfold Parameter_expression, bind, get. simpl.
  destruct (exprs ra !! parameter) as [[]|] eqn:Hp; simpl; try reflexivity.
  destruct expression0; simpl; [reflexivity|].
  by eapply extends_insert_parameter.
Qed.

#[local] Hint Resolve builder_DefineBasicEvent builder_DefineHouseEvent
  builder_Parameter_expression : builder.

Lemma builder_DefineParameter param_node :
  keeps extends (DefineParameter param_node).
Proof. unfold DefineParameter. builder. Qed.

Lemma builder_DefineCcfFactor ext factor_node ccf_group :
  keeps extends (DefineCcfFactor ext factor_node ccf_group).
Proof. unfold DefineCcfFactor. builder. Qed.

#[local] Hint Resolve builder_DefineParameter builder_DefineCcfFactor : builder.

Lemma builder_ProcessCcfFactors ext factors_node ccf_group :
  keeps extends (ProcessCcfFactors ext factors_node ccf_group).
Proof. unfold ProcessCcfFactors. builder. Qed.

Lemma builder_ProcessCcfMembers members_node ccf_group :
  keeps extends (ProcessCcfMembers members_node ccf_group).
Proof. unfold ProcessCcfMembers. builder. Qed.

#[local] Hint Resolve builder_ProcessCcfFactors builder_ProcessCcfMembers
  : builder.

Lemma builder_DefineCcfGroup ext ccf_node :
  keeps extends (DefineCcfGroup ext ccf_node).
Proof. unfold DefineCcfGroup. builder. Qed.

#[local] Hint Resolve builder_DefineCcfGroup : builder.

Lemma builder_DefineFaultTree ext ft_node :
  keeps extends (DefineFaultTree ext ft_node).
Proof. unfold DefineFaultTree. builder. Qed.

Lemma builder_ProcessModelData model_data :
  keeps extends (ProcessModelData model_data).
Proof. unfold ProcessModelData. builder. Qed.

#[local] Hint Resolve builder_DefineFaultTree builder_ProcessModelData : builder.

Lemma builder_ProcessInputFile ext xml_file :
  keeps extends (ProcessInputFile ext xml_file).
Proof. unfold ProcessInputFile. builder. Qed.


(** *** What the late attachment of an event leaves alone *)

#[global] Instance same_definitions_preorder : PreOrder same_definitions.
Proof.
  split.
  - intros ra. unfold same_definitions. by split_and!.
  - intros ra1 ra2 ra3 H12 H23. unfold same_definitions in *.
    destruct_and!. split_and!; congruence.
Qed.

Lemma same_definitions_set_events f ra : same_definitions ra (set_events f ra).
Proof. destruct ra. unfold same_definitions. simpl. by split_and!. Qed.

Lemma same_definitions_set_tbd_events_ f ra :
  same_definitions ra (set_tbd_events_ f ra).
Proof. destruct ra. unfold same_definitions. simpl. by split_and!. Qed.

Lemma same_definitions_set_tbd_orig_ids_ f ra :
  same_definitions ra (set_tbd_orig_ids_ f ra).
Proof. destruct ra. unfold same_definitions. simpl. by split_and!. Qed.

Lemma late_call ptr method : keeps same_definitions (call ptr method).
Proof. intros ra. apply same_definitions_set_events. Qed.

Lemma late_AddChild gate child : keeps same_definitions (AddChild gate child).
Proof.
  unfold AddChild. apply keeps_bind; [apply _|apply keeps_get, _|].
  intros ra. apply late_call.
Qed.

Lemma late_AddParent child gate : keeps same_definitions (AddParent child gate).
Proof.
  unfold AddParent. apply keeps_bind; [apply _|apply keeps_get, _|].
  intros ra. apply late_call.
Qed.

Lemma late_UpdateIfLateEvent event :
  keeps same_definitions (UpdateIfLateEvent event).
Proof.
  unfold UpdateIfLateEvent. apply keeps_bind; [apply _|apply keeps_get, _|].
  intros ra. cbv zeta. destruct (count _ _); [|apply keeps_ret, _].
  repeat (apply keeps_bind; [apply _| |intros ?]).
  - apply keeps_for_each; [apply _|]. intros it.
    apply keeps_bind; [apply _|apply late_AddChild|].
    intros _. apply late_AddParent.
  - apply keeps_modify. intros ?. apply same_definitions_set_tbd_events_.
  - apply keeps_modify. intros ?. apply same_definitions_set_tbd_orig_ids_.
  - apply keeps_ret, _.
Qed.

(** *** Refused definitions *)

Lemma count_true {V} (m : gmap string V) key :
  count m key = true <-> is_Some (m !! key).
Proof. unfold count. apply bool_decide_eq_true. Qed.

Lemma count_false {V} (m : gmap string V) key :
  count m key = false <-> m !! key = None.
Proof.
  unfold count. rewrite bool_decide_eq_false. by rewrite eq_None_not_Some.
Qed.

Lemma find_lookup `{Inhabited V} (m : gmap string V) key v :
  m !! key = Some v -> find m key = v.
Proof. intros Hk. unfold find. by rewrite lookup_total_alt, Hk. Qed.

(** A gate whose folded id is the one of a defined gate is refused, and the
    state is as it was. *)
Lemma DefineGate_doubly_defined ext ra gate_node ft :
  count (gates_ ra) (to_lower (trim (gate_name gate_node))) = true ->
  DefineGate ext gate_node ft ra
  = (Throw (ValidationError
              (Line (get_line (gate_common gate_node))
               +:+ trim (gate_name gate_node) +:+ " gate is doubly defined.")),
     ra).
Proof. intros H. unfold DefineGate, bind, get. simpl. by rewrite H. Qed.

(** A gate whose folded id is the one of a primary event, defined or
    declared, is refused, and the state is as it was. *)
Lemma DefineGate_conflict ext ra gate_node ft :
  count (gates_ ra) (to_lower (trim (gate_name gate_node))) = false ->
  count (primary_events_ ra) (to_lower (trim (gate_name gate_node)))
  || count (tbd_basic_events_ ra) (to_lower (trim (gate_name gate_node)))
  || count (tbd_house_events_ ra) (to_lower (trim (gate_name gate_node)))
  = true ->
  DefineGate ext gate_node ft ra
  = (Throw (ValidationError
              (Line (get_line (gate_common gate_node)) +:+ "The id "
               +:+ trim (gate_name gate_node)
               +:+ " is already assigned to a primary event.")),
     ra).
Proof. intros H1 H2. unfold DefineGate, bind, get. simpl. by rewrite H1, H2. Qed.

Lemma GetBasicEvent_conflict_gate ra event_node :
  count (gates_ ra) (to_lower (trim (be_name event_node)))
  || count (tbd_gates_ ra) (to_lower (trim (be_name event_node))) = true ->
  GetBasicEvent event_node ra
  = (Throw (ValidationError
              (Line (get_line (be_common event_node)) +:+ "The id "
               +:+ trim (be_name event_node)
               +:+ " is already assigned to a gate.")),
     ra).
Proof. intros H. unfold GetBasicEvent, bind, get. simpl. by rewrite H. Qed.

(** A basic event whose folded id is the one of a defined primary event, be
    it a basic event or a house event, is refused as doubly defined. *)
Lemma GetBasicEvent_doubly_defined ra event_node :
  count (gates_ ra) (to_lower (trim (be_name event_node)))
  || count (tbd_gates_ ra) (to_lower (trim (be_name event_node))) = false ->
  count (primary_events_ ra) (to_lower (trim (be_name event_node))) = true ->
  GetBasicEvent event_node ra
  = (Throw (ValidationError
              (Line (get_line (be_common event_node)) +:+ "The id "
               +:+ trim (be_name event_node) +:+ " is doubly defined.")),
     ra).
Proof. intros H1 H2. unfold GetBasicEvent, bind, get. simpl. by rewrite H1, H2. Qed.

Lemma GetBasicEvent_conflict_house ra event_node :
  count (gates_ ra) (to_lower (trim (be_name event_node)))
  || count (tbd_gates_ ra) (to_lower (trim (be_name event_node))) = false ->
  count (primary_events_ ra) (to_lower (trim (be_name event_node))) = false ->
  count (tbd_house_events_ ra) (to_lower (trim (be_name event_node))) = true ->
  GetBasicEvent event_node ra
  = (Throw (ValidationError
              (Line (get_line (be_common event_node)) +:+ "The id "
               +:+ trim (be_name event_node)
               +:+ " is already used by a house event.")),
     ra).
Proof.
  intros H1 H2 H3. unfold GetBasicEvent, bind, get. simpl.
  by rewrite H1, H2, H3.
Qed.

Lemma DefineBasicEvent_refused ra event_node e :
  GetBasicEvent event_node ra = (Throw e, ra) ->
  DefineBasicEvent event_node ra = (Throw e, ra).
Proof. intros H. unfold DefineBasicEvent, bind. by rewrite H. Qed.

Lemma DefineHouseEvent_conflict_gate ra event_node :
  count (gates_ ra) (to_lower (trim (he_name event_node)))
  || count (tbd_gates_ ra) (to_lower (trim (he_name event_node))) = true ->
  DefineHouseEvent event_node ra
  = (Throw (ValidationError
              (Line (get_line (he_common event_node)) +:+ "The id "
               +:+ trim (he_name event_node)
               +:+ " is already assigned to a gate.")),
     ra).
Proof. intros H. unfold DefineHouseEvent, bind, get. simpl. by rewrite H. Qed.

Lemma DefineHouseEvent_doubly_defined ra event_node :
  count (gates_ ra) (to_lower (trim (he_name event_node)))
  || count (tbd_gates_ ra) (to_lower (trim (he_name event_node))) = false ->
  count (primary_events_ ra) (to_lower (trim (he_name event_node))) = true ->
  DefineHouseEvent event_node ra
  = (Throw (ValidationError
              (Line (get_line (he_common event_node)) +:+ "The id "
               +:+ trim (he_name event_node) +:+ " is doubly defined.")),
     ra).
Proof.
  intros H1 H2. unfold DefineHouseEvent, bind, get. simpl. by rewrite H1, H2.
Qed.

Lemma DefineHouseEvent_conflict_basic ra event_node :
  count (gates_ ra) (to_lower (trim (he_name event_node)))
  || count (tbd_gates_ ra) (to_lower (trim (he_name event_node))) = false ->
  count (primary_events_ ra) (to_lower (trim (he_name event_node))) = false ->
  count (tbd_basic_events_ ra) (to_lower (trim (he_name event_node))) = true ->
  DefineHouseEvent event_node ra
  = (Throw (ValidationError
              (Line (get_line (he_common event_node)) +:+ "The id "
               +:+ trim (he_name event_node)
               +:+ " is already used by a basic event.")),
     ra).
Proof.
  intros H1 H2 H3. unfold DefineHouseEvent, bind, get. simpl.
  by rewrite H1, H2, H3.
Qed.

Lemma DefineParameter_doubly_defined ra param_node :
  count (parameters_ ra) (trim (par_name param_node)) = true ->
  DefineParameter param_node ra
  = (Throw (ValidationError
              (Line (get_line (par_common param_node)) +:+ "The "
               +:+ trim (par_name param_node)
               +:+ " parameter is doubly defined.")),
     ra).
Proof. intros H. unfold DefineParameter, bind, get. simpl. by rewrite H. Qed.

Lemma DefineFaultTree_already_defined ext ra ft_node :
  count (fault_trees_ ra) (to_lower (ft_name ft_node)) = true ->
  DefineFaultTree ext ft_node ra
  = (Throw (ValidationError
              (Line (get_line (ft_common ft_node)) +:+ "The fault tree "
               +:+ ft_name ft_node +:+ " is already defined.")),
     ra).
Proof. intros H. unfold DefineFaultTree, bind, get. simpl. by rewrite H. Qed.

Lemma DefineCcfGroup_already_defined ext ra ccf_node :
  count (ccf_groups_ ra) (to_lower (ccf_name ccf_node)) = true ->
  DefineCcfGroup ext ccf_node ra
  = (Throw (ValidationError
              (Line (get_line (ccf_common ccf_node)) +:+ "The CCF group "
               +:+ ccf_name ccf_node +:+ " is already defined.")),
     ra).
Proof. intros H. unfold DefineCcfGroup, bind, get. simpl. by rewrite H. Qed.

(** C8, as stated, fails: in [house_event_state] the id [pump] is the id of
    the house event [Pump], an event of another kind than the basic event
    [pump] that is defined next, and the definition is refused with the text
    of a double definition; so is the house event [Pump] after the basic
    event [pump].  The reference to [pump] as a basic event in a formula is
    refused with the text of a conflict. *)
Lemma define_basic_event_over_house_event :
  primary_events_ Samples.house_event_state !! "pump" = Some 1%positive /\
  class (deref Samples.house_event_state 1%positive) = class_HouseEvent /\
  DefineBasicEvent Samples.pump_basic_event Samples.house_event_state
  = (Throw (ValidationError (Line 7 +:+ "The id pump is doubly defined.")),
     Samples.house_event_state) /\
  Spec.refusal (Line 7 +:+ "The id pump is doubly defined.")
  = Some Spec.DuplicateDefinition /\
  ProcessFormulaBasicEvent (Samples.argument 7 arg_basic_event "pump")
                           1%positive "pump" "pump" Samples.house_event_state
  = (Throw (ValidationError
              (Line 7 +:+ "The id pump is already assigned to a house event.")),
     Samples.house_event_state) /\
  class (deref Samples.basic_event_state 1%positive) = class_BasicEvent /\
  DefineHouseEvent Samples.pump_house_event Samples.basic_event_state
  = (Throw (ValidationError (Line 3 +:+ "The id Pump is doubly defined.")),
     Samples.basic_event_state) /\
  Spec.refusal (Line 3 +:+ "The id Pump is doubly defined.")
  = Some Spec.DuplicateDefinition.
Proof. repeat split; vm_compute; reflexivity. Qed.

(** C8 (as amended).  A definition whose id is bound already is refused
    with a [ValidationError], and the state is as it was.  The message tells
    a conflict of kinds when a gate takes the id of a primary event, when a
    basic or a house event takes the id of a gate, and when it takes the id
    of an event of the other kind that is only referred to so far; it tells
    a double definition when a gate takes the id of a defined gate, when a
    basic or a house event takes the id of a defined primary event of either
    kind, and when a parameter, a fault tree or a CCF group takes a name
    that is defined. *)
Theorem definitions_refused :
  gate_refusals /\ basic_event_refusals /\ house_event_refusals /\
  other_refusals.
Proof.
  split_and!.
  - intros ext ra gate_node ft orig_id id line. split.
    + apply DefineGate_doubly_defined.
    + apply DefineGate_conflict.
  - intros ra event_node orig_id id line. split_and!.
    + intros H. by apply DefineBasicEvent_refused, GetBasicEvent_conflict_gate.
    + intros H1 H2.
      by apply DefineBasicEvent_refused, GetBasicEvent_doubly_defined.
    + intros H1 H2 H3.
      by apply DefineBasicEvent_refused, GetBasicEvent_conflict_house.
  - intros ra event_node orig_id id line. split_and!.
    + apply DefineHouseEvent_conflict_gate.
    + apply DefineHouseEvent_doubly_defined.
    + apply DefineHouseEvent_conflict_basic.
  - split_and!.
    + apply DefineParameter_doubly_defined.
    + apply DefineFaultTree_already_defined.
    + apply DefineCcfGroup_already_defined.
Qed.

Lemma definitions_refused_witness :
  DefineGate Samples.ext Samples.gate_TOP "ft" Samples.gate_top_state
  = (Throw (ValidationError (Line 9 +:+ "TOP gate is doubly defined.")),
     Samples.gate_top_state) /\
  DefineBasicEvent Samples.pump_basic_event Samples.house_event_state
  = (Throw (ValidationError (Line 7 +:+ "The id pump is doubly defined.")),
     Samples.house_event_state) /\
  DefineHouseEvent Samples.pump_house_event Samples.basic_event_state
  = (Throw (ValidationError (Line 3 +:+ "The id Pump is doubly defined.")),
     Samples.basic_event_state) /\
  DefineParameter Samples.parameter_abc Samples.parameter_abc_state
  = (Throw (ValidationError (Line 3 +:+ "The abc parameter is doubly defined.")),
     Samples.parameter_abc_state).
Proof.
  destruct definitions_refused as (Hgate & Hbasic & Hhouse & Hparameter & _).
  split_and!.
  - apply (Hgate Samples.ext Samples.gate_top_state Samples.gate_TOP "ft").
    vm_compute. reflexivity.
  - apply (Hbasic Samples.house_event_state Samples.pump_basic_event);
      vm_compute; reflexivity.
  - apply (Hhouse Samples.basic_event_state Samples.pump_house_event);
      vm_compute; reflexivity.
  - apply (Hparameter Samples.parameter_abc_state Samples.parameter_abc).
    vm_compute. reflexivity.
Defined.

(** *** Accepted definitions *)

Lemma keeps_and (R1 R2 : relation RiskAnalysis) {A} (m : M A) :
  keeps R1 m -> keeps R2 m -> keeps (fun a b => R1 a b /\ R2 a b) m.
Proof. intros H1 H2 ra. split; [apply H1|apply H2]. Qed.

Lemma ends_with_new_event e ra (Q : Result loc -> RiskAnalysis -> Prop) :
  Q (Ok (fresh (dom (events ra))))
    (set_events (fun store => <[fresh (dom (events ra)) := e]> store) ra) ->
  ends_with (new_event e) ra Q.
Proof. done. Qed.

Lemma ends_with_new_expr e ra (Q : Result loc -> RiskAnalysis -> Prop) :
  Q (Ok (fresh (dom (exprs ra))))
    (set_exprs (fun store => <[fresh (dom (exprs ra)) := e]> store) ra) ->
  ends_with (new_expr e) ra Q.
Proof. done. Qed.

Lemma fresh_event ra : events ra !! fresh (dom (events ra)) = None.
Proof. apply not_elem_of_dom, is_fresh. Qed.

Lemma fresh_expr ra : exprs ra !! fresh (dom (exprs ra)) = None.
Proof. apply not_elem_of_dom, is_fresh. Qed.

Lemma DefineGate_stores ext ra gate_node ft :
  ends_with (DefineGate ext gate_node ft) ra (fun r ra' =>
    r = Ok tt ->
    exists gate,
      gates_ ra' !! to_lower (trim (gate_name gate_node)) = Some gate /\
      if count (tbd_gates_ ra) (to_lower (trim (gate_name gate_node)))
      then gate = find (tbd_gates_ ra) (to_lower (trim (gate_name gate_node)))
      else events ra !! gate = None /\
           exists o, events ra' !! gate = Some o /\
                     id_ o = to_lower (trim (gate_name gate_node)) /\
                     orig_id_ o = trim (gate_name gate_node)).
Proof.
  unfold DefineGate, Gate_vote_number_set. cbv zeta.
  set (orig_id := trim (gate_name gate_node)). set (id := to_lower orig_id).
  apply ends_with_bind, ends_with_get.
  destruct (count (gates_ ra) id) eqn:Hg; [by apply ends_with_throw|].
  apply count_false in Hg.
  destruct (count (primary_events_ ra) id || _ || _);
    [by apply ends_with_throw|].
  destruct (negb _); [by apply ends_with_throw|].
  apply ends_with_bind.
  destruct (count (tbd_gates_ ra) id) eqn:Htbd.
  - apply ends_with_bind, ends_with_modify, ends_with_ret.
    apply ends_with_bind, ends_with_modify.
    apply (ends_with_keeps extends); [builder|].
    intros r ra' Hext _. exists (find (tbd_gates_ ra) id). split; [|done].
    destruct Hext as (_ & Hgates & _). eapply lookup_weaken; [|done].
    destruct ra; simpl in *. by apply map_insert_lookup.
  - apply ends_with_bind, ends_with_new_event.
    set (i_event := fresh (dom (events ra))).
    set (s1 := set_events _ ra).
    apply ends_with_bind.
    apply (ends_with_keeps (fun a b => same_definitions a b /\ extends a b)).
    { apply keeps_and; [apply late_UpdateIfLateEvent|builder]. }
    intros [b|e] s1' [Hsame Hext]; [|done]. apply ends_with_ret.
    apply ends_with_bind, ends_with_modify.
    apply (ends_with_keeps extends); [builder|].
    intros r ra' Hext' _. exists i_event. split; [|split].
    + destruct Hext' as (_ & Hgates & _). eapply lookup_weaken; [|done].
      destruct Hsame as (_ & Hgates' & _).
      assert (gates_ s1' !! id = None) as Hnone.
      { rewrite Hgates'. unfold s1. by destruct ra. }
      destruct s1'; simpl in *. by apply map_insert_lookup.
    + apply fresh_event.
    + destruct Hext as (Hev & _).
      destruct (Hev i_event (Event_new class_Gate id orig_id))
        as (o1 & Ho1 & Hs1).
      { unfold s1. destruct ra; simpl. apply lookup_insert_eq. }
      destruct Hext' as (Hev' & _).
      destruct (Hev' i_event o1) as (o2 & Ho2 & Hs2).
      { by destruct s1'. }
      exists o2. split; [done|].
      destruct Hs1 as (_ & Hid1 & Horig1 & _), Hs2 as (_ & Hid2 & Horig2 & _).
      split; [by rewrite Hid2, Hid1|by rewrite Horig2, Horig1].
Qed.

Lemma extends_event a b ptr o :
  extends a b -> events a !! ptr = Some o ->
  exists o', events b !! ptr = Some o' /\
             id_ o' = id_ o /\ orig_id_ o' = orig_id_ o.
Proof.
  intros (Hev & _) Ho. destruct (Hev ptr o Ho) as (o' & Ho' & Hs).
  exists o'. split; [done|]. by destruct Hs as (_ & ? & ? & _).
Qed.

Lemma GetBasicEvent_stores ra event_node :
  ends_with (GetBasicEvent event_node) ra (fun r s =>
    forall event, r = Ok event ->
      primary_events_ s !! to_lower (trim (be_name event_node)) = Some event /\
      if count (tbd_basic_events_ ra) (to_lower (trim (be_name event_node)))
      then event = find (tbd_basic_events_ ra)
                        (to_lower (trim (be_name event_node)))
      else events ra !! event = None /\
           exists o, events s !! event = Some o /\
                     id_ o = to_lower (trim (be_name event_node)) /\
                     orig_id_ o = trim (be_name event_node)).
Proof.
  unfold GetBasicEvent. cbv zeta.
  set (orig_id := trim (be_name event_node)). set (id := to_lower orig_id).
  apply ends_with_bind, ends_with_get.
  destruct (_ || _); [by apply ends_with_throw|].
  destruct (count (primary_events_ ra) id) eqn:Hp; [by apply ends_with_throw|].
  apply count_false in Hp.
  destruct (count (tbd_house_events_ ra) id); [by apply ends_with_throw|].
  destruct (count (tbd_basic_events_ ra) id) eqn:Htbd.
  - do 3 apply ends_with_bind, ends_with_modify. apply ends_with_ret.
    intros event [= <-]. split; [|done].
    destruct ra; simpl in *. by apply map_insert_lookup.
  - apply ends_with_bind, ends_with_new_event.
    set (i_event := fresh (dom (events ra))).
    do 2 apply ends_with_bind, ends_with_modify.
    set (s1 := set_basic_events_ _ _).
    apply ends_with_bind.
    apply (ends_with_keeps (fun a b => same_definitions a b /\ extends a b)).
    { apply keeps_and; [apply late_UpdateIfLateEvent|builder]. }
    intros [b|e] s1' [Hsame Hext]; [|done]. apply ends_with_ret.
    intros event [= <-]. split; [|split].
    + destruct Hsame as (_ & _ & _ & -> & _).
      unfold s1. destruct ra; simpl in *. by apply map_insert_lookup.
    + apply fresh_event.
    + apply (extends_event _ _ i_event (Event_new class_BasicEvent id orig_id))
        in Hext; [done|].
      unfold s1. destruct ra; simpl. apply lookup_insert_eq.
Qed.

Lemma DefineBasicEvent_stores ra event_node :
  ends_with (DefineBasicEvent event_node) ra (fun r ra' =>
    r = Ok tt ->
    exists event,
      primary_events_ ra' !! to_lower (trim (be_name event_node)) = Some event /\
      if count (tbd_basic_events_ ra) (to_lower (trim (be_name event_node)))
      then event = find (tbd_basic_events_ ra)
                        (to_lower (trim (be_name event_node)))
      else events ra !! event = None /\
           exists o, events ra' !! event = Some o /\
                     id_ o = to_lower (trim (be_name event_node)) /\
                     orig_id_ o = trim (be_name event_node)).
Proof.
  unfold DefineBasicEvent. cbv zeta.
  apply ends_with_bind.
  eapply ends_with_weaken; [apply GetBasicEvent_stores|].
  intros [event|e] s Hs; [|done]. destruct (Hs event eq_refl) as [Hp Hfresh].
  apply (ends_with_keeps extends); [builder|].
  intros r ra' Hext _. exists event. split.
  - destruct Hext as (_ & _ & Hprimary & _). by eapply lookup_weaken.
  - destruct (count (tbd_basic_events_ ra) _); [done|].
    destruct Hfresh as (Hnone & o & Ho & Hid & Horig). split; [done|].
    destruct (extends_event _ _ _ _ Hext Ho) as (o' & Ho' & Hid' & Horig').
    exists o'. split; [done|]. by rewrite Hid', Horig'.
Qed.

Lemma DefineHouseEvent_stores ra event_node :
  ends_with (DefineHouseEvent event_node) ra (fun r ra' =>
    r = Ok tt ->
    exists event,
      primary_events_ ra' !! to_lower (trim (he_name event_node)) = Some event /\
      if count (tbd_house_events_ ra) (to_lower (trim (he_name event_node)))
      then event = find (tbd_house_events_ ra)
                        (to_lower (trim (he_name event_node)))
      else events ra !! event = None /\
           exists o, events ra' !! event = Some o /\
                     id_ o = to_lower (trim (he_name event_node)) /\
                     orig_id_ o = trim (he_name event_node)).
Proof.
  unfold DefineHouseEvent. cbv zeta.
  set (orig_id := trim (he_name event_node)). set (id := to_lower orig_id).
  apply ends_with_bind, ends_with_get.
  destruct (_ || _); [by apply ends_with_throw|].
  destruct (count (primary_events_ ra) id) eqn:Hp; [by apply ends_with_throw|].
  apply count_false in Hp.
  destruct (count (tbd_basic_events_ ra) id); [by apply ends_with_throw|].
  destruct (he_constant event_node) as [val|]; [|by apply ends_with_throw].
  apply ends_with_bind.
  destruct (count (tbd_house_events_ ra) id) eqn:Htbd.
  - apply ends_with_bind.
    apply (ends_with_keeps (fun a b => same_definitions a b /\ extends a b)).
    { apply keeps_and; [apply late_call|builder]. }
    intros [[]|e] s1 [Hsame Hext]; [|done].
    do 2 apply ends_with_bind, ends_with_modify. apply ends_with_ret.
    apply (ends_with_keeps extends); [builder|].
    intros r ra' Hext' _. exists (find (tbd_house_events_ ra) id).
    split; [|done].
    destruct Hext' as (_ & _ & Hprimary & _). eapply lookup_weaken; [|done].
    destruct Hsame as (_ & _ & _ & Hsame & _).
    assert (primary_events_ s1 !! id = None) as Hnone by by rewrite Hsame.
    destruct s1; simpl in *. by apply map_insert_lookup.
  - apply ends_with_bind, ends_with_new_event.
    set (i_event := fresh (dom (events ra))).
    apply ends_with_bind, ends_with_modify.
    set (s1 := set_primary_events_ _ _).
    apply ends_with_bind.
    apply (ends_with_keeps (fun a b => same_definitions a b /\ extends a b)).
    { apply keeps_and; [apply late_UpdateIfLateEvent|builder]. }
    intros [b|e] s1' [Hsame Hext]; [|done]. apply ends_with_ret.
    apply (ends_with_keeps extends); [builder|].
    intros r ra' Hext' _. exists i_event. split; [|split].
    + destruct Hext' as (_ & _ & Hprimary & _). eapply lookup_weaken; [|done].
      destruct Hsame as (_ & _ & _ & -> & _).
      unfold s1. destruct ra; simpl in *. by apply map_insert_lookup.
    + apply fresh_event.
    + assert (extends s1 ra') as Hboth by by etrans.
      apply (extends_event _ _ i_event
               (HouseEvent_state (String.eqb (trim val) "true")
                                 (Event_new class_HouseEvent id orig_id)))
        in Hboth; [done|].
      unfold s1. destruct ra; simpl. apply lookup_insert_eq.
Qed.

Lemma DefineParameter_stores ra param_node :
  count (parameters_ ra) (trim (par_name param_node)) = false ->
  exists parameter,
    parameters_ (DefineParameter param_node ra).2 !! trim (par_name param_node)
    = Some parameter /\
    parameters_ ra ⊆ parameters_ (DefineParameter param_node ra).2 /\
    (count (tbd_parameters_ ra) (trim (par_name param_node)) = false ->
     exprs ra !! parameter = None /\
     exists unit e el,
       exprs (DefineParameter param_node ra).2 !! parameter
       = Some (ParameterObject (trim (par_name param_node)) unit e el)).
Proof.
  intros Hp.
  change (ends_with (DefineParameter param_node) ra (fun _ ra' =>
    exists parameter,
      parameters_ ra' !! trim (par_name param_node) = Some parameter /\
      parameters_ ra ⊆ parameters_ ra' /\
      (count (tbd_parameters_ ra) (trim (par_name param_node)) = false ->
       exprs ra !! parameter = None /\
       exists unit e el,
         exprs ra' !! parameter
         = Some (ParameterObject (trim (par_name param_node)) unit e el)))).
  unfold DefineParameter. cbv zeta. set (name := trim (par_name param_node)).
  fold name in Hp.
  apply ends_with_bind, ends_with_get. rewrite Hp. apply count_false in Hp.
  apply ends_with_bind.
  destruct (count (tbd_parameters_ ra) name) eqn:Htbd.
  - do 2 apply ends_with_bind, ends_with_modify. apply ends_with_ret.
    set (s1 := set_tbd_parameters_ _ _).
    assert (parameters_ s1 !! name = Some (find (tbd_parameters_ ra) name)
            /\ parameters_ ra ⊆ parameters_ s1) as [Hs1 Hsub].
    { unfold s1. destruct ra; simpl in *.
      split; [by apply map_insert_lookup|apply map_insert_subseteq]. }
    apply (ends_with_keeps extends); [builder|].
    intros r ra' (_ & _ & _ & _ & Hpar & _).
    exists (find (tbd_parameters_ ra) name).
    split; [by eapply lookup_weaken|]. split; [by etrans|done].
  - apply ends_with_bind, ends_with_new_expr.
    set (i_expr := fresh (dom (exprs ra))).
    apply ends_with_bind, ends_with_modify. apply ends_with_ret.
    set (s1 := set_parameters_ _ _).
    assert (parameters_ s1 !! name = Some i_expr
            /\ parameters_ ra ⊆ parameters_ s1
            /\ exprs s1 !! i_expr
               = Some (ParameterObject name mef.kUnitless None Element_new))
      as (Hs1 & Hsub & Hexpr).
    { unfold s1. destruct ra; simpl in *.
      split_and!; [by apply map_insert_lookup|apply map_insert_subseteq|].
      apply lookup_insert_eq. }
    apply (ends_with_keeps extends); [builder|].
    intros r ra' (_ & _ & _ & _ & Hpar & _ & _ & Hobj).
    exists i_expr. split; [by eapply lookup_weaken|]. split; [by etrans|].
    intros _. split; [apply fresh_expr|]. by apply (Hobj _ _ _ _ _ Hexpr).
Qed.

Lemma DefineFaultTree_stores ext ra ft_node :
  count (fault_trees_ ra) (to_lower (ft_name ft_node)) = false ->
  exists ft,
    fault_trees_ (DefineFaultTree ext ft_node ra).2 !! to_lower (ft_name ft_node)
    = Some ft /\
    ft_name_ ft = ft_name ft_node.
Proof.
  intros Hft.
  change (ends_with (DefineFaultTree ext ft_node) ra (fun _ ra' =>
    exists ft, fault_trees_ ra' !! to_lower (ft_name ft_node) = Some ft /\
               ft_name_ ft = ft_name ft_node)).
  unfold DefineFaultTree. cbv zeta.
  apply ends_with_bind, ends_with_get. rewrite Hft. apply count_false in Hft.
  apply ends_with_bind, ends_with_modify.
  set (s1 := set_fault_trees_ _ _).
  apply (ends_with_keeps extends); [builder|].
  intros r ra' (_ & _ & _ & _ & _ & Hfts & _).
  destruct (Hfts (to_lower (ft_name ft_node))
                 {| ft_name_ := ft_name ft_node; ft_element := Element_new;
                    ft_gates_ := [] |}) as (ft & Hlook & Hname); [|by exists ft].
  unfold s1. destruct ra; simpl in *. by apply map_insert_lookup.
Qed.

Lemma DefineCcfGroup_stores ext ra ccf_node :
  count (ccf_groups_ ra) (to_lower (ccf_name ccf_node)) = false ->
  exists g,
    ccf_groups_ (DefineCcfGroup ext ccf_node ra).2 !! to_lower (ccf_name ccf_node)
    = Some g /\
    ccf_name_ g = ccf_name ccf_node.
Proof.
  intros Hccf.
  change (ends_with (DefineCcfGroup ext ccf_node) ra (fun _ ra' =>
    exists g, ccf_groups_ ra' !! to_lower (ccf_name ccf_node) = Some g /\
              ccf_name_ g = ccf_name ccf_node)).
  unfold DefineCcfGroup. cbv zeta.
  apply ends_with_bind, ends_with_get. rewrite Hccf. apply count_false in Hccf.
  apply ends_with_bind, ends_with_modify.
  set (s1 := set_ccf_groups_ _ _).
  apply (ends_with_keeps extends); [builder|].
  intros r ra' (_ & _ & _ & _ & _ & _ & Hgroups & _).
  destruct (Hgroups (to_lower (ccf_name ccf_node))
                    (CcfGroup_new (ccf_model ccf_node) (ccf_name ccf_node)))
    as (g & Hlook & Hname); [|by exists g].
  unfold s1. destruct ra; simpl in *. by apply map_insert_lookup.
Qed.

Lemma ProcessFormula_loop_event ra children_id gate event events child :
  to_lower (trim (arg_name event)) ∉ children_id ->
  arg_element event = arg_event -> arg_type event = None ->
  primary_events_ ra !! to_lower (trim (arg_name event)) = Some child ->
  ProcessFormula_loop children_id gate (event :: events) ra
  = ((AddChild gate child ;;; AddParent child gate) ;;;
     ProcessFormula_loop ({[ to_lower (trim (arg_name event)) ]} ∪ children_id)
                         gate events) ra.
Proof.
  intros Hnew Helement Htype Hchild. cbn [ProcessFormula_loop].
  rewrite bool_decide_eq_false_2 by done. rewrite Htype, Helement.
  unfold bind at 1. unfold ProcessFormulaEvent, bind at 1, get at 1.
  cbn beta iota. rewrite (proj2 (count_true _ _) (mk_is_Some _ _ Hchild)).
  by rewrite (find_lookup _ _ _ Hchild).
Qed.

Lemma GetParameterExpression_defined ra name parameter :
  parameters_ ra !! name = Some parameter ->
  GetParameterExpression (xml_parameter name) ra = (Ok (Some parameter), ra).
Proof.
  intros Hp. unfold GetParameterExpression, bind, get. cbn beta iota.
  rewrite (proj2 (count_true _ _) (mk_is_Some _ _ Hp)).
  by rewrite (find_lookup _ _ _ Hp).
Qed.



(** *** The end of the input: the report *)

Lemma unresolved_reference_defect ra d :
  prob_requested_ ra = true -> unresolved_reference ra d -> Spec.defect ra d.
Proof.
  intros Hprob [id gate H|id event H|id event H|id gates orig_id H Horig
               |name parameter H].
  - by eapply Spec.undefined_gate.
  - by eapply Spec.missing_house_event.
  - by eapply Spec.missing_basic_event.
  - by eapply Spec.missing_event.
  - by eapply Spec.missing_parameter.
Qed.

Lemma CheckFirstLayer_unresolved ext ra d :
  prob_requested_ ra = true -> unresolved_reference ra d ->
  exists msg,
    CheckFirstLayer ext ra = Throw (ValidationError msg) /\
    forall d', unresolved_reference ra d' -> mentions msg d'.
Proof.
  intros Hprob Hd.
  destruct (CheckFirstLayer_defects ext ra d
              (unresolved_reference_defect _ _ Hprob Hd)) as (msg & Hmsg & Hall).
  exists msg. split; [done|].
  intros d' Hd'. by apply Hall, unresolved_reference_defect.
Qed.

Lemma ProcessInputFiles_requested ext xml_files ra0 ra d :
  ProcessInputFiles_read ext xml_files ra0 = (Ok tt, ra) ->
  prob_requested_ ra = true -> unresolved_reference ra d ->
  exists msg,
    ProcessInputFiles ext xml_files ra0 = (Throw (ValidationError msg), ra) /\
    forall d', unresolved_reference ra d' -> mentions msg d'.
Proof.
  intros Hread Hprob Hd.
  destruct (CheckFirstLayer_unresolved ext ra d Hprob Hd) as (msg & Hmsg & Hall).
  exists msg. split; [|done].
  unfold ProcessInputFiles, bind at 1. rewrite Hread.
  unfold bind at 1, get at 1. rewrite Hprob. simpl negb. cbv iota.
  unfold bind at 1, ret at 1.
  unfold ValidateInitialization, bind at 1, bind at 1, read. by rewrite Hmsg.
Qed.

Lemma ProcessInputFiles_not_requested ext xml_files ra0 ra ra' :
  ProcessInputFiles_read ext xml_files ra0 = (Ok tt, ra) ->
  prob_requested_ ra = false ->
  ProcessInputFiles_undefined ra = (Ok tt, ra') ->
  ProcessInputFiles ext xml_files ra0
  = (ValidateInitialization ext ;;; SetupForAnalysis ext) ra'.
Proof.
  intros Hread Hprob Hrun.
  unfold ProcessInputFiles, bind at 1. rewrite Hread.
  unfold bind at 1, get at 1. rewrite Hprob. simpl negb. cbv iota.
  unfold bind at 1. by rewrite Hrun.
Qed.

(** *** The end of the input: the events of unknown kind *)

#[local] Instance beside_preorder id : PreOrder (beside id).
Proof.
  split.
  - intros ra. split_and!; [reflexivity|done|done|].
    intros ptr o o' H1 H2. congruence.
  - intros a b c (Hab & Hp & Hb & Hc) (Hbc & Hp' & Hb' & Hc'). split_and!.
    + by etrans.
    + congruence.
    + congruence.
    + intros ptr o o'' Ho Ho''. destruct Hab as (Hev & _).
      destruct (Hev ptr o Ho) as (o' & Ho' & _).
      rewrite (Hc' ptr o' o'' Ho' Ho''). by apply (Hc ptr o o').
Qed.

Lemma keeps_for_each_elem (R : relation RiskAnalysis) `{!PreOrder R} {A}
    (l : list A) (body : A -> M unit) :
  (forall x, x ∈ l -> keeps R (body x)) -> keeps R (for_each l body).
Proof.
  induction l as [|x l IH]; intros Hbody; simpl.
  - by apply keeps_ret.
  - apply keeps_bind; [done|apply Hbody; left|].
    intros _. apply IH. intros y Hy. apply Hbody. by right.
Qed.

Lemma ends_with_bind_eq {A B} (m : M A) (k : A -> M B) ra a ra'
    (Q : Result B -> RiskAnalysis -> Prop) :
  m ra = (Ok a, ra') -> ends_with (k a) ra' Q -> ends_with (bind m k) ra Q.
Proof. unfold ends_with, bind. by intros ->. Qed.

Lemma beside_set_primary_events_ id k v ra :
  k <> id -> beside id ra (set_primary_events_ (map_insert k v) ra).
Proof.
  intros Hk. split; [apply extends_set_primary_events_|].
  destruct ra; simpl. split_and!; [by apply map_insert_lookup_ne|done|].
  intros ptr o o' H1 H2. congruence.
Qed.

Lemma beside_set_basic_events_ id k v ra :
  k <> id -> beside id ra (set_basic_events_ (map_insert k v) ra).
Proof.
  intros Hk. split; [apply extends_set_basic_events_|].
  destruct ra; simpl. split_and!; [done|by apply map_insert_lookup_ne|].
  intros ptr o o' H1 H2. congruence.
Qed.

Lemma beside_new_event id e ra : beside id ra (new_event e ra).2.
Proof.
  split; [apply extends_new_event|].
  pose proof (fresh_event ra) as Hfresh.
  unfold new_event. destruct ra; simpl in *. split_and!; [done|done|].
  intros ptr o o' Ho Ho'. rewrite lookup_insert_ne in Ho' by congruence.
  congruence.
Qed.

Lemma beside_AddChild id ptr k child ra :
  k <> id -> beside id ra (set_events (alter (Gate_AddChild k child) ptr) ra).
Proof.
  intros Hk. split; [apply extends_call, stable_Gate_AddChild|].
  destruct ra; simpl. split_and!; [done|done|].
  intros p o o' Ho Ho'. destruct (decide (p = ptr)) as [->|Hne].
  - rewrite lookup_alter_eq, Ho in Ho'. simpl in Ho'. injection Ho' as <-.
    destruct o; simpl. by apply map_insert_lookup_ne.
  - rewrite lookup_alter_ne in Ho' by done. congruence.
Qed.

Lemma beside_AddParent id ptr k parent ra :
  beside id ra (set_events (alter (Event_AddParent k parent) ptr) ra).
Proof.
  split; [apply extends_call, stable_Event_AddParent|].
  destruct ra; simpl. split_and!; [done|done|].
  intros p o o' Ho Ho'. destruct (decide (p = ptr)) as [->|Hne].
  - rewrite lookup_alter_eq, Ho in Ho'. simpl in Ho'. injection Ho' as <-.
    by destruct o.
  - rewrite lookup_alter_ne in Ho' by done. congruence.
Qed.

Lemma created_as_extends id orig_id child a b :
  extends a b -> created_as id orig_id child a -> created_as id orig_id child b.
Proof.
  intros (Hev & _) (o & Ho & Hclass & Hid & Horig).
  destruct (Hev child o Ho) as (o' & Ho' & Hc & Hi & Hor & _).
  exists o'. split_and!; congruence.
Qed.

Lemma child_of_extends id child a b gate :
  extends a b -> child_of id child a gate -> child_of id child b gate.
Proof.
  intros (Hev & _) (o & Ho & Hchild).
  destruct (Hev gate o Ho) as (o' & Ho' & _ & _ & _ & Hch & _).
  exists o'. split; [done|]. by eapply lookup_weaken.
Qed.

Lemma unbound_beside id gates a b :
  beside id a b -> unbound id gates a -> unbound id gates b.
Proof.
  intros ((Hev & _) & Hp & Hb & Hc) (Hp' & Hb' & Hgates).
  split_and!; [congruence|congruence|].
  eapply Forall_impl; [exact Hgates|]. intros gate (o & Ho & Hnone).
  destruct (Hev gate o Ho) as (o' & Ho' & _).
  exists o'. split; [done|]. by rewrite (Hc gate o o' Ho Ho').
Qed.

Lemma deref_lookup ra ptr o : events ra !! ptr = Some o -> deref ra ptr = o.
Proof. intros Ho. unfold deref. by rewrite lookup_total_alt, Ho. Qed.

(** One gate takes the new child. *)
Lemma attach_step id orig_id child gate t :
  created_as id orig_id child t -> may_adopt id child t gate ->
  exists t',
    (AddChild gate child ;;; AddParent child gate) t = (Ok tt, t') /\
    extends t t' /\ (forall id', id' <> id -> beside id' t t') /\
    created_as id orig_id child t' /\ child_of id child t' gate /\
    forall gate', may_adopt id child t gate' -> may_adopt id child t' gate'.
Proof.
  intros (o & Ho & Hclass & Hid & Horig) (Hne & o_gate & Hgate & Hchild).
  set (t1 := set_events (alter (Gate_AddChild id child) gate) t).
  set (k := id_ (deref t1 gate)).
  set (t2 := set_events (alter (Event_AddParent k gate) child) t1).
  assert (events t1 !! child = Some o) as Ho1.
  { unfold t1. destruct t; simpl in *. by rewrite lookup_alter_ne. }
  assert (events t1 !! gate = Some (Gate_AddChild id child o_gate)) as Hgate1.
  { unfold t1. destruct t; simpl in *. by rewrite lookup_alter_eq, Hgate. }
  assert (events t2 !! child = Some (Event_AddParent k gate o)) as Ho2.
  { unfold t2. destruct t1; simpl in *. by rewrite lookup_alter_eq, Ho1. }
  assert (events t2 !! gate = Some (Gate_AddChild id child o_gate)) as Hgate2.
  { unfold t2. destruct t1; simpl in *. by rewrite lookup_alter_ne. }
  exists t2. split_and!.
  - unfold AddChild, AddParent, bind, get, call, modify. simpl.
    by rewrite (deref_lookup _ _ _ Ho), Hid.
  - trans t1; [apply extends_call, stable_Gate_AddChild|].
    apply extends_call, stable_Event_AddParent.
  - intros id' Hid'. trans t1; [by apply beside_AddChild|].
    apply beside_AddParent.
  - exists (Event_AddParent k gate o). split; [done|]. by destruct o.
  - exists (Gate_AddChild id child o_gate). split; [done|].
    destruct o_gate; simpl in *. unfold map_insert.
    destruct Hchild as [-> | Hsome]; [apply lookup_insert_eq|by rewrite Hsome].
  - intros gate' (Hne' & o' & Ho' & Hchild'). split; [done|].
    destruct (decide (gate' = gate)) as [->|Hother].
    + exists (Gate_AddChild id child o_gate). split; [done|]. right.
      destruct o_gate; simpl in *. unfold map_insert.
      destruct Hchild as [-> | Hsome]; [apply lookup_insert_eq|by rewrite Hsome].
    + exists o'. split; [|done].
      unfold t2, t1. destruct t; simpl in *. by rewrite !lookup_alter_ne.
Qed.

(** The loop over the gates that referred to the new child. *)
Lemma attach_to_gates id orig_id child gates :
  forall t,
    created_as id orig_id child t -> Forall (may_adopt id child t) gates ->
    ends_with (for_each gates
                 (fun itvec => AddChild itvec child ;;; AddParent child itvec))
      t (fun r t' =>
           r = Ok tt /\ extends t t' /\
           (forall id', id' <> id -> beside id' t t') /\
           created_as id orig_id child t' /\
           Forall (child_of id child t') gates).
Proof.
  induction gates as [|gate gates IH]; intros t Hcreated Hgates.
  - apply ends_with_ret. split_and!; [done|reflexivity| |done|constructor].
    intros id' _. reflexivity.
  - apply Forall_cons in Hgates as [Hgate Hgates]. simpl for_each.
    destruct (attach_step id orig_id child gate t Hcreated Hgate)
      as (t1 & Hrun & Hext & Hbeside & Hcreated1 & Hchild & Hadopt).
    eapply ends_with_bind_eq; [exact Hrun|].
    eapply ends_with_weaken.
    { apply IH; [done|]. eapply Forall_impl; [exact Hgates|apply Hadopt]. }
    intros r t' (-> & Hext' & Hbeside' & Hcreated' & Hchildren).
    split_and!; [done|by etrans| |done|].
    + intros id' Hid'. trans t1; auto.
    + constructor; [by eapply child_of_extends|done].
Qed.

(** One reference of unknown kind becomes a basic event. *)
Lemma create_unknown ra id gates s :
  extends ra s -> unbound id gates s ->
  ends_with
    (child <- new_event (Event_new class_BasicEvent id
                                   (find (tbd_orig_ids_ ra) id)) ;;
     modify (set_primary_events_ (map_insert id child)) ;;;
     modify (set_basic_events_ (map_insert id child)) ;;;
     for_each gates (fun itvec => AddChild itvec child ;;; AddParent child itvec))
    s (fun r s' =>
         r = Ok tt /\ extends s s' /\
         (forall id', id' <> id -> beside id' s s') /\
         auto_created ra s' id gates).
Proof.
  intros Hra (Hprimary & Hbasic & Hgates).
  apply ends_with_bind, ends_with_new_event.
  set (child := fresh (dom (events s))).
  set (object := Event_new class_BasicEvent id (find (tbd_orig_ids_ ra) id)).
  do 2 apply ends_with_bind, ends_with_modify.
  set (s1 := set_events _ s).
  set (s2 := set_primary_events_ _ s1).
  set (s3 := set_basic_events_ _ s2).
  pose proof (fresh_event s) as Hfresh. fold child in Hfresh.
  assert (extends s s3) as Hext.
  { trans s1; [apply (extends_new_event object s)|].
    trans s2; [apply extends_set_primary_events_|].
    apply extends_set_basic_events_. }
  assert (forall id', id' <> id -> beside id' s s3) as Hbeside.
  { intros id' Hid'. trans s1; [apply (beside_new_event id' object s)|].
    trans s2; [by apply beside_set_primary_events_|].
    by apply beside_set_basic_events_. }
  assert (events s3 = <[child := object]> (events s)) as Hevents.
  { unfold s3, s2, s1. by destruct s. }
  assert (primary_events_ s3 !! id = Some child
          /\ basic_events_ s3 !! id = Some child) as [Hp3 Hb3].
  { unfold s3, s2, s1. destruct s; simpl in *.
    split; by apply map_insert_lookup. }
  eapply ends_with_weaken.
  { apply (attach_to_gates id (find (tbd_orig_ids_ ra) id) child).
    - exists object. rewrite Hevents. split; [apply lookup_insert_eq|done].
    - eapply Forall_impl; [exact Hgates|]. intros gate (o & Ho & Hnone).
      assert (gate <> child) as Hne by congruence.
      split; [done|]. exists o. rewrite Hevents.
      rewrite lookup_insert_ne by done. auto. }
  intros r s' (-> & Hext' & Hbeside' & Hcreated & Hchildren).
  split_and!; [done|by etrans| |].
  - intros id' Hid'. trans s3; auto.
  - exists child. split_and!; [|done| | |done].
    + destruct Hra as (Hev & _). destruct (events ra !! child) as [o|] eqn:Ho;
        [|done]. destruct (Hev child o Ho) as (o' & Ho' & _). congruence.
    + destruct Hext' as (_ & _ & Hsub & _).
      exact (lookup_weaken _ _ _ _ Hp3 Hsub).
    + destruct Hext' as (_ & _ & _ & Hsub & _).
      exact (lookup_weaken _ _ _ _ Hb3 Hsub).
Qed.

#[local] Instance beside_all_preorder P : PreOrder (beside_all P).
Proof.
  split.
  - intros ra. split; [reflexivity|]. intros id _. reflexivity.
  - intros a b c [Hab Hab'] [Hbc Hbc']. split; [by etrans|].
    intros id Hid. trans b; auto.
Qed.

Lemma for_each_total {A} (l : list A) (body : A -> M unit) :
  (forall x s, (body x s).1 = Ok tt) -> forall s, (for_each l body s).1 = Ok tt.
Proof.
  intros Hbody. induction l as [|x l IH]; intros s; [done|].
  simpl. unfold bind. specialize (Hbody x s).
  destruct (body x s) as [r s1]. simpl in Hbody. subst r. apply IH.
Qed.

Lemma ends_with_bind_total (R : relation RiskAnalysis) {A B} (m : M A)
    (k : A -> M B) a ra (Q : Result B -> RiskAnalysis -> Prop) :
  keeps R m -> (m ra).1 = Ok a ->
  (forall ra', R ra ra' -> ends_with (k a) ra' Q) ->
  ends_with (bind m k) ra Q.
Proof.
  intros Hm Hok Hk. unfold ends_with, bind. specialize (Hm ra).
  destruct (m ra) as [r ra']. simpl in *. subst r. by apply Hk.
Qed.

Lemma auto_created_extends ra a b id gates :
  extends a b -> auto_created ra a id gates -> auto_created ra b id gates.
Proof.
  intros Hext (child & Hfresh & Hcreated & Hp & Hb & Hchildren).
  exists child. split_and!; [done|by eapply created_as_extends| | |].
  - destruct Hext as (_ & _ & Hsub & _). exact (lookup_weaken _ _ _ _ Hp Hsub).
  - destruct Hext as (_ & _ & _ & Hsub & _).
    exact (lookup_weaken _ _ _ _ Hb Hsub).
  - eapply Forall_impl; [exact Hchildren|].
    intros gate. by apply child_of_extends.
Qed.

(** The loop over the references of unknown kind. *)
Lemma create_all_unknown ra (l : list (string * list loc)) :
  NoDup l.*1 ->
  forall s,
    extends ra s -> Forall (fun it_e => unbound it_e.1 it_e.2 s) l ->
    ends_with
      (for_each l
         (fun it_e =>
            child <-
              new_event (Event_new class_BasicEvent it_e.1
                                   (find (tbd_orig_ids_ ra) it_e.1)) ;;
            modify (set_primary_events_ (map_insert it_e.1 child)) ;;;
            modify (set_basic_events_ (map_insert it_e.1 child)) ;;;
            for_each it_e.2
                     (fun itvec =>
                        AddChild itvec child ;;; AddParent child itvec)))
      s (fun r s' =>
           r = Ok tt /\ extends s s' /\
           Forall (fun it_e => auto_created ra s' it_e.1 it_e.2) l).
Proof.
  induction l as [|[id gates] l IH]; intros Hnodup s Hra Hl.
  - apply ends_with_ret. split_and!; [done|reflexivity|constructor].
  - rewrite fmap_cons in Hnodup. apply NoDup_cons in Hnodup as [Hnotin Hnodup].
    apply Forall_cons in Hl as [Hhead Hl].
    simpl for_each. apply ends_with_bind.
    eapply ends_with_weaken; [apply (create_unknown ra id gates s Hra Hhead)|].
    intros r s1 (-> & Hext & Hbeside & Hcreated).
    eapply ends_with_weaken.
    { apply (IH Hnodup s1); [by etrans|].
      apply Forall_forall. intros [id' gates'] Hin.
      rewrite Forall_forall in Hl.
      apply (unbound_beside id' gates' s s1); [|by apply (Hl (id', gates'))].
      apply Hbeside. intros ->. apply Hnotin.
      apply list_elem_of_fmap. by exists (id, gates'). }
    intros r s' (-> & Hext' & Hall). split_and!; [done|by etrans|].
    constructor; [by eapply auto_created_extends|done].
Qed.

Lemma known_kinds_primary (m : gmap string loc) :
  keeps (beside_all (fun id => m !! id = None))
        (for_each (map_to_list m)
                  (fun it_h =>
                     modify (set_primary_events_ (map_insert it_h.1 it_h.2)))).
Proof.
  apply keeps_for_each_elem; [apply _|].
  intros [k v] Hin%elem_of_map_to_list s. split.
  - apply extends_set_primary_events_.
  - intros id Hid. apply beside_set_primary_events_. simpl. congruence.
Qed.

Lemma known_kinds_basic (m : gmap string loc) :
  keeps (beside_all (fun id => m !! id = None))
        (for_each (map_to_list m)
                  (fun it_b =>
                     modify (set_primary_events_ (map_insert it_b.1 it_b.2)) ;;;
                     modify (set_basic_events_ (map_insert it_b.1 it_b.2)))).
Proof.
  apply keeps_for_each_elem; [apply _|].
  intros [k v] Hin%elem_of_map_to_list s. split.
  - etrans; [apply extends_set_primary_events_|].
    apply extends_set_basic_events_.
  - intros id Hid. etrans.
    + apply (beside_set_primary_events_ id k v). congruence.
    + apply beside_set_basic_events_. simpl. congruence.
Qed.

(** The block of [ProcessInputFiles] for a model without probabilities. *)
Lemma ProcessInputFiles_undefined_creates ra :
  unknown_kind_unbound ra ->
  exists ra',
    ProcessInputFiles_undefined ra = (Ok tt, ra') /\
    forall id gates,
      tbd_events_ ra !! id = Some gates -> auto_created ra ra' id gates.
Proof.
  intros Hra.
  cut (ends_with ProcessInputFiles_undefined ra (fun r ra' =>
         r = Ok tt /\
         Forall (fun it_e => auto_created ra ra' it_e.1 it_e.2)
                (map_to_list (tbd_events_ ra)))).
  { unfold ends_with. destruct (ProcessInputFiles_undefined ra) as [r ra'].
    simpl. intros [-> Hall]. exists ra'. split; [done|].
    intros id gates Hin%elem_of_map_to_list.
    rewrite Forall_forall in Hall. apply (Hall (id, gates) Hin). }
  unfold ProcessInputFiles_undefined. apply ends_with_bind, ends_with_get.
  eapply ends_with_bind_total;
    [apply known_kinds_primary|by apply for_each_total|].
  intros s1 [Hext1 Hbeside1].
  eapply ends_with_bind_total;
    [apply known_kinds_basic|by apply for_each_total|].
  intros s2 [Hext2 Hbeside2].
  eapply ends_with_weaken.
  { apply create_all_unknown.
    - apply NoDup_fst_map_to_list.
    - by etrans.
    - apply Forall_forall. intros [id gates] Hin%elem_of_map_to_list.
      destruct (Hra id gates Hin) as (Hhouse & Hbasic & Hunbound).
      apply (unbound_beside id gates s1 s2); [by apply Hbeside2|].
      apply (unbound_beside id gates ra s1); [by apply Hbeside1|done]. }
  by intros r ra' (-> & _ & Hall).
Qed.

(** *** Where probabilities are requested *)

#[local] Instance same_request_preorder : PreOrder same_request.
Proof.
  unfold same_request. split; [done|]. intros a b c Hab Hbc. congruence.
Qed.

Lemma request_ret {A} (a : A) : keeps same_request (ret a).
Proof. apply keeps_ret, _. Qed.

Lemma request_throw {A} (e : Error) : keeps same_request (throw (A := A) e).
Proof. apply keeps_throw, _. Qed.

Lemma request_get : keeps same_request get.
Proof. apply keeps_get, _. Qed.

Lemma request_bind {A B} (m : M A) (k : A -> M B) :
  keeps same_request m -> (forall a, keeps same_request (k a)) ->
  keeps same_request (bind m k).
Proof. apply keeps_bind, _. Qed.

Lemma request_for_each {A} (l : list A) (body : A -> M unit) :
  (forall x, keeps same_request (body x)) ->
  keeps same_request (for_each l body).
Proof. apply keeps_for_each, _. Qed.

Lemma request_catch {A} (body : M A) (handler : string -> M A) :
  keeps same_request body -> (forall msg, keeps same_request (handler msg)) ->
  keeps same_request (catch_ValidationError body handler).
Proof. apply keeps_catch_ValidationError, _. Qed.

Lemma request_modify (f : RiskAnalysis -> RiskAnalysis) :
  (forall ra, prob_requested_ (f ra) = prob_requested_ ra) ->
  keeps same_request (modify f).
Proof. intros Hf ra. apply Hf. Qed.

Lemma request_call ptr method : keeps same_request (call ptr method).
Proof. by intros []. Qed.

Lemma request_new_event e : keeps same_request (new_event e).
Proof. by intros []. Qed.

Lemma request_new_expr e : keeps same_request (new_expr e).
Proof. by intros []. Qed.

Create HintDb request discriminated.

#[local] Hint Resolve request_ret request_throw request_get request_bind
  request_for_each request_catch request_modify request_call request_new_event
  request_new_expr : request.
#[local] Hint Extern 0 (keeps _ _) => progress (cbv beta zeta) : request.
#[local] Hint Extern 2 (keeps _ (match ?x with _ => _ end)) =>
  destruct x : request.
#[local] Hint Extern 1 (prob_requested_ _ = prob_requested_ ?ra) =>
  destruct ra; reflexivity : request.

Ltac request := cbv beta zeta; auto 60 with request.

Lemma request_AddChild gate child : keeps same_request (AddChild gate child).
Proof. unfold AddChild. request. Qed.

Lemma request_AddParent child gate : keeps same_request (AddParent child gate).
Proof. unfold AddParent. request. Qed.

#[local] Hint Resolve request_AddChild request_AddParent : request.

Lemma request_UpdateIfLateEvent event :
  keeps same_request (UpdateIfLateEvent event).
Proof. unfold UpdateIfLateEvent. request. Qed.

#[local] Hint Resolve request_UpdateIfLateEvent : request.

Lemma request_ProcessFormula_loop children_id gate events :
  keeps same_request (ProcessFormula_loop children_id gate events).
Proof.
  revert children_id. induction events as [|event events IH];
    intros children_id; simpl;
    unfold ProcessFormulaEvent, ProcessFormulaBasicEvent,
      ProcessFormulaHouseEvent, ProcessFormulaGate; request.
Qed.

Lemma request_AttachLabelAndAttributes node element :
  keeps same_request (AttachLabelAndAttributes node element).
Proof. unfold AttachLabelAndAttributes. request. Qed.

#[local] Hint Resolve request_ProcessFormula_loop
  request_AttachLabelAndAttributes : request.

Lemma request_DefineGate ext gate_node ft :
  keeps same_request (DefineGate ext gate_node ft).
Proof. unfold DefineGate, Gate_vote_number_set, ProcessFormula. request. Qed.

Lemma request_histogram_bins (bins : list (XmlExpr * XmlExpr)) :
  Forall (fun bin => keeps same_request (GetExpression bin.1) /\
                     keeps same_request (GetExpression bin.2)) bins ->
  keeps same_request
    ((fix loop (bins : list (XmlExpr * XmlExpr)) : M (list loc * list loc) :=
        match bins with
        | [] => ret ([], [])
        | (e0, e1) :: bins' =>
            bound <- GetExpression e0 ;;
            weight <- GetExpression e1 ;;
            rest <- loop bins' ;;
            ret (bound :: rest.1, weight :: rest.2)
        end) bins).
Proof.
  induction 1 as [|[e0 e1] bins [H0 H1] _ IH]; simpl in *; request.
Qed.

Lemma request_GetExpression e : keeps same_request (GetExpression e).
Proof.
  induction e using XmlExpr_induction; rewrite GetExpression_unfold;
    unfold GetDeviateExpression_with, GetConstantExpression,
      GetParameterExpression;
    try pose proof (request_histogram_bins _ ltac:(eassumption));
    request.
Qed.

#[local] Hint Resolve request_DefineGate request_GetExpression : request.

Lemma request_GetBasicEvent event_node :
  keeps same_request (GetBasicEvent event_node).
Proof. unfold GetBasicEvent. request. Qed.

#[local] Hint Resolve request_GetBasicEvent : request.

Lemma request_DefineBasicEvent event_node :
  keeps same_request (DefineBasicEvent event_node).
Proof. unfold DefineBasicEvent. request. Qed.

Lemma request_DefineHouseEvent event_node :
  keeps same_request (DefineHouseEvent event_node).
Proof. unfold DefineHouseEvent. request. Qed.

Lemma request_Parameter_expression parameter expression :
  keeps same_request (Parameter_expression parameter expression).
Proof.
  intros ra. unfold Parameter_expression, bind, get. simpl.
  destruct (exprs ra !! parameter) as [[]|]; simpl; try reflexivity.
  destruct expression0; simpl; [reflexivity|]. by destruct ra.
Qed.

#[local] Hint Resolve request_DefineBasicEvent request_DefineHouseEvent
  request_Parameter_expression : request.

Lemma request_DefineParameter param_node :
  keeps same_request (DefineParameter param_node).
Proof. unfold DefineParameter. request. Qed.

Lemma request_ccf_children ext (children : list CcfChild) id :
  keeps same_request
    (for_each children
       (fun element =>
          match element with
          | ccf_members members => ProcessCcfMembers members id
          | ccf_distribution expr_node =>
              expression <- GetExpression expr_node ;;
              modify (set_ccf_groups_
                        (alter (CcfGroup_AddDistribution expression) id))
          | ccf_factor factor => DefineCcfFactor ext factor id
          | ccf_factors factors => ProcessCcfFactors ext factors id
          end)).
Proof.
  unfold ProcessCcfMembers, ProcessCcfFactors, DefineCcfFactor. request.
Qed.

#[local] Hint Resolve request_DefineParameter request_ccf_children : request.

Lemma ends_with_catch {A} (body : M A) (handler : string -> M A) ra
    (Q : Result A -> RiskAnalysis -> Prop) :
  ends_with body ra (fun r ra' =>
                       match r with
                       | Throw (ValidationError msg) =>
                           ends_with (handler msg) ra' Q
                       | _ => Q r ra'
                       end) ->
  ends_with (catch_ValidationError body handler) ra Q.
Proof.
  unfold ends_with, catch_ValidationError.
  by destruct (body ra) as [[a|[]] ra'].
Qed.

(** A loop has requested probabilities when it is over iff they were
    requested before it or one of its elements requests them. *)
Lemma for_each_request {A} (l : list A) (body : A -> M unit)
    (sets : A -> bool) :
  (forall x s, ends_with (body x) s (fun r s' =>
     r = Ok tt -> prob_requested_ s' = prob_requested_ s || sets x)) ->
  forall s, ends_with (for_each l body) s (fun r s' =>
     r = Ok tt -> prob_requested_ s' = prob_requested_ s || existsb sets l).
Proof.
  intros Hbody. induction l as [|x l IH]; intros s; simpl.
  - apply ends_with_ret. intros _. by rewrite orb_false_r.
  - apply ends_with_bind. eapply ends_with_weaken; [apply Hbody|].
    intros [[]|e] s1 Hs1; [|done]. eapply ends_with_weaken; [apply IH|].
    intros r s' Hs' Hr. rewrite (Hs' Hr), (Hs1 eq_refl). by rewrite orb_assoc.
Qed.

Lemma DefineCcfGroup_requests ext ccf_node s :
  ends_with (DefineCcfGroup ext ccf_node) s (fun r s' =>
    r = Ok tt -> prob_requested_ s' = true).
Proof.
  unfold DefineCcfGroup. cbv zeta. apply ends_with_bind, ends_with_get.
  destruct (count _ _); [by apply ends_with_throw|].
  do 2 apply ends_with_bind, ends_with_modify.
  apply (ends_with_keeps same_request); [request|].
  intros r s' Hs _. rewrite Hs. by destruct s.
Qed.

Lemma ProcessModelData_requests model_data s :
  ends_with (ProcessModelData model_data) s (fun r s' =>
    r = Ok tt -> prob_requested_ s' = true).
Proof.
  unfold ProcessModelData. apply ends_with_bind, ends_with_modify.
  apply (ends_with_keeps same_request); [request|].
  intros r s' Hs _. rewrite Hs. by destruct s.
Qed.

Lemma DefineFaultTree_requests ext ft_node s :
  ends_with (DefineFaultTree ext ft_node) s (fun r s' =>
    r = Ok tt ->
    prob_requested_ s'
    = prob_requested_ s
      || existsb requests_probabilities_in (ft_children ft_node)).
Proof.
  unfold DefineFaultTree. cbv zeta. apply ends_with_bind, ends_with_get.
  destruct (count _ _); [by apply ends_with_throw|].
  apply ends_with_bind, ends_with_modify.
  apply (ends_with_bind_keeps same_request); [request| |done].
  intros [] s1 Hs1. eapply ends_with_weaken.
  { apply (for_each_request _ _ requests_probabilities_in).
    intros element s2. apply ends_with_bind, ends_with_get.
    destruct element as [node|node|node|node|node]; simpl.
    - rewrite andb_false_r. apply ends_with_bind, ends_with_ret.
      apply (ends_with_keeps same_request); [request|].
      intros r s' Hs' _. by rewrite Hs', orb_false_r.
    - rewrite andb_true_r.
      destruct (prob_requested_ s2) eqn:Hprob; simpl;
        apply ends_with_bind;
        [apply ends_with_ret|apply ends_with_modify];
        (apply (ends_with_keeps same_request); [request|]);
        intros r s' Hs' _; rewrite Hs'; [done|by destruct s2].
    - rewrite andb_true_r.
      destruct (prob_requested_ s2) eqn:Hprob; simpl;
        apply ends_with_bind;
        [apply ends_with_ret|apply ends_with_modify];
        (apply (ends_with_keeps same_request); [request|]);
        intros r s' Hs' _; rewrite Hs'; [done|by destruct s2].
    - rewrite andb_false_r. apply ends_with_bind, ends_with_ret.
      apply (ends_with_keeps same_request); [request|].
      intros r s' Hs' _. by rewrite Hs', orb_false_r.
    - rewrite andb_false_r. apply ends_with_bind, ends_with_ret.
      eapply ends_with_weaken; [apply DefineCcfGroup_requests|].
      intros r s' Hs' Hr. by rewrite (Hs' Hr), orb_true_r. }
  intros r s' Hs' Hr. rewrite (Hs' Hr), Hs1. by destruct s.
Qed.

Lemma ProcessInputFile_requests ext xml_file s :
  ends_with (ProcessInputFile ext xml_file) s (fun r s' =>
    r = Ok tt ->
    prob_requested_ s' = prob_requested_ s || requests_probabilities xml_file).
Proof.
  unfold ProcessInputFile.
  apply (for_each_request _ _ requests_probabilities_at).
  intros [node|node|children|name] s1; simpl.
  - apply DefineFaultTree_requests.
  - eapply ends_with_weaken; [apply DefineCcfGroup_requests|].
    intros r s' Hs' Hr. by rewrite (Hs' Hr), orb_true_r.
  - eapply ends_with_weaken; [apply ProcessModelData_requests|].
    intros r s' Hs' Hr. by rewrite (Hs' Hr), orb_true_r.
  - by apply ends_with_throw.
Qed.

(** After the files are read, probabilities are requested iff they were
    before or a file has an element that requests them. *)
Lemma ProcessInputFiles_read_requests ext xml_files ra0 ra :
  ProcessInputFiles_read ext xml_files ra0 = (Ok tt, ra) ->
  prob_requested_ ra
  = prob_requested_ ra0 || existsb requests_probabilities xml_files.
Proof.
  intros Hread.
  cut (ends_with (ProcessInputFiles_read ext xml_files) ra0 (fun r s' =>
         r = Ok tt ->
         prob_requested_ s'
         = prob_requested_ ra0 || existsb requests_probabilities xml_files)).
  { unfold ends_with. rewrite Hread. simpl. auto. }
  unfold ProcessInputFiles_read. apply ends_with_bind, ends_with_get.
  apply ends_with_bind, ends_with_modify.
  eapply ends_with_weaken.
  { apply (for_each_request _ _ requests_probabilities).
    intros it s. apply ends_with_catch.
    eapply ends_with_weaken; [apply ProcessInputFile_requests|].
    by intros [[]|[]] s'. }
  intros r s' Hs' Hr. rewrite (Hs' Hr). by destruct ra0.
Qed.

(** *** What the reading of the files maintains *)

#[local] Instance same_shape_preorder : PreOrder same_shape.
Proof.
  split.
  - intros ra. unfold same_shape. split_and!; try done. eauto.
  - intros a b c (H1 & H2 & H3 & H4 & H5 & H6 & H7 & Hev)
           (H1' & H2' & H3' & H4' & H5' & H6' & H7' & Hev').
    unfold same_shape. split_and!; try congruence.
    intros ptr o Ho. destruct (Hev ptr o Ho) as (o' & Ho' & Hid & Hch).
    destruct (Hev' ptr o' Ho') as (o'' & Ho'' & Hid' & Hch').
    exists o''. split_and!; congruence.
Qed.

Lemma childless_same_shape id a b gate :
  same_shape a b -> childless id a gate -> childless id b gate.
Proof.
  intros (_ & _ & _ & _ & _ & _ & _ & Hev) (o & Ho & Hnone).
  destruct (Hev gate o Ho) as (o' & Ho' & _ & Hch).
  exists o'. split; [done|]. by rewrite Hch.
Qed.

Lemma keyed_same_shape a b m :
  same_shape a b -> keyed a m -> keyed b m.
Proof.
  intros (_ & _ & _ & _ & _ & _ & _ & Hev) Hm id ptr Hptr.
  destruct (Hm id ptr Hptr) as (o & Ho & Hid).
  destruct (Hev ptr o Ho) as (o' & Ho' & Hid' & _).
  exists o'. split; congruence.
Qed.

Lemma known_same_shape a b id : same_shape a b -> known b id = known a id.
Proof.
  intros (H1 & H2 & H3 & H4 & H5 & H6 & _). unfold known.
  by rewrite H1, H2, H3, H5, H6.
Qed.

Lemma registered_same_shape a b :
  same_shape a b -> registered a -> registered b.
Proof.
  intros Hs (Hg & Htg & Hp & Htb & Hth & Hb & Hd & Hc & Hf).
  pose proof Hs as (H1 & H2 & H3 & H4 & H5 & H6 & H7 & Hev).
  unfold registered. rewrite H1, H2, H3, H4, H5, H6, H7.
  split_and!; try (by eapply keyed_same_shape); try done.
  - intros id ptr Hptr. destruct (Hc id ptr Hptr) as (o & Ho & Hch).
    destruct (Hev ptr o Ho) as (o' & Ho' & _ & Hch').
    exists o'. split; congruence.
  - intros id gates Hgates. eapply Forall_impl; [by eapply Hf|].
    intros gate [k Hk]. exists k. by rewrite H1.
Qed.

Lemma pending_same_shape P a b : same_shape a b -> pending P a -> pending P b.
Proof.
  intros Hs Ha id gates Hgates HP.
  pose proof Hs as (_ & _ & _ & _ & _ & _ & H7 & _). rewrite H7 in Hgates.
  destruct (Ha id gates Hgates HP) as [Hknown Hchildless].
  split; [by rewrite (known_same_shape a b)|].
  eapply Forall_impl; [exact Hchildless|].
  intros gate. by apply childless_same_shape.
Qed.

Lemma well_formed_but_same_shape x a b :
  same_shape a b -> well_formed_but x a -> well_formed_but x b.
Proof.
  intros Hs [Hr Hp].
  split; [by eapply registered_same_shape|by eapply pending_same_shape].
Qed.

Lemma well_formed_same_shape a b :
  same_shape a b -> well_formed a -> well_formed b.
Proof.
  intros Hs [Hr Hp].
  split; [by eapply registered_same_shape|by eapply pending_same_shape].
Qed.

Lemma well_formed_weaken x ra : well_formed ra -> well_formed_but x ra.
Proof. intros [Hr Hp]. split; [done|]. intros id gates H _. by apply Hp. Qed.

Lemma well_formed_but_resolved x ra :
  well_formed_but x ra -> tbd_events_ ra !! x = None -> well_formed ra.
Proof.
  intros [Hr Hp] Hx. split; [done|]. intros id gates H _. apply Hp; [done|].
  intros ->. congruence.
Qed.

Lemma live_as_same_shape a b id ptr :
  same_shape a b -> live_as a id ptr -> live_as b id ptr.
Proof.
  intros (_ & _ & _ & _ & _ & _ & _ & Hev) (o & Ho & Hid).
  destruct (Hev ptr o Ho) as (o' & Ho' & Hid' & _).
  exists o'. split; congruence.
Qed.

Lemma well_formed_unknown_kind_unbound ra :
  well_formed ra -> unknown_kind_unbound ra.
Proof.
  intros [(_ & _ & _ & _ & _ & Hb & _) Hp] id gates Hgates.
  destruct (Hp id gates Hgates I) as [Hknown Hchildless].
  unfold known in Hknown. rewrite !orb_false_iff in Hknown.
  destruct Hknown as ((((_ & _) & Hprimary) & Hbasic) & Hhouse).
  apply count_false in Hprimary, Hbasic, Hhouse.
  split_and!; try done. unfold unbound. split_and!; try done.
  destruct (basic_events_ ra !! id) eqn:H; [|done].
  destruct (Hb id) as [? ?]; [by eexists|congruence].
Qed.

Lemma well_formed_new settings : well_formed (RiskAnalysis_new settings).
Proof.
  split.
  - unfold registered, keyed. simpl.
    split_and!; intros *; try rewrite lookup_empty; try done.
  - intros id gates. simpl. by rewrite lookup_empty.
Qed.

Lemma shape_ret {A} (a : A) : keeps same_shape (ret a).
Proof. apply keeps_ret, _. Qed.

Lemma shape_throw {A} (e : Error) : keeps same_shape (throw (A := A) e).
Proof. apply keeps_throw, _. Qed.

Lemma shape_get : keeps same_shape get.
Proof. apply keeps_get, _. Qed.

Lemma shape_bind {A B} (m : M A) (k : A -> M B) :
  keeps same_shape m -> (forall a, keeps same_shape (k a)) ->
  keeps same_shape (bind m k).
Proof. apply keeps_bind, _. Qed.

Lemma shape_for_each {A} (l : list A) (body : A -> M unit) :
  (forall x, keeps same_shape (body x)) -> keeps same_shape (for_each l body).
Proof. apply keeps_for_each, _. Qed.

Lemma shape_catch {A} (body : M A) (handler : string -> M A) :
  keeps same_shape body -> (forall msg, keeps same_shape (handler msg)) ->
  keeps same_shape (catch_ValidationError body handler).
Proof. apply keeps_catch_ValidationError, _. Qed.

Lemma shape_modify (f : RiskAnalysis -> RiskAnalysis) :
  (forall ra, same_shape ra (f ra)) -> keeps same_shape (modify f).
Proof. intros Hf ra. apply Hf. Qed.

(** A member function that leaves the id and the children alone. *)
Lemma shape_call ptr method :
  (forall o, id_ (method o) = id_ o /\ children_ (method o) = children_ o) ->
  keeps same_shape (call ptr method).
Proof.
  intros Hm ra. destruct ra. unfold same_shape. simpl. split_and!; try done.
  intros p o Ho. destruct (decide (p = ptr)) as [->|Hne].
  - exists (method o). rewrite lookup_alter_eq, Ho. split; [done|apply Hm].
  - exists o. by rewrite lookup_alter_ne.
Qed.

Lemma shape_new_event e : keeps same_shape (new_event e).
Proof.
  intros ra. pose proof (fresh_event ra) as Hfresh.
  destruct ra. unfold same_shape. simpl in *. split_and!; try done.
  intros p o Ho. exists o. rewrite lookup_insert_ne by congruence. done.
Qed.

Lemma shape_new_expr e : keeps same_shape (new_expr e).
Proof.
  intros ra. destruct ra. unfold same_shape. simpl. split_and!; try done.
  eauto.
Qed.

Create HintDb shape discriminated.

#[local] Hint Resolve shape_ret shape_throw shape_get shape_bind
  shape_for_each shape_catch shape_modify shape_call shape_new_event
  shape_new_expr : shape.
#[local] Hint Extern 0 (keeps _ _) => progress (cbv beta zeta) : shape.
#[local] Hint Extern 2 (keeps _ (match ?x with _ => _ end)) =>
  destruct x : shape.
#[local] Hint Extern 1 (same_shape ?ra _) =>
  destruct ra; unfold same_shape; simpl; split_and!; eauto : shape.
#[local] Hint Extern 1 (id_ (_ ?o) = id_ ?o /\ _) =>
  destruct o; split; reflexivity : shape.

Ltac shape := cbv beta zeta; auto 60 with shape.

Lemma shape_AddParent child gate : keeps same_shape (AddParent child gate).
Proof. unfold AddParent. shape. Qed.

Lemma shape_AttachLabelAndAttributes node element :
  keeps same_shape (AttachLabelAndAttributes node element).
Proof. unfold AttachLabelAndAttributes. shape. Qed.

#[local] Hint Resolve shape_AddParent shape_AttachLabelAndAttributes : shape.

Lemma shape_histogram_bins (bins : list (XmlExpr * XmlExpr)) :
  Forall (fun bin => keeps same_shape (GetExpression bin.1) /\
                     keeps same_shape (GetExpression bin.2)) bins ->
  keeps same_shape
    ((fix loop (bins : list (XmlExpr * XmlExpr)) : M (list loc * list loc) :=
        match bins with
        | [] => ret ([], [])
        | (e0, e1) :: bins' =>
            bound <- GetExpression e0 ;;
            weight <- GetExpression e1 ;;
            rest <- loop bins' ;;
            ret (bound :: rest.1, weight :: rest.2)
        end) bins).
Proof.
  induction 1 as [|[e0 e1] bins [H0 H1] _ IH]; simpl in *; shape.
Qed.

Lemma shape_GetExpression e : keeps same_shape (GetExpression e).
Proof.
  induction e using XmlExpr_induction; rewrite GetExpression_unfold;
    unfold GetDeviateExpression_with, GetConstantExpression,
      GetParameterExpression;
    try pose proof (shape_histogram_bins _ ltac:(eassumption));
    shape.
Qed.

Lemma shape_Parameter_expression parameter expression :
  keeps same_shape (Parameter_expression parameter expression).
Proof.
  intros ra. unfold Parameter_expression, bind, get. simpl.
  destruct (exprs ra !! parameter) as [[]|]; simpl; try reflexivity.
  destruct expression0; simpl; [reflexivity|].
  destruct ra; unfold same_shape; simpl; split_and!; eauto.
Qed.

#[local] Hint Resolve shape_GetExpression shape_Parameter_expression : shape.

Lemma shape_DefineParameter param_node :
  keeps same_shape (DefineParameter param_node).
Proof. unfold DefineParameter. shape. Qed.

Lemma shape_DefineCcfFactor ext factor_node ccf_group :
  keeps same_shape (DefineCcfFactor ext factor_node ccf_group).
Proof. unfold DefineCcfFactor. shape. Qed.

#[local] Hint Resolve shape_DefineParameter shape_DefineCcfFactor : shape.

Lemma keyed_insert (store : gmap loc Event) (m : gmap string loc) id c :
  (forall k p, m !! k = Some p -> exists o, store !! p = Some o /\ id_ o = k) ->
  (exists o, store !! c = Some o /\ id_ o = id) ->
  forall k p, map_insert id c m !! k = Some p ->
              exists o, store !! p = Some o /\ id_ o = k.
Proof.
  intros Hm Hc k p. unfold map_insert. destruct (m !! id) eqn:E; [apply Hm|].
  rewrite lookup_insert_Some. intros [[<- <-]|[_ H]]; [done|by apply Hm].
Qed.

Lemma keyed_delete (store : gmap loc Event) (m : gmap string loc) id :
  (forall k p, m !! k = Some p -> exists o, store !! p = Some o /\ id_ o = k) ->
  forall k p, delete id m !! k = Some p ->
              exists o, store !! p = Some o /\ id_ o = k.
Proof. intros Hm k p [_ H]%lookup_delete_Some. by apply Hm. Qed.

Lemma count_map_insert_ne {V} (m : gmap string V) id k v :
  id <> k -> count (map_insert id v m) k = count m k.
Proof. intros Hne. unfold count. by rewrite map_insert_lookup_ne. Qed.

Lemma count_delete_false {V} (m : gmap string V) id k :
  count m k = false -> count (delete id m) k = false.
Proof.
  rewrite !count_false. intros Hk. destruct (decide (id = k)) as [->|Hne].
  - apply lookup_delete_eq.
  - by rewrite lookup_delete_ne.
Qed.

Ltac open_well_formed H :=
  destruct H as [(Hg & Htg & Hp & Htb & Hth & Hb & Hd & Hc & Hf) Hpend].

Ltac raw :=
  unfold well_formed, well_formed_but, registered, pending, keyed, live_as,
    childless, defined_gate, known in *; simpl in *.

(** A new reference of a known kind. *)
Lemma well_formed_but_tbd_basic_events_ id c s :
  well_formed_but id s -> live_as s id c ->
  well_formed_but id (set_tbd_basic_events_ (map_insert id c) s).
Proof.
  intros Hs Hlive. destruct s. raw. open_well_formed Hs.
  split_and!; try done.
  - by apply keyed_insert.
  - intros k gates Hk Hne. destruct (Hpend k gates Hk Hne) as [Hknown Hch].
    split; [|done]. by rewrite count_map_insert_ne.
Qed.

Lemma well_formed_but_tbd_house_events_ id c s :
  well_formed_but id s -> live_as s id c ->
  well_formed_but id (set_tbd_house_events_ (map_insert id c) s).
Proof.
  intros Hs Hlive. destruct s. raw. open_well_formed Hs.
  split_and!; try done.
  - by apply keyed_insert.
  - intros k gates Hk Hne. destruct (Hpend k gates Hk Hne) as [Hknown Hch].
    split; [|done]. by rewrite count_map_insert_ne.
Qed.

Lemma well_formed_but_tbd_gates_ id c s :
  well_formed_but id s -> gates_ s !! id = None ->
  (exists o, events s !! c = Some o /\ id_ o = id /\ children_ o = ∅) ->
  well_formed_but id (set_tbd_gates_ (map_insert id c) s).
Proof.
  intros Hs Hnone (o & Ho & Hid & Hchildren). destruct s. raw.
  open_well_formed Hs. split_and!; try done.
  - apply keyed_insert; eauto.
  - intros k [p Hk]. unfold map_insert in Hk.
    destruct (tbd_gates_0 !! id) eqn:E; [by apply Hd|].
    apply lookup_insert_Some in Hk as [[<- <-]|[_ Hk]]; [done|by apply Hd].
  - intros k p Hk. unfold map_insert in Hk.
    destruct (tbd_gates_0 !! id) eqn:E; [by eapply Hc|].
    apply lookup_insert_Some in Hk as [[<- <-]|[_ Hk]]; [eauto|by eapply Hc].
  - intros k gates Hk Hne. destruct (Hpend k gates Hk Hne) as [Hknown Hch].
    split; [|done]. by rewrite count_map_insert_ne.
Qed.

(** A new definition. *)
Lemma well_formed_but_primary_events_ id c s :
  well_formed_but id s -> live_as s id c ->
  well_formed_but id (set_primary_events_ (map_insert id c) s).
Proof.
  intros Hs Hlive. destruct s. raw. open_well_formed Hs.
  split_and!; try done.
  - by apply keyed_insert.
  - intros k Hk. destruct (Hb k Hk) as [p Hp'].
    exists p. by apply (lookup_weaken _ _ _ _ Hp'), map_insert_subseteq.
  - intros k gates Hk Hne. destruct (Hpend k gates Hk Hne) as [Hknown Hch].
    split; [|done]. by rewrite count_map_insert_ne.
Qed.

Lemma well_formed_but_basic_events_ id c s :
  well_formed_but id s -> is_Some (primary_events_ s !! id) ->
  well_formed_but id (set_basic_events_ (map_insert id c) s).
Proof.
  intros Hs Hprimary. destruct s. raw. open_well_formed Hs.
  split_and!; try done.
  intros k [p Hk]. unfold map_insert in Hk.
  destruct (basic_events_0 !! id) eqn:E; [by apply Hb|].
  apply lookup_insert_Some in Hk as [[<- <-]|[_ Hk]]; [done|by apply Hb].
Qed.

Lemma well_formed_but_gates_ id c s :
  well_formed_but id s -> live_as s id c -> tbd_gates_ s !! id = None ->
  well_formed_but id (set_gates_ (map_insert id c) s).
Proof.
  intros Hs Hlive Hnone. destruct s. raw. open_well_formed Hs.
  split_and!; try done.
  - by apply keyed_insert.
  - intros k Hk. destruct (decide (id = k)) as [->|Hne].
    + rewrite Hnone in Hk. by destruct Hk.
    + rewrite map_insert_lookup_ne by done. by apply Hd.
  - intros k gates Hk. eapply Forall_impl; [by eapply Hf|].
    intros gate [k' Hk']. exists k'.
    by apply (lookup_weaken _ _ _ _ Hk'), map_insert_subseteq.
  - intros k gates Hk Hne. destruct (Hpend k gates Hk Hne) as [Hknown Hch].
    split; [|done]. by rewrite count_map_insert_ne.
Qed.

(** A reference that becomes a definition leaves the references. *)
Lemma well_formed_but_delete_tbd_gates_ x id s :
  well_formed_but x s -> well_formed_but x (set_tbd_gates_ (delete id) s).
Proof.
  intros Hs. destruct s. raw. open_well_formed Hs. split_and!; try done.
  - by apply keyed_delete.
  - intros k [p [_ Hk]%lookup_delete_Some]. apply Hd. by exists p.
  - intros k p [_ Hk]%lookup_delete_Some. by eapply Hc.
  - intros k gates Hk Hne. destruct (Hpend k gates Hk Hne) as [Hknown Hch].
    split; [|done]. rewrite !orb_false_iff in *.
    destruct Hknown as ((((? & ?) & ?) & ?) & ?).
    split_and!; try done. by apply count_delete_false.
Qed.

Lemma well_formed_but_delete_tbd_basic_events_ x id s :
  well_formed_but x s ->
  well_formed_but x (set_tbd_basic_events_ (delete id) s).
Proof.
  intros Hs. destruct s. raw. open_well_formed Hs. split_and!; try done.
  - by apply keyed_delete.
  - intros k gates Hk Hne. destruct (Hpend k gates Hk Hne) as [Hknown Hch].
    split; [|done]. rewrite !orb_false_iff in *.
    destruct Hknown as ((((? & ?) & ?) & ?) & ?).
    split_and!; try done. by apply count_delete_false.
Qed.

Lemma well_formed_but_delete_tbd_house_events_ x id s :
  well_formed_but x s ->
  well_formed_but x (set_tbd_house_events_ (delete id) s).
Proof.
  intros Hs. destruct s. raw. open_well_formed Hs. split_and!; try done.
  - by apply keyed_delete.
  - intros k gates Hk Hne. destruct (Hpend k gates Hk Hne) as [Hknown Hch].
    split; [|done]. rewrite !orb_false_iff in *.
    destruct Hknown as ((((? & ?) & ?) & ?) & ?).
    split_and!; try done. by apply count_delete_false.
Qed.

(** A gate waits for an event of unknown kind. *)
Lemma well_formed_wait_more id gate s :
  well_formed s -> known s id = false ->
  defined_gate s gate -> childless id s gate ->
  well_formed
    (set_tbd_events_ (alter (fun parents => (parents ++ [gate])%list) id) s).
Proof.
  intros Hs Hknown Hgate Hchild. destruct s. raw. open_well_formed Hs.
  split_and!; try done.
  - intros k gates Hk. apply lookup_alter_Some in Hk
      as [(<- & gates' & Hk & ->)|[_ Hk]]; [|by eapply Hf].
    apply Forall_app. split; [by eapply Hf|by constructor].
  - intros k gates Hk _. apply lookup_alter_Some in Hk
      as [(<- & gates' & Hk & ->)|[_ Hk]]; [|by eapply Hpend].
    split; [done|]. apply Forall_app.
    split; [by eapply Hpend|by constructor].
Qed.

Lemma well_formed_wait_first id gate s :
  well_formed s -> known s id = false ->
  defined_gate s gate -> childless id s gate ->
  well_formed (set_tbd_events_ (map_insert id [gate]) s).
Proof.
  intros Hs Hknown Hgate Hchild. destruct s. raw. open_well_formed Hs.
  split_and!; try done.
  - intros k gates Hk. unfold map_insert in Hk.
    destruct (tbd_events_0 !! id) eqn:E; [by eapply Hf|].
    apply lookup_insert_Some in Hk as [[<- <-]|[_ Hk]]; [|by eapply Hf].
    by constructor.
  - intros k gates Hk _. unfold map_insert in Hk.
    destruct (tbd_events_0 !! id) eqn:E; [by eapply Hpend|].
    apply lookup_insert_Some in Hk as [[<- <-]|[_ Hk]]; [|by eapply Hpend].
    split; [done|]. by constructor.
Qed.

(** The references to an id are resolved. *)
Lemma well_formed_resolved id s :
  well_formed_but id s -> well_formed (set_tbd_events_ (delete id) s).
Proof.
  intros Hs. destruct s. raw. open_well_formed Hs. split_and!; try done.
  - intros k gates [_ Hk]%lookup_delete_Some. by eapply Hf.
  - intros k gates [Hne Hk]%lookup_delete_Some _. by eapply Hpend.
Qed.

Lemma live_as_extends a b id ptr :
  extends a b -> live_as a id ptr -> live_as b id ptr.
Proof.
  intros Hext (o & Ho & Hid).
  destruct (extends_event a b ptr o Hext Ho) as (o' & Ho' & Hid' & _).
  exists o'. split; congruence.
Qed.

Lemma childless_beside id a b gate :
  beside id a b -> childless id a gate -> childless id b gate.
Proof.
  intros ((Hev & _) & _ & _ & Hc) (o & Ho & Hnone).
  destruct (Hev gate o Ho) as (o' & Ho' & _).
  exists o'. split; [done|]. by rewrite (Hc gate o o' Ho Ho').
Qed.

(** A change of the objects that leaves the containers alone: the ids stay,
    the children of every other id than [x] stay, and a gate that is only
    referred to gets no child. *)
Lemma well_formed_but_objects x a b :
  well_formed_but x a -> same_definitions a b ->
  tbd_events_ b = tbd_events_ a ->
  (forall id, id <> x -> beside id a b) -> extends a b ->
  (forall id ptr o o',
      tbd_gates_ a !! id = Some ptr -> events a !! ptr = Some o ->
      events b !! ptr = Some o' -> children_ o' = children_ o) ->
  well_formed_but x b.
Proof.
  intros Ha (_ & H1 & H2 & H3 & H4 & H5 & H6 & _) H7 Hbeside Hext Hgates.
  open_well_formed Ha. unfold well_formed_but, registered, pending, known.
  rewrite H1, H2, H3, H4, H5, H6, H7. split_and!; try done.
  - intros id ptr Hptr. eapply live_as_extends; [done|by apply Hg].
  - intros id ptr Hptr. eapply live_as_extends; [done|by apply Htg].
  - intros id ptr Hptr. eapply live_as_extends; [done|by apply Hp].
  - intros id ptr Hptr. eapply live_as_extends; [done|by apply Htb].
  - intros id ptr Hptr. eapply live_as_extends; [done|by apply Hth].
  - intros id ptr Hptr. destruct (Hc id ptr Hptr) as (o & Ho & Hch).
    destruct (extends_event a b ptr o Hext Ho) as (o' & Ho' & _).
    exists o'. split; [done|]. by rewrite (Hgates id ptr o o' Hptr Ho Ho').
  - intros id gates Hgates'. eapply Forall_impl; [by eapply Hf|].
    intros gate [k Hk]. exists k. by rewrite H1.
  - intros id gates Hid Hne. destruct (Hpend id gates Hid Hne) as [Hknown Hch].
    split; [done|]. eapply Forall_impl; [exact Hch|].
    intros gate. apply childless_beside. by apply Hbeside.
Qed.

(** A defined gate is not a gate that is only referred to. *)
Lemma defined_gate_not_tbd s gate id :
  registered s -> defined_gate s gate -> tbd_gates_ s !! id = Some gate ->
  False.
Proof.
  intros (Hg & Htg & _ & _ & _ & _ & Hd & _) [k Hk] Hid.
  destruct (Hg k gate Hk) as (o & Ho & Hko).
  destruct (Htg id gate Hid) as (o' & Ho' & Hido).
  assert (k = id) as -> by congruence.
  rewrite Hd in Hk; [done|by eexists].
Qed.

(** A waiting gate takes the event as its child. *)
Lemma adopt_step id c gate t :
  well_formed_but id t -> live_as t id c -> defined_gate t gate ->
  exists t',
    (AddChild gate c ;;; AddParent c gate) t = (Ok tt, t') /\
    well_formed_but id t' /\ same_definitions t t' /\
    tbd_events_ t' = tbd_events_ t /\
    beside_all (fun id' => id' <> id) t t' /\ fixed t t'.
Proof.
  intros Ht (o & Ho & Hid) Hgate.
  set (t1 := set_events (alter (Gate_AddChild id c) gate) t).
  set (k := id_ (deref t1 gate)).
  set (t2 := set_events (alter (Event_AddParent k gate) c) t1).
  assert (same_definitions t t2) as Hsame.
  { unfold t2, t1. destruct t. unfold same_definitions. simpl. by split_and!. }
  assert (tbd_events_ t2 = tbd_events_ t) as Htbd.
  { unfold t2, t1. by destruct t. }
  assert (extends t t2) as Hext.
  { trans t1; [apply extends_call, stable_Gate_AddChild|].
    apply extends_call, stable_Event_AddParent. }
  assert (forall id', id' <> id -> beside id' t t2) as Hbeside.
  { intros id' Hid'. trans t1; [by apply beside_AddChild|].
    apply beside_AddParent. }
  exists t2. split_and!; try done.
  - unfold AddChild, AddParent, bind, get, call, modify. simpl.
    by rewrite (deref_lookup _ _ _ Ho), Hid.
  - apply (well_formed_but_objects id t t2); try done.
    intros id' ptr o1 o2 Hptr Ho1 Ho2.
    assert (ptr <> gate) as Hne.
    { intros ->. destruct Ht as [Hr _].
      by apply (defined_gate_not_tbd t gate id'). }
    unfold t2, t1 in Ho2. destruct t; simpl in *.
    destruct (decide (ptr = c)) as [->|Hc].
    + rewrite lookup_alter_eq, lookup_alter_ne, Ho1 in Ho2 by done.
      simpl in Ho2. injection Ho2 as <-. by destruct o1.
    + rewrite !lookup_alter_ne in Ho2 by done. congruence.
  - intros ptr o1 o2 Hnot Ho1 Ho2.
    assert (ptr <> gate) as Hne by (by intros ->).
    unfold t2, t1 in Ho2. destruct t; simpl in *.
    destruct (decide (ptr = c)) as [->|Hc].
    + rewrite lookup_alter_eq, lookup_alter_ne, Ho1 in Ho2 by done.
      simpl in Ho2. injection Ho2 as <-. by destruct o1.
    + rewrite !lookup_alter_ne in Ho2 by done. congruence.
Qed.

Lemma fixed_trans a b c :
  same_definitions a b -> extends a b -> fixed a b -> fixed b c -> fixed a c.
Proof.
  intros (_ & Hgates & _) Hext Hab Hbc ptr o o'' Hnot Ho Ho''.
  destruct (extends_event a b ptr o Hext Ho) as (o' & Ho' & _).
  rewrite (Hbc ptr o' o''); [by apply (Hab ptr)| |done|done].
  intros [k Hk]. apply Hnot. exists k. by rewrite <- Hgates.
Qed.

Lemma fixed_refl a : fixed a a.
Proof. intros ptr o o' _ H1 H2. congruence. Qed.

Lemma adopt_all id c gates :
  forall t,
    well_formed_but id t -> live_as t id c -> Forall (defined_gate t) gates ->
    ends_with (for_each gates (fun it => AddChild it c ;;; AddParent c it)) t
      (fun r t' =>
         r = Ok tt /\ well_formed_but id t' /\ same_definitions t t' /\
         tbd_events_ t' = tbd_events_ t /\
         beside_all (fun id' => id' <> id) t t' /\ fixed t t').
Proof.
  induction gates as [|gate gates IH]; intros t Ht Hc Hgates.
  - apply ends_with_ret.
    split_and!; try done; try reflexivity. apply fixed_refl.
  - apply Forall_cons in Hgates as [Hgate Hgates]. simpl for_each.
    destruct (adopt_step id c gate t Ht Hc Hgate)
      as (t1 & Hrun & Ht1 & Hsame & Htbd & Hbeside & Hfixed).
    eapply ends_with_bind_eq; [exact Hrun|].
    eapply ends_with_weaken.
    { apply IH; [done| |].
      - destruct Hbeside as [Hext _]. by eapply live_as_extends.
      - eapply Forall_impl; [exact Hgates|]. intros g [k Hk]. exists k.
        destruct Hsame as (_ & -> & _). done. }
    intros r t' (-> & Ht' & Hsame' & Htbd' & Hbeside' & Hfixed').
    split_and!; [done|done|by etrans|congruence|by etrans|].
    destruct Hbeside as [Hext _]. by apply (fixed_trans t t1 t').
Qed.

Lemma fixed_events a b : events b = events a -> fixed a b.
Proof. intros Heq ptr o o' _ H1 H2. congruence. Qed.

Lemma beside_all_set_tbd_events_ P f ra :
  beside_all P ra (set_tbd_events_ f ra).
Proof.
  split; [apply extends_set_tbd_events_|]. intros id _.
  split; [apply extends_set_tbd_events_|]. destruct ra; simpl.
  split_and!; try done. intros ptr o o' H1 H2. congruence.
Qed.

Lemma beside_all_set_tbd_orig_ids_ P f ra :
  beside_all P ra (set_tbd_orig_ids_ f ra).
Proof.
  split; [apply extends_set_tbd_orig_ids_|]. intros id _.
  split; [apply extends_set_tbd_orig_ids_|]. destruct ra; simpl.
  split_and!; try done. intros ptr o o' H1 H2. congruence.
Qed.

Lemma same_shape_set_tbd_orig_ids_ f ra :
  same_shape ra (set_tbd_orig_ids_ f ra).
Proof. destruct ra. unfold same_shape. simpl. split_and!; eauto. Qed.

(** An event that is defined or referred to with its kind resolves the
    references of unknown kind to its id. *)
Lemma UpdateIfLateEvent_resolves c id s :
  well_formed_but id s -> live_as s id c ->
  ends_with (UpdateIfLateEvent c) s (fun r s' =>
    (exists b, r = Ok b) /\ well_formed s' /\
    tbd_events_ s' = delete id (tbd_events_ s) /\
    same_definitions s s' /\ beside_all (fun id' => id' <> id) s s' /\
    fixed s s').
Proof.
  intros Hs Hc. unfold UpdateIfLateEvent.
  apply ends_with_bind, ends_with_get. cbv zeta.
  assert (id_ (deref s c) = id) as ->.
  { destruct Hc as (o & Ho & Hid). by rewrite (deref_lookup _ _ _ Ho). }
  destruct (count (tbd_events_ s) id) eqn:Hcount.
  - apply count_true in Hcount as [gates Hgates].
    rewrite (find_lookup _ _ _ Hgates).
    apply ends_with_bind. eapply ends_with_weaken.
    { apply (adopt_all id c gates s Hs Hc).
      destruct Hs as [(_ & _ & _ & _ & _ & _ & _ & _ & Hf) _]. by eapply Hf. }
    intros r t (-> & Ht & Hsame & Htbd & Hbeside & Hfixed).
    do 2 apply ends_with_bind, ends_with_modify. apply ends_with_ret.
    split_and!.
    + by eexists.
    + eapply well_formed_same_shape; [apply same_shape_set_tbd_orig_ids_|].
      by apply well_formed_resolved.
    + rewrite <- Htbd. by destruct t.
    + etrans; [exact Hsame|]. etrans; [apply same_definitions_set_tbd_events_|].
      apply same_definitions_set_tbd_orig_ids_.
    + etrans; [exact Hbeside|]. etrans; [apply beside_all_set_tbd_events_|].
      apply beside_all_set_tbd_orig_ids_.
    + intros ptr o o' Hnot Ho Ho'. apply (Hfixed ptr o o' Hnot Ho).
      by destruct t.
  - apply count_false in Hcount. apply ends_with_ret. split_and!.
    + by eexists.
    + by apply (well_formed_but_resolved id).
    + by rewrite delete_id.
    + reflexivity.
    + reflexivity.
    + apply fixed_refl.
Qed.

Lemma maintains_ret I {A} (a : A) : maintains I (ret a).
Proof. by intros ra. Qed.

Lemma maintains_throw I {A} (e : Error) : maintains I (throw (A := A) e).
Proof. by intros ra. Qed.

Lemma maintains_bind I {A B} (m : M A) (k : A -> M B) :
  maintains I m -> (forall a, maintains I (k a)) -> maintains I (bind m k).
Proof.
  intros Hm Hk ra Hra. unfold bind. specialize (Hm ra Hra).
  destruct (m ra) as [[a|e] ra']; [by apply Hk|done].
Qed.

Lemma maintains_for_each I {A} (l : list A) (body : A -> M unit) :
  (forall x, maintains I (body x)) -> maintains I (for_each l body).
Proof.
  intros Hbody. induction l as [|x l IH]; simpl.
  - apply maintains_ret.
  - apply maintains_bind; [apply Hbody|]. by intros _.
Qed.

Lemma maintains_catch I {A} (body : M A) (handler : string -> M A) :
  maintains I body -> (forall msg, maintains I (handler msg)) ->
  maintains I (catch_ValidationError body handler).
Proof.
  intros Hbody Hhandler ra Hra. unfold catch_ValidationError.
  specialize (Hbody ra Hra).
  destruct (body ra) as [[a|[]] ra']; try done. by apply Hhandler.
Qed.

Lemma maintains_shape {A} (m : M A) :
  keeps same_shape m -> maintains well_formed m.
Proof. intros Hm ra Hra. eapply well_formed_same_shape; [apply Hm|done]. Qed.

Lemma maintains_ends_with I {A} (m : M A) :
  (forall ra, I ra -> ends_with m ra (fun _ ra' => I ra')) -> maintains I m.
Proof. intros Hm ra Hra. by apply Hm. Qed.

Lemma beside_all_new_event P e ra : beside_all P ra (new_event e ra).2.
Proof. split; [apply extends_new_event|]. intros id _. apply beside_new_event. Qed.

Lemma beside_all_set_tbd_basic_events_ P f ra :
  beside_all P ra (set_tbd_basic_events_ f ra).
Proof.
  split; [apply extends_set_tbd_basic_events_|]. intros id _.
  split; [apply extends_set_tbd_basic_events_|]. destruct ra; simpl.
  split_and!; try done. intros ptr o o' H1 H2. congruence.
Qed.

Lemma beside_all_set_tbd_house_events_ P f ra :
  beside_all P ra (set_tbd_house_events_ f ra).
Proof.
  split; [apply extends_set_tbd_house_events_|]. intros id _.
  split; [apply extends_set_tbd_house_events_|]. destruct ra; simpl.
  split_and!; try done. intros ptr o o' H1 H2. congruence.
Qed.

Lemma beside_all_set_tbd_gates_ P f ra :
  beside_all P ra (set_tbd_gates_ f ra).
Proof.
  split; [apply extends_set_tbd_gates_|]. intros id _.
  split; [apply extends_set_tbd_gates_|]. destruct ra; simpl.
  split_and!; try done. intros ptr o o' H1 H2. congruence.
Qed.

Lemma known_no_entry s id :
  well_formed s -> known s id = true -> tbd_events_ s !! id = None.
Proof.
  intros [_ Hp] Hknown. destruct (tbd_events_ s !! id) as [gates|] eqn:E;
    [|done]. destruct (Hp id gates E I) as [Hk _]. congruence.
Qed.

Lemma keyed_find s (m : gmap string loc) id :
  keyed s m -> count m id = true -> live_as s id (find m id).
Proof.
  intros Hm [p Hp]%count_true. rewrite (find_lookup _ _ _ Hp). by apply Hm.
Qed.

(** A state with a new object. *)
Lemma new_event_well_formed e s :
  well_formed s -> well_formed (new_event e s).2.
Proof. apply well_formed_same_shape, shape_new_event. Qed.

Lemma new_event_lookup e s :
  events (new_event e s).2 !! fresh (dom (events s)) = Some e.
Proof. unfold new_event. destruct s; simpl. apply lookup_insert_eq. Qed.

Ltac unchanged :=
  split_and!; [done|reflexivity|try done].

Lemma ProcessFormulaBasicEvent_inv event gate id orig_id s :
  well_formed s ->
  ends_with (ProcessFormulaBasicEvent event gate id orig_id) s (fun r s' =>
    well_formed s' /\ beside_all (fun id' => id' <> id) s s' /\
    forall c, r = Ok c -> live_as s' id c /\ tbd_events_ s' !! id = None).
Proof.
  intros Hs. pose proof Hs as [(Hg & Htg & Hp & Htb & Hth & _) _].
  unfold ProcessFormulaBasicEvent. apply ends_with_bind, ends_with_get.
  destruct (_ || _) eqn:E1; [apply ends_with_throw; unchanged|].
  destruct (count (tbd_house_events_ s) id) eqn:E2;
    [apply ends_with_throw; unchanged|].
  destruct (count (primary_events_ s) id) eqn:E3.
  { cbv zeta. destruct (bool_decide _); [|apply ends_with_throw; unchanged].
    apply ends_with_ret. unchanged. intros c [= <-].
    split; [by apply keyed_find|]. apply known_no_entry; [done|].
    unfold known. by rewrite E3, orb_true_r. }
  destruct (count (tbd_basic_events_ s) id) eqn:E4.
  { apply ends_with_ret. unchanged. intros c [= <-].
    split; [by apply keyed_find|]. apply known_no_entry; [done|].
    unfold known. by rewrite E4, orb_true_r. }
  apply ends_with_bind, ends_with_new_event.
  set (object := Event_new class_BasicEvent id orig_id).
  set (c := fresh (dom (events s))).
  change (set_events _ s) with (new_event object s).2. set (s1 := (new_event _ s).2).
  apply ends_with_bind, ends_with_modify. set (s2 := set_tbd_basic_events_ _ s1).
  assert (live_as s1 id c) as Hc1.
  { exists object. split; [apply new_event_lookup|done]. }
  assert (live_as s2 id c) as Hc2 by (unfold s2; by destruct s1).
  apply ends_with_bind. eapply ends_with_weaken.
  { apply (UpdateIfLateEvent_resolves c id s2); [|done].
    apply well_formed_but_tbd_basic_events_; [|done].
    by apply well_formed_weaken, new_event_well_formed. }
  intros r s' ((b & ->) & Hwf & Htbd & Hsame & Hbeside & Hfixed).
  apply ends_with_ret. split_and!; [done| |].
  - trans s1; [apply beside_all_new_event|].
    trans s2; [apply beside_all_set_tbd_basic_events_|done].
  - intros c' [= <-]. split.
    + destruct Hbeside as [Hext _]. by eapply live_as_extends.
    + rewrite Htbd. apply lookup_delete_eq.
Qed.

Lemma ProcessFormulaHouseEvent_inv event gate id orig_id s :
  well_formed s ->
  ends_with (ProcessFormulaHouseEvent event gate id orig_id) s (fun r s' =>
    well_formed s' /\ beside_all (fun id' => id' <> id) s s' /\
    forall c, r = Ok c -> live_as s' id c /\ tbd_events_ s' !! id = None).
Proof.
  intros Hs. pose proof Hs as [(Hg & Htg & Hp & Htb & Hth & _) _].
  unfold ProcessFormulaHouseEvent. apply ends_with_bind, ends_with_get.
  destruct (_ || _) eqn:E1; [apply ends_with_throw; unchanged|].
  destruct (count (tbd_basic_events_ s) id) eqn:E2;
    [apply ends_with_throw; unchanged|].
  destruct (count (primary_events_ s) id) eqn:E3.
  { cbv zeta. destruct (bool_decide _); [|apply ends_with_throw; unchanged].
    apply ends_with_ret. unchanged. intros c [= <-].
    split; [by apply keyed_find|]. apply known_no_entry; [done|].
    unfold known. by rewrite E3, orb_true_r. }
  destruct (count (tbd_house_events_ s) id) eqn:E4.
  { apply ends_with_ret. unchanged. intros c [= <-].
    split; [by apply keyed_find|]. apply known_no_entry; [done|].
    unfold known. by rewrite E4, orb_true_r. }
  apply ends_with_bind, ends_with_new_event.
  set (object := Event_new class_HouseEvent id orig_id).
  set (c := fresh (dom (events s))).
  change (set_events _ s) with (new_event object s).2. set (s1 := (new_event _ s).2).
  apply ends_with_bind, ends_with_modify. set (s2 := set_tbd_house_events_ _ s1).
  assert (live_as s1 id c) as Hc1.
  { exists object. split; [apply new_event_lookup|done]. }
  assert (live_as s2 id c) as Hc2 by (unfold s2; by destruct s1).
  apply ends_with_bind. eapply ends_with_weaken.
  { apply (UpdateIfLateEvent_resolves c id s2); [|done].
    apply well_formed_but_tbd_house_events_; [|done].
    by apply well_formed_weaken, new_event_well_formed. }
  intros r s' ((b & ->) & Hwf & Htbd & Hsame & Hbeside & Hfixed).
  apply ends_with_ret. split_and!; [done| |].
  - trans s1; [apply beside_all_new_event|].
    trans s2; [apply beside_all_set_tbd_house_events_|done].
  - intros c' [= <-]. split.
    + destruct Hbeside as [Hext _]. by eapply live_as_extends.
    + rewrite Htbd. apply lookup_delete_eq.
Qed.

Lemma ProcessFormulaGate_inv event gate id orig_id s :
  well_formed s ->
  ends_with (ProcessFormulaGate event gate id orig_id) s (fun r s' =>
    well_formed s' /\ beside_all (fun id' => id' <> id) s s' /\
    forall c, r = Ok c -> live_as s' id c /\ tbd_events_ s' !! id = None).
Proof.
  intros Hs. pose proof Hs as [(Hg & Htg & Hp & Htb & Hth & _) _].
  unfold ProcessFormulaGate. apply ends_with_bind, ends_with_get.
  destruct (_ || _) eqn:E1; [apply ends_with_throw; unchanged|].
  destruct (count (gates_ s) id) eqn:E2.
  { apply ends_with_ret. unchanged. intros c [= <-].
    split; [by apply keyed_find|]. apply known_no_entry; [done|].
    unfold known. by rewrite E2. }
  destruct (count (tbd_gates_ s) id) eqn:E3.
  { apply ends_with_ret. unchanged. intros c [= <-].
    split; [by apply keyed_find|]. apply known_no_entry; [done|].
    unfold known. by rewrite E3, orb_true_r. }
  apply ends_with_bind, ends_with_new_event.
  set (object := Event_new class_Gate id orig_id).
  set (c := fresh (dom (events s))).
  change (set_events _ s) with (new_event object s).2. set (s1 := (new_event _ s).2).
  apply ends_with_bind, ends_with_modify. set (s2 := set_tbd_gates_ _ s1).
  assert (events s1 !! c = Some object) as Hc1 by apply new_event_lookup.
  assert (live_as s2 id c) as Hc2.
  { exists object. split; [|done]. unfold s2. by destruct s1. }
  apply ends_with_bind. eapply ends_with_weaken.
  { apply (UpdateIfLateEvent_resolves c id s2); [|done].
    apply well_formed_but_tbd_gates_.
    - by apply well_formed_weaken, new_event_well_formed.
    - apply count_false in E2. unfold s1. by destruct s.
    - by exists object. }
  intros r s' ((b & ->) & Hwf & Htbd & Hsame & Hbeside & Hfixed).
  apply ends_with_ret. split_and!; [done| |].
  - trans s1; [apply beside_all_new_event|].
    trans s2; [apply beside_all_set_tbd_gates_|done].
  - intros c' [= <-]. split.
    + destruct Hbeside as [Hext _]. by eapply live_as_extends.
    + rewrite Htbd. apply lookup_delete_eq.
Qed.

Lemma ProcessFormulaEvent_inv gate id orig_id s :
  well_formed s -> defined_gate s gate -> childless id s gate ->
  ends_with (ProcessFormulaEvent gate id orig_id) s (fun r s' =>
    well_formed s' /\ beside_all (fun id' => id' <> id) s s' /\
    exists child,
      r = Ok child /\
      forall c, child = Some c ->
                live_as s' id c /\ tbd_events_ s' !! id = None).
Proof.
  intros Hs Hgate Hchild.
  pose proof Hs as [(Hg & Htg & Hp & Htb & Hth & _) _].
  unfold ProcessFormulaEvent. apply ends_with_bind, ends_with_get.
  destruct (count (primary_events_ s) id) eqn:E1.
  { apply ends_with_ret. unchanged. eexists. split; [done|]. intros c [= <-].
    split; [by apply keyed_find|]. apply known_no_entry; [done|].
    unfold known. by rewrite E1, orb_true_r. }
  destruct (count (gates_ s) id) eqn:E2.
  { apply ends_with_ret. unchanged. eexists. split; [done|]. intros c [= <-].
    split; [by apply keyed_find|]. apply known_no_entry; [done|].
    unfold known. by rewrite E2. }
  destruct (count (tbd_gates_ s) id) eqn:E3.
  { apply ends_with_ret. unchanged. eexists. split; [done|]. intros c [= <-].
    split; [by apply keyed_find|]. apply known_no_entry; [done|].
    unfold known. by rewrite E3, orb_true_r. }
  destruct (count (tbd_basic_events_ s) id) eqn:E4.
  { apply ends_with_ret. unchanged. eexists. split; [done|]. intros c [= <-].
    split; [by apply keyed_find|]. apply known_no_entry; [done|].
    unfold known. by rewrite E4, orb_true_r. }
  destruct (count (tbd_house_events_ s) id) eqn:E5.
  { apply ends_with_ret. unchanged. eexists. split; [done|]. intros c [= <-].
    split; [by apply keyed_find|]. apply known_no_entry; [done|].
    unfold known. by rewrite E5, orb_true_r. }
  assert (known s id = false) as Hknown.
  { unfold known. by rewrite E1, E2, E3, E4, E5. }
  apply ends_with_bind.
  destruct (count (tbd_events_ s) id).
  - apply ends_with_modify, ends_with_ret. split_and!.
    + by apply well_formed_wait_more.
    + apply beside_all_set_tbd_events_.
    + by eexists.
  - apply ends_with_bind, ends_with_modify, ends_with_modify, ends_with_ret.
    split_and!.
    + eapply well_formed_same_shape; [apply same_shape_set_tbd_orig_ids_|].
      by apply well_formed_wait_first.
    + etrans; [apply beside_all_set_tbd_events_|].
      apply beside_all_set_tbd_orig_ids_.
    + by eexists.
Qed.

(** The gate takes the child that its formula names. *)
Lemma adopt_child id c gate s :
  well_formed s -> live_as s id c -> defined_gate s gate ->
  tbd_events_ s !! id = None ->
  ends_with (AddChild gate c ;;; AddParent c gate) s (fun r s' =>
    r = Ok tt /\ well_formed s' /\
    beside_all (fun id' => id' <> id) s s').
Proof.
  intros Hs Hc Hgate Hnone.
  destruct (adopt_step id c gate s (well_formed_weaken id s Hs) Hc Hgate)
    as (s' & Hrun & Hs' & Hsame & Htbd & Hbeside & _).
  eapply ends_with_eq; [exact Hrun|]. split_and!; [done| |done].
  apply (well_formed_but_resolved id); [done|congruence].
Qed.

Lemma defined_gate_extends a b gate :
  extends a b -> defined_gate a gate -> defined_gate b gate.
Proof.
  intros (_ & Hgates & _) [k Hk]. exists k. by eapply lookup_weaken.
Qed.

Lemma children_beside_all id a b gate (X : gset string) :
  beside_all (fun id' => id' <> id) a b ->
  (exists o, events a !! gate = Some o /\ dom (children_ o) ⊆ X) ->
  exists o', events b !! gate = Some o' /\ dom (children_ o') ⊆ {[ id ]} ∪ X.
Proof.
  intros [Hext Hbeside] (o & Ho & Hdom).
  destruct (extends_event a b gate o Hext Ho) as (o' & Ho' & _).
  exists o'. split; [done|]. intros k Hk.
  destruct (decide (k = id)) as [->|Hne]; [set_solver|].
  destruct (Hbeside k Hne) as (_ & _ & _ & Hc).
  apply elem_of_union_r, Hdom. apply elem_of_dom.
  rewrite <- (Hc gate o o' Ho Ho'). by apply elem_of_dom.
Qed.

(** The formula of a defined gate. *)
Lemma ProcessFormula_loop_inv gate args :
  forall children_id s,
    well_formed s -> defined_gate s gate ->
    (exists o, events s !! gate = Some o /\ dom (children_ o) ⊆ children_id) ->
    ends_with (ProcessFormula_loop children_id gate args) s
              (fun _ s' => well_formed s').
Proof.
  induction args as [|event args IH]; intros children_id s Hs Hgate Hdom.
  - by apply ends_with_ret.
  - cbn [ProcessFormula_loop]. cbv zeta.
    set (orig_id := trim (arg_name event)). set (id := to_lower orig_id).
    destruct (bool_decide (id ∈ children_id)) eqn:Hin;
      [by apply ends_with_throw|].
    apply bool_decide_eq_false in Hin.
    assert (childless id s gate) as Hchildless.
    { destruct Hdom as (o & Ho & Hdom). exists o. split; [done|].
      apply not_elem_of_dom. set_solver. }
    apply ends_with_bind.
    eapply ends_with_weaken with
      (Q := fun r s1 =>
              well_formed s1 /\ beside_all (fun id' => id' <> id) s s1 /\
              forall child c, r = Ok child -> child = Some c ->
                              live_as s1 id c /\ tbd_events_ s1 !! id = None).
    { destruct (match arg_type event with
                | Some type => type
                | None => arg_element event
                end).
      - eapply ends_with_weaken; [by apply ProcessFormulaEvent_inv|].
        intros r s1 (H1 & H2 & child & -> & H3). split_and!; try done.
        intros child' c [= <-]. apply H3.
      - apply ends_with_bind.
        eapply ends_with_weaken; [by apply ProcessFormulaGate_inv|].
        intros [c|e] s1 (H1 & H2 & H3); [apply ends_with_ret|];
          split_and!; try done.
        intros child c' [= <-] [= <-]. by apply H3.
      - apply ends_with_bind.
        eapply ends_with_weaken; [by apply ProcessFormulaBasicEvent_inv|].
        intros [c|e] s1 (H1 & H2 & H3); [apply ends_with_ret|];
          split_and!; try done.
        intros child c' [= <-] [= <-]. by apply H3.
      - apply ends_with_bind.
        eapply ends_with_weaken; [by apply ProcessFormulaHouseEvent_inv|].
        intros [c|e] s1 (H1 & H2 & H3); [apply ends_with_ret|];
          split_and!; try done.
        intros child c' [= <-] [= <-]. by apply H3. }
    intros [child|e] s1 (Hs1 & Hbeside & Hchild); [|done].
    pose proof (children_beside_all id s s1 gate children_id Hbeside Hdom)
      as Hdom1.
    assert (defined_gate s1 gate) as Hgate1.
    { destruct Hbeside as [Hext _]. by eapply defined_gate_extends. }
    apply ends_with_bind. destruct child as [c|].
    + destruct (Hchild (Some c) c eq_refl eq_refl) as [Hc Hnone].
      eapply ends_with_weaken; [by apply (adopt_child id c gate s1)|].
      intros r s2 (-> & Hs2 & Hbeside2). apply IH; [done| |].
      * destruct Hbeside2 as [Hext _]. by eapply defined_gate_extends.
      * destruct (children_beside_all id s1 s2 gate _ Hbeside2 Hdom1)
          as (o2 & Ho2 & Hdom2).
        exists o2. split; [done|]. set_solver.
    + apply ends_with_ret. by apply IH.
Qed.

Lemma ready_same_shape gate X a b : same_shape a b -> ready gate X a -> ready gate X b.
Proof.
  intros Hs (Hwf & [k Hk] & o & Ho & Hdom).
  pose proof Hs as (Hgates & _ & _ & _ & _ & _ & _ & Hev).
  split_and!.
  - by eapply well_formed_same_shape.
  - exists k. by rewrite Hgates.
  - destruct (Hev gate o Ho) as (o' & Ho' & _ & Hch).
    exists o'. split; [done|]. by rewrite Hch.
Qed.

Lemma ready_well_formed gate X s : ready gate X s -> well_formed s.
Proof. by intros [? _]. Qed.

Lemma DefineGate_inv ext gate_node ft :
  maintains well_formed (DefineGate ext gate_node ft).
Proof.
  apply maintains_ends_with. intros s Hs.
  pose proof Hs as [(Hg & Htg & _ & _ & _ & _ & _ & Hc & _) _].
  unfold DefineGate, Gate_vote_number_set. cbv zeta.
  set (orig_id := trim (gate_name gate_node)). set (id := to_lower orig_id).
  apply ends_with_bind, ends_with_get.
  destruct (count (gates_ s) id) eqn:E1; [by apply ends_with_throw|].
  apply count_false in E1.
  destruct (count (primary_events_ s) id || _ || _);
    [by apply ends_with_throw|].
  destruct (negb _); [by apply ends_with_throw|].
  apply ends_with_bind.
  eapply ends_with_weaken with
    (Q := fun r s1 =>
            exists p, r = Ok p /\ well_formed s1 /\
                      tbd_events_ s1 !! id = None /\
                      tbd_gates_ s1 !! id = None /\ gates_ s1 !! id = None /\
                      exists o, events s1 !! p = Some o /\ id_ o = id /\
                                children_ o = ∅).
  { destruct (count (tbd_gates_ s) id) eqn:E2.
    - apply ends_with_bind, ends_with_modify, ends_with_ret.
      assert (tbd_events_ s !! id = None) as Hnone.
      { apply known_no_entry; [done|]. unfold known. by rewrite E2, orb_true_r. }
      apply count_true in E2 as [p Hp]. rewrite (find_lookup _ _ _ Hp).
      exists p. split_and!; try done.
      + apply (well_formed_but_resolved id); [|by destruct s].
        by apply well_formed_but_delete_tbd_gates_, well_formed_weaken.
      + by destruct s.
      + destruct s; simpl. apply lookup_delete_eq.
      + by destruct s.
      + destruct (Hc id p Hp) as (o & Ho & Hch).
        destruct (Htg id p Hp) as (o' & Ho' & Hid).
        exists o. split_and!; [by destruct s|congruence|done].
    - apply count_false in E2. apply ends_with_bind, ends_with_new_event.
      set (object := Event_new class_Gate id orig_id).
      set (p := fresh (dom (events s))).
      change (set_events _ s) with (new_event object s).2.
      set (s1 := (new_event _ s).2).
      assert (events s1 !! p = Some object) as Hp1 by apply new_event_lookup.
      assert (~ defined_gate s1 p) as Hnew.
      { intros [k Hk]. assert (gates_ s !! k = Some p) as Hk'
          by (unfold s1 in Hk; by destruct s).
        destruct (Hg k p Hk') as (o & Ho & _).
        pose proof (fresh_event s) as Hfresh. fold p in Hfresh. congruence. }
      apply ends_with_bind. eapply ends_with_weaken.
      { apply (UpdateIfLateEvent_resolves p id s1).
        - by apply well_formed_weaken, new_event_well_formed.
        - by exists object. }
      intros r s' ((b & ->) & Hwf & Htbd & Hsame & [Hext _] & Hfixed).
      apply ends_with_ret. exists p.
      destruct Hsame as (_ & Hgates & Htbd_gates & _).
      split_and!; try done.
      + rewrite Htbd. apply lookup_delete_eq.
      + rewrite Htbd_gates. unfold s1. by destruct s.
      + rewrite Hgates. unfold s1. by destruct s.
      + destruct (extends_event s1 s' p object Hext Hp1) as (o' & Ho' & Hid & _).
        exists o'. split_and!; [done|done|].
        by rewrite (Hfixed p object o' Hnew Hp1 Ho'). }
  intros r s1 (p & -> & Hs1 & Hnone & Htbd_gate & Hgate & o & Ho & Hid & Hch).
  apply ends_with_bind, ends_with_modify.
  set (s2 := set_gates_ _ s1).
  assert (ready p ∅ s2) as Hready.
  { split_and!.
    - apply (well_formed_but_resolved id); [|unfold s2; by destruct s1].
      apply well_formed_but_gates_; [by apply well_formed_weaken| |done].
      by exists o.
    - exists id. unfold s2. destruct s1; simpl in *. by apply map_insert_lookup.
    - exists o. split; [unfold s2; by destruct s1|]. rewrite Hch. set_solver. }
  clearbody s2.
  apply (ends_with_bind_keeps same_shape); [shape| |];
    [|intros e s3 Hshape;
      by apply (ready_well_formed p ∅), (ready_same_shape p ∅ s2)].
  intros [] s3 Hshape3.
  pose proof (ready_same_shape p ∅ s2 s3 Hshape3 Hready) as Hready3.
  apply (ends_with_bind_keeps same_shape); [shape| |];
    [|intros e s4 Hshape;
      by apply (ready_well_formed p ∅), (ready_same_shape p ∅ s3)].
  intros [] s4 Hshape4.
  pose proof (ready_same_shape p ∅ s3 s4 Hshape4 Hready3) as Hready4.
  apply (ends_with_bind_keeps same_shape); [shape| |];
    [|intros e s5 Hshape;
      by apply (ready_well_formed p ∅), (ready_same_shape p ∅ s4)].
  intros [] s5 Hshape5.
  pose proof (ready_same_shape p ∅ s4 s5 Hshape5 Hready4) as Hready5.
  apply (ends_with_bind_keeps same_shape); [shape| |];
    [|intros e s6 Hshape;
      by apply (ready_well_formed p ∅), (ready_same_shape p ∅ s5)].
  intros [] s6 Hshape6.
  destruct (ready_same_shape p ∅ s5 s6 Hshape6 Hready5) as (Hwf6 & Hgate6 & Hdom6).
  by apply ProcessFormula_loop_inv.
Qed.

Lemma GetBasicEvent_inv event_node :
  maintains well_formed (GetBasicEvent event_node).
Proof.
  apply maintains_ends_with. intros s Hs.
  pose proof Hs as [(_ & _ & _ & Htb & _) _].
  unfold GetBasicEvent. cbv zeta.
  set (orig_id := trim (be_name event_node)). set (id := to_lower orig_id).
  apply ends_with_bind, ends_with_get.
  destruct (_ || _); [by apply ends_with_throw|].
  destruct (count (primary_events_ s) id); [by apply ends_with_throw|].
  destruct (count (tbd_house_events_ s) id); [by apply ends_with_throw|].
  destruct (count (tbd_basic_events_ s) id) eqn:E.
  - assert (tbd_events_ s !! id = None) as Hnone.
    { apply known_no_entry; [done|]. unfold known. by rewrite E, orb_true_r. }
    pose proof (keyed_find s _ id Htb E) as Hc.
    do 3 apply ends_with_bind, ends_with_modify. apply ends_with_ret.
    apply (well_formed_but_resolved id); [|by destruct s].
    apply well_formed_but_delete_tbd_basic_events_.
    apply well_formed_but_basic_events_.
    + apply well_formed_but_primary_events_; [by apply well_formed_weaken|done].
    + destruct s; simpl. apply map_insert_is_Some.
  - apply ends_with_bind, ends_with_new_event.
    set (object := Event_new class_BasicEvent id orig_id).
    set (c := fresh (dom (events s))).
    change (set_events _ s) with (new_event object s).2.
    set (s1 := (new_event _ s).2).
    assert (live_as s1 id c) as Hc1.
    { exists object. split; [apply new_event_lookup|done]. }
    do 2 apply ends_with_bind, ends_with_modify.
    set (s2 := set_primary_events_ _ s1). set (s3 := set_basic_events_ _ s2).
    assert (live_as s3 id c) as Hc3 by (unfold s3, s2; by destruct s1).
    apply ends_with_bind. eapply ends_with_weaken.
    { apply (UpdateIfLateEvent_resolves c id s3); [|done].
      apply well_formed_but_basic_events_.
      - apply well_formed_but_primary_events_; [|done].
        by apply well_formed_weaken, new_event_well_formed.
      - unfold s2. destruct s1; simpl. apply map_insert_is_Some. }
    intros r s' ((b & ->) & Hwf & _). by apply ends_with_ret.
Qed.

Lemma DefineBasicEvent_inv event_node :
  maintains well_formed (DefineBasicEvent event_node).
Proof.
  unfold DefineBasicEvent. cbv zeta.
  apply maintains_bind; [apply GetBasicEvent_inv|]. intros basic_event.
  apply maintains_shape. shape.
Qed.

Lemma DefineHouseEvent_inv event_node :
  maintains well_formed (DefineHouseEvent event_node).
Proof.
  apply maintains_ends_with. intros s Hs.
  pose proof Hs as [(_ & _ & _ & _ & Hth & _) _].
  unfold DefineHouseEvent. cbv zeta.
  set (orig_id := trim (he_name event_node)). set (id := to_lower orig_id).
  apply ends_with_bind, ends_with_get.
  destruct (_ || _); [by apply ends_with_throw|].
  destruct (count (primary_events_ s) id); [by apply ends_with_throw|].
  destruct (count (tbd_basic_events_ s) id); [by apply ends_with_throw|].
  destruct (he_constant event_node) as [val|]; [|by apply ends_with_throw].
  apply ends_with_bind.
  eapply ends_with_weaken with (Q := fun _ s1 => well_formed s1).
  { destruct (count (tbd_house_events_ s) id) eqn:E.
    - assert (tbd_events_ s !! id = None) as Hnone.
      { apply known_no_entry; [done|]. unfold known. by rewrite E, orb_true_r. }
      pose proof (keyed_find s _ id Hth E) as Hc.
      apply (ends_with_bind_keeps same_shape); [shape| |];
        [|intros e s1 Hshape; by apply (well_formed_same_shape s)].
      intros [] s1 Hshape.
      pose proof Hshape as (_ & _ & _ & _ & _ & Hhouse & Htbd & _).
      do 2 apply ends_with_bind, ends_with_modify. apply ends_with_ret.
      apply (well_formed_but_resolved id);
        [|destruct s1; simpl in *; congruence].
      apply well_formed_but_delete_tbd_house_events_.
      apply well_formed_but_primary_events_.
      + by apply well_formed_weaken, (well_formed_same_shape s).
      + by apply (live_as_same_shape s).
    - apply ends_with_bind, ends_with_new_event.
      set (object := HouseEvent_state _ _).
      set (c := fresh (dom (events s))).
      change (set_events _ s) with (new_event object s).2.
      set (s1 := (new_event _ s).2).
      assert (live_as s1 id c) as Hc1.
      { exists object. split; [apply new_event_lookup|done]. }
      apply ends_with_bind, ends_with_modify.
      set (s2 := set_primary_events_ _ s1).
      assert (live_as s2 id c) as Hc2 by (unfold s2; by destruct s1).
      apply ends_with_bind. eapply ends_with_weaken.
      { apply (UpdateIfLateEvent_resolves c id s2); [|done].
        apply well_formed_but_primary_events_; [|done].
        by apply well_formed_weaken, new_event_well_formed. }
      intros r s' ((b & ->) & Hwf & _). by apply ends_with_ret. }
  intros [house_event|e] s1 Hs1; [|done].
  apply (ends_with_keeps same_shape); [shape|].
  intros r s2 Hshape. by apply (well_formed_same_shape s1).
Qed.

Lemma DefineParameter_inv param_node :
  maintains well_formed (DefineParameter param_node).
Proof. apply maintains_shape, shape_DefineParameter. Qed.

Lemma DefineCcfGroup_inv ext ccf_node :
  maintains well_formed (DefineCcfGroup ext ccf_node).
Proof.
  unfold DefineCcfGroup, ProcessCcfMembers, ProcessCcfFactors. cbv zeta.
  apply maintains_bind; [by intros ra|]. intros s.
  destruct (count _ _); [apply maintains_throw|].
  apply maintains_bind; [apply maintains_shape; shape|]. intros _.
  apply maintains_bind; [apply maintains_shape; shape|]. intros _.
  apply maintains_bind; [apply maintains_shape; shape|]. intros _.
  apply maintains_for_each. intros [members|expr_node|factor|factors].
  - apply maintains_for_each. intros event_node.
    apply maintains_bind; [apply GetBasicEvent_inv|]. intros basic_event.
    apply maintains_shape. shape.
  - apply maintains_shape. shape.
  - apply maintains_shape. shape.
  - apply maintains_shape. shape.
Qed.

Lemma DefineFaultTree_inv ext ft_node :
  maintains well_formed (DefineFaultTree ext ft_node).
Proof.
  unfold DefineFaultTree. cbv zeta.
  apply maintains_bind; [by intros ra|]. intros s.
  destruct (count _ _); [apply maintains_throw|].
  apply maintains_bind; [apply maintains_shape; shape|]. intros _.
  apply maintains_bind; [apply maintains_shape; shape|]. intros _.
  apply maintains_for_each. intros element.
  apply maintains_bind; [by intros ra|]. intros s1.
  apply maintains_bind; [apply maintains_shape; shape|]. intros _.
  destruct element.
  - apply DefineGate_inv.
  - apply DefineBasicEvent_inv.
  - apply DefineHouseEvent_inv.
  - apply DefineParameter_inv.
  - apply DefineCcfGroup_inv.
Qed.

Lemma ProcessModelData_inv model_data :
  maintains well_formed (ProcessModelData model_data).
Proof.
  unfold ProcessModelData.
  apply maintains_bind; [apply maintains_shape; shape|]. intros _.
  apply maintains_for_each. intros element. destruct element.
  - apply maintains_ret.
  - apply DefineBasicEvent_inv.
  - apply DefineHouseEvent_inv.
  - apply DefineParameter_inv.
  - apply maintains_ret.
Qed.

Lemma ProcessInputFile_inv ext xml_file :
  maintains well_formed (ProcessInputFile ext xml_file).
Proof.
  unfold ProcessInputFile. apply maintains_for_each. intros element.
  destruct element.
  - apply DefineFaultTree_inv.
  - apply DefineCcfGroup_inv.
  - apply ProcessModelData_inv.
  - apply maintains_throw.
Qed.

(** The state that the reading of the files leaves is well formed. *)
Lemma ProcessInputFiles_read_inv ext xml_files :
  maintains well_formed (ProcessInputFiles_read ext xml_files).
Proof.
  unfold ProcessInputFiles_read.
  apply maintains_bind; [by intros ra|]. intros s.
  apply maintains_bind; [apply maintains_shape; shape|]. intros _.
  apply maintains_for_each. intros it.
  apply maintains_catch; [apply ProcessInputFile_inv|].
  intros msg. apply maintains_throw.
Qed.

(** *** The types and the vote numbers of the defined gates *)

#[local] Instance same_types_preorder : PreOrder same_types.
Proof.
  split.
  - intros ra. split; [done|]. eauto.
  - intros a b c [Hg Hev] [Hg' Hev']. split; [congruence|].
    intros ptr o Ho. destruct (Hev ptr o Ho) as (o' & Ho' & Ht & Hv).
    destruct (Hev' ptr o' Ho') as (o'' & Ho'' & Ht' & Hv').
    exists o''. split_and!; congruence.
Qed.

Lemma types_ret {A} (a : A) : keeps same_types (ret a).
Proof. apply keeps_ret, _. Qed.

Lemma types_throw {A} (e : Error) : keeps same_types (throw (A := A) e).
Proof. apply keeps_throw, _. Qed.

Lemma types_get : keeps same_types get.
Proof. apply keeps_get, _. Qed.

Lemma types_bind {A B} (m : M A) (k : A -> M B) :
  keeps same_types m -> (forall a, keeps same_types (k a)) ->
  keeps same_types (bind m k).
Proof. apply keeps_bind, _. Qed.

Lemma types_for_each {A} (l : list A) (body : A -> M unit) :
  (forall x, keeps same_types (body x)) -> keeps same_types (for_each l body).
Proof. apply keeps_for_each, _. Qed.

Lemma types_catch {A} (body : M A) (handler : string -> M A) :
  keeps same_types body -> (forall msg, keeps same_types (handler msg)) ->
  keeps same_types (catch_ValidationError body handler).
Proof. apply keeps_catch_ValidationError, _. Qed.

Lemma types_modify (f : RiskAnalysis -> RiskAnalysis) :
  (forall ra, same_types ra (f ra)) -> keeps same_types (modify f).
Proof. intros Hf ra. apply Hf. Qed.

(** A member function that leaves the type and the vote number alone. *)
Lemma types_call ptr method :
  (forall o, type_ (method o) = type_ o /\
             vote_number_ (method o) = vote_number_ o) ->
  keeps same_types (call ptr method).
Proof.
  intros Hm ra. destruct ra. unfold same_types. simpl. split; [done|].
  intros p o Ho. destruct (decide (p = ptr)) as [->|Hne].
  - exists (method o). rewrite lookup_alter_eq, Ho. split; [done|apply Hm].
  - exists o. by rewrite lookup_alter_ne.
Qed.

Lemma types_new_event e : keeps same_types (new_event e).
Proof.
  intros ra. pose proof (fresh_event ra) as Hfresh.
  destruct ra. unfold same_types. simpl in *. split; [done|].
  intros p o Ho. exists o. rewrite lookup_insert_ne by congruence. done.
Qed.

Lemma types_new_expr e : keeps same_types (new_expr e).
Proof. intros ra. destruct ra. unfold same_types. simpl. eauto. Qed.

Create HintDb types discriminated.

#[local] Hint Resolve types_ret types_throw types_get types_bind
  types_for_each types_catch types_modify types_call types_new_event
  types_new_expr : types.
#[local] Hint Extern 0 (keeps _ _) => progress (cbv beta zeta) : types.
#[local] Hint Extern 2 (keeps _ (match ?x with _ => _ end)) =>
  destruct x : types.
#[local] Hint Extern 1 (same_types ?ra _) =>
  destruct ra; unfold same_types; simpl; split; eauto : types.
#[local] Hint Extern 1 (type_ (_ ?o) = type_ ?o /\ _) =>
  destruct o; split; reflexivity : types.

Ltac types := cbv beta zeta; auto 60 with types.

Lemma types_AddChild gate child : keeps same_types (AddChild gate child).
Proof. unfold AddChild. types. Qed.

Lemma types_AddParent child gate : keeps same_types (AddParent child gate).
Proof. unfold AddParent. types. Qed.

#[local] Hint Resolve types_AddChild types_AddParent : types.

Lemma types_UpdateIfLateEvent event :
  keeps same_types (UpdateIfLateEvent event).
Proof. unfold UpdateIfLateEvent. types. Qed.

#[local] Hint Resolve types_UpdateIfLateEvent : types.

Lemma types_ProcessFormula_loop children_id gate events :
  keeps same_types (ProcessFormula_loop children_id gate events).
Proof.
  revert children_id. induction events as [|event events IH];
    intros children_id; simpl;
    unfold ProcessFormulaEvent, ProcessFormulaBasicEvent,
      ProcessFormulaHouseEvent, ProcessFormulaGate; types.
Qed.

Lemma types_AttachLabelAndAttributes node element :
  keeps same_types (AttachLabelAndAttributes node element).
Proof. unfold AttachLabelAndAttributes. types. Qed.

#[local] Hint Resolve types_ProcessFormula_loop
  types_AttachLabelAndAttributes : types.

Lemma types_histogram_bins (bins : list (XmlExpr * XmlExpr)) :
  Forall (fun bin => keeps same_types (GetExpression bin.1) /\
                     keeps same_types (GetExpression bin.2)) bins ->
  keeps same_types
    ((fix loop (bins : list (XmlExpr * XmlExpr)) : M (list loc * list loc) :=
        match bins with
        | [] => ret ([], [])
        | (e0, e1) :: bins' =>
            bound <- GetExpression e0 ;;
            weight <- GetExpression e1 ;;
            rest <- loop bins' ;;
            ret (bound :: rest.1, weight :: rest.2)
        end) bins).
Proof.
  induction 1 as [|[e0 e1] bins [H0 H1] _ IH]; simpl in *; types.
Qed.

Lemma types_GetExpression e : keeps same_types (GetExpression e).
Proof.
  induction e using XmlExpr_induction; rewrite GetExpression_unfold;
    unfold GetDeviateExpression_with, GetConstantExpression,
      GetParameterExpression;
    try pose proof (types_histogram_bins _ ltac:(eassumption));
    types.
Qed.

Lemma types_Parameter_expression parameter expression :
  keeps same_types (Parameter_expression parameter expression).
Proof.
  intros ra. unfold Parameter_expression, bind, get. simpl.
  destruct (exprs ra !! parameter) as [[]|]; simpl; try reflexivity.
  destruct expression0; simpl; [reflexivity|].
  destruct ra; unfold same_types; simpl; eauto.
Qed.

#[local] Hint Resolve types_GetExpression types_Parameter_expression : types.

Lemma types_GetBasicEvent event_node :
  keeps same_types (GetBasicEvent event_node).
Proof. unfold GetBasicEvent. types. Qed.

#[local] Hint Resolve types_GetBasicEvent : types.

Lemma types_DefineBasicEvent event_node :
  keeps same_types (DefineBasicEvent event_node).
Proof. unfold DefineBasicEvent. types. Qed.

Lemma types_DefineHouseEvent event_node :
  keeps same_types (DefineHouseEvent event_node).
Proof. unfold DefineHouseEvent. types. Qed.

Lemma types_DefineParameter param_node :
  keeps same_types (DefineParameter param_node).
Proof. unfold DefineParameter. types. Qed.

#[local] Hint Resolve types_DefineBasicEvent types_DefineHouseEvent
  types_DefineParameter : types.

Lemma types_DefineCcfGroup ext ccf_node :
  keeps same_types (DefineCcfGroup ext ccf_node).
Proof.
  unfold DefineCcfGroup, ProcessCcfMembers, ProcessCcfFactors,
    DefineCcfFactor.
  types.
Qed.

Lemma types_ProcessModelData model_data :
  keeps same_types (ProcessModelData model_data).
Proof. unfold ProcessModelData. types. Qed.

Lemma types_ProcessInputFiles_undefined :
  keeps same_types ProcessInputFiles_undefined.
Proof. unfold ProcessInputFiles_undefined. types. Qed.

Lemma gates_typed_same_types a b :
  same_types a b -> gates_typed a -> gates_typed b.
Proof.
  intros [Hgates Hev] Ha id gate Hgate. rewrite Hgates in Hgate.
  destruct (Ha id gate Hgate) as (o & Ho & Htype & Hvote).
  destruct (Hev gate o Ho) as (o' & Ho' & Ht & Hv).
  exists o'. split; [done|]. by rewrite Ht, Hv.
Qed.

Lemma achieves_bind I {A B} (m : M A) (k : A -> M B) :
  achieves I m -> (forall a, achieves I (k a)) -> achieves I (bind m k).
Proof.
  intros Hm Hk ra Hra b ra' Hrun. unfold bind in Hrun.
  destruct (m ra) as [[a|e] s] eqn:E; [|done].
  eapply Hk; [|exact Hrun]. by eapply Hm.
Qed.

Lemma achieves_for_each I {A} (l : list A) (body : A -> M unit) :
  (forall x, achieves I (body x)) -> achieves I (for_each l body).
Proof.
  intros Hbody. induction l as [|x l IH]; simpl.
  - by intros ra Hra a ra' [= _ <-].
  - apply achieves_bind; [apply Hbody|]. by intros _.
Qed.

Lemma achieves_catch I {A} (body : M A) (f : string -> Error) :
  achieves I body ->
  achieves I (catch_ValidationError body (fun msg => throw (f msg))).
Proof.
  intros Hbody ra Hra a ra' Hrun. unfold catch_ValidationError in Hrun.
  destruct (body ra) as [[b|[]] s] eqn:E; try done.
  injection Hrun as <- <-. by eapply Hbody.
Qed.

Lemma achieves_throw I {A} (e : Error) : achieves I (throw (A := A) e).
Proof. by intros ra Hra a ra'. Qed.

Lemma achieves_leaf {A} (m : M A) :
  maintains well_formed m -> keeps same_types m -> achieves sound m.
Proof.
  intros Hwf Htypes ra [Hra Hgates] a ra' Hrun.
  specialize (Hwf ra Hra). specialize (Htypes ra). rewrite Hrun in Hwf, Htypes.
  split; [done|]. by eapply gates_typed_same_types.
Qed.

(** The gate at [p] gets its type, and its vote number if it has one. *)
Lemma gates_typed_retype s0 s4 s' p id type (f : Event -> Event) :
  gates_typed s0 ->
  (forall ptr o, events s0 !! ptr = Some o ->
                 exists o', events s4 !! ptr = Some o' /\
                            type_ o' = type_ o /\
                            vote_number_ o' = vote_number_ o) ->
  gates_ s4 = map_insert id p (gates_ s0) -> is_Some (events s4 !! p) ->
  type ∈ gate_types_ ->
  (forall o, type_ (f o) = type /\
             (type = "atleast" -> (2 <= vote_number_ (f o))%Z)) ->
  same_types (set_events (alter f p) s4) s' ->
  gates_typed s'.
Proof.
  intros H0 Hev Hgates [o4 Hp] Htype Hf Hsame.
  apply (gates_typed_same_types _ _ Hsame).
  intros k q Hq.
  assert (gates_ (set_events (alter f p) s4) = gates_ s4) as Heq
    by by destruct s4.
  rewrite Heq, Hgates in Hq.
  destruct (decide (q = p)) as [->|Hne].
  - exists (f o4). split.
    + destruct s4; simpl in *. by rewrite lookup_alter_eq, Hp.
    + destruct (Hf o4) as [-> Hvote]. done.
  - assert (gates_ s0 !! k = Some q) as Hq0.
    { unfold map_insert in Hq. destruct (gates_ s0 !! id); [done|].
      apply lookup_insert_Some in Hq as [[_ ?]|[_ ?]]; [congruence|done]. }
    destruct (H0 k q Hq0) as (o & Ho & Ht & Hv).
    destruct (Hev q o Ho) as (o' & Ho' & Ht' & Hv').
    exists o'. split.
    + destruct s4; simpl in *. by rewrite lookup_alter_ne.
    + by rewrite Ht', Hv'.
Qed.

(** What [DefineGate] does once it has the object of the gate. *)
Lemma DefineGate_types ext gate_node ft id p s0 s1 :
  vote_number_bound ext ->
  gates_typed s0 -> same_types s0 s1 -> is_Some (events s1 !! p) ->
  formula_name (gate_formula gate_node) ∈ gate_types_ ->
  let type := formula_name (gate_formula gate_node) in
  let vote_number :=
    if String.eqb type "atleast" then formula_min (gate_formula gate_node)
    else (-1)%Z in
  ends_with
    (modify (set_gates_ (map_insert id p)) ;;;
     AttachLabelAndAttributes (gate_common gate_node) (event_ptr p) ;;;
     modify (set_fault_trees_ (alter (FaultTree_AddGate p) ft)) ;;;
     call p (Gate_type type) ;;;
     (if String.eqb type "atleast"
      then Gate_vote_number_set ext p vote_number
      else ret tt) ;;;
     ProcessFormula p (formula_args (gate_formula gate_node)))
    s1 (fun r s' => r = Ok tt -> gates_typed s').
Proof.
  intros Hbound H0 [Hgates01 Hev01] Hp Htype type vote_number.
  apply ends_with_bind, ends_with_modify. set (s2 := set_gates_ _ s1).
  apply (ends_with_bind_keeps same_types); [types| |done].
  intros [] s3 [Hgates23 Hev23].
  apply (ends_with_bind_keeps same_types); [types| |done].
  intros [] s4 [Hgates34 Hev34].
  assert (gates_ s4 = map_insert id p (gates_ s0)) as Hgates4.
  { rewrite Hgates34, Hgates23, <- Hgates01. unfold s2. by destruct s1. }
  assert (forall ptr o, events s0 !! ptr = Some o ->
                        exists o', events s4 !! ptr = Some o' /\
                                   type_ o' = type_ o /\
                                   vote_number_ o' = vote_number_ o) as Hev04.
  { intros ptr o Ho. destruct (Hev01 ptr o Ho) as (o1 & Ho1 & Ht1 & Hv1).
    assert (events s2 !! ptr = Some o1) as Ho2 by (unfold s2; by destruct s1).
    destruct (Hev23 ptr o1 Ho2) as (o3 & Ho3 & Ht3 & Hv3).
    destruct (Hev34 ptr o3 Ho3) as (o4 & Ho4 & Ht4 & Hv4).
    exists o4. split_and!; congruence. }
  assert (is_Some (events s4 !! p)) as Hp4.
  { destruct Hp as [o1 Ho1].
    assert (events s2 !! p = Some o1) as Ho2 by (unfold s2; by destruct s1).
    destruct (Hev23 p o1 Ho2) as (o3 & Ho3 & _).
    destruct (Hev34 p o3 Ho3) as (o4 & Ho4 & _). by exists o4. }
  apply ends_with_bind. unfold call at 1. apply ends_with_modify.
  apply ends_with_bind.
  destruct (String.eqb type "atleast") eqn:Hatleast.
  - unfold Gate_vote_number_set.
    destruct (Gate_vote_number_error ext vote_number) eqn:Herr;
      [by apply ends_with_throw|].
    assert (2 <= vote_number)%Z as Hvote.
    { destruct (Z.lt_ge_cases vote_number 2) as [Hlt|?]; [|done].
      destruct (Hbound vote_number Hlt) as [e He]. congruence. }
    unfold call. apply ends_with_modify.
    apply (ends_with_keeps same_types); [unfold ProcessFormula; types|].
    intros r s' Hsame _.
    apply (gates_typed_retype s0 s4 s' p id type
             (fun o => Gate_vote_number vote_number (Gate_type type o)));
      try done.
    + intros o. by destruct o.
    + replace (set_events (alter (fun o => Gate_vote_number vote_number
                                              (Gate_type type o)) p) s4)
        with (set_events (alter (Gate_vote_number vote_number) p)
                (set_events (alter (Gate_type type) p) s4)); [done|].
      destruct s4; simpl. f_equal. apply alter_alter_eq.
  - apply ends_with_ret.
    apply (ends_with_keeps same_types); [unfold ProcessFormula; types|].
    intros r s' Hsame _.
    apply (gates_typed_retype s0 s4 s' p id type (Gate_type type)); try done.
    intros o. split; [by destruct o|]. intros Heq.
    apply String.eqb_neq in Hatleast. done.
Qed.

Lemma DefineGate_achieves ext gate_node ft :
  vote_number_bound ext -> achieves sound (DefineGate ext gate_node ft).
Proof.
  intros Hbound s [Hwf Htyped] a s' Hrun. split.
  { pose proof (DefineGate_inv ext gate_node ft s Hwf) as H.
    by rewrite Hrun in H. }
  cut (ends_with (DefineGate ext gate_node ft) s
         (fun r s' => r = Ok tt -> gates_typed s')).
  { unfold ends_with. rewrite Hrun. simpl. intros H. apply H. by destruct a. }
  pose proof Hwf as [(_ & Htg & _) _].
  unfold DefineGate. cbv zeta.
  set (orig_id := trim (gate_name gate_node)). set (id := to_lower orig_id).
  apply ends_with_bind, ends_with_get.
  destruct (count (gates_ s) id); [by apply ends_with_throw|].
  destruct (count (primary_events_ s) id || _ || _);
    [by apply ends_with_throw|].
  destruct (negb _) eqn:Htype; [by apply ends_with_throw|].
  apply negb_false_iff, bool_decide_eq_true in Htype.
  apply ends_with_bind.
  destruct (count (tbd_gates_ s) id) eqn:E.
  - apply ends_with_bind, ends_with_modify, ends_with_ret.
    apply (DefineGate_types ext gate_node ft id _ s); try done.
    + destruct s. unfold same_types. simpl. eauto.
    + destruct (keyed_find s _ id Htg E) as (o & Ho & _).
      exists o. by destruct s.
  - apply ends_with_bind, ends_with_new_event.
    set (object := Event_new class_Gate id orig_id).
    set (p := fresh (dom (events s))).
    change (set_events _ s) with (new_event object s).2.
    apply ends_with_bind.
    apply (ends_with_keeps (fun a b => same_types a b /\ extends a b)).
    { apply keeps_and; [types|builder]. }
    intros [b|e] s1 [Hsame Hext]; [|done]. apply ends_with_ret.
    apply (DefineGate_types ext gate_node ft id p s); try done.
    + etrans; [apply types_new_event|exact Hsame].
    + destruct (extends_event _ _ p object Hext (new_event_lookup object s))
        as (o' & Ho' & _).
      by exists o'.
Qed.

Lemma DefineFaultTree_achieves ext ft_node :
  vote_number_bound ext -> achieves sound (DefineFaultTree ext ft_node).
Proof.
  intros Hbound. unfold DefineFaultTree. cbv zeta.
  apply achieves_bind;
    [apply achieves_leaf; [by intros ra|apply types_get]|].
  intros s. destruct (count _ _); [apply achieves_throw|].
  apply achieves_bind;
    [apply achieves_leaf; [apply maintains_shape; shape|types]|]. intros _.
  apply achieves_bind;
    [apply achieves_leaf; [apply maintains_shape; shape|types]|]. intros _.
  apply achieves_for_each. intros element.
  apply achieves_bind;
    [apply achieves_leaf; [by intros ra|apply types_get]|].
  intros s1.
  apply achieves_bind;
    [apply achieves_leaf; [apply maintains_shape; shape|types]|]. intros _.
  destruct element.
  - by apply DefineGate_achieves.
  - apply achieves_leaf; [apply DefineBasicEvent_inv|types].
  - apply achieves_leaf; [apply DefineHouseEvent_inv|types].
  - apply achieves_leaf; [apply DefineParameter_inv|types].
  - apply achieves_leaf; [apply DefineCcfGroup_inv|apply types_DefineCcfGroup].
Qed.

Lemma ProcessInputFile_achieves ext xml_file :
  vote_number_bound ext -> achieves sound (ProcessInputFile ext xml_file).
Proof.
  intros Hbound. unfold ProcessInputFile.
  apply achieves_for_each. intros element. destruct element.
  - by apply DefineFaultTree_achieves.
  - apply achieves_leaf; [apply DefineCcfGroup_inv|apply types_DefineCcfGroup].
  - apply achieves_leaf;
      [apply ProcessModelData_inv|apply types_ProcessModelData].
  - apply achieves_throw.
Qed.

Lemma sound_new settings : sound (RiskAnalysis_new settings).
Proof.
  split; [apply well_formed_new|]. intros id gate. simpl.
  by rewrite lookup_empty.
Qed.

(** The state that the reading of the files leaves, and the one in which
    validation starts, are sound. *)
Lemma ProcessInputFiles_read_achieves ext xml_files :
  vote_number_bound ext -> achieves sound (ProcessInputFiles_read ext xml_files).
Proof.
  intros Hbound. unfold ProcessInputFiles_read.
  apply achieves_bind;
    [apply achieves_leaf; [by intros ra|apply types_get]|].
  intros s.
  apply achieves_bind;
    [apply achieves_leaf; [apply maintains_shape; shape|types]|]. intros _.
  apply achieves_for_each. intros it.
  apply achieves_catch. by apply ProcessInputFile_achieves.
Qed.

Lemma validated_gates_typed ra : gates_typed ra -> gates_typed (validated ra).
Proof.
  intros Hra. unfold validated. destruct (prob_requested_ ra); [done|].
  eapply gates_typed_same_types; [apply types_ProcessInputFiles_undefined|done].
Qed.

(** *** The arity rules on the gates that validation meets *)

(** With the bound on the vote number, what [CheckGate] tests is the rule of
    the specification. *)
Lemma arity_rule_bound (this : Event) n c :
  type_ this ∈ gate_types_ ->
  (type_ this = "atleast" -> (2 <= vote_number_ this)%Z) ->
  Spec.arity_rule (Spec.operator this) n (vote_number_ this) c
  = Spec.arity_rule_of_the_spec (Spec.operator this) n (vote_number_ this) c.
Proof.
  intros Htype Hvote.
  destruct (operator_cases this Htype) as [->|[_ ->]]; [|reflexivity].
  apply gate_types_cases in Htype.
  destruct Htype as [H|[H|[H|[H|[H|[H|[H|[H|H]]]]]]]];
    rewrite H in *; try reflexivity.
  specialize (Hvote eq_refl).
  unfold Spec.arity_rule, Spec.arity_rule_of_the_spec. cbn.
  repeat match goal with
         | |- context [bool_decide ?P] =>
             let b := eval vm_compute in (bool_decide P) in
             change (bool_decide P) with b
         end.
  cbv iota.
  destruct (Z.ltb_spec (vote_number_ this) (Z.of_nat n)),
    (Z.leb_spec 2 (vote_number_ this)); destruct n;
    simpl; try reflexivity; lia.
Qed.

Lemma ProcessInputFiles_undefined_total ra :
  (ProcessInputFiles_undefined ra).1 = Ok tt.
Proof.
  cut (ends_with ProcessInputFiles_undefined ra (fun r _ => r = Ok tt));
    [done|].
  unfold ProcessInputFiles_undefined. apply ends_with_bind, ends_with_get.
  eapply (ends_with_bind_total (fun _ _ => True));
    [done|by apply for_each_total|]. intros s1 _.
  eapply (ends_with_bind_total (fun _ _ => True));
    [done|by apply for_each_total|]. intros s2 _.
  unfold ends_with. apply for_each_total. intros [id gates] s.
  unfold bind at 1, new_event. simpl. by apply for_each_total.
Qed.

(** [ProcessInputFiles] throws what first-layer validation throws. *)
Lemma ProcessInputFiles_validates ext xml_files ra0 ra e :
  ProcessInputFiles_read ext xml_files ra0 = (Ok tt, ra) ->
  CheckFirstLayer ext (validated ra) = Throw e ->
  ProcessInputFiles ext xml_files ra0 = (Throw e, validated ra).
Proof.
  intros Hread Hcheck. unfold validated in *.
  unfold ProcessInputFiles, bind at 1. rewrite Hread.
  unfold bind at 1, get at 1. destruct (prob_requested_ ra); simpl negb; cbv iota.
  - unfold bind at 1, ret at 1.
    unfold ValidateInitialization, bind at 1, bind at 1, read.
    by rewrite Hcheck.
  - unfold bind at 1. pose proof (ProcessInputFiles_undefined_total ra) as Hok.
    destruct (ProcessInputFiles_undefined ra) as [r s]. simpl in *. subst r.
    unfold ValidateInitialization, bind at 1, bind at 1, read.
    by rewrite Hcheck.
Qed.



(** C2.  When the files are read into a new analysis, probabilities are
    requested iff a fault tree defines a basic event, a house event or a CCF
    group, or the root has a CCF group or model data.  If they are not
    requested, every reference of unknown kind becomes a new basic event
    with the id and the recorded spelling, among the primary and the basic
    events, and the child of every gate that referred to it, before
    validation starts.  If they are requested, [ProcessInputFiles] throws
    one [ValidationError] whose message names every reference without a
    definition, and nothing is created. *)
Theorem end_of_input_unresolved_references (ext : External)
    (settings : Settings) (xml_files : list XmlFile) (ra : RiskAnalysis) :
  ProcessInputFiles_read ext xml_files (RiskAnalysis_new settings)
  = (Ok tt, ra) ->
  prob_requested_ ra = existsb requests_probabilities xml_files /\
  (prob_requested_ ra = false ->
   exists ra',
     ProcessInputFiles_undefined ra = (Ok tt, ra') /\
     ProcessInputFiles ext xml_files (RiskAnalysis_new settings)
     = (ValidateInitialization ext ;;; SetupForAnalysis ext) ra' /\
     forall id gates,
       tbd_events_ ra !! id = Some gates -> auto_created ra ra' id gates) /\
  (prob_requested_ ra = true ->
   forall d, unresolved_reference ra d ->
   exists msg,
     ProcessInputFiles ext xml_files (RiskAnalysis_new settings)
     = (Throw (ValidationError msg), ra) /\
     forall d', unresolved_reference ra d' -> mentions msg d').
Proof.
  intros Hread. split_and!.
  - by rewrite (ProcessInputFiles_read_requests _ _ _ _ Hread).
  - intros Hprob.
    assert (well_formed ra) as Hra.
    { pose proof (ProcessInputFiles_read_inv ext xml_files
                    (RiskAnalysis_new settings) (well_formed_new settings)) as H.
      by rewrite Hread in H. }
    destruct (ProcessInputFiles_undefined_creates ra
                (well_formed_unknown_kind_unbound ra Hra))
      as (ra' & Hrun & Hall).
    exists ra'. split_and!; [done| |done].
    by apply ProcessInputFiles_not_requested with ra.
  - intros Hprob d Hd. by apply ProcessInputFiles_requested with d.
Qed.

Lemma end_of_input_unresolved_references_witness :
  (exists ra',
      ProcessInputFiles_undefined Samples.unknown_kinds_state = (Ok tt, ra') /\
      ProcessInputFiles Samples.ext [Samples.unknown_kinds]
                        (RiskAnalysis_new Samples.settings)
      = (ValidateInitialization Samples.ext ;;;
         SetupForAnalysis Samples.ext) ra' /\
      auto_created Samples.unknown_kinds_state ra' "pump" [1%positive] /\
      auto_created Samples.unknown_kinds_state ra' "valve" [1%positive]) /\
  (exists msg,
      ProcessInputFiles Samples.ext [Samples.unknown_kind_with_data]
                        (RiskAnalysis_new Samples.settings)
      = (Throw (ValidationError msg), Samples.unknown_kind_with_data_state) /\
      mentions msg "Valve").
Proof.
  split.
  - destruct (end_of_input_unresolved_references
                Samples.ext Samples.settings [Samples.unknown_kinds]
                Samples.unknown_kinds_state)
      as (_ & Hcreate & _); [vm_compute; reflexivity|].
    destruct Hcreate as (ra' & Hrun & Hrest & Hall); [vm_compute; reflexivity|].
    exists ra'. split_and!; [done|done| |]; apply Hall; vm_compute; reflexivity.
  - destruct (end_of_input_unresolved_references
                Samples.ext Samples.settings [Samples.unknown_kind_with_data]
                Samples.unknown_kind_with_data_state)
      as (_ & _ & Hreport); [vm_compute; reflexivity|].
    destruct (Hreport ltac:(vm_compute; reflexivity) "Valve")
      as (msg & Hthrow & Hall).
    + apply unresolved_event with "valve" [1%positive]; vm_compute; reflexivity.
    + exists msg. split; [done|]. apply Hall.
      apply unresolved_event with "valve" [1%positive]; vm_compute; reflexivity.
Defined.

End Builder.

(** * More of the code *)

(** ** The probability of a product *)
Section ProductMore.
Import core.
Local Open Scope Qc_scope.

Lemma literal_probability_probability (l : Literal) :
  probability (p (event l)) -> probability (Spec.literal_probability l).
Proof.
  intros [H0 H1]. unfold Spec.literal_probability.
  destruct (complement l); [|done]. split.
  - by apply Qcle_minus_iff in H1.
  - apply Qcle_minus_iff.
    by replace (1 + - (1 - p (event l))) with (p (event l)) by ring.
Qed.

Lemma acc_probability (acc x : double) :
  probability acc -> probability x -> probability (acc * x).
Proof.
  intros [Ha0 Ha1] [Hx0 Hx1]. split.
  - by apply Qcmult_nonneg_nonneg.
  - trans (acc * 1).
    + by apply Qcmult_le_mono_nonneg_l.
    + by rewrite Qcmult_1_r.
Qed.

Lemma Product_p_loop_probability (acc : double) (P : Product) :
  probability acc -> priced P ->
  probability
    (foldl (fun p literal =>
              p * (if complement literal
                   then 1 - core.p (event literal)
                   else core.p (event literal))) acc P).
Proof.
  intros Hacc HP. revert acc Hacc.
  induction HP as [|l P Hl _ IH]; intros acc Hacc; simpl; [done|].
  apply IH. apply acc_probability; [done|].
  by apply literal_probability_probability in Hl.
Qed.


Lemma Product_p_loop_mono (acc acc' : double) (P Q : Product) :
  sublist P Q -> priced Q -> 0 <= acc' -> acc' <= acc ->
  foldl (fun p literal =>
           p * (if complement literal
                then 1 - core.p (event literal)
                else core.p (event literal))) acc' Q
  <= foldl (fun p literal =>
              p * (if complement literal
                   then 1 - core.p (event literal)
                   else core.p (event literal))) acc P.
Proof.
  intros HPQ. revert acc acc'.
  induction HPQ as [|l P Q _ IH|l P Q _ IH]; intros acc acc' HQ H0 Hle; simpl.
  - done.
  - apply Forall_cons in HQ as [Hl HQ].
    apply literal_probability_probability in Hl as [Hl0 Hl1].
    unfold Spec.literal_probability in Hl0, Hl1.
    apply IH; [done| |].
    + by apply Qcmult_nonneg_nonneg.
    + by apply Qcmult_le_mono_nonneg_r.
  - apply Forall_cons in HQ as [Hl HQ].
    apply literal_probability_probability in Hl as [Hl0 Hl1].
    unfold Spec.literal_probability in Hl0, Hl1.
    apply IH; [done| |].
    + by apply Qcmult_nonneg_nonneg.
    + trans (acc' * 1); [by apply Qcmult_le_mono_nonneg_l|].
      by rewrite Qcmult_1_r.
Qed.


Lemma Product_p_loop_zero (P : Product) :
  foldl (fun p literal =>
           p * (if complement literal
                then 1 - core.p (event literal)
                else core.p (event literal))) 0 P = 0.
Proof.
  induction P as [|l P IH]; simpl; [done|].
  by rewrite Qcmult_0_l.
Qed.

Lemma Product_p_loop_impossible (acc : double) (P : Product) (l : Literal) :
  l ∈ P -> Spec.literal_probability l = 0 ->
  foldl (fun p literal =>
           p * (if complement literal
                then 1 - core.p (event literal)
                else core.p (event literal))) acc P = 0.
Proof.
  intros Hl Hzero. revert acc.
  induction Hl as [l P|l l' P _ IH]; intros acc; cbn [foldl].
  - unfold Spec.literal_probability in Hzero.
    assert ((if complement l then 1 - core.p (event l)
             else core.p (event l)) = 0) as ->.
    { by destruct (complement l). }
    rewrite Qcmult_0_r. apply Product_p_loop_zero.
  - by apply IH.
Qed.





End ProductMore.

(** ** Printing the products *)
Section PrintMore.
Import core.

#[local] Arguments core.sort : simpl never.

Lemma print_order_nil_r (x : ProductSet) : print_order x [] = false.
Proof. unfold print_order. by destruct x. Qed.

Lemma print_order_nil_l (x : ProductSet) : x <> [] -> print_order [] x = true.
Proof. unfold print_order. by destruct x. Qed.

Lemma sort_insert_nil (l : list ProductSet) : sort_insert [] l = [] :: l.
Proof. destruct l as [|y l]; simpl; [done|]. by rewrite print_order_nil_r. Qed.

Lemma sort_insert_head_nil (x : ProductSet) (l : list ProductSet) :
  head l = Some [] -> head (sort_insert x l) = Some [].
Proof.
  destruct l as [|y l]; simpl; [done|]. intros [= ->].
  destruct x as [|s x]; [by rewrite print_order_nil_r|].
  by rewrite print_order_nil_l.
Qed.

Lemma sort_head_nil (l : list ProductSet) :
  [] ∈ l -> head (core.sort l) = Some [].
Proof.
  unfold core.sort. induction l as [|x l IH]; simpl.
  - by intros ?%elem_of_nil.
  - intros [<-|Hl]%elem_of_cons.
    + by rewrite sort_insert_nil.
    + by apply sort_insert_head_nil, IH.
Qed.

Lemma sort_insert_Permutation (x : ProductSet) (l : list ProductSet) :
  sort_insert x l ≡ₚ x :: l.
Proof.
  induction l as [|y l IH]; simpl; [done|].
  destruct (print_order y x); [|done].
  rewrite IH. apply Permutation_swap.
Qed.

Lemma sort_Permutation (l : list ProductSet) : core.sort l ≡ₚ l.
Proof.
  unfold core.sort. induction l as [|x l IH]; simpl; [done|].
  by rewrite sort_insert_Permutation, IH.
Qed.

Lemma Print_ids_nil (P : Product) : Print_ids P = [] <-> P = [].
Proof.
  split; [|by intros ->].
  intros Hnil. destruct P as [|l P]; [done|]. exfalso.
  revert Hnil. apply ids_nonempty. by left.
Qed.

(** The containers on which [Print] meets no failing assertion. *)
Lemma Print_runs (products : ProductContainer) :
  (exists cerr, Print products = Done tt cerr) <->
  products = [ [] ] \/ Forall (fun P : Product => P <> []) products.
Proof.
  destruct products as [|first rest]; simpl.
  { split; [by right|by eexists]. }
  case_bool_decide as Hfirst.
  - subst first. destruct rest as [|second rest]; simpl.
    + split; [by left|by eexists].
    + split; [by intros [? ?]|].
      intros [[=]|[? _]%Forall_cons]; done.
  - set (to_print := core.sort _).
    destruct (decide ([] ∈ rest)) as [Hnil|Hnil].
    + assert (head to_print = Some []) as ->.
      { apply sort_head_nil. right. apply list_elem_of_fmap.
        exists []. by split. }
      simpl. split; [by intros [? ?]|].
      intros [[=]|[_ Hrest]%Forall_cons]; [done|].
      rewrite Forall_forall in Hrest. by destruct (Hrest [] Hnil).
    + assert (default [] (head to_print) <> []) as Hhead.
      { destruct to_print as [|front others] eqn:Hsorted; simpl.
        - pose proof (sort_Permutation (Print_ids first :: map Print_ids rest))
            as Hp.
          unfold to_print in Hsorted. rewrite Hsorted in Hp.
          by apply Permutation_nil_l in Hp.
        - assert (front ∈ to_print) as Hfront by (rewrite Hsorted; left).
          apply sort_elem_of in Hfront.
          change (front ∈ map Print_ids (first :: rest)) in Hfront.
          apply list_elem_of_fmap in Hfront as (P & -> & HP).
          rewrite Print_ids_nil. intros ->.
          apply elem_of_cons in HP as [HP|HP]; [by subst|done]. }
      unfold assert. case_bool_decide; [done|]. simpl. split.
      * intros _. right. apply Forall_forall. intros P HP ->.
        apply elem_of_cons in HP as [HP|HP]; [by subst|done].
      * intros _. by eexists.
Qed.

(** X4.  [Print] runs to its end, meeting no failing assertion, exactly
    when the container is the single empty product or has no empty product
    at all (the empty container is such a one). *)
Theorem Print_completes_iff (products : ProductContainer) :
  (exists cerr, Print products = Done tt cerr) <->
  products = [ [] ] \/ Forall (fun P : Product => P <> []) products.
Proof. apply Print_runs. Qed.

Lemma print_order_length (x y : ProductSet) :
  if print_order y x then length y <= length x else length x <= length y.
Proof.
  unfold print_order. destruct (Nat.eqb_spec (length y) (length x)) as [->|Hne].
  - by destruct (lexicographic_lt y x).
  - destruct (Nat.ltb_spec (length y) (length x)); lia.
Qed.

Lemma sort_insert_sorted (x : ProductSet) (l : list ProductSet) :
  StronglySorted (fun lhs rhs : ProductSet => length lhs <= length rhs) l ->
  StronglySorted (fun lhs rhs : ProductSet => length lhs <= length rhs)
                 (sort_insert x l).
Proof.
  induction 1 as [|y l Hl IH Hy]; simpl.
  - repeat constructor.
  - pose proof (print_order_length x y) as Hxy.
    destruct (print_order y x).
    + constructor; [done|]. apply Forall_forall. intros z Hz.
      apply sort_insert_elem_of in Hz as [->|Hz]; [done|].
      rewrite Forall_forall in Hy. by apply Hy.
    + constructor; [by constructor|]. constructor; [done|].
      eapply Forall_impl; [done|]. simpl. lia.
Qed.

Lemma sort_sorted (l : list ProductSet) :
  StronglySorted (fun lhs rhs : ProductSet => length lhs <= length rhs)
                 (core.sort l).
Proof.
  unfold core.sort. induction l as [|x l IH]; simpl; [constructor|].
  by apply sort_insert_sorted.
Qed.

Lemma sorted_last (l : list ProductSet) (back ids : ProductSet) :
  StronglySorted (fun lhs rhs : ProductSet => length lhs <= length rhs) l ->
  last l = Some back -> ids ∈ l -> length ids <= length back.
Proof.
  induction 1 as [|y l Hl IH Hy]; [done|].
  destruct l as [|z l].
  - intros [= <-] ->%list_elem_of_singleton. done.
  - change (last (y :: z :: l)) with (last (z :: l)). intros Hback.
    intros [->|Hids]%elem_of_cons; [|by apply IH].
    rewrite Forall_forall in Hy. apply Hy.
    apply last_Some in Hback as [l' ->]. set_solver.
Qed.

Lemma distribution_lookup (l : list ProductSet) (d : list nat) (n k : nat) :
  d !! n = Some k ->
  foldl (fun distribution (product : ProductSet) =>
           alter S (length product - 1) distribution) d l !! n
  = Some (k + length (filter (fun ids : ProductSet => length ids - 1 = n) l)).
Proof.
  revert d k. induction l as [|x l IH]; intros d k Hd; simpl.
  - by rewrite Nat.add_0_r.
  - rewrite filter_cons. destruct (decide (length x - 1 = n)) as [Hx|Hx].
    + rewrite (IH _ (S k)); [f_equal; simpl; lia|].
      rewrite <- Hx in *. by rewrite list_lookup_alter_eq, Hd.
    + rewrite (IH _ k); [done|]. by rewrite list_lookup_alter_ne.
Qed.

Lemma distribution_length (l : list ProductSet) (d : list nat) :
  length (foldl (fun distribution (product : ProductSet) =>
                   alter S (length product - 1) distribution) d l)
  = length d.
Proof.
  revert d. induction l as [|x l IH]; intros d; simpl; [done|].
  by rewrite IH, length_alter.
Qed.

Lemma sum_list_alter_S (d : list nat) (i : nat) :
  i < length d -> sum_list (alter S i d) = S (sum_list d).
Proof.
  revert i. induction d as [|x d IH]; intros i Hi; simpl in *; [lia|].
  destruct i as [|i]; simpl; [done|].
  specialize (IH i ltac:(lia)). unfold alter in IH. rewrite IH. lia.
Qed.

Lemma distribution_sum (l : list ProductSet) (d : list nat) :
  Forall (fun ids : ProductSet => length ids - 1 < length d) l ->
  sum_list (foldl (fun distribution (product : ProductSet) =>
                     alter S (length product - 1) distribution) d l)
  = sum_list d + length l.
Proof.
  revert d. induction l as [|x l IH]; intros d Hl; simpl; [lia|].
  apply Forall_cons in Hl as [Hx Hl].
  rewrite IH.
  - rewrite sum_list_alter_S; [lia|done].
  - by rewrite length_alter.
Qed.

Lemma filter_order (n : nat) (l : list ProductSet) :
  Forall (fun ids : ProductSet => ids <> []) l ->
  filter (fun ids : ProductSet => length ids - 1 = n) l
  = filter (fun ids : ProductSet => length ids = S n) l.
Proof.
  induction 1 as [|x l Hx _ IH]; [done|].
  rewrite !filter_cons, IH.
  destruct x as [|s x]; [done|]. simpl.
  destruct (decide (length x - 0 = n)), (decide (S (length x) = S n));
    try done; lia.
Qed.

(** X5.  For a container that is not empty and has no empty product,
    [Print] writes the number of products, then for every size the number of
    products whose set of ids has this size, then the sets of ids by
    increasing size: the id sets are those of the products, the numbers
    reach from size 1 to the largest size, and they add up to the number of
    products. *)
Theorem Print_report (products : ProductContainer) :
  products <> [] -> Forall (fun P : Product => P <> []) products ->
  exists to_print distribution,
    Print products = Done tt (Print_text to_print distribution) /\
    to_print ≡ₚ map Print_ids products /\
    StronglySorted (fun lhs rhs : ProductSet => length lhs <= length rhs)
                   to_print /\
    (forall ids, ids ∈ to_print -> 1 <= length ids <= length distribution) /\
    (forall n, n < length distribution ->
               distribution !! n = Some (of_order (S n) to_print)) /\
    sum_list distribution = length products.
Proof.
  intros Hne Hall.
  set (to_print := core.sort (map Print_ids products)).
  set (distribution :=
         foldl (fun distribution (product : ProductSet) =>
                  alter S (length product - 1) distribution)
               (replicate (length (default [] (last to_print))) 0)
               to_print).
  exists to_print, distribution.
  assert (to_print ≡ₚ map Print_ids products) as Hperm
    by apply sort_Permutation.
  assert (forall ids, ids ∈ to_print -> ids <> []) as Hids.
  { intros ids Hin. rewrite Hperm in Hin.
    apply list_elem_of_fmap in Hin as (P & -> & HP).
    rewrite Print_ids_nil. rewrite Forall_forall in Hall. by apply Hall. }
  assert (length distribution = length (default [] (last to_print))) as Hlen.
  { unfold distribution. by rewrite distribution_length, length_replicate. }
  assert (forall ids, ids ∈ to_print -> 1 <= length ids <= length distribution)
    as Hrange.
  { intros ids Hin. split.
    - specialize (Hids ids Hin). destruct ids; simpl; [done|lia].
    - rewrite Hlen. destruct (last to_print) as [back|] eqn:Hback.
      + by apply (sorted_last to_print); [apply sort_sorted|..].
      + apply last_None in Hback. rewrite Hback in Hin.
        by apply elem_of_nil in Hin. }
  split_and!; [|done| |done| |].
  - destruct products as [|first rest]; [done|]. unfold Print.
    apply Forall_cons in Hall as [Hfirst _].
    rewrite bool_decide_eq_false_2 by done.
    fold to_print. fold distribution.
    assert (default [] (head to_print) <> []) as Hhead.
    { destruct to_print as [|front others] eqn:Hsorted; simpl.
      - by apply Permutation_nil_l in Hperm.
      - apply Hids. left. }
    unfold assert. rewrite bool_decide_eq_false_2 by done. simpl.
    reflexivity.
  - apply sort_sorted.
  - intros n Hn. unfold distribution.
    rewrite (distribution_lookup _ _ n 0).
    + simpl. f_equal. unfold of_order. f_equal.
      apply filter_order. by apply Forall_forall.
    + apply lookup_replicate. split; [done|]. by rewrite <- Hlen.
  - unfold distribution. rewrite distribution_sum.
    + rewrite sum_list_replicate, (Permutation_length Hperm), length_map.
      lia.
    + apply Forall_forall. intros ids Hin. rewrite length_replicate, <- Hlen.
      destruct (Hrange ids Hin). lia.
Qed.

Lemma Print_report_witness :
  exists to_print distribution,
    Print [pump_fails_valve_holds; pump_fails]
    = Done tt (Print_text to_print distribution) /\
    to_print ≡ₚ map Print_ids [pump_fails_valve_holds; pump_fails] /\
    StronglySorted (fun lhs rhs : ProductSet => length lhs <= length rhs)
                   to_print /\
    (forall ids, ids ∈ to_print -> 1 <= length ids <= length distribution) /\
    (forall n, n < length distribution ->
               distribution !! n = Some (of_order (S n) to_print)) /\
    sum_list distribution = length [pump_fails_valve_holds; pump_fails].
Proof.
  apply (Print_report [pump_fails_valve_holds; pump_fails]).
  - discriminate.
  - repeat constructor; discriminate.
Defined.

End PrintMore.

(** ** Storing the products, in every build *)
Section StoreMore.
Import core.

Lemma Store_settings (products : Zbdd) (this : FaultTreeAnalysis) :
  settings (analysis
    (with_products products
       (if Zbdd_empty products then with_warning NULL_warning this
        else if Zbdd_base products then with_warning UNITY_warning this
        else this)))
  = settings (analysis this).
Proof. by destruct (Zbdd_empty products), (Zbdd_base products). Qed.

Lemma order_assertions_Done (limit : nat) (stored : ProductContainer) :
  (exists out,
     foldr (fun (product : Product) rest =>
              run_bind
                (assert (length product <=? limit)%nat
                   "Miscalculated product sets with larger-than-required order.")
                (fun _ => rest))
           (Done tt "") stored = Done tt out) <->
  Forall (fun P : Product => length P <= limit) stored.
Proof.
  split.
  - intros [out Hout]. by apply (order_assertions_inv _ _ out).
  - intros Hbound. exists "". by apply order_assertions_pass.
Qed.

(** X6.  [Store] runs to its end in every build without assertions; in a
    build with assertions it does so exactly when no product is longer than
    the limit of the order and, if the products are to be printed, the
    container is the single empty product or has no empty product. *)
Theorem Store_completes_iff (NDEBUG : bool) (products : Zbdd) (graph : Pdag)
    (this : FaultTreeAnalysis) :
  (exists this' cerr, Store NDEBUG products graph this = Done this' cerr) <->
  NDEBUG = true \/
  (Forall (fun P : Product =>
             length P <= limit_order (settings (analysis this))) products /\
   (print (settings (analysis this)) = true ->
    products = [ [] ] \/ Forall (fun P : Product => P <> []) products)).
Proof.
  unfold Store, ProductContainer_new. rewrite !Store_settings.
  destruct NDEBUG.
  { split; [by left|]. intros _. by eexists _, _. }
  set (loop := foldr _ _ products).
  pose proof (order_assertions_Done
                (limit_order (settings (analysis this))) products) as Hloop.
  fold loop in Hloop.
  pose proof (Print_runs products) as Hprint.
  split.
  - intros (this' & cerr & HStore). right.
    destruct loop as [[] out|] eqn:Eloop; [|done].
    split; [apply Hloop; by eexists|].
    intros Hp. rewrite Hp in HStore. apply Hprint.
    simpl in HStore. destruct (Print products) as [[] out'|]; [|done].
    by eexists.
  - intros [[=]|[Hbound Hp]].
    apply Hloop in Hbound as [out ->]. simpl.
    destruct (print (settings (analysis this))).
    + destruct (proj2 Hprint (Hp eq_refl)) as [out' ->]. simpl.
      by eexists _, _.
    + simpl. by eexists _, _.
Qed.

(** X7.  When [Store] runs to its end, the analysis holds the products that
    were given, its top event and its settings are as before, its warnings
    are the earlier ones followed by the warning of the special case if the
    product set is one, and nothing was written to the standard error stream
    unless the build has assertions and the products are to be printed. *)
Theorem Store_effect (NDEBUG : bool) (products : Zbdd) (graph : Pdag)
    (this this' : FaultTreeAnalysis) (cerr : string) :
  Store NDEBUG products graph this = Done this' cerr ->
  products_ this' = Some products /\
  top_event_ this' = top_event_ this /\
  settings (analysis this') = settings (analysis this) /\
  warnings (analysis this')
  = (warnings (analysis this) ++ special_case products)%list /\
  (NDEBUG = true \/ print (settings (analysis this)) = false -> cerr = "").
Proof.
  unfold Store, ProductContainer_new, special_case. rewrite !Store_settings.
  set (this1 := with_products _ _).
  assert (products_ this1 = Some products /\
          top_event_ this1 = top_event_ this /\
          settings (analysis this1) = settings (analysis this) /\
          warnings (analysis this1)
          = (warnings (analysis this)
             ++ (if Zbdd_empty products then [NULL_warning]
                 else if Zbdd_base products then [UNITY_warning]
                 else []))%list) as H1.
  { unfold this1. destruct (Zbdd_empty products), (Zbdd_base products);
      simpl; by rewrite ?List.app_nil_r. }
  destruct H1 as (Hp & Ht & Hs & Hw).
  destruct NDEBUG.
  { intros [= <- <-]. by split_and!. }
  pose proof (order_assertions_pass
                (limit_order (settings (analysis this))) products) as Hpass.
  destruct (foldr _ _ products) as [[] out|] eqn:Eloop; [|done].
  pose proof (order_assertions_inv _ _ _ Eloop) as Hbound.
  injection (Hpass Hbound) as ->. simpl.
  destruct (print (settings (analysis this))).
  - destruct (Print products) as [[] out'|]; [|done]. simpl.
    intros [= <- <-]. split_and!; try done. by intros [[=]|[=]].
  - simpl. intros [= <- <-]. by split_and!.
Qed.

Lemma Store_effect_witness :
  products_ (with_products [pump_fails]
               {| analysis := {| settings := {| limit_order := 20;
                                                print := false |};
                                 warnings := [] |};
                  top_event_ := "top"; products_ := None |})
  = Some [pump_fails] /\
  top_event_ (with_products [pump_fails]
                {| analysis := {| settings := {| limit_order := 20;
                                                 print := false |};
                                  warnings := [] |};
                   top_event_ := "top"; products_ := None |})
  = "top" /\
  settings (analysis
              (with_products [pump_fails]
                 {| analysis := {| settings := {| limit_order := 20;
                                                  print := false |};
                                   warnings := [] |};
                    top_event_ := "top"; products_ := None |}))
  = {| limit_order := 20; print := false |} /\
  warnings (analysis
              (with_products [pump_fails]
                 {| analysis := {| settings := {| limit_order := 20;
                                                  print := false |};
                                   warnings := [] |};
                    top_event_ := "top"; products_ := None |}))
  = ([] ++ special_case [pump_fails])%list /\
  (false = true \/ false = false -> "" = "").
Proof.
  apply (Store_effect false [pump_fails] {| pdag_basic_events := [] |}
           {| analysis := {| settings := {| limit_order := 20;
                                            print := false |};
                             warnings := [] |};
              top_event_ := "top"; products_ := None |}).
  reflexivity.
Defined.

End StoreMore.

(** ** The units of parameters *)
Section UnitsFacts.
Import mef scram.

(** X8.  The table of units that the constructor of [RiskAnalysis] fills
    and the table [kUnitsToString] agree: a text of the input names a unit
    exactly when it is the text of [kUnitsToString] for this unit and the
    unit is not [kUnitless], for which the input has no name.  The table of
    texts has [kNumUnits] entries, one for every unit. *)
Theorem units_of_the_input :
  length kUnitsToString = kNumUnits /\
  (forall unit, Units_value unit < kNumUnits) /\
  (forall text unit,
      units_ !! text = Some unit <->
      unit <> kUnitless /\ kUnitsToString !! Units_value unit = Some text).
Proof.
  split; [reflexivity|]. split.
  { intros []; simpl; unfold kNumUnits; lia. }
  intros text unit. split.
  - unfold units_. rewrite !lookup_insert_Some, lookup_empty.
    intros H. repeat (destruct H as [[<- <-]|[_ H]]; [by split|]). done.
  - intros [Hne Htext]. destruct unit; try done;
      simpl in Htext; injection Htext as <-; reflexivity.
Qed.

End UnitsFacts.

(** ** The shapes of events on the scene *)
Section GuiFacts.
Import gui.
Local Open Scope Qc_scope.

Lemma int_small (z : Z) : (- 2 ^ 31 <= z < 2 ^ 31)%Z -> int z = z.
Proof. intros Hz. unfold int. rewrite Z.mod_small; lia. Qed.

Ltac to_Z :=
  unfold holds, left, right, top, bottom; cbn [point_x point_y rect_x rect_y
    rect_width rect_height];
  unfold Qcminus; unfold Qcle, Qcplus, Qcopp, Qcmult, of_int, Q2Qc;
  cbn [this]; rewrite ?Qred_correct;
  unfold Qle, Qplus, Qminus, Qopp, Qmult, inject_Z; cbn [Qnum Qden]; lia.

Ltac no_overflow :=
  repeat match goal with
         | |- context [int ?z] => rewrite (int_small z) by lia
         end.

(** X9.  Everything that [Event::paint] draws (the box of the description
    with its text, the box of the name with its text and the two lines) lies
    in the rectangle that [Event::boundingRect] returns, for every font
    whose metrics are not negative and small enough for the [int] products. *)
Theorem Event_paint_within_boundingRect (font : QFontMetrics)
    (m_description m_name : string) :
  metrics_in_range font ->
  within (Event_boundingRect font) (Event_paint font m_description m_name).
Proof.
  intros [Hw Hh]. unfold Event_paint, Event_boundingRect, units.
  cbn [size_width size_height].
  set (w := averageCharWidth font) in *. set (h := height font) in *.
  no_overflow.
  repeat (constructor; try (unfold holds; split_and!; to_Z)).
Qed.

(** X10.  Everything that [BasicEvent::paint] draws, the circle under the
    event included, lies in the rectangle that [BasicEvent::boundingRect]
    returns; this rectangle contains the one of [Event::boundingRect], and
    [IntermediateEvent::boundingRect] returns the same rectangle. *)
Theorem BasicEvent_paint_within_boundingRect (font : QFontMetrics)
    (m_description m_name : string) :
  metrics_in_range font ->
  within (BasicEvent_boundingRect font)
         (BasicEvent_paint font m_description m_name) /\
  within (BasicEvent_boundingRect font) [drawRect (Event_boundingRect font)] /\
  IntermediateEvent_boundingRect font = BasicEvent_boundingRect font.
Proof.
  intros [Hw Hh]. split_and!; [| |reflexivity].
  all: unfold BasicEvent_paint, BasicEvent_boundingRect, Event_paint,
         Event_boundingRect, setHeight, units.
  all: cbn [size_width size_height rect_x rect_y rect_width rect_height app].
  all: set (w := averageCharWidth font) in *; set (h := height font) in *.
  all: no_overflow.
  all: repeat (constructor; try (unfold holds; split_and!; to_Z)).
Qed.

Lemma Event_paint_within_boundingRect_witness :
  within (Event_boundingRect fixed_font)
         (Event_paint fixed_font "The pump fails to start" "pump").
Proof.
  apply (Event_paint_within_boundingRect fixed_font
           "The pump fails to start" "pump").
  split; simpl; lia.
Defined.

Lemma BasicEvent_paint_within_boundingRect_witness :
  within (BasicEvent_boundingRect fixed_font)
         (BasicEvent_paint fixed_font "The pump fails to start" "pump") /\
  within (BasicEvent_boundingRect fixed_font)
         [drawRect (Event_boundingRect fixed_font)] /\
  IntermediateEvent_boundingRect fixed_font
  = BasicEvent_boundingRect fixed_font.
Proof.
  apply (BasicEvent_paint_within_boundingRect fixed_font
           "The pump fails to start" "pump").
  split; simpl; lia.
Defined.

End GuiFacts.

(** ** The reading of the files *)
Section Readers.
Import Text scram.

(** What a sequence gives when it returns. *)
Lemma bind_Ok {A B} (m : M A) (k : A -> M B) ra b ra' :
  bind m k ra = (Ok b, ra') ->
  exists a ra1, m ra = (Ok a, ra1) /\ k a ra1 = (Ok b, ra').
Proof.
  unfold bind. destruct (m ra) as [[a|e] ra1]; [|done].
  intros Hk. by exists a, ra1.
Qed.

Lemma bind_Throw {A B} (m : M A) (k : A -> M B) ra e ra' :
  bind m k ra = (Throw e, ra') ->
  m ra = (Throw e, ra') \/
  exists a ra1, m ra = (Ok a, ra1) /\ k a ra1 = (Throw e, ra').
Proof.
  unfold bind. destruct (m ra) as [[a|e1] ra1].
  - intros Hk. right. by exists a, ra1.
  - intros [= -> ->]. by left.
Qed.

(** A loop that throws has run its body on the elements before one, and
    this one has thrown. *)
Lemma for_each_Throw {A} (l : list A) (body : A -> M unit) ra e ra' :
  for_each l body ra = (Throw e, ra') ->
  exists done x rest ra0,
    l = (done ++ x :: rest)%list /\
    for_each done body ra = (Ok tt, ra0) /\
    body x ra0 = (Throw e, ra').
Proof.
  revert ra. induction l as [|x l IH]; intros ra; simpl; [done|].
  intros [Hx|([] & ra1 & Hx & Hl)]%bind_Throw.
  - by exists [], x, l, ra.
  - destruct (IH ra1 Hl) as (done & y & rest & ra0 & -> & Hdone & Hy).
    exists (x :: done), y, rest, ra0. split_and!; [done| |done].
    simpl. unfold bind. by rewrite Hx.
Qed.

Lemma for_each_Ok {A} (l : list A) (body : A -> M unit) ra ra' x :
  for_each l body ra = (Ok tt, ra') -> x ∈ l ->
  exists ra0 ra1, body x ra0 = (Ok tt, ra1).
Proof.
  revert ra. induction l as [|y l IH]; intros ra; simpl.
  - by intros _ ?%elem_of_nil.
  - intros ([] & ra1 & Hy & Hl)%bind_Ok [->|Hx]%elem_of_cons.
    + by exists ra, ra1.
    + by apply (IH ra1).
Qed.

(** X11.  When the reading of the files throws, the files before one were
    read to their end and the reading of this one has thrown; the exception
    is the one of this file, and a [ValidationError] has the name of the
    file before its message: ["In file '<name>', <message>"]. *)
Theorem ProcessInputFiles_read_error (ext : External)
    (xml_files : list XmlFile) (ra ra' : RiskAnalysis) (e : Error) :
  ProcessInputFiles_read ext xml_files ra = (Throw e, ra') ->
  exists done it rest ra0,
    xml_files = (done ++ it :: rest)%list /\
    ProcessInputFiles_read ext done ra = (Ok tt, ra0) /\
    match e with
    | ValidationError msg =>
        exists msg',
          ProcessInputFile ext it ra0 = (Throw (ValidationError msg'), ra') /\
          msg = "In file '" +:+ xml_file it +:+ "', " +:+ msg'
    | _ => ProcessInputFile ext it ra0 = (Throw e, ra')
    end.
Proof.
  unfold ProcessInputFiles_read.
  intros [H|(ra1 & s1 & Hget & H)]%bind_Throw; [done|].
  injection Hget as <- <-.
  apply bind_Throw in H as [H|([] & s2 & Hset & H)]; [done|].
  apply for_each_Throw in H as (done & it & rest & ra0 & -> & Hdone & Hit).
  exists done, it, rest, ra0. split; [done|]. split.
  { unfold bind at 1, get at 1. unfold bind at 1. rewrite Hset. exact Hdone. }
  unfold catch_ValidationError in Hit.
  destruct (ProcessInputFile ext it ra0) as [[[]|e0] s] eqn:Efile; [done|].
  destruct e0 as [msg'| | |]; try (injection Hit as <- <-; done).
  injection Hit as <- <-. by exists msg'.
Qed.

(** X12.  A file whose root has an element that is no fault tree, no CCF
    group and no model data is not read to its end: [ProcessInputFile]
    throws, whatever the other elements are. *)
Theorem ProcessInputFile_cannot_handle (ext : External) (xml_file : XmlFile)
    (ra : RiskAnalysis) (name : string) :
  root_other name ∈ root_children xml_file ->
  exists e ra', ProcessInputFile ext xml_file ra = (Throw e, ra').
Proof.
  intros Hin. unfold ProcessInputFile.
  destruct (for_each _ _ ra) as [[[]|e] ra'] eqn:Erun; [|by eexists _, _].
  destruct (for_each_Ok _ _ _ _ _ Erun Hin) as (ra0 & ra1 & Hbody).
  discriminate.
Qed.

(** The ids of the arguments of a formula. *)
Lemma ProcessFormula_loop_distinct children_id gate events ra ra' :
  ProcessFormula_loop children_id gate events ra = (Ok tt, ra') ->
  NoDup (map (fun event => to_lower (trim (arg_name event))) events) /\
  forall event, event ∈ events ->
                to_lower (trim (arg_name event)) ∉ children_id.
Proof.
  revert children_id ra. induction events as [|event events IH];
    intros children_id ra; simpl.
  - intros _. split; [constructor|]. by intros event ?%elem_of_nil.
  - case_bool_decide as Hseen; [done|].
    intros (child & ra1 & _ & ([] & ra2 & _ & Hrest)%bind_Ok)%bind_Ok.
    destruct (IH _ _ Hrest) as [Hdup Hnew]. split.
    + constructor; [|done]. intros Hin.
      apply list_elem_of_fmap in Hin as (event' & Heq & Hin).
      apply (Hnew event' Hin). rewrite <- Heq.
      apply elem_of_union_l. by apply elem_of_singleton.
    + intros event' [->|Hin]%elem_of_cons; [done|].
      specialize (Hnew event' Hin). intros Hseen'. apply Hnew.
      by apply elem_of_union_r.
Qed.

(** X13.  When [ProcessFormula] returns, no two arguments of the formula
    have the same id, that is the same name but for letter case and the
    blanks around it. *)
Theorem ProcessFormula_children_distinct (gate : loc)
    (events : list FormulaArg) (ra ra' : RiskAnalysis) :
  ProcessFormula gate events ra = (Ok tt, ra') ->
  NoDup (map (fun event => to_lower (trim (arg_name event))) events).
Proof. intros Hrun. by apply ProcessFormula_loop_distinct in Hrun as [? _]. Qed.

Lemma ProcessFormula_children_distinct_witness :
  NoDup (map (fun event => to_lower (trim (arg_name event)))
             (formula_args (gate_formula Samples.gate_top))).
Proof.
  apply (ProcessFormula_children_distinct
           1%positive _ (RiskAnalysis_new Samples.settings)
           (ProcessFormula 1%positive
              (formula_args (gate_formula Samples.gate_top))
              (RiskAnalysis_new Samples.settings)).2).
  vm_compute. reflexivity.
Defined.

Lemma ProcessInputFiles_read_error_witness :
  exists done it rest ra0,
    [Samples.unknown_kinds; event_tree_file] = (done ++ it :: rest)%list /\
    ProcessInputFiles_read Samples.ext done (RiskAnalysis_new Samples.settings)
    = (Ok tt, ra0) /\
    exists msg',
      ProcessInputFile Samples.ext it ra0
      = (Throw (ValidationError msg'),
         (ProcessInputFiles_read
            Samples.ext [Samples.unknown_kinds; event_tree_file]
            (RiskAnalysis_new Samples.settings)).2) /\
      "In file 'events.xml', Cannot handle 'define-event-tree'"
      = "In file '" +:+ xml_file it +:+ "', " +:+ msg'.
Proof.
  apply (ProcessInputFiles_read_error
           Samples.ext [Samples.unknown_kinds; event_tree_file]
           (RiskAnalysis_new Samples.settings) _
           (ValidationError
              "In file 'events.xml', Cannot handle 'define-event-tree'")).
  vm_compute. reflexivity.
Defined.

Lemma ProcessInputFile_cannot_handle_witness :
  exists e ra',
    ProcessInputFile Samples.ext event_tree_file
                     (RiskAnalysis_new Samples.settings)
    = (Throw e, ra').
Proof.
  apply (ProcessInputFile_cannot_handle
           Samples.ext event_tree_file (RiskAnalysis_new Samples.settings)
           "define-event-tree").
  left.
Defined.

End Readers.

(** ** The containers of events *)
Section Containers.
Import Text scram.

#[local] Instance same_tables_preorder : PreOrder same_tables.
Proof.
  split.
  - by intros ra.
  - intros a b c Hab Hbc. unfold same_tables in *. congruence.
Qed.

Lemma tables_ret {A} (a : A) : keeps same_tables (ret a).
Proof. apply keeps_ret, _. Qed.

Lemma tables_throw {A} (e : Error) : keeps same_tables (throw (A := A) e).
Proof. apply keeps_throw, _. Qed.

Lemma tables_get : keeps same_tables get.
Proof. apply keeps_get, _. Qed.

Lemma tables_bind {A B} (m : M A) (k : A -> M B) :
  keeps same_tables m -> (forall a, keeps same_tables (k a)) ->
  keeps same_tables (bind m k).
Proof. apply keeps_bind, _. Qed.

Lemma tables_for_each {A} (l : list A) (body : A -> M unit) :
  (forall x, keeps same_tables (body x)) ->
  keeps same_tables (for_each l body).
Proof. apply keeps_for_each, _. Qed.

Lemma tables_catch {A} (body : M A) (handler : string -> M A) :
  keeps same_tables body -> (forall msg, keeps same_tables (handler msg)) ->
  keeps same_tables (catch_ValidationError body handler).
Proof. apply keeps_catch_ValidationError, _. Qed.

Lemma tables_modify (f : RiskAnalysis -> RiskAnalysis) :
  (forall ra, same_tables ra (f ra)) -> keeps same_tables (modify f).
Proof. intros Hf ra. apply Hf. Qed.

Lemma tables_call ptr method : keeps same_tables (call ptr method).
Proof. intros ra. by destruct ra. Qed.

Lemma tables_new_event e : keeps same_tables (new_event e).
Proof. intros ra. by destruct ra. Qed.

Lemma tables_new_expr e : keeps same_tables (new_expr e).
Proof. intros ra. by destruct ra. Qed.

Create HintDb tables discriminated.

#[local] Hint Resolve tables_ret tables_throw tables_get tables_bind
  tables_for_each tables_catch tables_modify tables_call tables_new_event
  tables_new_expr : tables.
#[local] Hint Extern 0 (keeps _ _) => progress (cbv beta zeta) : tables.
#[local] Hint Extern 2 (keeps _ (match ?x with _ => _ end)) =>
  destruct x : tables.
#[local] Hint Extern 1 (same_tables ?ra _) =>
  destruct ra; reflexivity : tables.

Ltac tables := cbv beta zeta; auto 60 with tables.

Lemma tables_AddChild gate child : keeps same_tables (AddChild gate child).
Proof. unfold AddChild. tables. Qed.

Lemma tables_AddParent child gate : keeps same_tables (AddParent child gate).
Proof. unfold AddParent. tables. Qed.

Lemma tables_AttachLabelAndAttributes node element :
  keeps same_tables (AttachLabelAndAttributes node element).
Proof. unfold AttachLabelAndAttributes. tables. Qed.

#[local] Hint Resolve tables_AddChild tables_AddParent
  tables_AttachLabelAndAttributes : tables.

Lemma tables_histogram_bins (bins : list (XmlExpr * XmlExpr)) :
  Forall (fun bin => keeps same_tables (GetExpression bin.1) /\
                     keeps same_tables (GetExpression bin.2)) bins ->
  keeps same_tables
    ((fix loop (bins : list (XmlExpr * XmlExpr)) : M (list loc * list loc) :=
        match bins with
        | [] => ret ([], [])
        | (e0, e1) :: bins' =>
            bound <- GetExpression e0 ;;
            weight <- GetExpression e1 ;;
            rest <- loop bins' ;;
            ret (bound :: rest.1, weight :: rest.2)
        end) bins).
Proof.
  induction 1 as [|[e0 e1] bins [H0 H1] _ IH]; simpl in *; tables.
Qed.

Lemma tables_GetExpression e : keeps same_tables (GetExpression e).
Proof.
  induction e using XmlExpr_induction; rewrite GetExpression_unfold;
    unfold GetDeviateExpression_with, GetConstantExpression,
      GetParameterExpression;
    try pose proof (tables_histogram_bins _ ltac:(eassumption));
    tables.
Qed.

Lemma tables_Parameter_expression parameter expression :
  keeps same_tables (Parameter_expression parameter expression).
Proof.
  intros ra. unfold Parameter_expression, bind, get. simpl.
  destruct (exprs ra !! parameter) as [[]|]; simpl; try reflexivity.
  destruct expression0; simpl; [reflexivity|]. by destruct ra.
Qed.

#[local] Hint Resolve tables_GetExpression tables_Parameter_expression
  : tables.

Lemma tables_DefineParameter param_node :
  keeps same_tables (DefineParameter param_node).
Proof. unfold DefineParameter. tables. Qed.

Lemma tables_DefineCcfFactor ext factor_node ccf_group :
  keeps same_tables (DefineCcfFactor ext factor_node ccf_group).
Proof. unfold DefineCcfFactor. tables. Qed.

#[local] Hint Resolve tables_DefineParameter tables_DefineCcfFactor : tables.

(** The object that [new_event] makes. *)
Lemma new_event_class e s :
  class_at (new_event e s).2 (fresh (dom (events s))) = Some (class e) /\
  id_ (deref (new_event e s).2 (fresh (dom (events s)))) = id_ e /\
  events s !! fresh (dom (events s)) = None.
Proof.
  unfold class_at, deref. rewrite !lookup_total_alt, new_event_lookup.
  split_and!; [done|done|]. apply not_elem_of_dom, is_fresh.
Qed.

Lemma class_at_extends a b c k :
  extends a b -> class_at a c = Some k -> class_at b c = Some k.
Proof.
  intros (Hev & _) Hc. unfold class_at in *.
  destruct (events a !! c) as [o|] eqn:Ho; [|done].
  destruct (Hev c o Ho) as (o' & -> & Hclass & _). simpl in *. congruence.
Qed.

(** [UpdateIfLateEvent] always returns, and what it does to the containers
    is to end the wait for the id of the event. *)
Lemma UpdateIfLateEvent_tables c s :
  ends_with (UpdateIfLateEvent c) s (fun r s' =>
    (exists b, r = Ok b) /\ same_tables (resolved (id_ (deref s c)) s) s').
Proof.
  unfold UpdateIfLateEvent, resolved. apply ends_with_bind, ends_with_get.
  cbv zeta. destruct (count _ _) eqn:E.
  - apply (ends_with_bind_total same_tables _ _ tt); [tables| |].
    { by apply for_each_total. }
    intros s1 H1.
    apply ends_with_bind, ends_with_modify.
    apply ends_with_bind, ends_with_modify, ends_with_ret.
    split; [by eexists|]. unfold same_tables, tables in *.
    destruct s, s1; simpl in *. by simplify_eq.
  - apply ends_with_ret. split; [by eexists|done].
Qed.

Lemma UpdateIfLateEvent_spec c s :
  exists b s',
    UpdateIfLateEvent c s = (Ok b, s') /\
    same_tables (resolved (id_ (deref s c)) s) s' /\ extends s s'.
Proof.
  pose proof (UpdateIfLateEvent_tables c s) as H.
  pose proof (builder_UpdateIfLateEvent c s) as Hext.
  unfold ends_with in H. destruct (UpdateIfLateEvent c s) as [r s'].
  simpl in *. destruct H as [[b ->] Htab]. by exists b, s'.
Qed.

(** *** What the functions of the builder do to the containers *)

Lemma known_false s id :
  known s id = false <->
  count (gates_ s) id = false /\ count (tbd_gates_ s) id = false /\
  count (primary_events_ s) id = false /\
  count (tbd_basic_events_ s) id = false /\
  count (tbd_house_events_ s) id = false.
Proof.
  unfold known. rewrite !orb_false_iff. tauto.
Qed.

Lemma ProcessFormulaEvent_filing gate id orig_id s :
  ends_with (ProcessFormulaEvent gate id orig_id) s (fun _ s' =>
    filing id s s').
Proof.
  unfold ProcessFormulaEvent. apply ends_with_bind, ends_with_get.
  destruct (count (primary_events_ s) id) eqn:E1;
    [by apply ends_with_ret, filing_nothing|].
  destruct (count (gates_ s) id) eqn:E2;
    [by apply ends_with_ret, filing_nothing|].
  destruct (count (tbd_gates_ s) id) eqn:E3;
    [by apply ends_with_ret, filing_nothing|].
  destruct (count (tbd_basic_events_ s) id) eqn:E4;
    [by apply ends_with_ret, filing_nothing|].
  destruct (count (tbd_house_events_ s) id) eqn:E5;
    [by apply ends_with_ret, filing_nothing|].
  assert (known s id = false) as Hknown by (by apply known_false).
  apply ends_with_bind. destruct (count (tbd_events_ s) id) eqn:E6.
  - apply ends_with_modify, ends_with_ret.
    apply (filing_wait_more _ _ _ gate); [done|by apply count_true|done].
  - apply ends_with_bind, ends_with_modify, ends_with_modify, ends_with_ret.
    apply (filing_wait_first _ _ _ gate orig_id);
      [done|by apply count_false|done].
Qed.

(** A reference to an event of a kind: a new object among those that are
    referred to, with no wait for its id any more. *)
Lemma new_reference kind id orig_id s :
  known s id = false ->
  ends_with
    (child <- new_event (Event_new (class_of_kind kind) id orig_id) ;;
     modify (refer kind id child) ;;;
     _ <- UpdateIfLateEvent child ;;
     ret child) s (fun _ s' => filing id s s').
Proof.
  intros Hknown. apply ends_with_bind, ends_with_new_event.
  set (object := Event_new (class_of_kind kind) id orig_id).
  destruct (new_event_class object s) as (Hclass & Hid & Hfresh).
  set (c := fresh (dom (events s))) in *.
  change (set_events _ s) with (new_event object s).2.
  set (s1 := (new_event _ s).2) in *.
  apply ends_with_bind, ends_with_modify. set (s2 := refer kind id c s1).
  assert (extends s1 s2) as H12.
  { unfold s2. destruct kind; simpl;
      [apply extends_set_tbd_gates_|apply extends_set_tbd_basic_events_
      |apply extends_set_tbd_house_events_]. }
  assert (id_ (deref s2 c) = id) as Hid2.
  { transitivity (id_ (deref s1 c)); [|exact Hid].
    unfold s2, deref. by destruct kind, s1. }
  destruct (UpdateIfLateEvent_spec c s2) as (b & s' & Hrun & Htab & Hext).
  apply (ends_with_bind_eq _ _ _ _ _ _ Hrun), ends_with_ret.
  apply (filing_reference _ _ _ kind c); [done|done| |].
  - apply (class_at_extends s1); [by trans s2|done].
  - rewrite Hid2 in Htab. unfold same_tables in *. rewrite Htab.
    unfold s2, s1, resolved. destruct kind, s; simpl;
      by destruct (count _ _).
Qed.


(** *** The ids in the containers *)

Lemma count_map_insert_eq {V} (m : gmap string V) id v :
  count (map_insert id v m) id = true.
Proof.
  apply count_true. unfold map_insert.
  destruct (m !! id) eqn:E; [by rewrite E|]. by rewrite lookup_insert_eq.
Qed.

Lemma count_delete_eq {V} (m : gmap string V) id :
  count (delete id m) id = false.
Proof. apply count_false, lookup_delete_eq. Qed.

Lemma count_delete_ne {V} (m : gmap string V) id k :
  id <> k -> count (delete id m) k = count m k.
Proof. intros Hne. unfold count. by rewrite lookup_delete_ne. Qed.

Lemma count_alter {V} (f : V -> V) (m : gmap string V) id k :
  count (alter f id m) k = count m k.
Proof.
  unfold count. destruct (decide (id = k)) as [->|Hne].
  - rewrite lookup_alter_eq. by destruct (m !! k).
  - by rewrite lookup_alter_ne.
Qed.

Lemma map_insert_None {V} (m : gmap string V) k v :
  m !! k = None -> map_insert k v m = <[k := v]> m.
Proof. intros Hk. unfold map_insert. by rewrite Hk. Qed.

Lemma map_insert_Some {V} (m : gmap string V) k v k' v' :
  m !! k = None ->
  map_insert k v m !! k' = Some v' <->
  (k = k' /\ v = v') \/ (k <> k' /\ m !! k' = Some v').
Proof. intros Hk. rewrite (map_insert_None _ _ _ Hk). apply lookup_insert_Some. Qed.

Ltac counts :=
  repeat first
    [ rewrite count_map_insert_eq
    | rewrite count_delete_eq
    | rewrite count_alter
    | rewrite count_map_insert_ne by done
    | rewrite count_delete_ne by done ].

(** The invariant is about the containers and the classes only. *)
Lemma filed_as_tables cl a b :
  same_tables a b -> filed_as cl a -> filed_as cl b.
Proof.
  unfold same_tables, tables. intros Heq. destruct a, b. simpl in Heq.
  by simplify_eq.
Qed.

Lemma filed_as_mono (cl cl' : loc -> option EventClass) ra :
  (forall c k, cl c = Some k -> cl' c = Some k) ->
  filed_as cl ra -> filed_as cl' ra.
Proof.
  intros Hcl (H1 & H2 & H3 & H4 & H5 & H6 & H7).
  split_and!; try done; intros; apply Hcl; eauto.
Qed.

Lemma known_holders ra id :
  known ra id = false -> tbd_events_ ra !! id = None -> holders ra id = 0.
Proof.
  unfold holders. intros (-> & -> & -> & -> & ->)%known_false ->%count_false.
  done.
Qed.

(** No gate waits for the id any more. *)
Lemma resolved_entry id ra : tbd_events_ (resolved id ra) !! id = None.
Proof.
  unfold resolved. destruct (count _ _) eqn:E.
  - destruct ra; simpl. apply lookup_delete_eq.
  - by apply count_false.
Qed.

Lemma resolved_known id ra k : known (resolved id ra) k = known ra k.
Proof. unfold resolved. destruct (count _ _); [|done]. by destruct ra. Qed.

Lemma filed_as_resolved cl id ra :
  filed_as cl ra -> filed_as cl (resolved id ra).
Proof.
  unfold resolved. destruct (count _ _) eqn:E; [|done].
  intros (H1 & H2 & H3 & H4 & H5 & H6 & H7). destruct ra.
  unfold filed_as, holders in *. simpl in *. split_and!; try done.
  - intros k. specialize (H1 k). destruct (decide (id = k)) as [->|Hne].
    + rewrite count_delete_eq. simpl. lia.
    + by rewrite count_delete_ne.
  - intros k. destruct (decide (id = k)) as [->|Hne].
    + rewrite !lookup_delete_eq. split; by intros [? [=]].
    + by rewrite !lookup_delete_ne.
  - intros k gates [_ Hk]%lookup_delete_Some. by apply (H4 k).
Qed.

(** A gate is the first to wait for the id. *)
Lemma filed_as_wait_first cl id gate orig_id ra :
  known ra id = false -> tbd_events_ ra !! id = None ->
  filed_as cl ra ->
  filed_as cl (set_tbd_orig_ids_ (map_insert id orig_id)
                 (set_tbd_events_ (map_insert id [gate]) ra)).
Proof.
  intros Hknown Hnone (H1 & H2 & H3 & H4 & H5 & H6 & H7).
  pose proof (known_holders _ _ Hknown Hnone) as Hzero.
  assert (tbd_orig_ids_ ra !! id = None) as Horig.
  { apply eq_None_not_Some. rewrite <- H3. by rewrite Hnone; intros [? [=]]. }
  destruct ra. unfold filed_as, holders in *. simpl in *.
  split_and!; try done.
  - intros k. specialize (H1 k). destruct (decide (id = k)) as [->|Hne].
    + rewrite count_map_insert_eq.
      apply count_false in Hnone. rewrite Hnone in Hzero. simpl in *. lia.
    + by rewrite count_map_insert_ne.
  - intros k. destruct (decide (id = k)) as [->|Hne].
    + rewrite !map_insert_lookup by done. split; by eexists.
    + by rewrite !map_insert_lookup_ne.
  - intros k gates [[_ <-]|[_ Hk]]%map_insert_Some; [done| |done].
    by apply (H4 k).
Qed.

(** One more gate waits for the id. *)
Lemma filed_as_wait_more cl id gate ra :
  filed_as cl ra ->
  filed_as cl (set_tbd_events_
                 (alter (fun parents => (parents ++ [gate])%list) id) ra).
Proof.
  intros (H1 & H2 & H3 & H4 & H5 & H6 & H7).
  destruct ra. unfold filed_as, holders in *. simpl in *.
  split_and!; try done.
  - intros k. specialize (H1 k). by rewrite count_alter.
  - intros k. rewrite <- H3. destruct (decide (id = k)) as [->|Hne].
    + rewrite lookup_alter_eq. rewrite <- !not_eq_None_Some.
      by destruct (_ !! k).
    + by rewrite lookup_alter_ne.
  - intros k gates. destruct (decide (id = k)) as [->|Hne].
    + rewrite lookup_alter_eq. destruct (_ !! k); [|done].
      intros [= <-]. by intros [? ?]%app_eq_nil.
    + rewrite lookup_alter_ne by done. apply H4.
Qed.

(** The id is referred to as the id of an event of a kind. *)
Lemma filed_as_refer cl kind id c ra :
  known ra id = false -> tbd_events_ ra !! id = None ->
  cl c = Some (class_of_kind kind) ->
  filed_as cl ra -> filed_as cl (refer kind id c ra).
Proof.
  intros Hknown Hnone Hc (H1 & H2 & H3 & H4 & H5 & H6 & H7).
  pose proof (known_holders _ _ Hknown Hnone) as Hzero.
  apply known_false in Hknown as (K1 & K2 & K3 & K4 & K5).
  destruct ra. unfold filed_as, holders in *.
  destruct kind; simpl in *; (split_and!; try done).
  all: try (intros k; specialize (H1 k);
            destruct (decide (id = k)) as [->|Hne];
            [rewrite count_map_insert_eq; simpl in *; lia
            |by rewrite count_map_insert_ne]).
  all: intros [] k c'; simpl; try apply (H6 a_gate k c');
    try apply (H6 a_basic_event k c'); try apply (H6 a_house_event k c').
  all: apply count_false in K2, K4, K5.
  all: intros [[_ <-]|[_ Hk]]%map_insert_Some; try done.
  - by apply (H6 a_gate k).
  - by apply (H6 a_basic_event k).
  - by apply (H6 a_house_event k).
Qed.

(** The id is defined as the id of an event of a kind. *)
Lemma filed_as_define cl kind id c ra :
  known ra id = false -> tbd_events_ ra !! id = None ->
  cl c = Some (class_of_kind kind) ->
  filed_as cl ra -> filed_as cl (define kind id c ra).
Proof.
  intros Hknown Hnone Hc (H1 & H2 & H3 & H4 & H5 & H6 & H7).
  pose proof (known_holders _ _ Hknown Hnone) as Hzero.
  apply known_false in Hknown as (K1 & K2 & K3 & K4 & K5).
  assert (basic_events_ ra !! id = None) as Hbasic.
  { apply count_false in K3. by eapply lookup_weaken_None. }
  destruct ra. unfold filed_as, holders in *.
  destruct kind; simpl in *; (split_and!; try done).
  all: try (intros k; specialize (H1 k);
            destruct (decide (id = k)) as [->|Hne];
            [rewrite count_map_insert_eq; simpl in *; lia
            |by rewrite count_map_insert_ne]).
  all: apply count_false in K1, K3.
  - intros k c' [[_ <-]|[_ Hk]]%map_insert_Some; [done| |done].
    by apply (H5 k).
  - rewrite !map_insert_None by done. by apply insert_mono.
  - intros k c'. destruct (decide (id = k)) as [->|Hne].
    + rewrite count_map_insert_eq.
      intros [[_ <-]|[? _]]%map_insert_Some; done.
    + rewrite count_map_insert_ne by done.
      intros [[? _]|[_ Hk]]%map_insert_Some; [done| |done]. by apply H7.
  - rewrite map_insert_None by done. etrans; [done|].
    by apply insert_subseteq.
  - intros k c'. intros [[<- <-]|[_ Hk]]%map_insert_Some; [|by apply H7|done].
    apply count_false in Hbasic. by rewrite Hbasic.
Qed.

(** The id is no more referred to as the id of an event of a kind. *)
Lemma filed_as_forget cl kind id ra :
  filed_as cl ra -> filed_as cl (forget kind id ra).
Proof.
  intros (H1 & H2 & H3 & H4 & H5 & H6 & H7).
  destruct ra. unfold filed_as, holders in *.
  destruct kind; simpl in *; (split_and!; try done).
  all: try (intros k; specialize (H1 k);
            destruct (decide (id = k)) as [->|Hne];
            [rewrite count_delete_eq; simpl in *; lia
            |by rewrite count_delete_ne]).
  all: intros [] k c'; simpl; try apply (H6 a_gate k c');
    try apply (H6 a_basic_event k c'); try apply (H6 a_house_event k c').
  all: intros [_ Hk]%lookup_delete_Some.
  - by apply (H6 a_gate k).
  - by apply (H6 a_basic_event k).
  - by apply (H6 a_house_event k).
Qed.

(** An id that is referred to as of a kind is in no other container. *)
Lemma forget_known cl kind id c ra :
  filed_as cl ra -> referred kind ra !! id = Some c ->
  known (forget kind id ra) id = false /\
  tbd_events_ (forget kind id ra) !! id = None.
Proof.
  intros (H1 & _) Hc. specialize (H1 id). unfold holders in H1.
  rewrite known_false, <- count_false.
  assert (count (referred kind ra) id = true) as Hcount
    by (apply count_true; by eexists).
  destruct ra, kind; simpl in *; rewrite Hcount in H1; clear Hcount;
    rewrite ?count_delete_eq;
    repeat match goal with
           | H : context [count ?m id] |- _ => destruct (count m id)
           end;
    simpl in *; try lia; done.
Qed.

(** The id that was referred to as of a kind is defined. *)
Lemma filed_as_late cl kind id c ra :
  referred kind ra !! id = Some c ->
  filed_as cl ra -> filed_as cl (define kind id c (forget kind id ra)).
Proof.
  intros Hc Hra. destruct (forget_known _ _ _ _ _ Hra Hc) as [Hknown Hnone].
  apply filed_as_define; [done|done| |by apply filed_as_forget].
  destruct Hra as (_ & _ & _ & _ & _ & H6 & _). by apply (H6 kind id).
Qed.

(** The footprints keep the containers in order. *)
Lemma filed_filing id s s' :
  filed s -> extends s s' -> filing id s s' -> filed s'.
Proof.
  intros Hs Hext Hstep. unfold filed in *.
  apply (filed_as_mono _ (class_at s')) in Hs;
    [|intros c k; by apply class_at_extends].
  destruct Hstep as [Ht|gate orig_id Hknown Hnone Ht|gate Hknown Hsome Ht
                    |kind c Hknown Hc Hclass Ht|kind c Hknown Hc Hclass Ht
                    |kind c Hc Ht];
    apply (filed_as_tables _ _ _ Ht).
  - done.
  - by apply filed_as_wait_first.
  - by apply filed_as_wait_more.
  - apply filed_as_refer;
      [by rewrite resolved_known|apply resolved_entry|done
      |by apply filed_as_resolved].
  - apply filed_as_define;
      [by rewrite resolved_known|apply resolved_entry|done
      |by apply filed_as_resolved].
  - by apply filed_as_late.
Qed.


(** What keeps the objects and the containers keeps them in order. *)
Lemma maintains_kept {A} (m : M A) :
  keeps extends m -> keeps same_tables m -> maintains filed m.
Proof.
  intros He Ht s Hs.
  apply (filed_filing "" s); [done|apply He|apply filing_nothing, Ht].
Qed.

Lemma maintains_filing {A} id (m : M A) :
  keeps extends m ->
  (forall s, ends_with m s (fun _ s' => filing id s s')) ->
  maintains filed m.
Proof.
  intros He Hf s Hs. apply (filed_filing id s); [done|apply He|apply Hf].
Qed.

Lemma filed_get : maintains filed get.
Proof. by intros s. Qed.

Lemma filed_modify (f : RiskAnalysis -> RiskAnalysis) :
  (forall ra, extends ra (f ra)) -> (forall ra, same_tables ra (f ra)) ->
  maintains filed (modify f).
Proof.
  intros He Ht. apply maintains_kept; [by apply keeps_modify|].
  by apply tables_modify.
Qed.

Lemma filed_call ptr method :
  stable_method method -> maintains filed (call ptr method).
Proof.
  intros Hm. apply maintains_kept; [by apply builder_call|apply tables_call].
Qed.

Lemma filed_AddChild gate child : maintains filed (AddChild gate child).
Proof. apply maintains_kept; [apply builder_AddChild|apply tables_AddChild]. Qed.

Lemma filed_AddParent child gate : maintains filed (AddParent child gate).
Proof.
  apply maintains_kept; [apply builder_AddParent|apply tables_AddParent].
Qed.

Lemma filed_AttachLabelAndAttributes node element :
  maintains filed (AttachLabelAndAttributes node element).
Proof.
  apply maintains_kept;
    [apply builder_AttachLabelAndAttributes
    |apply tables_AttachLabelAndAttributes].
Qed.

Lemma filed_GetExpression e : maintains filed (GetExpression e).
Proof.
  apply maintains_kept; [apply builder_GetExpression|apply tables_GetExpression].
Qed.

Lemma filed_DefineParameter param_node :
  maintains filed (DefineParameter param_node).
Proof.
  apply maintains_kept;
    [apply builder_DefineParameter|apply tables_DefineParameter].
Qed.

Lemma filed_DefineCcfFactor ext factor_node ccf_group :
  maintains filed (DefineCcfFactor ext factor_node ccf_group).
Proof.
  apply maintains_kept;
    [apply builder_DefineCcfFactor|apply tables_DefineCcfFactor].
Qed.

Create HintDb filed discriminated.

#[local] Hint Resolve maintains_ret maintains_throw maintains_bind
  maintains_for_each maintains_catch filed_get filed_modify filed_call
  filed_AddChild filed_AddParent filed_AttachLabelAndAttributes
  filed_GetExpression filed_DefineParameter filed_DefineCcfFactor : filed.
#[local] Hint Resolve stable_Gate_AddChild stable_Event_AddParent
  stable_Gate_type stable_Gate_vote_number stable_Event_set_element
  stable_BasicEvent_expression stable_HouseEvent_state : filed.
#[local] Hint Resolve extends_set_prob_requested_ extends_alter_fault_tree
  extends_insert_fault_tree extends_alter_ccf_group extends_insert_ccf_group
  : filed.
#[local] Hint Resolve FaultTree_AddGate_name FaultTree_set_element_name
  CcfGroup_set_element_name CcfGroup_AddMember_name
  CcfGroup_AddDistribution_name CcfGroup_AddFactor_name : filed.
#[local] Hint Extern 0 (maintains _ _) => progress (cbv beta zeta) : filed.
#[local] Hint Extern 2 (maintains _ (match ?x with _ => _ end)) =>
  destruct x : filed.
#[local] Hint Extern 1 (same_tables ?ra _) =>
  destruct ra; reflexivity : filed.

Ltac filed := cbv beta zeta; auto 60 with filed.

(** *** The arguments of a formula *)

Lemma ProcessFormulaBasicEvent_filing event gate id orig_id s :
  ends_with (ProcessFormulaBasicEvent event gate id orig_id) s (fun _ s' =>
    filing id s s').
Proof.
  unfold ProcessFormulaBasicEvent. apply ends_with_bind, ends_with_get.
  destruct (count (gates_ s) id) eqn:E1;
    [by apply ends_with_throw, filing_nothing|].
  destruct (count (tbd_gates_ s) id) eqn:E2;
    [by apply ends_with_throw, filing_nothing|].
  simpl.
  destruct (count (tbd_house_events_ s) id) eqn:E3;
    [by apply ends_with_throw, filing_nothing|].
  destruct (count (primary_events_ s) id) eqn:E4.
  { case_bool_decide;
      [by apply ends_with_ret, filing_nothing
      |by apply ends_with_throw, filing_nothing]. }
  destruct (count (tbd_basic_events_ s) id) eqn:E5;
    [by apply ends_with_ret, filing_nothing|].
  apply (new_reference a_basic_event). by apply known_false.
Qed.

Lemma ProcessFormulaHouseEvent_filing event gate id orig_id s :
  ends_with (ProcessFormulaHouseEvent event gate id orig_id) s (fun _ s' =>
    filing id s s').
Proof.
  unfold ProcessFormulaHouseEvent. apply ends_with_bind, ends_with_get.
  destruct (count (gates_ s) id) eqn:E1;
    [by apply ends_with_throw, filing_nothing|].
  destruct (count (tbd_gates_ s) id) eqn:E2;
    [by apply ends_with_throw, filing_nothing|].
  simpl.
  destruct (count (tbd_basic_events_ s) id) eqn:E3;
    [by apply ends_with_throw, filing_nothing|].
  destruct (count (primary_events_ s) id) eqn:E4.
  { case_bool_decide;
      [by apply ends_with_ret, filing_nothing
      |by apply ends_with_throw, filing_nothing]. }
  destruct (count (tbd_house_events_ s) id) eqn:E5;
    [by apply ends_with_ret, filing_nothing|].
  apply (new_reference a_house_event). by apply known_false.
Qed.

Lemma ProcessFormulaGate_filing event gate id orig_id s :
  ends_with (ProcessFormulaGate event gate id orig_id) s (fun _ s' =>
    filing id s s').
Proof.
  unfold ProcessFormulaGate. apply ends_with_bind, ends_with_get.
  destruct (count (primary_events_ s) id) eqn:E1;
    [by apply ends_with_throw, filing_nothing|].
  destruct (count (tbd_basic_events_ s) id) eqn:E2;
    [by apply ends_with_throw, filing_nothing|].
  destruct (count (tbd_house_events_ s) id) eqn:E3;
    [by apply ends_with_throw, filing_nothing|].
  simpl.
  destruct (count (gates_ s) id) eqn:E4;
    [by apply ends_with_ret, filing_nothing|].
  destruct (count (tbd_gates_ s) id) eqn:E5;
    [by apply ends_with_ret, filing_nothing|].
  apply (new_reference a_gate). by apply known_false.
Qed.

Lemma filed_ProcessFormulaEvent gate id orig_id :
  maintains filed (ProcessFormulaEvent gate id orig_id).
Proof.
  apply (maintains_filing id); [apply builder_ProcessFormulaEvent|].
  apply ProcessFormulaEvent_filing.
Qed.

Lemma filed_ProcessFormulaBasicEvent event gate id orig_id :
  maintains filed (ProcessFormulaBasicEvent event gate id orig_id).
Proof.
  apply (maintains_filing id); [apply builder_ProcessFormulaBasicEvent|].
  apply ProcessFormulaBasicEvent_filing.
Qed.

Lemma filed_ProcessFormulaHouseEvent event gate id orig_id :
  maintains filed (ProcessFormulaHouseEvent event gate id orig_id).
Proof.
  apply (maintains_filing id); [apply builder_ProcessFormulaHouseEvent|].
  apply ProcessFormulaHouseEvent_filing.
Qed.

Lemma filed_ProcessFormulaGate event gate id orig_id :
  maintains filed (ProcessFormulaGate event gate id orig_id).
Proof.
  apply (maintains_filing id); [apply builder_ProcessFormulaGate|].
  apply ProcessFormulaGate_filing.
Qed.

#[local] Hint Resolve filed_ProcessFormulaEvent filed_ProcessFormulaBasicEvent
  filed_ProcessFormulaHouseEvent filed_ProcessFormulaGate : filed.

Lemma filed_ProcessFormula_loop children_id gate events :
  maintains filed (ProcessFormula_loop children_id gate events).
Proof.
  revert children_id.
  induction events as [|event events IH]; intros children_id; simpl; filed.
Qed.

Lemma filed_ProcessFormula gate events :
  maintains filed (ProcessFormula gate events).
Proof. apply filed_ProcessFormula_loop. Qed.

#[local] Hint Resolve filed_ProcessFormula : filed.

(** *** The definitions *)

Lemma GetBasicEvent_filing event_node s :
  ends_with (GetBasicEvent event_node) s (fun _ s' =>
    filing (to_lower (trim (be_name event_node))) s s').
Proof.
  unfold GetBasicEvent. set (orig_id := trim _). set (id := to_lower _).
  apply ends_with_bind, ends_with_get.
  destruct (count (gates_ s) id) eqn:E1;
    [by apply ends_with_throw, filing_nothing|].
  destruct (count (tbd_gates_ s) id) eqn:E2;
    [by apply ends_with_throw, filing_nothing|].
  simpl.
  destruct (count (primary_events_ s) id) eqn:E3;
    [by apply ends_with_throw, filing_nothing|].
  destruct (count (tbd_house_events_ s) id) eqn:E4;
    [by apply ends_with_throw, filing_nothing|].
  destruct (count (tbd_basic_events_ s) id) eqn:E5.
  - apply count_true in E5 as [c Hc]. rewrite (find_lookup _ _ _ Hc).
    apply ends_with_bind, ends_with_modify.
    apply ends_with_bind, ends_with_modify.
    apply ends_with_bind, ends_with_modify, ends_with_ret.
    apply (filing_late_definition _ _ _ a_basic_event c); [done|].
    unfold same_tables. by destruct s.
  - apply ends_with_bind, ends_with_new_event.
    set (object := Event_new class_BasicEvent id orig_id).
    destruct (new_event_class object s) as (Hclass & Hid & Hfresh).
    set (c := fresh (dom (events s))) in *.
    change (set_events _ s) with (new_event object s).2.
    set (s1 := (new_event _ s).2) in *.
    apply ends_with_bind, ends_with_modify.
    apply ends_with_bind, ends_with_modify.
    set (s2 := set_basic_events_ _ _).
    assert (extends s1 s2) as H12.
    { unfold s2. etrans; [apply extends_set_primary_events_|].
      apply extends_set_basic_events_. }
    assert (id_ (deref s2 c) = id) as Hid2.
    { transitivity (id_ (deref s1 c)); [|exact Hid].
      unfold s2, deref. by destruct s1. }
    destruct (UpdateIfLateEvent_spec c s2) as (b & s' & Hrun & Htab & Hext).
    apply (ends_with_bind_eq _ _ _ _ _ _ Hrun), ends_with_ret.
    apply (filing_definition _ _ _ a_basic_event c);
      [by apply known_false|done| |].
    + apply (class_at_extends s1); [by trans s2|done].
    + rewrite Hid2 in Htab. unfold same_tables in *. rewrite Htab.
      unfold s2, s1, resolved. destruct s; simpl.
      match goal with
      | |- context [if ?b then _ else _] => destruct b
      end; reflexivity.
Qed.

Lemma filed_GetBasicEvent event_node :
  maintains filed (GetBasicEvent event_node).
Proof.
  apply (maintains_filing (to_lower (trim (be_name event_node))));
    [apply builder_GetBasicEvent|]. apply GetBasicEvent_filing.
Qed.

#[local] Hint Resolve filed_GetBasicEvent : filed.

Lemma filed_DefineBasicEvent event_node :
  maintains filed (DefineBasicEvent event_node).
Proof. unfold DefineBasicEvent. filed. Qed.

Lemma filed_ProcessCcfMembers members_node ccf_group :
  maintains filed (ProcessCcfMembers members_node ccf_group).
Proof. unfold ProcessCcfMembers. filed. Qed.

Lemma ends_with_maintains I {A} (m : M A) s :
  maintains I m -> I s -> ends_with m s (fun _ s' => I s').
Proof. intros Hm Hs. by apply Hm. Qed.

Lemma same_tables_new_event_resolved e id s :
  same_tables (resolved id s) (resolved id (new_event e s).2).
Proof.
  unfold same_tables, resolved. destruct s; simpl.
  match goal with
  | |- context [if ?b then _ else _] => destruct b
  end; reflexivity.
Qed.

Lemma same_tables_set_gates_ f a b :
  same_tables a b -> same_tables (set_gates_ f a) (set_gates_ f b).
Proof.
  unfold same_tables, tables. destruct a, b; simpl. intros Heq.
  by simplify_eq.
Qed.

Lemma filed_DefineHouseEvent event_node :
  maintains filed (DefineHouseEvent event_node).
Proof.
  apply maintains_ends_with. intros s Hs. unfold DefineHouseEvent.
  set (orig_id := trim _). set (id := to_lower _).
  apply ends_with_bind, ends_with_get.
  destruct (count (gates_ s) id) eqn:E1; [by apply ends_with_throw|].
  destruct (count (tbd_gates_ s) id) eqn:E2; [by apply ends_with_throw|].
  cbn [orb].
  destruct (count (primary_events_ s) id) eqn:E3; [by apply ends_with_throw|].
  destruct (count (tbd_basic_events_ s) id) eqn:E4;
    [by apply ends_with_throw|].
  destruct (he_constant event_node) as [val|]; [|by apply ends_with_throw].
  cbv zeta. apply ends_with_bind.
  destruct (count (tbd_house_events_ s) id) eqn:E5.
  - apply count_true in E5 as [c Hc]. rewrite (find_lookup _ _ _ Hc).
    apply ends_with_bind. unfold call. apply ends_with_modify.
    apply ends_with_bind, ends_with_modify.
    apply ends_with_bind, ends_with_modify, ends_with_ret.
    apply (ends_with_maintains filed); [filed|].
    apply (filed_filing id s); [done| |].
    + etrans; [apply extends_call, stable_HouseEvent_state|].
      etrans; [apply extends_set_primary_events_|].
      apply extends_set_tbd_house_events_.
    + apply (filing_late_definition _ _ _ a_house_event c); [done|].
      unfold same_tables. by destruct s.
  - apply ends_with_bind, ends_with_new_event.
    set (object := HouseEvent_state _ _).
    destruct (new_event_class object s) as (Hclass & Hid & Hfresh).
    set (c := fresh (dom (events s))) in *.
    change (set_events _ s) with (new_event object s).2.
    set (s1 := (new_event _ s).2) in *.
    apply ends_with_bind, ends_with_modify.
    set (s2 := set_primary_events_ _ _).
    assert (extends s1 s2) as H12 by apply extends_set_primary_events_.
    assert (id_ (deref s2 c) = id) as Hid2.
    { transitivity (id_ (deref s1 c)); [|exact Hid].
      unfold s2, deref. by destruct s1. }
    destruct (UpdateIfLateEvent_spec c s2) as (b & s' & Hrun & Htab & Hext).
    apply (ends_with_bind_eq _ _ _ _ _ _ Hrun), ends_with_ret.
    apply (ends_with_maintains filed); [filed|].
    apply (filed_filing id s); [done| |].
    + etrans; [apply extends_new_event|]. fold s1. by trans s2.
    + apply (filing_definition _ _ _ a_house_event c);
        [by apply known_false|done| |].
      * apply (class_at_extends s1); [by trans s2|done].
      * rewrite Hid2 in Htab. unfold same_tables in *. rewrite Htab.
        unfold s2, s1, resolved. destruct s; simpl.
        match goal with
        | |- context [if ?b then _ else _] => destruct b
        end; reflexivity.
Qed.

Lemma filed_DefineGate ext gate_node ft :
  maintains filed (DefineGate ext gate_node ft).
Proof.
  apply maintains_ends_with. intros s Hs. unfold DefineGate.
  set (orig_id := trim _). set (id := to_lower _).
  apply ends_with_bind, ends_with_get.
  destruct (count (gates_ s) id) eqn:E1; [by apply ends_with_throw|].
  destruct (count (primary_events_ s) id) eqn:E2;
    [by apply ends_with_throw|].
  destruct (count (tbd_basic_events_ s) id) eqn:E3;
    [by apply ends_with_throw|].
  destruct (count (tbd_house_events_ s) id) eqn:E4;
    [by apply ends_with_throw|].
  cbn [orb]. cbv zeta.
  destruct (negb _); [by apply ends_with_throw|].
  apply ends_with_bind.
  destruct (count (tbd_gates_ s) id) eqn:E5.
  - apply count_true in E5 as [c Hc]. rewrite (find_lookup _ _ _ Hc).
    apply ends_with_bind, ends_with_modify, ends_with_ret.
    apply ends_with_bind, ends_with_modify.
    apply (ends_with_maintains filed); [unfold Gate_vote_number_set; filed|].
    apply (filed_filing id s); [done| |].
    + etrans; [apply extends_set_tbd_gates_|apply extends_set_gates_].
    + apply (filing_late_definition _ _ _ a_gate c); [done|].
      unfold same_tables. by destruct s.
  - apply ends_with_bind, ends_with_new_event.
    set (object := Event_new class_Gate id orig_id).
    destruct (new_event_class object s) as (Hclass & Hid & Hfresh).
    set (c := fresh (dom (events s))) in *.
    change (set_events _ s) with (new_event object s).2.
    set (s1 := (new_event _ s).2) in *.
    destruct (UpdateIfLateEvent_spec c s1) as (b & s2 & Hrun & Htab & Hext).
    apply (ends_with_bind_eq _ _ _ _ _ _ Hrun), ends_with_ret.
    apply ends_with_bind, ends_with_modify.
    apply (ends_with_maintains filed); [unfold Gate_vote_number_set; filed|].
    apply (filed_filing id s); [done| |].
    + etrans; [apply extends_new_event|]. fold s1.
      etrans; [done|apply extends_set_gates_].
    + apply (filing_definition _ _ _ a_gate c);
        [by apply known_false|done| |].
      * apply (class_at_extends s1); [|done].
        etrans; [done|apply extends_set_gates_].
      * simpl. apply same_tables_set_gates_.
        rewrite Hid in Htab. simpl in Htab. etrans; [|exact Htab].
        apply same_tables_new_event_resolved.
Qed.

#[local] Hint Resolve filed_DefineGate filed_DefineBasicEvent
  filed_DefineHouseEvent filed_ProcessCcfMembers : filed.

Lemma filed_DefineCcfGroup ext ccf_node :
  maintains filed (DefineCcfGroup ext ccf_node).
Proof. unfold DefineCcfGroup, ProcessCcfFactors. filed. Qed.

#[local] Hint Resolve filed_DefineCcfGroup : filed.

Lemma filed_DefineFaultTree ext ft_node :
  maintains filed (DefineFaultTree ext ft_node).
Proof. unfold DefineFaultTree. filed. Qed.

Lemma filed_ProcessModelData model_data :
  maintains filed (ProcessModelData model_data).
Proof. unfold ProcessModelData. filed. Qed.

#[local] Hint Resolve filed_DefineFaultTree filed_ProcessModelData : filed.

Lemma filed_ProcessInputFile ext xml_file :
  maintains filed (ProcessInputFile ext xml_file).
Proof. unfold ProcessInputFile. filed. Qed.

#[local] Hint Resolve filed_ProcessInputFile : filed.

Lemma filed_set_exprs f : maintains filed (modify (set_exprs f)).
Proof. intros s Hs. by destruct s. Qed.

#[local] Hint Resolve filed_set_exprs : filed.

Lemma filed_ProcessInputFiles_read ext xml_files :
  maintains filed (ProcessInputFiles_read ext xml_files).
Proof. unfold ProcessInputFiles_read. filed. Qed.

Lemma filed_RiskAnalysis_new settings : filed (RiskAnalysis_new settings).
Proof.
  unfold filed, filed_as, holders. simpl. split_and!; try done.
  - intros id. assert (forall V, count (V := V) ∅ id = false) as Hcount.
    { intros V. by apply count_false. }
    rewrite !Hcount. simpl. lia.
  - intros id. by rewrite !lookup_empty.
  - by intros [].
Qed.


(** *** The state after the reading *)

Lemma read_filed ext settings xml_files :
  filed (ProcessInputFiles_read ext xml_files (RiskAnalysis_new settings)).2.
Proof. apply filed_ProcessInputFiles_read, filed_RiskAnalysis_new. Qed.

Lemma read_well_formed ext settings xml_files :
  well_formed
    (ProcessInputFiles_read ext xml_files (RiskAnalysis_new settings)).2.
Proof. apply ProcessInputFiles_read_inv, well_formed_new. Qed.

Lemma object_of_intro ra k id c :
  class_at ra c = Some k -> live_as ra id c -> object_of ra k id c.
Proof.
  unfold class_at. intros Hc (o & Ho & Hid). rewrite Ho in Hc.
  exists o. by simplify_eq/=.
Qed.

(** X14.  Whatever files are read into a new analysis, and whether the
    reading returns or throws, an id is in one at most of the containers
    of the defined gates, the gates referred to, the primary events, the
    basic events referred to, the house events referred to and the
    references of unknown kind. *)
Theorem ids_in_one_container (ext : External) (settings : Settings)
    (xml_files : list XmlFile) (id : string) :
  holders (ProcessInputFiles_read ext xml_files (RiskAnalysis_new settings)).2
          id <= 1.
Proof. by destruct (read_filed ext settings xml_files) as [H _]. Qed.

(** X15.  Whatever files are read into a new analysis, every container
    binds an id to an object of this id and of the class of the container:
    gates among the defined gates and the gates referred to, basic events
    and house events among those referred to; the basic events are exactly
    the primary events of class [BasicEvent], and the other primary events
    are the house events. *)
Theorem containers_by_class (ext : External) (settings : Settings)
    (xml_files : list XmlFile) :
  let ra :=
    (ProcessInputFiles_read ext xml_files (RiskAnalysis_new settings)).2 in
  forall id c,
    (gates_ ra !! id = Some c -> object_of ra class_Gate id c) /\
    (tbd_gates_ ra !! id = Some c -> object_of ra class_Gate id c) /\
    (tbd_basic_events_ ra !! id = Some c ->
     object_of ra class_BasicEvent id c) /\
    (tbd_house_events_ ra !! id = Some c ->
     object_of ra class_HouseEvent id c) /\
    (basic_events_ ra !! id = Some c <->
     primary_events_ ra !! id = Some c /\
     object_of ra class_BasicEvent id c) /\
    (primary_events_ ra !! id = Some c /\ basic_events_ ra !! id = None <->
     primary_events_ ra !! id = Some c /\
     object_of ra class_HouseEvent id c).
Proof.
  intros ra id c.
  destruct (read_filed ext settings xml_files)
    as (_ & H2 & _ & _ & H5 & H6 & H7).
  destruct (read_well_formed ext settings xml_files)
    as [(K1 & K2 & K3 & K4 & K5 & _) _].
  fold ra in H2, H5, H6, H7, K1, K2, K3, K4, K5.
  assert (forall c', primary_events_ ra !! id = Some c' ->
            if count (basic_events_ ra) id
            then object_of ra class_BasicEvent id c'
            else object_of ra class_HouseEvent id c') as Hprimary.
  { intros c' Hc'. specialize (H7 id c' Hc').
    destruct (count _ _); apply object_of_intro; auto. }
  split_and!.
  - intros Hc. apply object_of_intro; [by apply (H5 id)|by apply K1].
  - intros Hc. apply object_of_intro; [by apply (H6 a_gate id)|by apply K2].
  - intros Hc.
    apply object_of_intro; [by apply (H6 a_basic_event id)|by apply K4].
  - intros Hc.
    apply object_of_intro; [by apply (H6 a_house_event id)|by apply K5].
  - split.
    + intros Hc. pose proof (lookup_weaken _ _ _ _ Hc H2) as Hp.
      split; [done|]. specialize (Hprimary c Hp).
      assert (count (basic_events_ ra) id = true) as Hcount
        by (apply count_true; by eexists).
      by rewrite Hcount in Hprimary.
    + intros [Hp Hobject]. specialize (Hprimary c Hp).
      destruct (count (basic_events_ ra) id) eqn:Hcount.
      * apply count_true in Hcount as [c' Hc'].
        pose proof (lookup_weaken _ _ _ _ Hc' H2) as Hp'. congruence.
      * destruct Hobject as (o & Ho & Hclass & _).
        destruct Hprimary as (o' & Ho' & Hclass' & _). congruence.
  - split.
    + intros [Hp Hnone]. split; [done|]. specialize (Hprimary c Hp).
      apply count_false in Hnone. by rewrite Hnone in Hprimary.
    + intros [Hp Hobject]. split; [done|]. specialize (Hprimary c Hp).
      destruct (count (basic_events_ ra) id) eqn:Hcount.
      * destruct Hobject as (o & Ho & Hclass & _).
        destruct Hprimary as (o' & Ho' & Hclass' & _). congruence.
      * by apply count_false.
Qed.

(** X16.  Whatever files are read into a new analysis, the references of
    unknown kind are the ids with a recorded spelling; at least one gate
    waits for such a reference, every gate that waits is a defined gate,
    and the id is the id of no event of a known kind. *)
Theorem references_of_unknown_kind (ext : External) (settings : Settings)
    (xml_files : list XmlFile) :
  let ra :=
    (ProcessInputFiles_read ext xml_files (RiskAnalysis_new settings)).2 in
  forall id,
    (is_Some (tbd_events_ ra !! id) <-> is_Some (tbd_orig_ids_ ra !! id)) /\
    forall gates,
      tbd_events_ ra !! id = Some gates ->
      gates <> [] /\ Forall (defined_gate ra) gates /\ known ra id = false.
Proof.
  intros ra id.
  destruct (read_filed ext settings xml_files) as (_ & _ & H3 & H4 & _).
  destruct (read_well_formed ext settings xml_files)
    as [(_ & _ & _ & _ & _ & _ & _ & _ & K9) Hpending].
  fold ra in H3, H4, K9, Hpending.
  split; [apply H3|]. intros gates Hgates. split_and!.
  - by apply (H4 id).
  - by apply (K9 id).
  - by destruct (Hpending id gates Hgates I).
Qed.


(** *** The members of a CCF group *)

Lemma resolved_events id s s' :
  same_tables (resolved id s) s' ->
  primary_events_ s' = primary_events_ s /\ basic_events_ s' = basic_events_ s.
Proof.
  unfold same_tables, tables, resolved.
  destruct (count _ _); destruct s, s'; simpl; intros Heq; by simplify_eq.
Qed.

(** What [GetBasicEvent] has done when it returns. *)
Lemma GetBasicEvent_defines event_node ra :
  basic_events_ ra ⊆ primary_events_ ra ->
  ends_with (GetBasicEvent event_node) ra (fun r ra' =>
    forall event, r = Ok event ->
      primary_events_ ra !! to_lower (trim (be_name event_node)) = None /\
      primary_events_ ra' !! to_lower (trim (be_name event_node)) = Some event /\
      basic_events_ ra' !! to_lower (trim (be_name event_node)) = Some event /\
      basic_events_ ra' ⊆ primary_events_ ra').
Proof.
  intros Hsub.
  unfold GetBasicEvent. set (orig_id := trim _). set (id := to_lower _).
  apply ends_with_bind, ends_with_get.
  destruct (_ || _); [by apply ends_with_throw|].
  destruct (count (primary_events_ ra) id) eqn:E3; [by apply ends_with_throw|].
  apply count_false in E3.
  assert (basic_events_ ra !! id = None) as E4
    by (by eapply lookup_weaken_None).
  destruct (count (tbd_house_events_ ra) id); [by apply ends_with_throw|].
  destruct (count (tbd_basic_events_ ra) id).
  - apply ends_with_bind, ends_with_modify.
    apply ends_with_bind, ends_with_modify.
    apply ends_with_bind, ends_with_modify, ends_with_ret.
    intros event [= <-]. split; [done|]. destruct ra; simpl in *.
    split_and!; [by apply map_insert_lookup..|].
    rewrite !map_insert_None by done. by apply insert_mono.
  - apply ends_with_bind, ends_with_new_event.
    apply ends_with_bind, ends_with_modify.
    apply ends_with_bind, ends_with_modify.
    set (c := fresh (dom (events ra))). set (s3 := set_basic_events_ _ _).
    destruct (UpdateIfLateEvent_spec c s3) as (b & s' & Hrun & Htab & Hext).
    apply (ends_with_bind_eq _ _ _ _ _ _ Hrun), ends_with_ret.
    apply resolved_events in Htab as [-> ->].
    intros event [= <-]. split; [done|]. unfold s3. destruct ra; simpl in *.
    split_and!; [by apply map_insert_lookup..|].
    rewrite !map_insert_None by done. by apply insert_mono.
Qed.

(** X17.  When [ProcessCcfMembers] returns, in a state whose basic events
    are primary events, no two members have the same id, no member was a
    primary event before, and every member is now one object that is both a
    primary event and a basic event. *)
Theorem ProcessCcfMembers_defines (members_node : list BasicEventNode)
    (ccf_group : string) (ra ra' : RiskAnalysis) :
  basic_events_ ra ⊆ primary_events_ ra ->
  ProcessCcfMembers members_node ccf_group ra = (Ok tt, ra') ->
  NoDup (map member_id members_node) /\
  forall node, node ∈ members_node ->
    primary_events_ ra !! member_id node = None /\
    exists event,
      primary_events_ ra' !! member_id node = Some event /\
      basic_events_ ra' !! member_id node = Some event.
Proof.
  unfold member_id.
  revert ra. induction members_node as [|node members IH]; intros ra Hsub.
  { intros _. split; [constructor|]. by intros node ?%elem_of_nil. }
  unfold ProcessCcfMembers. simpl.
  intros ([] & ra1 & Hnode & Hrest)%bind_Ok.
  apply bind_Ok in Hnode as (event & ra0 & Hget & [= <-]).
  pose proof (GetBasicEvent_defines node ra Hsub) as Hdef.
  unfold ends_with in Hdef. rewrite Hget in Hdef.
  destruct (Hdef event eq_refl) as (Hnew & Hp & Hb & Hsub0). clear Hdef.
  set (ra1 := set_ccf_groups_ _ ra0) in *.
  assert (primary_events_ ra1 = primary_events_ ra0) as Hp1
    by (by destruct ra0).
  assert (basic_events_ ra1 = basic_events_ ra0) as Hb1
    by (by destruct ra0).
  assert (basic_events_ ra1 ⊆ primary_events_ ra1) as Hsub1
    by (by rewrite Hp1, Hb1).
  destruct (IH ra1 Hsub1 Hrest) as [Hdup Hall].
  pose proof (builder_ProcessCcfMembers members ccf_group ra1) as Hext.
  unfold ProcessCcfMembers in Hext. rewrite Hrest in Hext.
  destruct Hext as (_ & _ & Hpe & Hbe & _). simpl in *.
  pose proof (builder_GetBasicEvent node ra) as Hext0.
  rewrite Hget in Hext0. destruct Hext0 as (_ & _ & Hp0 & _). simpl in *.
  split.
  - constructor; [|done]. intros Hin.
    apply list_elem_of_fmap in Hin as (node' & Heq & Hin).
    destruct (Hall node' Hin) as [Hnone _].
    rewrite <- Heq, Hp1, Hp in Hnone. done.
  - intros node' [->|Hin]%elem_of_cons.
    + split; [done|]. exists event. split.
      * eapply lookup_weaken; [|exact Hpe]. by rewrite Hp1.
      * eapply lookup_weaken; [|exact Hbe]. by rewrite Hb1.
    + destruct (Hall node' Hin) as [Hnone Hsome]. split; [|done].
      rewrite Hp1 in Hnone. by eapply lookup_weaken_None.
Qed.

Lemma ProcessCcfMembers_defines_witness :
  NoDup (map member_id [Samples.pump_basic_event; valve_basic_event]) /\
  forall node, node ∈ [Samples.pump_basic_event; valve_basic_event] ->
    primary_events_ (RiskAnalysis_new Samples.settings) !! member_id node
    = None /\
    exists event,
      primary_events_
        (ProcessCcfMembers [Samples.pump_basic_event; valve_basic_event]
           "pumps" (RiskAnalysis_new Samples.settings)).2 !! member_id node
      = Some event /\
      basic_events_
        (ProcessCcfMembers [Samples.pump_basic_event; valve_basic_event]
           "pumps" (RiskAnalysis_new Samples.settings)).2 !! member_id node
      = Some event.
Proof.
  apply (ProcessCcfMembers_defines
           [Samples.pump_basic_event; valve_basic_event] "pumps"
           (RiskAnalysis_new Samples.settings)).
  - reflexivity.
  - vm_compute. reflexivity.
Defined.

End Containers.

(** ** The first layer of validation, when the model has no defect *)
Section Alarms.
Import Text scram.

Lemma is_empty_true {V} (m : gmap string V) :
  (forall k, m !! k = None) -> is_empty m = true.
Proof.
  intros Hm. unfold is_empty. apply bool_decide_eq_true. by apply map_empty.
Qed.

(** X18.  No false alarm: in a state in which every reference of unknown
    kind has its recorded spelling, a model without structural defect - no
    undefined gate, no gate with a diagnostic and, when probabilities are
    requested, no event and no parameter without definition - passes the
    first layer: [CheckFirstLayer] is what [ValidateExpressions] is. *)
Theorem CheckFirstLayer_no_false_alarm (ext : External) (ra : RiskAnalysis) :
  (forall id, is_Some (tbd_events_ ra !! id) ->
              is_Some (tbd_orig_ids_ ra !! id)) ->
  (forall d, ~ Spec.defect ra d) ->
  CheckFirstLayer ext ra = ValidateExpressions ext ra.
Proof.
  intros Hkeys Hnone. unfold CheckFirstLayer. rewrite error_messages_Ok.
  assert (is_empty (tbd_gates_ ra) = true) as Hgates.
  { apply is_empty_true. intros id.
    destruct (tbd_gates_ ra !! id) as [gate|] eqn:E; [|done].
    destruct (Hnone _ (Spec.undefined_gate ra id gate E)). }
  assert (bad_gates_report ra = "") as Hbad.
  { unfold bad_gates_report.
    apply (foldl_pair_empty (fun _ second => diagnostic ra second)).
    intros id gate Hin%elem_of_map_to_list.
    destruct (decide (diagnostic ra gate = "")) as [|Hne]; [done|].
    destruct (Hnone _ (Spec.arity_violation ra id gate _ Hin
                         (CheckGate_Ok ra gate) Hne)). }
  unfold undefined_gates_report. rewrite Hgates, Hbad. simpl.
  destruct (prob_requested_ ra) eqn:Hprob; [|done].
  assert (is_empty (tbd_house_events_ ra) = true) as Hhouse.
  { apply is_empty_true. intros id.
    destruct (tbd_house_events_ ra !! id) as [event|] eqn:E; [|done].
    destruct (Hnone _ (Spec.missing_house_event ra id event Hprob E)). }
  assert (is_empty (tbd_basic_events_ ra) = true) as Hbasic.
  { apply is_empty_true. intros id.
    destruct (tbd_basic_events_ ra !! id) as [event|] eqn:E; [|done].
    destruct (Hnone _ (Spec.missing_basic_event ra id event Hprob E)). }
  assert (is_empty (tbd_events_ ra) = true) as Hevents.
  { apply is_empty_true. intros id.
    destruct (tbd_events_ ra !! id) as [gates|] eqn:E; [|done].
    destruct (Hkeys id) as [orig_id Horig]; [by eexists|].
    destruct (Hnone _ (Spec.missing_event ra id gates orig_id Hprob E Horig)). }
  assert (is_empty (tbd_parameters_ ra) = true) as Hparameters.
  { apply is_empty_true. intros name.
    destruct (tbd_parameters_ ra !! name) as [parameter|] eqn:E; [|done].
    destruct (Hnone _ (Spec.missing_parameter ra name parameter Hprob E)). }
  unfold CheckMissingEvents, CheckMissingParameters.
  by rewrite Hhouse, Hbasic, Hevents, Hparameters.
Qed.

Lemma CheckFirstLayer_no_false_alarm_witness :
  CheckFirstLayer Samples.ext Samples.gate_top_state
  = ValidateExpressions Samples.ext Samples.gate_top_state.
Proof.
  apply (CheckFirstLayer_no_false_alarm Samples.ext Samples.gate_top_state).
  - intros id.
    assert (tbd_events_ Samples.gate_top_state = ∅) as ->
      by (vm_compute; reflexivity).
    rewrite lookup_empty. by intros [? ?].
  - assert (prob_requested_ Samples.gate_top_state = false) as Hprob
      by (vm_compute; reflexivity).
    intros d [id gate Hgate|id gate diagnostic Hgate Hcheck Hd|id event H _
             |id event H _|id gates orig_id H _ _|name parameter H _];
      try congruence.
    + assert (tbd_gates_ Samples.gate_top_state = ∅) as Hnone
        by (vm_compute; reflexivity).
      rewrite Hnone, lookup_empty in Hgate. discriminate.
    + assert (gates_ Samples.gate_top_state = {[ "top" := 1%positive ]})
        as Hone by (vm_compute; reflexivity).
      rewrite Hone in Hgate.
      apply lookup_singleton_Some in Hgate as [_ <-].
      vm_compute in Hcheck. injection Hcheck as <-. by destruct Hd.
Defined.

End Alarms.

(** ** The validation of the probabilities *)
Section Probabilities.
Import Text scram.

Lemma fold_checked {V} (check : V -> Result unit)
    (text : V -> string -> string) (l : list (string * V)) (init : string) :
  (forall k v e, (k, v) ∈ l -> check v = Throw e ->
                 exists err, e = ValidationError err) ->
  foldl (fun msg '(_, second) =>
           result_bind msg (fun msg =>
           match check second with
           | Throw (ValidationError err) => Ok (msg +:+ text second err)
           | Throw err => Throw err
           | Ok _ => Ok msg
           end))
        (Ok init) l
  = Ok (foldl (fun msg '(_, v) => msg +:+ line_of check text v) init l).
Proof.
  revert init. induction l as [|[k v] l IH]; intros init Hl; [done|].
  simpl. unfold line_of at 2.
  destruct (check v) as [[]|e] eqn:E.
  - rewrite app_nil_r. apply IH. intros k' v' e' Hin. apply (Hl k').
    by right.
  - destruct (Hl k v e) as [err ->]; [left|done|].
    apply IH. intros k' v' e' Hin. apply (Hl k'). by right.
Qed.

Lemma mentions_nonempty (msg s : string) : mentions msg s -> s <> "" -> msg <> "".
Proof.
  intros (pre & post & ->) Hs. rewrite !app_eq_empty. tauto.
Qed.

(** X19.  When probabilities are requested and the parameters and the
    expressions pass their validation, [ValidateExpressions] checks every
    CCF group and every basic event before it decides: it returns when
    none of these validations throws, and otherwise throws one
    [ValidationError] that begins with ["Invalid probabilities detected:"]
    and has the line of every CCF group and every basic event whose
    validation has thrown a [ValidationError]. *)
Theorem ValidateExpressions_reports_every_probability (ext : External)
    (ra : RiskAnalysis) :
  prob_requested_ ra = true ->
  expressions_valid ext ra ->
  probabilities_checked ext ra ->
  ((forall d, ~ invalid_probability ext ra d) ->
   ValidateExpressions ext ra = Ok tt) /\
  (forall d, invalid_probability ext ra d ->
   exists msg,
     ValidateExpressions ext ra
     = Throw (ValidationError
                ("Invalid probabilities detected:" +:+ nl +:+ msg)) /\
     forall d', invalid_probability ext ra d' -> mentions msg d').
Proof.
  intros Hprob [Hparameters Hexpressions] [Hccf Hbasic].
  unfold ValidateExpressions. rewrite Hparameters, Hexpressions, Hprob.
  cbn [result_bind].
  pose proof (fold_checked
                (CcfGroup_ValidateDistribution ext ra)
                (fun second err => ccf_name_ second +:+ " : " +:+ err +:+ nl)
                (map_to_list (ccf_groups_ ra)) "") as Hfold1.
  cbv beta in Hfold1. rewrite Hfold1; clear Hfold1.
  2:{ intros k v e Hin%elem_of_map_to_list. by apply (Hccf k). }
  cbn [result_bind].
  set (groups := foldl _ "" (map_to_list (ccf_groups_ ra))).
  pose proof (fold_checked
                (BasicEvent_Validate ext ra)
                (fun second err =>
                   orig_id_ (deref ra second) +:+ " : " +:+ err +:+ nl)
                (map_to_list (basic_events_ ra)) groups) as Hfold2.
  cbv beta in Hfold2. rewrite Hfold2; clear Hfold2.
  2:{ intros k v e Hin%elem_of_map_to_list. by apply (Hbasic k). }
  cbn [result_bind].
  set (msg := foldl _ groups (map_to_list (basic_events_ ra))).
  assert (forall d, invalid_probability ext ra d -> mentions msg d) as Hall.
  { intros d [id group err Hgroup Herr|id event err Hevent Herr].
    - apply foldl_pair_keeps.
      apply elem_of_map_to_list in Hgroup.
      pose proof (foldl_pair_mentions
                    (fun _ v =>
                       line_of (CcfGroup_ValidateDistribution ext ra)
                         (fun second err =>
                            ccf_name_ second +:+ " : " +:+ err +:+ nl) v)
                    _ "" id group Hgroup) as Hm.
      cbv beta in Hm. unfold line_of at 2 in Hm. by rewrite Herr in Hm.
    - apply elem_of_map_to_list in Hevent.
      pose proof (foldl_pair_mentions
                    (fun _ v =>
                       line_of (BasicEvent_Validate ext ra)
                         (fun second err =>
                            orig_id_ (deref ra second) +:+ " : " +:+ err
                            +:+ nl) v)
                    _ groups id event Hevent) as Hm.
      cbv beta in Hm. unfold line_of at 2 in Hm. by rewrite Herr in Hm. }
  split.
  - intros Hnone.
    assert (groups = "") as Hgroups.
    { apply (foldl_pair_empty
               (fun _ v =>
                  line_of (CcfGroup_ValidateDistribution ext ra)
                    (fun second err =>
                       ccf_name_ second +:+ " : " +:+ err +:+ nl) v)).
      intros id group Hin%elem_of_map_to_list. unfold line_of.
      destruct (CcfGroup_ValidateDistribution ext ra group)
        as [|[err| | |]] eqn:E; try done.
      destruct (Hnone _ (invalid_distribution ext ra id group err Hin E)). }
    assert (msg = "") as ->.
    { unfold msg. rewrite Hgroups.
      apply (foldl_pair_empty
               (fun _ v =>
                  line_of (BasicEvent_Validate ext ra)
                    (fun second err =>
                       orig_id_ (deref ra second) +:+ " : " +:+ err
                       +:+ nl) v)).
      intros id event Hin%elem_of_map_to_list. unfold line_of.
      destruct (BasicEvent_Validate ext ra event)
        as [|[err| | |]] eqn:E; try done.
      destruct (Hnone _ (invalid_basic_event ext ra id event err Hin E)). }
    done.
  - intros d Hd. exists msg. split; [|done].
    assert (msg <> "") as Hne.
    { apply (mentions_nonempty msg d); [by apply Hall|].
      destruct Hd; rewrite !app_eq_empty; by intros (_ & [=] & _). }
    by destruct (String.eqb_spec msg "").
Qed.

Lemma ValidateExpressions_reports_every_probability_witness :
  exists msg,
    ValidateExpressions strict_ext Samples.unknown_kind_with_data_state
    = Throw (ValidationError
               ("Invalid probabilities detected:" +:+ nl +:+ msg)) /\
    forall d',
      invalid_probability strict_ext Samples.unknown_kind_with_data_state d' ->
      mentions msg d'.
Proof.
  apply (proj2 (ValidateExpressions_reports_every_probability
                  strict_ext Samples.unknown_kind_with_data_state
                  ltac:(vm_compute; reflexivity)
                  ltac:(split; vm_compute; reflexivity)
                  ltac:(split; intros id x e _ [= <-]; by eexists))
               (orig_id_ (deref Samples.unknown_kind_with_data_state
                                2%positive)
                +:+ " : " +:+ "The probability is above 1." +:+ nl)).
  apply (invalid_basic_event _ _ "pump"); [|reflexivity].
  vm_compute. reflexivity.
Defined.

End Probabilities.

(** ** The events without definition, when no probability is requested *)
Section Promotion.
Import Text scram.

#[local] Instance same_entry_preorder id : PreOrder (same_entry id).
Proof.
  unfold same_entry. split; [done|].
  intros a b c [Hp Hb] [Hp' Hb']. split; congruence.
Qed.

Lemma map_insert_union {V} (k : string) (v : V) (m l : gmap string V) :
  map_insert k v m ∪ l = m ∪ <[k := v]> l.
Proof.
  unfold map_insert. apply map_eq. intros i.
  destruct (m !! k) as [w|] eqn:E.
  - rewrite !lookup_union. destruct (decide (k = i)) as [->|Hne].
    + rewrite E, lookup_insert_eq. by destruct (l !! i).
    + by rewrite lookup_insert_ne.
  - rewrite !lookup_union. destruct (decide (k = i)) as [->|Hne].
    + rewrite E, !lookup_insert_eq. by destruct (l !! i).
    + by rewrite !lookup_insert_ne.
Qed.

(** The events that are referred to as house events become primary events,
    unless the id is one of a primary event already. *)
Lemma promote_house_events (l : list (string * loc)) (s : RiskAnalysis) :
  for_each l
    (fun it_h => modify (set_primary_events_ (map_insert it_h.1 it_h.2))) s
  = (Ok tt, set_primary_events_ (fun p => p ∪ list_to_map l) s).
Proof.
  revert s. induction l as [|[k v] l IH]; intros s; simpl.
  - destruct s; simpl. by rewrite (right_id_L ∅ (∪)).
  - unfold bind at 1, modify at 1. rewrite IH. destruct s; simpl.
    by rewrite map_insert_union.
Qed.

(** The same for the basic events, which become basic events too. *)
Lemma promote_basic_events (l : list (string * loc)) (s : RiskAnalysis) :
  for_each l
    (fun it_b =>
       modify (set_primary_events_ (map_insert it_b.1 it_b.2)) ;;;
       modify (set_basic_events_ (map_insert it_b.1 it_b.2))) s
  = (Ok tt,
     set_basic_events_ (fun b => b ∪ list_to_map l)
       (set_primary_events_ (fun p => p ∪ list_to_map l) s)).
Proof.
  revert s. induction l as [|[k v] l IH]; intros s; simpl.
  - destruct s; simpl. by rewrite !(right_id_L ∅ (∪)).
  - unfold bind at 1. unfold bind at 1, modify at 1 2. rewrite IH.
    destruct s; simpl. by rewrite !map_insert_union.
Qed.

(** The creation of a basic event for a reference of unknown kind leaves the
    events of the other ids. *)
Lemma create_same_entry id orig_id k gates :
  k <> id ->
  keeps (same_entry id)
    (child <- new_event (Event_new class_BasicEvent k orig_id) ;;
     modify (set_primary_events_ (map_insert k child)) ;;;
     modify (set_basic_events_ (map_insert k child)) ;;;
     for_each gates
              (fun itvec => AddChild itvec child ;;; AddParent child itvec)).
Proof.
  intros Hne.
  assert (forall {A} (m : M A),
            (forall s, primary_events_ (m s).2 = primary_events_ s /\
                       basic_events_ (m s).2 = basic_events_ s) ->
            keeps (same_entry id) m) as Hsame.
  { intros A m Hm s. destruct (Hm s) as [Hp Hb]. split; congruence. }
  apply keeps_bind; [apply _| |intros child].
  { apply Hsame. intros s. by destruct s. }
  apply keeps_bind; [apply _| |intros _].
  { intros s. destruct s; split; simpl; [|done].
    by apply map_insert_lookup_ne. }
  apply keeps_bind; [apply _| |intros _].
  { intros s. destruct s; split; simpl; [done|].
    by apply map_insert_lookup_ne. }
  apply keeps_for_each; [apply _|]. intros gate.
  apply keeps_bind; [apply _| |intros _].
  - apply Hsame. intros s. unfold AddChild, bind, get, call, modify. simpl.
    by destruct s.
  - apply Hsame. intros s. unfold AddParent, bind, get, call, modify. simpl.
    by destruct s.
Qed.

(** X20.  In a state in which every id is in one container at most and the
    basic events are primary events, the block of [ProcessInputFiles] for a
    model without probabilities makes every house event that is only
    referred to a primary event and no basic event, and every basic event
    that is only referred to a primary event and a basic event, each with
    the object of the reference. *)
Theorem undefined_events_become_primary (ra : RiskAnalysis) (id : string)
    (c : loc) :
  (forall id, holders ra id <= 1) ->
  basic_events_ ra ⊆ primary_events_ ra ->
  (tbd_house_events_ ra !! id = Some c ->
   primary_events_ (ProcessInputFiles_undefined ra).2 !! id = Some c /\
   basic_events_ (ProcessInputFiles_undefined ra).2 !! id = None) /\
  (tbd_basic_events_ ra !! id = Some c ->
   primary_events_ (ProcessInputFiles_undefined ra).2 !! id = Some c /\
   basic_events_ (ProcessInputFiles_undefined ra).2 !! id = Some c).
Proof.
  intros Hholders Hsub.
  set (s2 := set_basic_events_ (fun b => b ∪ tbd_basic_events_ ra)
               (set_primary_events_ (fun p => p ∪ tbd_basic_events_ ra)
                  (set_primary_events_ (fun p => p ∪ tbd_house_events_ ra)
                     ra))).
  assert (tbd_events_ ra !! id = None ->
          same_entry id s2 (ProcessInputFiles_undefined ra).2) as Hrest.
  { intros Hnone. unfold ProcessInputFiles_undefined.
    unfold bind at 1, get at 1. unfold bind at 1.
    rewrite promote_house_events. unfold bind at 1.
    rewrite promote_basic_events. rewrite !list_to_map_to_list. fold s2.
    apply keeps_for_each_elem; [apply _|].
    intros [k gates] Hin%elem_of_map_to_list.
    apply create_same_entry. simpl. congruence. }
  pose proof (Hholders id) as Hid. unfold holders in Hid.
  assert (forall {V} (m : gmap string V) v,
            m !! id = Some v -> count m id = true) as Hcount.
  { intros V m v Hv. apply count_true. by eexists. }
  assert (forall {V} (m : gmap string V),
            Nat.b2n (count m id) = 0 -> m !! id = None) as Hzero.
  { intros V m Hm. apply count_false. by destruct (count m id). }
  split; intros Hc; rewrite (Hcount _ _ _ Hc) in Hid; simpl in Hid.
  - assert (primary_events_ ra !! id = None) as Hp by (apply Hzero; lia).
    assert (tbd_basic_events_ ra !! id = None) as Hb by (apply Hzero; lia).
    assert (tbd_events_ ra !! id = None) as He by (apply Hzero; lia).
    assert (basic_events_ ra !! id = None) as Hbe
      by (eapply lookup_weaken_None; [exact Hp|exact Hsub]).
    destruct (Hrest He) as [-> ->]. unfold s2. destruct ra; simpl in *.
    rewrite !lookup_union, Hp, Hc, Hb, Hbe. done.
  - assert (primary_events_ ra !! id = None) as Hp by (apply Hzero; lia).
    assert (tbd_house_events_ ra !! id = None) as Hh by (apply Hzero; lia).
    assert (tbd_events_ ra !! id = None) as He by (apply Hzero; lia).
    assert (basic_events_ ra !! id = None) as Hbe
      by (eapply lookup_weaken_None; [exact Hp|exact Hsub]).
    destruct (Hrest He) as [-> ->]. unfold s2. destruct ra; simpl in *.
    rewrite !lookup_union, Hp, Hc, Hh, Hbe. done.
Qed.

Lemma undefined_events_become_primary_witness :
  primary_events_ (ProcessInputFiles_undefined Samples.gate_top_state).2
  !! "b1" = Some 2%positive /\
  basic_events_ (ProcessInputFiles_undefined Samples.gate_top_state).2
  !! "b1" = Some 2%positive.
Proof.
  destruct (filed_DefineGate Samples.ext Samples.gate_top "ft" _
              (filed_RiskAnalysis_new Samples.settings))
    as (Hholders & Hsub & _).
  apply (proj2 (undefined_events_become_primary
                  Samples.gate_top_state "b1" 2%positive Hholders Hsub)).
  vm_compute. reflexivity.
Defined.

End Promotion.

(** ** The events that gates wait for *)
Section Late.
Import Text scram.

(** One waiting gate takes the event. *)
Lemma adopt_one id event gate t :
  live_as t id event -> may_adopt id event t gate ->
  exists t',
    (AddChild gate event ;;; AddParent event gate) t = (Ok tt, t') /\
    extends t t' /\ same_tables t t' /\ live_as t' id event /\
    child_of id event t' gate /\ parent_of gate t' event /\
    forall gate', may_adopt id event t gate' -> may_adopt id event t' gate'.
Proof.
  intros (o & Ho & Hid) (Hne & o_gate & Hgate & Hchild).
  set (t1 := set_events (alter (Gate_AddChild id event) gate) t).
  set (k := id_ (deref t1 gate)).
  set (t2 := set_events (alter (Event_AddParent k gate) event) t1).
  assert (events t1 !! event = Some o) as Ho1.
  { unfold t1. destruct t; simpl in *. by rewrite lookup_alter_ne. }
  assert (events t1 !! gate = Some (Gate_AddChild id event o_gate)) as Hgate1.
  { unfold t1. destruct t; simpl in *. by rewrite lookup_alter_eq, Hgate. }
  assert (events t2 !! event = Some (Event_AddParent k gate o)) as Ho2.
  { unfold t2. destruct t1; simpl in *. by rewrite lookup_alter_eq, Ho1. }
  assert (events t2 !! gate = Some (Gate_AddChild id event o_gate)) as Hgate2.
  { unfold t2. destruct t1; simpl in *. by rewrite lookup_alter_ne. }
  exists t2. split_and!.
  - unfold AddChild, AddParent, bind, get, call, modify. simpl.
    by rewrite (deref_lookup _ _ _ Ho), Hid.
  - trans t1; [apply extends_call, stable_Gate_AddChild|].
    apply extends_call, stable_Event_AddParent.
  - unfold t2, t1, same_tables. by destruct t.
  - exists (Event_AddParent k gate o). split; [done|]. by destruct o.
  - exists (Gate_AddChild id event o_gate). split; [done|].
    destruct o_gate; simpl in *. unfold map_insert.
    destruct Hchild as [-> | Hsome]; [apply lookup_insert_eq|by rewrite Hsome].
  - exists (Event_AddParent k gate o), (Gate_AddChild id event o_gate).
    split_and!; [done|done|].
    assert (id_ (Gate_AddChild id event o_gate) = k) as ->.
    { unfold k. by rewrite (deref_lookup _ _ _ Hgate1). }
    destruct o; simpl. apply map_insert_is_Some.
  - intros gate' (Hne' & o' & Ho' & Hchild'). split; [done|].
    destruct (decide (gate' = gate)) as [->|Hother].
    + exists (Gate_AddChild id event o_gate). split; [done|]. right.
      destruct o_gate; simpl in *. unfold map_insert.
      destruct Hchild as [-> | Hsome]; [apply lookup_insert_eq|by rewrite Hsome].
    + exists o'. split; [|done].
      unfold t2, t1. destruct t; simpl in *. by rewrite !lookup_alter_ne.
Qed.

Lemma parent_of_extends gate a b event :
  extends a b -> parent_of gate a event -> parent_of gate b event.
Proof.
  intros (Hev & _) (o & o_gate & Ho & Hgate & [p Hp]).
  destruct (Hev event o Ho) as (o' & Ho' & _ & _ & _ & _ & Hparents).
  destruct (Hev gate o_gate Hgate) as (o_gate' & Hgate' & _ & Hid & _).
  exists o', o_gate'. split_and!; [done|done|]. rewrite Hid. exists p.
  by apply (lookup_weaken _ _ _ _ Hp).
Qed.

(** The loop over the gates that wait for the event. *)
Lemma adopt_gates id event gates :
  forall t,
    live_as t id event -> Forall (may_adopt id event t) gates ->
    exists t',
      for_each gates (fun it => AddChild it event ;;; AddParent event it) t
      = (Ok tt, t') /\
      extends t t' /\ same_tables t t' /\
      Forall (child_of id event t') gates /\
      Forall (fun gate => parent_of gate t' event) gates.
Proof.
  induction gates as [|gate gates IH]; intros t Hevent Hgates.
  - exists t. by split_and!.
  - apply Forall_cons in Hgates as [Hgate Hgates]. simpl for_each.
    destruct (adopt_one id event gate t Hevent Hgate)
      as (t1 & Hrun & Hext & Htables & Hevent1 & Hchild & Hparent & Hadopt).
    destruct (IH t1 Hevent1) as (t' & Hrun' & Hext' & Htables' & Hall & Hall').
    { eapply Forall_impl; [exact Hgates|apply Hadopt]. }
    exists t'. split_and!.
    + unfold bind at 1. by rewrite Hrun.
    + by etrans.
    + unfold same_tables in *. congruence.
    + constructor; [by eapply child_of_extends|done].
    + constructor; [by eapply parent_of_extends|done].
Qed.

(** What [UpdateIfLateEvent] does, by the gates that wait for the id of the
    event. *)
Lemma UpdateIfLateEvent_cases (event : loc) (s : RiskAnalysis) (o : Event) :
  events s !! event = Some o ->
  match tbd_events_ s !! id_ o with
  | Some gates =>
      Forall (may_adopt (id_ o) event s) gates ->
      exists s',
        UpdateIfLateEvent event s = (Ok true, s') /\
        tbd_events_ s' = delete (id_ o) (tbd_events_ s) /\
        tbd_orig_ids_ s' = delete (id_ o) (tbd_orig_ids_ s) /\
        Forall (child_of (id_ o) event s') gates /\
        Forall (fun gate => parent_of gate s' event) gates
  | None => UpdateIfLateEvent event s = (Ok false, s)
  end.
Proof.
  intros Ho.
  assert (UpdateIfLateEvent event s
          = (if count (tbd_events_ s) (id_ o) then
               for_each (find (tbd_events_ s) (id_ o))
                        (fun it => AddChild it event ;;; AddParent event it) ;;;
               modify (set_tbd_events_ (delete (id_ o))) ;;;
               modify (set_tbd_orig_ids_ (delete (id_ o))) ;;;
               ret true
             else ret false) s) as ->.
  { unfold UpdateIfLateEvent. unfold bind at 1, get at 1. cbv zeta.
    by rewrite (deref_lookup _ _ _ Ho). }
  destruct (tbd_events_ s !! id_ o) as [gates|] eqn:Hgates.
  - intros Hadopt.
    assert (count (tbd_events_ s) (id_ o) = true) as Hcount
      by (apply count_true; by eexists).
    destruct (adopt_gates (id_ o) event gates s)
      as (t & Hrun & Hext & Htables & Hchildren & Hparents);
      [by exists o|done|].
    exists (set_tbd_orig_ids_ (delete (id_ o))
              (set_tbd_events_ (delete (id_ o)) t)).
    split.
    { rewrite Hcount, (find_lookup _ _ _ Hgates). unfold bind at 1.
      by rewrite Hrun. }
    unfold same_tables, tables in Htables.
    injection Htables as _ _ _ _ _ _ Hevents Horig.
    split_and!.
    + rewrite <- Hevents. by destruct t.
    + rewrite <- Horig. by destruct t.
    + eapply Forall_impl; [exact Hchildren|]. intros gate (g & Hg & Hc).
      exists g. split; [|done]. by destruct t.
    + eapply Forall_impl; [exact Hparents|].
      intros gate (e & g & He & Hg & Hp). exists e, g. by destruct t.
  - by assert (count (tbd_events_ s) (id_ o) = false) as ->
      by (by apply count_false).
Qed.

(** X21.  Late binding: when gates wait for the id of an event, each of
    them being another object with no child of this id yet,
    [UpdateIfLateEvent] returns [true], every one of these gates has the
    event as its child of this id and is among the parents of the event,
    and the id is no more among the references of unknown kind nor among
    the recorded spellings; when no gate waits, it returns [false] and
    changes nothing. *)
Theorem UpdateIfLateEvent_adopts (event : loc) (s : RiskAnalysis)
    (o : Event) :
  events s !! event = Some o ->
  (forall gates,
      tbd_events_ s !! id_ o = Some gates ->
      Forall (may_adopt (id_ o) event s) gates ->
      exists s',
        UpdateIfLateEvent event s = (Ok true, s') /\
        tbd_events_ s' = delete (id_ o) (tbd_events_ s) /\
        tbd_orig_ids_ s' = delete (id_ o) (tbd_orig_ids_ s) /\
        Forall (child_of (id_ o) event s') gates /\
        Forall (fun gate => parent_of gate s' event) gates) /\
  (tbd_events_ s !! id_ o = None ->
   UpdateIfLateEvent event s = (Ok false, s)).
Proof.
  intros Ho. pose proof (UpdateIfLateEvent_cases event s o Ho) as Hcases.
  split.
  - intros gates Hgates. by rewrite Hgates in Hcases.
  - intros Hnone. by rewrite Hnone in Hcases.
Qed.

Lemma UpdateIfLateEvent_adopts_witness :
  exists s',
    UpdateIfLateEvent 2%positive pump_arrives = (Ok true, s') /\
    tbd_events_ s' = delete "pump" (tbd_events_ pump_arrives) /\
    tbd_orig_ids_ s' = delete "pump" (tbd_orig_ids_ pump_arrives) /\
    Forall (child_of "pump" 2%positive s') [1%positive] /\
    Forall (fun gate => parent_of gate s' 2%positive) [1%positive].
Proof.
  apply (proj1 (UpdateIfLateEvent_adopts
                  2%positive pump_arrives
                  (Event_new class_BasicEvent "pump" "Pump")
                  ltac:(vm_compute; reflexivity))
               [1%positive]).
  - vm_compute. reflexivity.
  - constructor; [|constructor]. split; [done|].
    eexists. split; [vm_compute; reflexivity|]. left. vm_compute. reflexivity.
Defined.

End Late.
